(** * btrfs-progs: the offline checker, the B-tree layer and the restore engine

    A shallow embedding of the functions of [cmds-check.c], [ctree.c] and
    [cmds-restore.c] that the specification makes statements about, followed
    by the theorems that settle those statements.

    Conventions.  C integers are modelled as [Z]; where the source relies on
    the width of a type the wrap-around is written out ([wrap64], [to_u32],
    [to_int]).  One-bit bit-fields are [bool].  Kernel style linked lists
    ([struct list_head]) are Rocq lists in list order.  Functions that return
    through an out-parameter return a pair. *)

From Stdlib Require Import ZArith Lia.
From stdpp Require Import base option list gmap.

Local Open Scope Z_scope.

(* ===================================================================== *)
(** * Part I: the embedding                                               *)
(* ===================================================================== *)

(** ** Machine integers *)

Definition wrap64 (z : Z) : Z := z mod 2 ^ 64.
Definition to_u32 (z : Z) : Z := z mod 2 ^ 32.
Definition to_u16 (z : Z) : Z := z mod 2 ^ 16.
(** Conversion to a 32 bit [int] (two's complement). *)
Definition to_int (z : Z) : Z := (z + 2 ^ 31) mod 2 ^ 32 - 2 ^ 31.
(** [(u64)-1] *)
Definition U64_MAX : Z := 2 ^ 64 - 1.

Definition EIO : Z := 5.
Definition EINVAL : Z := 22.

(** ** cmds-check.c: extent records and their back references *)

Module Extent.

(** [struct extent_backref].  The [is_data] bit of the source selects which
    of the two enclosing structs the node is embedded in; here it is the
    constructor of [backref] below ([alloc_tree_backref] clears it,
    [alloc_data_backref] sets it, nothing else writes it). *)
Record extent_backref := {
  found_extent_tree : bool;
  full_backref : bool;
  found_ref : bool
}.

(** [struct tree_backref] and [struct data_backref].  [parent] and [root]
    share storage (a union).  The 32 bit counter [found_ref] of
    [struct data_backref] is called [data_found_ref] here, because the node
    already has a bit of that name. *)
Inductive backref :=
| tree_backref (node : extent_backref) (parent_root : Z)
| data_backref (node : extent_backref) (parent_root owner offset bytes : Z)
               (num_refs data_found_ref : Z).

Definition node (b : backref) : extent_backref :=
  match b with
  | tree_backref n _ => n
  | data_backref n _ _ _ _ _ _ => n
  end.

Definition is_data (b : backref) : bool :=
  match b with
  | tree_backref _ _ => false
  | data_backref _ _ _ _ _ _ _ => true
  end.

(** [struct extent_record], without the cache linkage. *)
Record extent_record := {
  backrefs : list backref;
  start : Z;
  max_size : Z;
  nr : Z;
  refs : Z;
  extent_item_refs : Z;
  content_checked : bool;
  owner_ref_checked : bool;
  is_root : bool;
  metadata : bool
}.

(** The body of [all_backpointers_checked] is a chain of tests of the shape
    [if (bad) { err = 1; if (!print_errs) goto out; fprintf(...); }].
    [inl err] stands for the jump to [out], [inr err] for falling through
    with the current value of [err]. *)
Definition flag_err (print_errs : Z) (bad : bool) (err : Z) : Z + Z :=
  if bad then (if print_errs =? 0 then inl 1 else inr 1) else inr err.

Definition bind_out {A : Type} (m : Z + A) (k : A → Z + A) : Z + A :=
  match m with
  | inl e => inl e
  | inr a => k a
  end.

Notation "'let!' x ':=' m 'in' k" := (bind_out m (λ x, k))
  (at level 10, x name, m at level 100, k at level 200, only parsing).

(** One iteration of the [while] loop over the list: the tests on one
    back reference. *)
Definition check_one_backref (print_errs : Z) (rec_nr : Z) (back : backref)
    (err : Z) : Z + Z :=
  let! err := flag_err print_errs (negb (found_extent_tree (node back))) err in
  let! err := flag_err print_errs
                (negb (is_data back) && negb (found_ref (node back))) err in
  match back with
  | tree_backref _ _ => inr err
  | data_backref _ _ _ _ bytes num_refs dfound =>
      let! err := flag_err print_errs (negb (dfound =? num_refs)) err in
      flag_err print_errs (negb (bytes =? rec_nr)) err
  end.

(** What one back reference adds to the [u64 found] counter. *)
Definition found_step (found : Z) (back : backref) : Z :=
  match back with
  | tree_backref _ _ => wrap64 (found + 1)
  | data_backref _ _ _ _ _ _ dfound => wrap64 (found + dfound)
  end.

(** The [while (cur != &rec->backrefs)] loop; the state is [(found, err)]. *)
Fixpoint walk_backrefs (print_errs rec_nr : Z) (cur : list backref)
    (found err : Z) : Z + (Z * Z) :=
  match cur with
  | [] => inr (found, err)
  | back :: next =>
      match check_one_backref print_errs rec_nr back err with
      | inl e => inl e
      | inr err' =>
          walk_backrefs print_errs rec_nr next (found_step found back) err'
      end
  end.

Definition all_backpointers_checked (rec : extent_record) (print_errs : Z)
    : Z :=
  match walk_backrefs print_errs (nr rec) (backrefs rec) 0 0 with
  | inl e => e
  | inr (found, err) => if found =? refs rec then err else 1
  end.

End Extent.

(** ** ctree.c: keys, tree blocks, validation, search and the COW decision *)

Module Ctree.

(** Constants and layout facts of [ctree.h]: the sizes of the packed on-disk
    structs, the header flags and the well-known object ids. *)
Definition BTRFS_MAX_LEVEL : Z := 8.
Definition sizeof_btrfs_header : Z := 101.
Definition sizeof_btrfs_item : Z := 25.
Definition sizeof_btrfs_key_ptr : Z := 33.
Definition BTRFS_HEADER_FLAG_WRITTEN : Z := 1.
Definition BTRFS_HEADER_FLAG_RELOC : Z := 2.
Definition BTRFS_EXTENT_TREE_OBJECTID : Z := 2.
(** [-8ULL] *)
Definition BTRFS_TREE_RELOC_OBJECTID : Z := wrap64 (-8).

(** [struct btrfs_key]; [struct btrfs_disk_key] is the same triple in
    little-endian byte order and is not distinguished here. *)
Record btrfs_key := {
  objectid : Z;
  type : Z;
  offset : Z
}.

#[export] Instance btrfs_key_eq_dec : EqDecision btrfs_key.
Proof. solve_decision. Defined.

(** [struct btrfs_item]: the descriptor of a leaf item. *)
Record btrfs_item := {
  item_key : btrfs_key;
  item_offset : Z;
  item_size : Z
}.

(** [struct btrfs_key_ptr]: one child pointer of an internal node. *)
Record btrfs_key_ptr := {
  ptr_key : btrfs_key;
  blockptr : Z;
  ptr_generation : Z
}.

(** [struct extent_buffer] with the fields of the block header it holds.
    The payload after the header is read as an array of [btrfs_item] in a
    leaf and as an array of [btrfs_key_ptr] in a node; [items] and [ptrs]
    are these two views, and the functions below read the one that the
    source reads. *)
Record extent_buffer := {
  eb_start : Z;
  eb_len : Z;
  btrfs_header_bytenr : Z;
  btrfs_header_generation : Z;
  btrfs_header_owner : Z;
  btrfs_header_flags : Z;
  btrfs_header_level : Z;
  btrfs_header_nritems : Z;
  items : list btrfs_item;
  ptrs : list btrfs_key_ptr
}.

(** The fields of [struct btrfs_root] and of its [fs_info] that are read. *)
Record btrfs_root := {
  root_key_objectid : Z;
  leafsize : Z;
  nodesize : Z;
  root_node : extent_buffer;
  fs_info_generation : Z
}.

Record btrfs_trans_handle := {
  transid : Z
}.

Definition zero_key : btrfs_key := {| objectid := 0; type := 0; offset := 0 |}.
Definition zero_item : btrfs_item :=
  {| item_key := zero_key; item_offset := 0; item_size := 0 |}.
Definition zero_ptr : btrfs_key_ptr :=
  {| ptr_key := zero_key; blockptr := 0; ptr_generation := 0 |}.

(** Array accessors.  A slot outside the modelled array reads as zeroes. *)
Definition btrfs_item_nr (eb : extent_buffer) (i : Z) : btrfs_item :=
  default zero_item (items eb !! Z.to_nat i).
Definition btrfs_node_ptr (eb : extent_buffer) (i : Z) : btrfs_key_ptr :=
  default zero_ptr (ptrs eb !! Z.to_nat i).

Definition btrfs_item_key (eb : extent_buffer) (i : Z) : btrfs_key :=
  item_key (btrfs_item_nr eb i).
Definition btrfs_item_offset_nr (eb : extent_buffer) (i : Z) : Z :=
  item_offset (btrfs_item_nr eb i).
Definition btrfs_item_size_nr (eb : extent_buffer) (i : Z) : Z :=
  item_size (btrfs_item_nr eb i).
(** [btrfs_item_end_nr] adds two [u32]. *)
Definition btrfs_item_end_nr (eb : extent_buffer) (i : Z) : Z :=
  to_u32 (btrfs_item_offset_nr eb i + btrfs_item_size_nr eb i).
Definition btrfs_node_key (eb : extent_buffer) (i : Z) : btrfs_key :=
  ptr_key (btrfs_node_ptr eb i).
Definition btrfs_node_blockptr (eb : extent_buffer) (i : Z) : Z :=
  blockptr (btrfs_node_ptr eb i).

Definition BTRFS_LEAF_DATA_SIZE (r : btrfs_root) : Z :=
  leafsize r - sizeof_btrfs_header.
Definition BTRFS_NODEPTRS_PER_BLOCK (r : btrfs_root) : Z :=
  (nodesize r - sizeof_btrfs_header) / sizeof_btrfs_key_ptr.

Definition btrfs_header_flag (eb : extent_buffer) (flag : Z) : bool :=
  Z.land (btrfs_header_flags eb) flag =? flag.

(** *** The COW decision *)

Definition should_cow_block (trans : btrfs_trans_handle) (root : btrfs_root)
    (buf : extent_buffer) : Z :=
  if (btrfs_header_generation buf =? transid trans) &&
     negb (btrfs_header_flag buf BTRFS_HEADER_FLAG_WRITTEN) &&
     negb (negb (root_key_objectid root =? BTRFS_TREE_RELOC_OBJECTID) &&
           btrfs_header_flag buf BTRFS_HEADER_FLAG_RELOC)
  then 0 else 1.

(** [btrfs_cow_block] either returns at once, with [*cow_ret = buf], or ends
    in the call [__btrfs_cow_block(trans, root, buf, parent, parent_slot,
    cow_ret, search_start, 0)], which copies the block.  The outcome records
    which of the two happens and with which arguments. *)
Inductive cow_outcome :=
| cow_returns (ret : Z) (cow_ret : extent_buffer)
| cow_calls___btrfs_cow_block (buf : extent_buffer)
    (parent : option extent_buffer) (parent_slot search_start empty_size : Z).

Definition btrfs_cow_block (trans : btrfs_trans_handle) (root : btrfs_root)
    (buf : extent_buffer) (parent : option extent_buffer) (parent_slot : Z)
    : cow_outcome :=
  if should_cow_block trans root buf =? 0 then cow_returns 0 buf
  else
    let search_start :=
      Z.land (eb_start buf) (wrap64 (Z.lnot (1024 * 1024 * 1024 - 1))) in
    cow_calls___btrfs_cow_block buf parent parent_slot search_start 0.

(** *** Key comparison *)

Definition btrfs_comp_keys (k1 k2 : btrfs_key) : Z :=
  if objectid k2 <? objectid k1 then 1
  else if objectid k1 <? objectid k2 then -1
  else if type k2 <? type k1 then 1
  else if type k1 <? type k2 then -1
  else if offset k2 <? offset k1 then 1
  else if offset k1 <? offset k2 then -1
  else 0.

(** *** Block validation *)

Definition leaf_space_used (l : extent_buffer) (start nr : Z) : Z :=
  let nritems := to_int (btrfs_header_nritems l) in
  let end_ := Z.min nritems (start + nr) - 1 in
  if nr =? 0 then 0
  else
    let data_len := to_int (btrfs_item_end_nr l start) in
    let data_len := to_int (data_len - btrfs_item_offset_nr l end_) in
    to_int (data_len + sizeof_btrfs_item * nr).

Definition btrfs_leaf_free_space (root : btrfs_root) (leaf : extent_buffer)
    : Z :=
  let nritems := to_int (btrfs_header_nritems leaf) in
  to_int (BTRFS_LEAF_DATA_SIZE root - leaf_space_used leaf 0 nritems).

Definition leaf_data_end (root : btrfs_root) (leaf : extent_buffer) : Z :=
  let nr := btrfs_header_nritems leaf in
  if nr =? 0 then BTRFS_LEAF_DATA_SIZE root
  else btrfs_item_offset_nr leaf (nr - 1).

(** The number of times the body of
    [for (i = 0; nritems > 1 && i < nritems - 2; i++)] runs. *)
Definition check_loop_count (nritems : Z) : nat :=
  if 1 <? nritems then Z.to_nat (nritems - 2) else 0%nat.

(** The body of that loop in [btrfs_check_node], from slot [i] on; [true]
    stands for reaching the end of the loop, [false] for [goto fail]. *)
Fixpoint check_node_loop (count : nat) (buf : extent_buffer) (i : Z) : bool :=
  match count with
  | O => true
  | S count' =>
      if 0 <=? btrfs_comp_keys (btrfs_node_key buf i) (btrfs_node_key buf (i + 1))
      then false
      else check_node_loop count' buf (i + 1)
  end.

(** The label [fail:] of both validators returns [-EIO], after recording a
    corrupt extent for a block of the extent tree; the record has no part in
    the return value and is left out. *)
Definition btrfs_check_node (root : btrfs_root) (parent_key : option btrfs_key)
    (buf : extent_buffer) : Z :=
  let nritems := btrfs_header_nritems buf in
  if (nritems =? 0) || (BTRFS_NODEPTRS_PER_BLOCK root <? nritems) then - EIO
  else if match parent_key with
          | Some pk => negb (type pk =? 0) &&
                       bool_decide (pk ≠ btrfs_node_key buf 0)
          | None => false
          end then - EIO
  else if check_node_loop (check_loop_count nritems) buf 0 then 0
  else - EIO.

(** The loop of [btrfs_check_leaf]. *)
Fixpoint check_leaf_loop (count : nat) (root : btrfs_root)
    (buf : extent_buffer) (i : Z) : bool :=
  match count with
  | O => true
  | S count' =>
      if 0 <=? btrfs_comp_keys (btrfs_item_key buf i) (btrfs_item_key buf (i + 1))
      then false
      else if negb (btrfs_item_offset_nr buf i =? btrfs_item_end_nr buf (i + 1))
      then false
      else if (i =? 0) &&
              negb (btrfs_item_end_nr buf i =? BTRFS_LEAF_DATA_SIZE root)
      then false
      else check_leaf_loop count' root buf (i + 1)
  end.

Definition btrfs_check_leaf (root : btrfs_root) (parent_key : option btrfs_key)
    (buf : extent_buffer) : Z :=
  let nritems := btrfs_header_nritems buf in
  if eb_len buf <? nritems * sizeof_btrfs_item then - EIO
  else if negb (btrfs_header_level buf =? 0) then - EIO
  else if btrfs_leaf_free_space root buf <? 0 then - EIO
  else if nritems =? 0 then 0
  else if match parent_key with
          | Some pk => negb (type pk =? 0) &&
                       bool_decide (pk ≠ btrfs_item_key buf 0)
          | None => false
          end then - EIO
  else if check_leaf_loop (check_loop_count nritems) root buf 0 then 0
  else - EIO.

(** *** Paths *)

(** [struct btrfs_path]: [nodes] and [slots] are arrays of
    [BTRFS_MAX_LEVEL] entries; a [NULL] node is [None]. *)
Record btrfs_path := {
  nodes : list (option extent_buffer);
  slots : list Z;
  reada : Z;
  lowest_level : Z;
  search_for_split : bool
}.

(** [btrfs_init_path]: [memset] of the whole struct to zero. *)
Definition btrfs_init_path : btrfs_path :=
  {| nodes := replicate (Z.to_nat BTRFS_MAX_LEVEL) None;
     slots := replicate (Z.to_nat BTRFS_MAX_LEVEL) 0;
     reada := 0; lowest_level := 0; search_for_split := false |}.

(** [p->nodes[level]] and [p->slots[level]].  The source never indexes the
    arrays past [BTRFS_MAX_LEVEL] on a tree of legal height except for the
    parent lookup of [check_block] at the topmost level, which is read as
    [NULL] here. *)
Definition path_node (p : btrfs_path) (level : Z) : option extent_buffer :=
  if level <? 0 then None else mjoin (nodes p !! Z.to_nat level).
Definition path_slot (p : btrfs_path) (level : Z) : Z :=
  if level <? 0 then 0 else default 0 (slots p !! Z.to_nat level).

Definition set_path_node (p : btrfs_path) (level : Z) (b : extent_buffer)
    : btrfs_path :=
  {| nodes := <[Z.to_nat level := Some b]> (nodes p); slots := slots p;
     reada := reada p; lowest_level := lowest_level p;
     search_for_split := search_for_split p |}.
Definition set_path_slot (p : btrfs_path) (level : Z) (slot : Z)
    : btrfs_path :=
  {| nodes := nodes p; slots := <[Z.to_nat level := slot]> (slots p);
     reada := reada p; lowest_level := lowest_level p;
     search_for_split := search_for_split p |}.

(** [check_block]; [None] is the dereference of a [NULL] [path->nodes[level]]. *)
Definition check_block (root : btrfs_root) (path : btrfs_path) (level : Z)
    : option Z :=
  let key_ptr :=
    match path_node path (level + 1) with
    | Some parent => Some (btrfs_node_key parent (path_slot path (level + 1)))
    | None => None
    end in
  b ← path_node path level;
  Some (if level =? 0 then btrfs_check_leaf root key_ptr b
        else btrfs_check_node root key_ptr b).

(** *** Binary search *)

(** The [while (low < high)] loop of [generic_bin_search].  [key_at mid] is
    the key read at [p + mid * item_size].  The interval [high - low]
    shrinks in every iteration, so [Z.to_nat (high - low)] iterations are
    enough and the loop is given as many.  The result is [(ret, *slot)]. *)
Fixpoint bin_search_loop (iterations : nat) (key_at : Z → btrfs_key)
    (key : btrfs_key) (low high : Z) : Z * Z :=
  match iterations with
  | O => (1, low)
  | S iterations' =>
      if low <? high then
        let mid := (low + high) `quot` 2 in
        let ret := btrfs_comp_keys (key_at mid) key in
        if ret <? 0 then bin_search_loop iterations' key_at key (mid + 1) high
        else if 0 <? ret then bin_search_loop iterations' key_at key low mid
        else (0, mid)
      else (1, low)
  end.

Definition generic_bin_search (key_at : Z → btrfs_key) (key : btrfs_key)
    (max : Z) : Z * Z :=
  bin_search_loop (Z.to_nat max) key_at key 0 max.

Definition bin_search (eb : extent_buffer) (key : btrfs_key) (level : Z)
    : Z * Z :=
  if level =? 0 then
    generic_bin_search (btrfs_item_key eb) key
      (to_int (btrfs_header_nritems eb))
  else
    generic_bin_search (btrfs_node_key eb) key
      (to_int (btrfs_header_nritems eb)).

(** *** Reading blocks *)

(** Modelled from the spec: [read_tree_block] of [disk-io.c], which the
    specification lists as [read_tree_block(root, bytenr, size, generation)
    → buffer | error].  The device is a finite map from byte numbers to
    blocks; a block that is absent is a read error. *)
Definition read_tree_block (blocks : gmap Z extent_buffer) (bytenr : Z)
    : option extent_buffer :=
  blocks !! bytenr.

(** [read_node_slot], for a [parent] above level 0 (the source stops with
    [BUG_ON] otherwise). *)
Definition read_node_slot (blocks : gmap Z extent_buffer)
    (parent : extent_buffer) (slot : Z) : option extent_buffer :=
  if slot <? 0 then None
  else if btrfs_header_nritems parent <=? slot then None
  else read_tree_block blocks (btrfs_node_blockptr parent slot).

(** *** Search *)

(** What a call of [btrfs_search_slot] can do.  The model covers the
    read-only descent; a call that asks for modification ([cow], [ins_len],
    [search_for_split]) takes the branches that rewrite the tree and is
    reported as [search_modifies]. *)
Inductive search_result :=
| search_returns (ret : Z) (p : btrfs_path)
| search_modifies
| search_undefined   (* a store to [p->nodes[level]] with [level >= 8],
                        or a [NULL] dereference *)
| search_runs_on.    (* the [while (b)] loop has not ended after
                        the given number of iterations *)

(** The [while (b)] loop of [btrfs_search_slot] for [cow == 0], [ins_len == 0]
    and [p->search_for_split == 0].  Read-ahead ([reada_for_search]) has no
    effect on the result and is left out. *)
Fixpoint search_loop (iterations : nat) (blocks : gmap Z extent_buffer)
    (root : btrfs_root) (key : btrfs_key) (p : btrfs_path)
    (b : extent_buffer) : search_result :=
  match iterations with
  | O => search_runs_on
  | S iterations' =>
      let level := btrfs_header_level b in
      if (level <? 0) || (BTRFS_MAX_LEVEL <=? level) then search_undefined
      else
        let p := set_path_node p level b in
        match check_block root p level with
        | None => search_undefined
        | Some ret =>
            if negb (ret =? 0) then search_returns (-1) p
            else
              let '(ret, slot) := bin_search b key level in
              if negb (level =? 0) then
                let slot :=
                  if negb (ret =? 0) && (0 <? slot) then slot - 1 else slot in
                let p := set_path_slot p level slot in
                if level =? lowest_level p then search_returns 1 p
                else
                  match read_node_slot blocks b slot with
                  | None => search_returns (- EIO) p
                  | Some b' => search_loop iterations' blocks root key p b'
                  end
              else
                let p := set_path_slot p level slot in
                search_returns ret p
        end
  end.

Definition btrfs_search_slot (iterations : nat)
    (blocks : gmap Z extent_buffer) (root : btrfs_root) (key : btrfs_key)
    (p : btrfs_path) (ins_len cow : Z) : search_result :=
  if negb (cow =? 0) || negb (ins_len =? 0) || search_for_split p
  then search_modifies
  else search_loop iterations blocks root key p (root_node root).

End Ctree.

(** ** cmds-check.c: inode records *)

Module Inode.

(** Key types and object ids of [ctree.h], file type bits of [stat.h]. *)
Definition BTRFS_INODE_REF_KEY : Z := 12.
Definition BTRFS_INODE_EXTREF_KEY : Z := 13.
Definition BTRFS_DIR_ITEM_KEY : Z := 84.
Definition BTRFS_DIR_INDEX_KEY : Z := 96.
(** [-12ULL] *)
Definition BTRFS_FREE_INO_OBJECTID : Z := wrap64 (-12).

Definition S_IFMT : Z := 61440.
Definition S_IFIFO : Z := 4096.
Definition S_IFCHR : Z := 8192.
Definition S_IFDIR : Z := 16384.
Definition S_IFBLK : Z := 24576.
Definition S_IFREG : Z := 32768.
Definition S_IFLNK : Z := 40960.
Definition S_IFSOCK : Z := 49152.
Definition S_ISDIR (m : Z) : bool := Z.land m S_IFMT =? S_IFDIR.
Definition S_ISREG (m : Z) : bool := Z.land m S_IFMT =? S_IFREG.
Definition S_ISLNK (m : Z) : bool := Z.land m S_IFMT =? S_IFLNK.

Definition BTRFS_FT_REG_FILE : Z := 1.
Definition BTRFS_FT_DIR : Z := 2.
Definition BTRFS_FT_CHRDEV : Z := 3.
Definition BTRFS_FT_BLKDEV : Z := 4.
Definition BTRFS_FT_FIFO : Z := 5.
Definition BTRFS_FT_SOCK : Z := 6.
Definition BTRFS_FT_SYMLINK : Z := 7.

Definition REF_ERR_DUP_DIR_ITEM : Z := 2 ^ 3.
Definition REF_ERR_DUP_DIR_INDEX : Z := 2 ^ 4.
Definition REF_ERR_DUP_INODE_REF : Z := 2 ^ 5.
Definition REF_ERR_INDEX_UNMATCH : Z := 2 ^ 6.
Definition REF_ERR_FILETYPE_UNMATCH : Z := 2 ^ 7.

Definition I_ERR_DUP_INODE_ITEM : Z := 2 ^ 2.
Definition I_ERR_ODD_DIR_ITEM : Z := 2 ^ 4.
Definition I_ERR_ODD_FILE_EXTENT : Z := 2 ^ 5.
Definition I_ERR_FILE_EXTENT_OVERLAP : Z := 2 ^ 7.
Definition I_ERR_FILE_EXTENT_DISCOUNT : Z := 2 ^ 8.
Definition I_ERR_DIR_ISIZE_WRONG : Z := 2 ^ 9.
Definition I_ERR_FILE_NBYTES_WRONG : Z := 2 ^ 10.
Definition I_ERR_ODD_CSUM_ITEM : Z := 2 ^ 11.
Definition I_ERR_SOME_CSUM_MISSING : Z := 2 ^ 12.

(** [struct inode_backref]; the name is the list of its bytes.  The struct
    shares field names with [struct inode_record] and has a name space of
    its own. *)
Module Ref.
Record inode_backref := {
  found_dir_item : bool;
  found_dir_index : bool;
  found_inode_ref : bool;
  filetype : Z;
  errors : Z;
  ref_type : Z;
  dir : Z;
  index : Z;
  namelen : Z;
  name : list Z
}.
Definition set_found_dir_item (v : bool) (r : inode_backref) : inode_backref :=
  {| found_dir_item := v;
     found_dir_index := found_dir_index r;
     found_inode_ref := found_inode_ref r;
     filetype := filetype r;
     errors := errors r;
     ref_type := ref_type r;
     dir := dir r;
     index := index r;
     namelen := namelen r;
     name := name r |}.
Definition set_found_dir_index (v : bool) (r : inode_backref) : inode_backref :=
  {| found_dir_item := found_dir_item r;
     found_dir_index := v;
     found_inode_ref := found_inode_ref r;
     filetype := filetype r;
     errors := errors r;
     ref_type := ref_type r;
     dir := dir r;
     index := index r;
     namelen := namelen r;
     name := name r |}.
Definition set_found_inode_ref (v : bool) (r : inode_backref) : inode_backref :=
  {| found_dir_item := found_dir_item r;
     found_dir_index := found_dir_index r;
     found_inode_ref := v;
     filetype := filetype r;
     errors := errors r;
     ref_type := ref_type r;
     dir := dir r;
     index := index r;
     namelen := namelen r;
     name := name r |}.
Definition set_filetype (v : Z) (r : inode_backref) : inode_backref :=
  {| found_dir_item := found_dir_item r;
     found_dir_index := found_dir_index r;
     found_inode_ref := found_inode_ref r;
     filetype := v;
     errors := errors r;
     ref_type := ref_type r;
     dir := dir r;
     index := index r;
     namelen := namelen r;
     name := name r |}.
Definition set_errors (v : Z) (r : inode_backref) : inode_backref :=
  {| found_dir_item := found_dir_item r;
     found_dir_index := found_dir_index r;
     found_inode_ref := found_inode_ref r;
     filetype := filetype r;
     errors := v;
     ref_type := ref_type r;
     dir := dir r;
     index := index r;
     namelen := namelen r;
     name := name r |}.
Definition set_ref_type (v : Z) (r : inode_backref) : inode_backref :=
  {| found_dir_item := found_dir_item r;
     found_dir_index := found_dir_index r;
     found_inode_ref := found_inode_ref r;
     filetype := filetype r;
     errors := errors r;
     ref_type := v;
     dir := dir r;
     index := index r;
     namelen := namelen r;
     name := name r |}.
Definition set_index (v : Z) (r : inode_backref) : inode_backref :=
  {| found_dir_item := found_dir_item r;
     found_dir_index := found_dir_index r;
     found_inode_ref := found_inode_ref r;
     filetype := filetype r;
     errors := errors r;
     ref_type := ref_type r;
     dir := dir r;
     index := v;
     namelen := namelen r;
     name := name r |}.
End Ref.

(** [struct inode_record]. *)
Record inode_record := {
  backrefs : list Ref.inode_backref;
  checked : bool;
  merging : bool;
  found_inode_item : bool;
  found_dir_item : bool;
  found_file_extent : bool;
  found_csum_item : bool;
  some_csum_missing : bool;
  nodatasum : bool;
  errors : Z;
  ino : Z;
  nlink : Z;
  imode : Z;
  isize : Z;
  nbytes : Z;
  found_link : Z;
  found_size : Z;
  extent_start : Z;
  extent_end : Z;
  first_extent_gap : Z;
  refs : Z
}.

Definition set_backrefs (v : list Ref.inode_backref) (r : inode_record) : inode_record :=
  {| backrefs := v;
     checked := checked r;
     merging := merging r;
     found_inode_item := found_inode_item r;
     found_dir_item := found_dir_item r;
     found_file_extent := found_file_extent r;
     found_csum_item := found_csum_item r;
     some_csum_missing := some_csum_missing r;
     nodatasum := nodatasum r;
     errors := errors r;
     ino := ino r;
     nlink := nlink r;
     imode := imode r;
     isize := isize r;
     nbytes := nbytes r;
     found_link := found_link r;
     found_size := found_size r;
     extent_start := extent_start r;
     extent_end := extent_end r;
     first_extent_gap := first_extent_gap r;
     refs := refs r |}.
Definition set_checked (v : bool) (r : inode_record) : inode_record :=
  {| backrefs := backrefs r;
     checked := v;
     merging := merging r;
     found_inode_item := found_inode_item r;
     found_dir_item := found_dir_item r;
     found_file_extent := found_file_extent r;
     found_csum_item := found_csum_item r;
     some_csum_missing := some_csum_missing r;
     nodatasum := nodatasum r;
     errors := errors r;
     ino := ino r;
     nlink := nlink r;
     imode := imode r;
     isize := isize r;
     nbytes := nbytes r;
     found_link := found_link r;
     found_size := found_size r;
     extent_start := extent_start r;
     extent_end := extent_end r;
     first_extent_gap := first_extent_gap r;
     refs := refs r |}.
Definition set_merging (v : bool) (r : inode_record) : inode_record :=
  {| backrefs := backrefs r;
     checked := checked r;
     merging := v;
     found_inode_item := found_inode_item r;
     found_dir_item := found_dir_item r;
     found_file_extent := found_file_extent r;
     found_csum_item := found_csum_item r;
     some_csum_missing := some_csum_missing r;
     nodatasum := nodatasum r;
     errors := errors r;
     ino := ino r;
     nlink := nlink r;
     imode := imode r;
     isize := isize r;
     nbytes := nbytes r;
     found_link := found_link r;
     found_size := found_size r;
     extent_start := extent_start r;
     extent_end := extent_end r;
     first_extent_gap := first_extent_gap r;
     refs := refs r |}.
Definition set_found_inode_item (v : bool) (r : inode_record) : inode_record :=
  {| backrefs := backrefs r;
     checked := checked r;
     merging := merging r;
     found_inode_item := v;
     found_dir_item := found_dir_item r;
     found_file_extent := found_file_extent r;
     found_csum_item := found_csum_item r;
     some_csum_missing := some_csum_missing r;
     nodatasum := nodatasum r;
     errors := errors r;
     ino := ino r;
     nlink := nlink r;
     imode := imode r;
     isize := isize r;
     nbytes := nbytes r;
     found_link := found_link r;
     found_size := found_size r;
     extent_start := extent_start r;
     extent_end := extent_end r;
     first_extent_gap := first_extent_gap r;
     refs := refs r |}.
Definition set_found_dir_item (v : bool) (r : inode_record) : inode_record :=
  {| backrefs := backrefs r;
     checked := checked r;
     merging := merging r;
     found_inode_item := found_inode_item r;
     found_dir_item := v;
     found_file_extent := found_file_extent r;
     found_csum_item := found_csum_item r;
     some_csum_missing := some_csum_missing r;
     nodatasum := nodatasum r;
     errors := errors r;
     ino := ino r;
     nlink := nlink r;
     imode := imode r;
     isize := isize r;
     nbytes := nbytes r;
     found_link := found_link r;
     found_size := found_size r;
     extent_start := extent_start r;
     extent_end := extent_end r;
     first_extent_gap := first_extent_gap r;
     refs := refs r |}.
Definition set_found_file_extent (v : bool) (r : inode_record) : inode_record :=
  {| backrefs := backrefs r;
     checked := checked r;
     merging := merging r;
     found_inode_item := found_inode_item r;
     found_dir_item := found_dir_item r;
     found_file_extent := v;
     found_csum_item := found_csum_item r;
     some_csum_missing := some_csum_missing r;
     nodatasum := nodatasum r;
     errors := errors r;
     ino := ino r;
     nlink := nlink r;
     imode := imode r;
     isize := isize r;
     nbytes := nbytes r;
     found_link := found_link r;
     found_size := found_size r;
     extent_start := extent_start r;
     extent_end := extent_end r;
     first_extent_gap := first_extent_gap r;
     refs := refs r |}.
Definition set_found_csum_item (v : bool) (r : inode_record) : inode_record :=
  {| backrefs := backrefs r;
     checked := checked r;
     merging := merging r;
     found_inode_item := found_inode_item r;
     found_dir_item := found_dir_item r;
     found_file_extent := found_file_extent r;
     found_csum_item := v;
     some_csum_missing := some_csum_missing r;
     nodatasum := nodatasum r;
     errors := errors r;
     ino := ino r;
     nlink := nlink r;
     imode := imode r;
     isize := isize r;
     nbytes := nbytes r;
     found_link := found_link r;
     found_size := found_size r;
     extent_start := extent_start r;
     extent_end := extent_end r;
     first_extent_gap := first_extent_gap r;
     refs := refs r |}.
Definition set_some_csum_missing (v : bool) (r : inode_record) : inode_record :=
  {| backrefs := backrefs r;
     checked := checked r;
     merging := merging r;
     found_inode_item := found_inode_item r;
     found_dir_item := found_dir_item r;
     found_file_extent := found_file_extent r;
     found_csum_item := found_csum_item r;
     some_csum_missing := v;
     nodatasum := nodatasum r;
     errors := errors r;
     ino := ino r;
     nlink := nlink r;
     imode := imode r;
     isize := isize r;
     nbytes := nbytes r;
     found_link := found_link r;
     found_size := found_size r;
     extent_start := extent_start r;
     extent_end := extent_end r;
     first_extent_gap := first_extent_gap r;
     refs := refs r |}.
Definition set_nodatasum (v : bool) (r : inode_record) : inode_record :=
  {| backrefs := backrefs r;
     checked := checked r;
     merging := merging r;
     found_inode_item := found_inode_item r;
     found_dir_item := found_dir_item r;
     found_file_extent := found_file_extent r;
     found_csum_item := found_csum_item r;
     some_csum_missing := some_csum_missing r;
     nodatasum := v;
     errors := errors r;
     ino := ino r;
     nlink := nlink r;
     imode := imode r;
     isize := isize r;
     nbytes := nbytes r;
     found_link := found_link r;
     found_size := found_size r;
     extent_start := extent_start r;
     extent_end := extent_end r;
     first_extent_gap := first_extent_gap r;
     refs := refs r |}.
Definition set_errors (v : Z) (r : inode_record) : inode_record :=
  {| backrefs := backrefs r;
     checked := checked r;
     merging := merging r;
     found_inode_item := found_inode_item r;
     found_dir_item := found_dir_item r;
     found_file_extent := found_file_extent r;
     found_csum_item := found_csum_item r;
     some_csum_missing := some_csum_missing r;
     nodatasum := nodatasum r;
     errors := v;
     ino := ino r;
     nlink := nlink r;
     imode := imode r;
     isize := isize r;
     nbytes := nbytes r;
     found_link := found_link r;
     found_size := found_size r;
     extent_start := extent_start r;
     extent_end := extent_end r;
     first_extent_gap := first_extent_gap r;
     refs := refs r |}.
Definition set_nlink (v : Z) (r : inode_record) : inode_record :=
  {| backrefs := backrefs r;
     checked := checked r;
     merging := merging r;
     found_inode_item := found_inode_item r;
     found_dir_item := found_dir_item r;
     found_file_extent := found_file_extent r;
     found_csum_item := found_csum_item r;
     some_csum_missing := some_csum_missing r;
     nodatasum := nodatasum r;
     errors := errors r;
     ino := ino r;
     nlink := v;
     imode := imode r;
     isize := isize r;
     nbytes := nbytes r;
     found_link := found_link r;
     found_size := found_size r;
     extent_start := extent_start r;
     extent_end := extent_end r;
     first_extent_gap := first_extent_gap r;
     refs := refs r |}.
Definition set_imode (v : Z) (r : inode_record) : inode_record :=
  {| backrefs := backrefs r;
     checked := checked r;
     merging := merging r;
     found_inode_item := found_inode_item r;
     found_dir_item := found_dir_item r;
     found_file_extent := found_file_extent r;
     found_csum_item := found_csum_item r;
     some_csum_missing := some_csum_missing r;
     nodatasum := nodatasum r;
     errors := errors r;
     ino := ino r;
     nlink := nlink r;
     imode := v;
     isize := isize r;
     nbytes := nbytes r;
     found_link := found_link r;
     found_size := found_size r;
     extent_start := extent_start r;
     extent_end := extent_end r;
     first_extent_gap := first_extent_gap r;
     refs := refs r |}.
Definition set_isize (v : Z) (r : inode_record) : inode_record :=
  {| backrefs := backrefs r;
     checked := checked r;
     merging := merging r;
     found_inode_item := found_inode_item r;
     found_dir_item := found_dir_item r;
     found_file_extent := found_file_extent r;
     found_csum_item := found_csum_item r;
     some_csum_missing := some_csum_missing r;
     nodatasum := nodatasum r;
     errors := errors r;
     ino := ino r;
     nlink := nlink r;
     imode := imode r;
     isize := v;
     nbytes := nbytes r;
     found_link := found_link r;
     found_size := found_size r;
     extent_start := extent_start r;
     extent_end := extent_end r;
     first_extent_gap := first_extent_gap r;
     refs := refs r |}.
Definition set_nbytes (v : Z) (r : inode_record) : inode_record :=
  {| backrefs := backrefs r;
     checked := checked r;
     merging := merging r;
     found_inode_item := found_inode_item r;
     found_dir_item := found_dir_item r;
     found_file_extent := found_file_extent r;
     found_csum_item := found_csum_item r;
     some_csum_missing := some_csum_missing r;
     nodatasum := nodatasum r;
     errors := errors r;
     ino := ino r;
     nlink := nlink r;
     imode := imode r;
     isize := isize r;
     nbytes := v;
     found_link := found_link r;
     found_size := found_size r;
     extent_start := extent_start r;
     extent_end := extent_end r;
     first_extent_gap := first_extent_gap r;
     refs := refs r |}.
Definition set_found_link (v : Z) (r : inode_record) : inode_record :=
  {| backrefs := backrefs r;
     checked := checked r;
     merging := merging r;
     found_inode_item := found_inode_item r;
     found_dir_item := found_dir_item r;
     found_file_extent := found_file_extent r;
     found_csum_item := found_csum_item r;
     some_csum_missing := some_csum_missing r;
     nodatasum := nodatasum r;
     errors := errors r;
     ino := ino r;
     nlink := nlink r;
     imode := imode r;
     isize := isize r;
     nbytes := nbytes r;
     found_link := v;
     found_size := found_size r;
     extent_start := extent_start r;
     extent_end := extent_end r;
     first_extent_gap := first_extent_gap r;
     refs := refs r |}.
Definition set_found_size (v : Z) (r : inode_record) : inode_record :=
  {| backrefs := backrefs r;
     checked := checked r;
     merging := merging r;
     found_inode_item := found_inode_item r;
     found_dir_item := found_dir_item r;
     found_file_extent := found_file_extent r;
     found_csum_item := found_csum_item r;
     some_csum_missing := some_csum_missing r;
     nodatasum := nodatasum r;
     errors := errors r;
     ino := ino r;
     nlink := nlink r;
     imode := imode r;
     isize := isize r;
     nbytes := nbytes r;
     found_link := found_link r;
     found_size := v;
     extent_start := extent_start r;
     extent_end := extent_end r;
     first_extent_gap := first_extent_gap r;
     refs := refs r |}.
Definition set_extent_start (v : Z) (r : inode_record) : inode_record :=
  {| backrefs := backrefs r;
     checked := checked r;
     merging := merging r;
     found_inode_item := found_inode_item r;
     found_dir_item := found_dir_item r;
     found_file_extent := found_file_extent r;
     found_csum_item := found_csum_item r;
     some_csum_missing := some_csum_missing r;
     nodatasum := nodatasum r;
     errors := errors r;
     ino := ino r;
     nlink := nlink r;
     imode := imode r;
     isize := isize r;
     nbytes := nbytes r;
     found_link := found_link r;
     found_size := found_size r;
     extent_start := v;
     extent_end := extent_end r;
     first_extent_gap := first_extent_gap r;
     refs := refs r |}.
Definition set_extent_end (v : Z) (r : inode_record) : inode_record :=
  {| backrefs := backrefs r;
     checked := checked r;
     merging := merging r;
     found_inode_item := found_inode_item r;
     found_dir_item := found_dir_item r;
     found_file_extent := found_file_extent r;
     found_csum_item := found_csum_item r;
     some_csum_missing := some_csum_missing r;
     nodatasum := nodatasum r;
     errors := errors r;
     ino := ino r;
     nlink := nlink r;
     imode := imode r;
     isize := isize r;
     nbytes := nbytes r;
     found_link := found_link r;
     found_size := found_size r;
     extent_start := extent_start r;
     extent_end := v;
     first_extent_gap := first_extent_gap r;
     refs := refs r |}.
Definition set_first_extent_gap (v : Z) (r : inode_record) : inode_record :=
  {| backrefs := backrefs r;
     checked := checked r;
     merging := merging r;
     found_inode_item := found_inode_item r;
     found_dir_item := found_dir_item r;
     found_file_extent := found_file_extent r;
     found_csum_item := found_csum_item r;
     some_csum_missing := some_csum_missing r;
     nodatasum := nodatasum r;
     errors := errors r;
     ino := ino r;
     nlink := nlink r;
     imode := imode r;
     isize := isize r;
     nbytes := nbytes r;
     found_link := found_link r;
     found_size := found_size r;
     extent_start := extent_start r;
     extent_end := extent_end r;
     first_extent_gap := v;
     refs := refs r |}.
Definition set_refs (v : Z) (r : inode_record) : inode_record :=
  {| backrefs := backrefs r;
     checked := checked r;
     merging := merging r;
     found_inode_item := found_inode_item r;
     found_dir_item := found_dir_item r;
     found_file_extent := found_file_extent r;
     found_csum_item := found_csum_item r;
     some_csum_missing := some_csum_missing r;
     nodatasum := nodatasum r;
     errors := errors r;
     ino := ino r;
     nlink := nlink r;
     imode := imode r;
     isize := isize r;
     nbytes := nbytes r;
     found_link := found_link r;
     found_size := found_size r;
     extent_start := extent_start r;
     extent_end := extent_end r;
     first_extent_gap := first_extent_gap r;
     refs := v |}.

(** [err |= flag] under a condition. *)
Definition flag_if (c : bool) (flag err : Z) : Z :=
  if c then Z.lor err flag else err.

(** [imode_to_type]: the table [btrfs_type_by_mode] has the entries below
    and zeroes elsewhere.  It has [S_IFMT >> 12 = 15] entries, for the
    indices 0 to 14.  A mode with all four type bits set gives the index
    15, a read past the end of the table, which C leaves undefined: the 0
    below stands for whatever byte follows the table, and the statements
    about the value of [imode_to_type] leave such modes out. *)
Definition imode_to_type (imode : Z) : Z :=
  let i := Z.shiftr (Z.land imode S_IFMT) 12 in
  if i =? Z.shiftr S_IFREG 12 then BTRFS_FT_REG_FILE
  else if i =? Z.shiftr S_IFDIR 12 then BTRFS_FT_DIR
  else if i =? Z.shiftr S_IFCHR 12 then BTRFS_FT_CHRDEV
  else if i =? Z.shiftr S_IFBLK 12 then BTRFS_FT_BLKDEV
  else if i =? Z.shiftr S_IFIFO 12 then BTRFS_FT_FIFO
  else if i =? Z.shiftr S_IFSOCK 12 then BTRFS_FT_SOCK
  else if i =? Z.shiftr S_IFLNK 12 then BTRFS_FT_SYMLINK
  else 0.

(** [clone_inode_rec]: a copy with [refs = 1]; the back references are
    copied one by one in list order. *)
Definition clone_inode_rec (orig_rec : inode_record) : inode_record :=
  set_refs 1 orig_rec.

(** The record [get_inode_rec] allocates for an inode it has not seen. *)
Definition new_inode_rec (ino : Z) : inode_record :=
  {| backrefs := []; checked := false; merging := false;
     found_inode_item := false; found_dir_item := false;
     found_file_extent := false; found_csum_item := false;
     some_csum_missing := false; nodatasum := false; errors := 0;
     ino := ino; nlink := 0; imode := 0; isize := 0; nbytes := 0;
     found_link := if ino =? BTRFS_FREE_INO_OBJECTID then 1 else 0;
     found_size := 0; extent_start := U64_MAX; extent_end := 0;
     first_extent_gap := U64_MAX; refs := 1 |}.

(** An inode cache maps inode numbers to records.  A record is reached
    through its cache entry, so a write through a pointer to a record of
    the cache is a write to the entry.  A record shared with another cache
    ([refs > 1]) is cloned before it is written; the decrement of the count
    of the original is seen by the other cache only and is not part of this
    cache. *)
Definition get_inode_rec (inode_cache : gmap Z inode_record) (ino : Z)
    (mod_ : Z) : gmap Z inode_record * option inode_record :=
  match inode_cache !! ino with
  | Some rec =>
      if negb (mod_ =? 0) && (1 <? refs rec) then
        let rec' := clone_inode_rec rec in
        (<[ino := rec']> inode_cache, Some rec')
      else (inode_cache, Some rec)
  | None =>
      if negb (mod_ =? 0) then
        let rec := new_inode_rec ino in
        (<[ino := rec]> inode_cache, Some rec)
      else (inode_cache, None)
  end.

Definition can_free_inode_rec (rec : inode_record) : Z :=
  if (errors rec =? 0) && checked rec && found_inode_item rec &&
     (nlink rec =? found_link rec) && bool_decide (backrefs rec = [])
  then 1 else 0.

(** The [list_for_each_entry_safe] loop of [maybe_free_inode_rec]: a back
    reference seen as dir item and as dir index gets the file type checked,
    and is unlinked and freed when it has no error and was also seen as
    inode ref. *)
Fixpoint prune_backrefs (filetype : Z) (l : list Ref.inode_backref)
    : list Ref.inode_backref :=
  match l with
  | [] => []
  | backref :: tmp =>
      if Ref.found_dir_item backref && Ref.found_dir_index backref then
        let backref :=
          Ref.set_errors
            (flag_if (negb (Ref.filetype backref =? filetype))
               REF_ERR_FILETYPE_UNMATCH (Ref.errors backref)) backref in
        if (Ref.errors backref =? 0) && Ref.found_inode_ref backref
        then prune_backrefs filetype tmp
        else backref :: prune_backrefs filetype tmp
      else backref :: prune_backrefs filetype tmp
  end.

(** The consistency checks of [maybe_free_inode_rec] on a checked record. *)
Definition check_inode_rec (rec : inode_record) : inode_record :=
  let rec :=
    if S_ISDIR (imode rec) then
      let rec := set_errors (flag_if (negb (found_size rec =? isize rec))
                               I_ERR_DIR_ISIZE_WRONG (errors rec)) rec in
      set_errors (flag_if (found_file_extent rec)
                    I_ERR_ODD_FILE_EXTENT (errors rec)) rec
    else if S_ISREG (imode rec) || S_ISLNK (imode rec) then
      let rec := set_errors (flag_if (found_dir_item rec)
                               I_ERR_ODD_DIR_ITEM (errors rec)) rec in
      let rec := set_errors (flag_if (negb (found_size rec =? nbytes rec))
                               I_ERR_FILE_NBYTES_WRONG (errors rec)) rec in
      let rec :=
        if (extent_start rec =? U64_MAX) || (0 <? extent_start rec)
        then set_first_extent_gap 0 rec else rec in
      set_errors
        (flag_if ((0 <? nlink rec) &&
                  ((extent_end rec <? isize rec) ||
                   (first_extent_gap rec <? isize rec)))
           I_ERR_FILE_EXTENT_DISCOUNT (errors rec)) rec
    else rec in
  if S_ISREG (imode rec) || S_ISLNK (imode rec) then
    let rec := set_errors (flag_if (found_csum_item rec && nodatasum rec)
                             I_ERR_ODD_CSUM_ITEM (errors rec)) rec in
    set_errors (flag_if (some_csum_missing rec && negb (nodatasum rec))
                  I_ERR_SOME_CSUM_MISSING (errors rec)) rec
  else rec.

(** [maybe_free_inode_rec(inode_cache, rec)], for [rec] the record of
    [inode_cache] for its inode.  The result is [None] when a [BUG_ON]
    stops the program; otherwise it is the cache after the call and the
    record as the call leaves it, [None] for a record that was removed from
    the cache and freed. *)
Definition maybe_free_inode_rec (inode_cache : gmap Z inode_record)
    (rec : inode_record)
    : option (gmap Z inode_record * option inode_record) :=
  if negb (found_inode_item rec)
  then Some (<[ino rec := rec]> inode_cache, Some rec)
  else
    let filetype := imode_to_type (imode rec) in
    let rec := set_backrefs (prune_backrefs filetype (backrefs rec)) rec in
    if negb (checked rec) || merging rec
    then Some (<[ino rec := rec]> inode_cache, Some rec)
    else
      let rec := check_inode_rec rec in
      if negb (refs rec =? 1) then None
      else if can_free_inode_rec rec =? 1 then
        match inode_cache !! ino rec with
        | Some _ => Some (delete (ino rec) inode_cache, None)
        | None => None
        end
      else Some (<[ino rec := rec]> inode_cache, Some rec).

(** The test of [get_inode_backref] on one back reference: [dir], then
    the [u16] field [namelen] against the [int] asked for, then
    [memcmp(name, backref->name, namelen)]. *)
Definition backref_matches (name : list Z) (namelen dir : Z)
    (backref : Ref.inode_backref) : bool :=
  (Ref.dir backref =? dir) && (Ref.namelen backref =? namelen) &&
  bool_decide (take (Z.to_nat namelen) name =
               take (Z.to_nat namelen) (Ref.name backref)).

(** The back reference [get_inode_backref] allocates: [namelen] is an
    [int], the field that keeps it a [u16], so the length is stored modulo
    65536, while [memcpy] copies [namelen] bytes.  (A negative [namelen]
    makes the length of the [memcpy] huge; the callers pass the length of a
    name of an item or of a back reference, between 0 and 65535, and the
    statements about the function are made for such lengths.) *)
Definition new_inode_backref (name : list Z) (namelen dir : Z)
    : Ref.inode_backref :=
  {| Ref.found_dir_item := false; Ref.found_dir_index := false;
     Ref.found_inode_ref := false; Ref.filetype := 0; Ref.errors := 0;
     Ref.ref_type := 0; Ref.dir := dir; Ref.index := 0;
     Ref.namelen := to_u16 namelen;
     Ref.name := take (Z.to_nat namelen) name |}.

(** [get_inode_backref] returns a pointer to the first back reference of
    the list with the given directory and name, or to a new one that it
    appends; the caller then writes through the pointer.  [update] is what
    the caller writes. *)
Fixpoint get_inode_backref (update : Ref.inode_backref → Ref.inode_backref)
    (name : list Z) (namelen dir : Z) (l : list Ref.inode_backref)
    : list Ref.inode_backref :=
  match l with
  | [] => [update (new_inode_backref name namelen dir)]
  | backref :: l' =>
      if backref_matches name namelen dir backref then update backref :: l'
      else backref :: get_inode_backref update name namelen dir l'
  end.

(** The writes of [add_inode_backref] to the back reference, by item type;
    [None] is the [BUG_ON(1)] of the last branch. *)
Definition note_item (index filetype itemtype errors : Z)
    (backref : Ref.inode_backref) : Ref.inode_backref :=
  let backref :=
    if negb (errors =? 0)
    then Ref.set_errors (Z.lor (Ref.errors backref) errors) backref
    else backref in
  if itemtype =? BTRFS_DIR_INDEX_KEY then
    let e := Ref.errors backref in
    let e := flag_if (Ref.found_dir_index backref) REF_ERR_DUP_DIR_INDEX e in
    let e := flag_if (Ref.found_inode_ref backref &&
                      negb (Ref.index backref =? index))
               REF_ERR_INDEX_UNMATCH e in
    let e := flag_if (Ref.found_dir_item backref &&
                      negb (Ref.filetype backref =? filetype))
               REF_ERR_FILETYPE_UNMATCH e in
    Ref.set_found_dir_index true
      (Ref.set_filetype (filetype mod 256)
         (Ref.set_index index (Ref.set_errors e backref)))
  else if itemtype =? BTRFS_DIR_ITEM_KEY then
    let e := Ref.errors backref in
    let e := flag_if (Ref.found_dir_item backref) REF_ERR_DUP_DIR_ITEM e in
    let e := flag_if (Ref.found_dir_index backref &&
                      negb (Ref.filetype backref =? filetype))
               REF_ERR_FILETYPE_UNMATCH e in
    Ref.set_found_dir_item true
      (Ref.set_filetype (filetype mod 256) (Ref.set_errors e backref))
  else
    let e := Ref.errors backref in
    let e := flag_if (Ref.found_inode_ref backref) REF_ERR_DUP_INODE_REF e in
    let e := flag_if (Ref.found_dir_index backref &&
                      negb (Ref.index backref =? index))
               REF_ERR_INDEX_UNMATCH e in
    Ref.set_found_inode_ref true
      (Ref.set_index index
         (Ref.set_ref_type itemtype (Ref.set_errors e backref))).

Definition add_inode_backref (inode_cache : gmap Z inode_record)
    (ino dir index : Z) (name : list Z) (namelen filetype itemtype errors : Z)
    : option (gmap Z inode_record) :=
  let '(inode_cache, found) := get_inode_rec inode_cache ino 1 in
  rec ← found;
  if (itemtype =? BTRFS_DIR_INDEX_KEY) || (itemtype =? BTRFS_DIR_ITEM_KEY) ||
     (itemtype =? BTRFS_INODE_REF_KEY) || (itemtype =? BTRFS_INODE_EXTREF_KEY)
  then
    let rec :=
      set_backrefs
        (get_inode_backref (note_item index filetype itemtype errors)
           name namelen dir (backrefs rec)) rec in
    let rec :=
      if itemtype =? BTRFS_DIR_ITEM_KEY
      then set_found_link (to_u32 (found_link rec + 1)) rec else rec in
    fst <$> maybe_free_inode_rec inode_cache rec
  else None.

(** One iteration of the loop of [merge_inode_recs] over the back
    references of [src]; the state is the cache and [dir_count]. *)
Definition merge_backref (dst_ino : Z) (backref : Ref.inode_backref)
    (st : gmap Z inode_record * Z) : option (gmap Z inode_record * Z) :=
  let '(dst_cache, dir_count) := st in
  dst_cache ←
    (if Ref.found_dir_index backref then
       add_inode_backref dst_cache dst_ino (Ref.dir backref)
         (Ref.index backref) (Ref.name backref) (Ref.namelen backref)
         (Ref.filetype backref) BTRFS_DIR_INDEX_KEY (Ref.errors backref)
     else Some dst_cache);
  '(dst_cache, dir_count) ←
    (if Ref.found_dir_item backref then
       dst_cache ←
         add_inode_backref dst_cache dst_ino (Ref.dir backref) 0
           (Ref.name backref) (Ref.namelen backref) (Ref.filetype backref)
           BTRFS_DIR_ITEM_KEY (Ref.errors backref);
       Some (dst_cache, to_u32 (dir_count + 1))
     else Some (dst_cache, dir_count));
  dst_cache ←
    (if Ref.found_inode_ref backref then
       add_inode_backref dst_cache dst_ino (Ref.dir backref)
         (Ref.index backref) (Ref.name backref) (Ref.namelen backref) 0
         (Ref.ref_type backref) (Ref.errors backref)
     else Some dst_cache);
  Some (dst_cache, dir_count).

Fixpoint merge_backrefs (dst_ino : Z) (l : list Ref.inode_backref)
    (st : gmap Z inode_record * Z) : option (gmap Z inode_record * Z) :=
  match l with
  | [] => Some st
  | backref :: l' =>
      st ← merge_backref dst_ino backref st;
      merge_backrefs dst_ino l' st
  end.

(** The part of [merge_inode_recs] after the loop, block by block in the
    order of the source.  First the four [found_*] flags. *)
Definition merge_flags (src dst : inode_record) : inode_record :=
  let dst := if found_dir_item src then set_found_dir_item true dst else dst in
  let dst :=
    if found_file_extent src then set_found_file_extent true dst else dst in
  let dst :=
    if found_csum_item src then set_found_csum_item true dst else dst in
  if some_csum_missing src then set_some_csum_missing true dst else dst.

(** [if (dst->first_extent_gap > src->first_extent_gap) ...] *)
Definition merge_first_extent_gap (src dst : inode_record) : inode_record :=
  if first_extent_gap src <? first_extent_gap dst
  then set_first_extent_gap (first_extent_gap src) dst else dst.

(** [found_link] and [found_size]. *)
Definition merge_counts (src dst : inode_record) (dir_count : Z)
    : inode_record :=
  let dst :=
    set_found_link
      (to_u32 (found_link dst + to_u32 (found_link src - dir_count))) dst in
  set_found_size (wrap64 (found_size dst + found_size src)) dst.

(** The block [if (src->extent_start != (u64)-1) { ... }]. *)
Definition merge_extent_span (src dst : inode_record) : inode_record :=
  if negb (extent_start src =? U64_MAX) then
    if extent_start dst =? U64_MAX then
      set_extent_end (extent_end src)
        (set_extent_start (extent_start src) dst)
    else
      let dst :=
        if extent_start src <? extent_end dst
        then set_errors (Z.lor (errors dst) I_ERR_FILE_EXTENT_OVERLAP) dst
        else if (extent_end dst <? extent_start src) &&
                (extent_end dst <? first_extent_gap dst)
        then set_first_extent_gap (extent_end dst) dst
        else dst in
      if extent_end dst <? extent_end src
      then set_extent_end (extent_end src) dst else dst
  else dst.

(** The block [if (src->found_inode_item) { ... }]. *)
Definition merge_inode_item (src dst : inode_record) : inode_record :=
  if found_inode_item src then
    if negb (found_inode_item dst) then
      set_found_inode_item true
        (set_nodatasum (nodatasum src)
           (set_imode (imode src)
              (set_nbytes (nbytes src)
                 (set_isize (isize src) (set_nlink (nlink src) dst)))))
    else set_errors (Z.lor (errors dst) I_ERR_DUP_INODE_ITEM) dst
  else dst.

Definition merge_fields (src dst : inode_record) (dir_count : Z)
    : inode_record :=
  let dst := merge_flags src dst in
  let dst := merge_first_extent_gap src dst in
  let dst := merge_counts src dst dir_count in
  let dst := merge_extent_span src dst in
  let dst := set_errors (Z.lor (errors dst) (errors src)) dst in
  let dst := merge_inode_item src dst in
  set_merging false dst.

(** [merge_inode_recs(src, dst, dst_cache)], for [dst] the record of
    [dst_cache] for its inode.  After each call of [add_inode_backref] the
    source goes on writing through [dst]; the model reads the record back
    from the cache, and a record that is no longer there is a use after
    free ([None], as is a [BUG_ON]). *)
Definition merge_inode_recs (src dst : inode_record)
    (dst_cache : gmap Z inode_record) : option (gmap Z inode_record) :=
  let dst_cache := <[ino dst := set_merging true dst]> dst_cache in
  '(dst_cache, dir_count) ←
    merge_backrefs (ino dst) (backrefs src) (dst_cache, 0);
  dst' ← dst_cache !! ino dst;
  if found_link src <? dir_count then None
  else Some (<[ino dst := merge_fields src dst' dir_count]> dst_cache).

End Inode.

(** ** cmds-restore.c: copying extents, and the loop guards *)

Module CmdsRestore.

Definition BTRFS_COMPRESS_NONE : Z := 0.

(** The fields of the file extent item that [copy_one_extent] reads. *)
Record file_extent := {
  compression : Z;
  disk_bytenr : Z;
  disk_num_bytes : Z;
  ram_bytes : Z;
  extent_offset : Z
}.

(** The collaborators of [copy_one_extent]: the chunk mapping, the devices,
    the codecs and the output file.
    - [btrfs_map_block mirror_num logical length] is
      [(ret, length, dev_fd, physical)], the stripe 0 of the mapping;
    - [pread dev_fd length offset] is the number of bytes read and the
      bytes;
    - [decompress inbuf compress_len ram_size compress] is
      [(ret, ram_size, outbuf)];
    - [pwrite fd buf count offset] is the number of bytes written. *)
Record devices := {
  btrfs_map_block : Z → Z → Z → Z * Z * Z * Z;
  pread : Z → Z → Z → Z * list Z;
  btrfs_num_copies : Z → Z → Z;
  decompress : list Z → Z → Z → Z → Z * Z * list Z;
  pwrite : Z → list Z → Z → Z → Z
}.

(** One attempt to read: the mirror, the logical address and the length
    handed to [btrfs_map_block] and read from the device it names. *)
Record attempt := {
  mirror : Z;
  logical : Z;
  len : Z
}.

(** [memcpy] of [data] into [buf] at offset [at_]. *)
Definition store_at (buf : list Z) (at_ : Z) (data : list Z) : list Z :=
  take (Z.to_nat at_) buf ++ data ++
  drop (Z.to_nat at_ + length data) buf.

(** The loop [while (total < ram_size) { done = pwrite(...); ... }];
    the result is the value of [ret] at [out], [None] when the loop has not
    ended after the given number of iterations. *)
Fixpoint write_out (iterations : nat) (dev : devices) (fd : Z)
    (buf : list Z) (ram_size pos total : Z) : option Z :=
  match iterations with
  | O => None
  | S iterations' =>
      if total <? ram_size then
        let done := pwrite dev fd (drop (Z.to_nat total) buf)
                      (ram_size - total) (pos + total) in
        if done <? 0 then Some (-1)
        else write_out iterations' dev fd buf ram_size pos (total + done)
      else Some 0
  end.

(** The local variables of [copy_one_extent] that live across [again:]. *)
Record copy_state := {
  mirror_num : Z;
  size_left : Z;
  count : Z;
  bytenr : Z;
  inbuf : list Z;
  attempts : list attempt
}.

(** The code from the label [again:] on.  Every [goto again] is one
    iteration; the result is [ret] and the attempts made, in order. *)
Fixpoint copy_from_again (iterations : nat) (dev : devices) (fd : Z)
    (fi : file_extent) (pos : Z) (st : copy_state)
    : option (Z * list attempt) :=
  match iterations with
  | O => None
  | S iterations' =>
      let length := size_left st in
      let '(ret, length, dev_fd, dev_bytenr) :=
        btrfs_map_block dev (mirror_num st) (bytenr st) length in
      if negb (ret =? 0) then Some (ret, attempts st)
      else
        let length := if size_left st <? length then size_left st else length in
        let '(done, data) := pread dev dev_fd length dev_bytenr in
        let tried :=
          attempts st ++
          [{| mirror := mirror_num st; logical := bytenr st; len := length |}] in
        let inbuf := store_at (inbuf st) (count st) data in
        if (done <? 0) || (done <? length) then
          let num_copies := btrfs_num_copies dev (bytenr st) length in
          let mirror_num := mirror_num st + 1 in
          if num_copies <? mirror_num then Some (-1, tried)
          else
            copy_from_again iterations' dev fd fi pos
              {| mirror_num := mirror_num; size_left := size_left st;
                 count := count st; bytenr := bytenr st; inbuf := inbuf;
                 attempts := tried |}
        else
          let mirror_num := 1 in
          let size_left := wrap64 (size_left st - length) in
          let count := wrap64 (count st + length) in
          let bytenr := wrap64 (bytenr st + length) in
          if negb (size_left =? 0) then
            copy_from_again iterations' dev fd fi pos
              {| mirror_num := mirror_num; size_left := size_left;
                 count := count; bytenr := bytenr; inbuf := inbuf;
                 attempts := tried |}
          else if compression fi =? BTRFS_COMPRESS_NONE then
            ret ← write_out iterations' dev fd inbuf (ram_bytes fi) pos 0;
            Some (ret, tried)
          else
            let '(ret, ram_size, outbuf) :=
              decompress dev inbuf (disk_num_bytes fi) (ram_bytes fi)
                (compression fi) in
            if negb (ret =? 0) then
              let num_copies := btrfs_num_copies dev bytenr length in
              let mirror_num := mirror_num + 1 in
              if num_copies <=? mirror_num then Some (-1, tried)
              else
                copy_from_again iterations' dev fd fi pos
                  {| mirror_num := mirror_num; size_left := size_left;
                     count := count; bytenr := bytenr; inbuf := inbuf;
                     attempts := tried |}
            else
              ret ← write_out iterations' dev fd outbuf ram_size pos 0;
              Some (ret, tried)
  end.

(** [copy_one_extent]; the two [malloc] are taken to succeed. *)
Definition copy_one_extent (iterations : nat) (dev : devices) (fd : Z)
    (fi : file_extent) (pos : Z) : option (Z * list attempt) :=
  if disk_num_bytes fi =? 0 then Some (0, [])
  else
    copy_from_again iterations dev fd fi pos
      {| mirror_num := 1; size_left := disk_num_bytes fi; count := 0;
         bytenr := disk_bytenr fi;
         inbuf := replicate (Z.to_nat (disk_num_bytes fi)) 0;
         attempts := [] |}.

(** *** The loop guards *)

(** What the user sees of a loop guard. *)
Inductive event :=
| ev_iteration (progress : bool)   (* the body of the loop ran *)
| ev_prompt                        (* "... do you want to keep going on ?" *)
| ev_prompt_again                  (* "Please enter either 'y' or 'n': " *)
| ev_stopping.                     (* "We have looped ... stopping" *)

Definition tolower (c : Z) : Z :=
  if (65 <=? c) && (c <=? 90) then c + 32 else c.

(** The loop of [ask_to_continue] from the label [again:]: [fgets(buf, 2,
    stdin)] reads one character.  The result is the return value with the
    input left, and what was printed; at the end of the input the source
    dereferences [NULL], and there is no return value. *)
Fixpoint ask_again (stdin : list Z) : option (Z * list Z) * list event :=
  match stdin with
  | [] => (None, [])
  | c :: stdin' =>
      if (c =? 10) || (tolower c =? 110) then (Some (1, stdin'), [])
      else if negb (tolower c =? 121) then
        let '(r, out) := ask_again stdin' in (r, ev_prompt_again :: out)
      else (Some (0, stdin'), [])
  end.

Definition ask_to_continue (stdin : list Z)
    : option (Z * list Z) * list event :=
  let '(r, out) := ask_again stdin in (r, ev_prompt :: out).






End CmdsRestore.

(** ** cmds-check.c: block groups *)

Module BlockGroup.
Import Ctree.

Definition BTRFS_BLOCK_GROUP_ITEM_KEY : Z := 192.
Definition BTRFS_FIRST_CHUNK_TREE_OBJECTID : Z := 256.

(** [struct map_lookup]: a chunk of the mapping tree, with the extent
    [ce] of logical addresses it covers. *)
Record map_lookup := {
  ce_start : Z;
  ce_size : Z;
  map_type : Z
}.

(** A call of [btrfs_make_block_group(trans, root, bytes_used, type,
    chunk_objectid, chunk_offset, size)]. *)
Record made_block_group := {
  bytes_used : Z;
  bg_type : Z;
  chunk_objectid : Z;
  chunk_offset : Z;
  size : Z
}.

(** Modelled from the spec: [btrfs_make_block_group] of [extent-tree.c],
    through which the specification has the block group item re-created.
    The model records the block group among those made and returns 0. *)
Definition btrfs_make_block_group (made : list made_block_group)
    (bg : made_block_group) : Z * list made_block_group :=
  (0, made ++ [bg]).

(** [check_block_group]: the state is the block groups made so far and
    [*reinit]; [None] is a search that does not return.  The search runs on
    the extent tree [extent_root] of the device [blocks]. *)
Definition check_block_group (iterations : nat)
    (blocks : gmap Z extent_buffer) (extent_root : btrfs_root)
    (map : map_lookup) (made : list made_block_group) (reinit : Z)
    : option (Z * list made_block_group * Z) :=
  let key := {| objectid := ce_start map;
                type := BTRFS_BLOCK_GROUP_ITEM_KEY;
                offset := ce_size map |} in
  match btrfs_search_slot iterations blocks extent_root key
          btrfs_init_path 0 0 with
  | search_returns ret _ =>
      if ret <=? 0 then Some (ret, made, reinit)
      else
        let '(ret, made) :=
          btrfs_make_block_group made
            {| bytes_used := 0; bg_type := map_type map;
               chunk_objectid := BTRFS_FIRST_CHUNK_TREE_OBJECTID;
               chunk_offset := objectid key; size := offset key |} in
        Some (ret, made, 1)
  | _ => None
  end.

(** The loop over the mapping tree that follows the first [return] of
    [check_block_groups] in the source; the return value of
    [check_block_group] is dropped. *)
Fixpoint walk_mapping_tree (iterations : nat)
    (blocks : gmap Z extent_buffer) (extent_root : btrfs_root)
    (map_tree : list map_lookup) (made : list made_block_group) (reinit : Z)
    : option (list made_block_group * Z) :=
  match map_tree with
  | [] => Some (made, reinit)
  | map :: ce =>
      '(_, made, reinit) ←
        check_block_group iterations blocks extent_root map made reinit;
      walk_mapping_tree iterations blocks extent_root ce made reinit
  end.

(** [check_block_groups]: the body is
    [/* this isn't quite working */ return 0;] and the loop after it is
    never reached. *)
Definition check_block_groups (iterations : nat)
    (blocks : gmap Z extent_buffer) (extent_root : btrfs_root)
    (map_tree : list map_lookup) (made : list made_block_group) (reinit : Z)
    : Z * list made_block_group * Z :=
  (0, made, reinit).

End BlockGroup.

(** ** cmds-check.c: the free space cache *)

Module SpaceCache.
Import Ctree.

Definition BTRFS_EXTENT_ITEM_KEY : Z := 168.
Definition BTRFS_METADATA_ITEM_KEY : Z := 169.
Definition BTRFS_SUPER_INFO_OFFSET : Z := 65536.
Definition BTRFS_SUPER_MIRROR_MAX : Z := 3.

(** [btrfs_sb_offset] of [disk-io.h]: 64 KiB, 64 MiB, 256 GiB. *)
Definition btrfs_sb_offset (mirror : Z) : Z :=
  if mirror =? 0 then BTRFS_SUPER_INFO_OFFSET
  else Z.shiftl (16 * 1024) (12 * mirror).

(** [struct btrfs_free_space]: an entry of the free space cache. *)
Record btrfs_free_space := {
  fs_offset : Z;
  fs_bytes : Z
}.

#[export] Instance btrfs_free_space_eq_dec : EqDecision btrfs_free_space.
Proof. solve_decision. Defined.

(** [struct btrfs_block_group_cache]: the key of the block group, its
    first byte and its length.  Its free space cache ([free_space_ctl]) is
    passed along as the list of its entries in the order of their
    offsets. *)
Record btrfs_block_group_cache := {
  key_objectid : Z;
  key_offset : Z
}.

(** Modelled from the spec: [btrfs_find_free_space] and
    [unlink_free_space] of [free-space-cache.c].  The specification has
    the cache loaded into an interval map keyed by offset; the lookup
    returns the entry whose interval holds [offset], and unlinking removes
    an entry. *)
Definition btrfs_find_free_space (ctl : list btrfs_free_space)
    (offset bytes : Z) : option btrfs_free_space :=
  list_find (λ e, fs_offset e ≤ offset < fs_offset e + fs_bytes e) ctl
  ≫= λ r, Some r.2.

Definition unlink_free_space (ctl : list btrfs_free_space)
    (entry : btrfs_free_space) : list btrfs_free_space :=
  filter (λ e, e ≠ entry) ctl.

(** The chunk mapping as [check_cache_range] uses it:
    [btrfs_rmap_block chunk_start physical] is [(ret, logical, stripe_len)],
    the logical addresses in the chunk that map to the physical one. *)
Definition rmap := Z → Z → Z * list Z * Z.

(** The [while (nr--)] loop of [check_cache_range] over the stripes of one
    superblock mirror, last stripe first.  [recur] is [check_cache_range]
    itself, called for the part left of a superblock in the middle of the
    range.  [inl] is a [return] from the loop, [inr] its end, with the
    values of [offset] and [bytes].  The addresses are [u64] and
    [stripe_len] is an [int] that the comparisons and sums convert to
    [u64]: every sum is taken modulo [2 ^ 64] before it is compared. *)
Fixpoint stripe_loop
    (recur : list btrfs_free_space → Z → Z → option (Z * list btrfs_free_space))
    (logical : list Z) (stripe_len : Z) (ctl : list btrfs_free_space)
    (offset bytes : Z)
    : option (Z * list btrfs_free_space + list btrfs_free_space * Z * Z) :=
  match logical with
  | [] => Some (inr (ctl, offset, bytes))
  | l :: logical' =>
      if wrap64 (l + stripe_len) <=? offset
      then stripe_loop recur logical' stripe_len ctl offset bytes
      else if wrap64 (offset + bytes) <=? l
      then stripe_loop recur logical' stripe_len ctl offset bytes
      else if l =? offset then
        if bytes <=? wrap64 stripe_len then Some (inl (0, ctl))
        else stripe_loop recur logical' stripe_len ctl
               (wrap64 (offset + stripe_len)) (wrap64 (bytes - stripe_len))
      else if l <? offset then
        if wrap64 (offset + bytes) <=? wrap64 (l + stripe_len)
        then Some (inl (0, ctl))
        else stripe_loop recur logical' stripe_len ctl
               (wrap64 (l + stripe_len))
               (wrap64 (offset + bytes - (l + stripe_len)))
      else
        if wrap64 (bytes + offset) <=? wrap64 (l + stripe_len)
        then stripe_loop recur logical' stripe_len ctl offset
               (wrap64 (l - offset))
        else
          '(ret, ctl) ← recur ctl offset (wrap64 (l - offset));
          if negb (ret =? 0) then Some (inl (ret, ctl))
          else stripe_loop recur logical' stripe_len ctl
                 (wrap64 (l + stripe_len))
                 (wrap64 (offset + bytes - (l + stripe_len)))
  end.

(** The [for] loop over the superblock mirrors. *)
Fixpoint mirror_loop
    (recur : list btrfs_free_space → Z → Z → option (Z * list btrfs_free_space))
    (rmap_block : rmap) (cache : btrfs_block_group_cache) (mirrors : list Z)
    (ctl : list btrfs_free_space) (offset bytes : Z)
    : option (Z * list btrfs_free_space + list btrfs_free_space * Z * Z) :=
  match mirrors with
  | [] => Some (inr (ctl, offset, bytes))
  | i :: mirrors' =>
      let '(ret, logical, stripe_len) :=
        rmap_block (key_objectid cache) (btrfs_sb_offset i) in
      if negb (ret =? 0) then Some (inl (ret, ctl))
      else
        r ← stripe_loop recur (reverse logical) stripe_len ctl offset bytes;
        match r with
        | inl out => Some (inl out)
        | inr (ctl, offset, bytes) =>
            mirror_loop recur rmap_block cache mirrors' ctl offset bytes
        end
  end.

(** [check_cache_range]; the result is the return value and the cache
    after the call, [None] when the recursion has not ended at the given
    depth. *)
Fixpoint check_cache_range (depth : nat) (rmap_block : rmap)
    (cache : btrfs_block_group_cache) (ctl : list btrfs_free_space)
    (offset bytes : Z) : option (Z * list btrfs_free_space) :=
  match depth with
  | O => None
  | S depth' =>
      r ← mirror_loop (check_cache_range depth' rmap_block cache)
             rmap_block cache (seqZ 0 BTRFS_SUPER_MIRROR_MAX)
             ctl offset bytes;
      match r with
      | inl out => Some out
      | inr (ctl, offset, bytes) =>
          match btrfs_find_free_space ctl offset bytes with
          | None => Some (- EINVAL, ctl)
          | Some entry =>
              if negb (fs_offset entry =? offset) then Some (- EINVAL, ctl)
              else if negb (fs_bytes entry =? bytes) then Some (- EINVAL, ctl)
              else Some (0, unlink_free_space ctl entry)
          end
      end
  end.

(** The loop [while (1)] of [verify_space_cache] over the items of the
    extent tree from the position of the search on; [next_leaf] is what
    [btrfs_next_leaf] returns at the last of them.  [inl] is a [return]
    from the loop, [inr] its end with the values of [ret] and [last]. *)
Fixpoint sweep (depth : nat) (rmap_block : rmap) (leafsize : Z)
    (cache : btrfs_block_group_cache) (items : list btrfs_key)
    (next_leaf : Z) (ctl : list btrfs_free_space) (last : Z)
    : option (Z * list btrfs_free_space + Z * Z * list btrfs_free_space) :=
  match items with
  | [] =>
      if next_leaf <? 0 then Some (inl (next_leaf, ctl))
      else Some (inr (0, last, ctl))
  | key :: items' =>
      if wrap64 (key_offset cache + key_objectid cache) <=? objectid key
      then Some (inr (0, last, ctl))
      else if negb (type key =? BTRFS_EXTENT_ITEM_KEY) &&
              negb (type key =? BTRFS_METADATA_ITEM_KEY)
      then sweep depth rmap_block leafsize cache items' next_leaf ctl last
      else if last =? objectid key
      then sweep depth rmap_block leafsize cache items' next_leaf ctl
             (wrap64 (objectid key + offset key))
      else
        '(ret, ctl) ←
          check_cache_range depth rmap_block cache ctl last
            (wrap64 (objectid key - last));
        if negb (ret =? 0) then Some (inr (ret, last, ctl))
        else
          sweep depth rmap_block leafsize cache items' next_leaf ctl
            (if type key =? BTRFS_EXTENT_ITEM_KEY
             then wrap64 (objectid key + offset key)
             else wrap64 (objectid key + leafsize))
  end.

(** [verify_space_cache].  [search_ret] is what [btrfs_search_slot] returns
    for the key [(last, BTRFS_EXTENT_ITEM_KEY, 0)] on the extent tree,
    [items] the keys of the items from there on.  The path is taken to be
    allocated.  The result is the return value and the cache after the
    call. *)
Definition verify_space_cache (depth : nat) (rmap_block : rmap)
    (leafsize : Z) (cache : btrfs_block_group_cache) (search_ret : Z)
    (items : list btrfs_key) (next_leaf : Z) (ctl : list btrfs_free_space)
    : option (Z * list btrfs_free_space) :=
  let last := Z.max (key_objectid cache) BTRFS_SUPER_INFO_OFFSET in
  if search_ret <? 0 then Some (search_ret, ctl)
  else
    r ← sweep depth rmap_block leafsize cache items next_leaf ctl last;
    match r with
    | inl out => Some out
    | inr (ret, last, ctl) =>
        '(ret, ctl) ←
          (if last <? wrap64 (key_objectid cache + key_offset cache)
           then check_cache_range depth rmap_block cache ctl last
                  (wrap64 (key_objectid cache + key_offset cache - last))
           else Some (ret, ctl));
        if (ret =? 0) && negb (bool_decide (ctl = []))
        then Some (- EINVAL, ctl)
        else Some (ret, ctl)
    end.

End SpaceCache.

(** ** cmds-check.c: finding, allocating and recording back references *)

Module ExtentRefs.
Import Extent.

Definition set_found_extent_tree (v : bool) (n : extent_backref)
    : extent_backref :=
  {| found_extent_tree := v; full_backref := full_backref n;
     found_ref := found_ref n |}.
Definition set_found_ref (v : bool) (n : extent_backref) : extent_backref :=
  {| found_extent_tree := found_extent_tree n;
     full_backref := full_backref n; found_ref := v |}.

Definition set_backrefs (v : list backref) (r : extent_record)
    : extent_record :=
  {| backrefs := v; start := start r; max_size := max_size r; nr := nr r;
     refs := refs r; extent_item_refs := extent_item_refs r;
     content_checked := content_checked r;
     owner_ref_checked := owner_ref_checked r; is_root := is_root r;
     metadata := metadata r |}.
Definition set_max_size (v : Z) (r : extent_record) : extent_record :=
  {| backrefs := backrefs r; start := start r; max_size := v; nr := nr r;
     refs := refs r; extent_item_refs := extent_item_refs r;
     content_checked := content_checked r;
     owner_ref_checked := owner_ref_checked r; is_root := is_root r;
     metadata := metadata r |}.

Definition set_nr (v : Z) (r : extent_record) : extent_record :=
  {| backrefs := backrefs r; start := start r; max_size := max_size r; nr
     := v; refs := refs r; extent_item_refs := extent_item_refs r;
     content_checked := content_checked r; owner_ref_checked :=
     owner_ref_checked r; is_root := is_root r; metadata := metadata r |}.
Definition set_refs (v : Z) (r : extent_record) : extent_record :=
  {| backrefs := backrefs r; start := start r; max_size := max_size r; nr
     := nr r; refs := v; extent_item_refs := extent_item_refs r;
     content_checked := content_checked r; owner_ref_checked :=
     owner_ref_checked r; is_root := is_root r; metadata := metadata r |}.
Definition set_extent_item_refs (v : Z) (r : extent_record) : extent_record :=
  {| backrefs := backrefs r; start := start r; max_size := max_size r; nr
     := nr r; refs := refs r; extent_item_refs := v; content_checked :=
     content_checked r; owner_ref_checked := owner_ref_checked r; is_root
     := is_root r; metadata := metadata r |}.
Definition set_content_checked (v : bool) (r : extent_record) : extent_record :=
  {| backrefs := backrefs r; start := start r; max_size := max_size r; nr
     := nr r; refs := refs r; extent_item_refs := extent_item_refs r;
     content_checked := v; owner_ref_checked := owner_ref_checked r;
     is_root := is_root r; metadata := metadata r |}.
Definition set_owner_ref_checked (v : bool) (r : extent_record) : extent_record :=
  {| backrefs := backrefs r; start := start r; max_size := max_size r; nr
     := nr r; refs := refs r; extent_item_refs := extent_item_refs r;
     content_checked := content_checked r; owner_ref_checked := v; is_root
     := is_root r; metadata := metadata r |}.
Definition set_is_root (v : bool) (r : extent_record) : extent_record :=
  {| backrefs := backrefs r; start := start r; max_size := max_size r; nr
     := nr r; refs := refs r; extent_item_refs := extent_item_refs r;
     content_checked := content_checked r; owner_ref_checked :=
     owner_ref_checked r; is_root := v; metadata := metadata r |}.

(** A pointer to a back reference of a record is its position in the list
    of the record. *)

(** The loop of [find_tree_backref]. *)
Fixpoint find_tree_backref_loop (cur : list backref) (parent root : Z)
    : option nat :=
  match cur with
  | [] => None
  | back :: next =>
      let continue := S <$> find_tree_backref_loop next parent root in
      match back with
      | data_backref _ _ _ _ _ _ _ => continue
      | tree_backref node parent_root =>
          if 0 <? parent then
            if negb (full_backref node) then continue
            else if parent =? parent_root then Some 0%nat
            else continue
          else
            if full_backref node then continue
            else if parent_root =? root then Some 0%nat
            else continue
      end
  end.

Definition find_tree_backref (rec : extent_record) (parent root : Z)
    : option nat :=
  find_tree_backref_loop (backrefs rec) parent root.

(** [alloc_tree_backref]: the new back reference goes to the tail of the
    list. *)
Definition alloc_tree_backref (rec : extent_record) (parent root : Z)
    : nat * extent_record :=
  let ref :=
    if 0 <? parent then
      tree_backref {| found_extent_tree := false; full_backref := true;
                      found_ref := false |} parent
    else
      tree_backref {| found_extent_tree := false; full_backref := false;
                      found_ref := false |} root in
  (length (backrefs rec), set_backrefs (backrefs rec ++ [ref]) rec).

(** The loop of [find_data_backref]. *)
Fixpoint find_data_backref_loop (cur : list backref)
    (parent root owner offset found_ref bytes : Z) : option nat :=
  match cur with
  | [] => None
  | back :: next =>
      let continue :=
        S <$> find_data_backref_loop next parent root owner offset
                found_ref bytes in
      match back with
      | tree_backref _ _ => continue
      | data_backref node parent_root back_owner back_offset back_bytes _ _ =>
          if 0 <? parent then
            if negb (full_backref node) then continue
            else if parent =? parent_root then Some 0%nat
            else continue
          else
            if full_backref node then continue
            else if (parent_root =? root) && (back_owner =? owner) &&
                    (back_offset =? offset) then
              if negb (found_ref =? 0) && Extent.found_ref node &&
                 negb (back_bytes =? bytes)
              then continue
              else Some 0%nat
            else continue
      end
  end.

Definition find_data_backref (rec : extent_record)
    (parent root owner offset found_ref bytes : Z) : option nat :=
  find_data_backref_loop (backrefs rec) parent root owner offset found_ref
    bytes.

(** [alloc_data_backref] *)
Definition alloc_data_backref (rec : extent_record)
    (parent root owner offset max_size : Z) : nat * extent_record :=
  let ref :=
    if 0 <? parent then
      data_backref {| found_extent_tree := false; full_backref := true;
                      found_ref := false |} parent 0 0 max_size 0 0
    else
      data_backref {| found_extent_tree := false; full_backref := false;
                      found_ref := false |} root owner offset max_size 0 0 in
  let back := length (backrefs rec) in
  let rec := set_backrefs (backrefs rec ++ [ref]) rec in
  (back,
   if Extent.max_size rec <? max_size then set_max_size max_size rec else rec).

(** The record that [add_extent_rec] makes when the cache has none for the
    range ([parent_key] and the fields the checker fills in later are not
    part of [extent_record] here; the count [bytes_used] is left out).
    [rec->metadata = metadata] stores an [int] in a bit-field of one bit,
    which keeps its lowest bit; the other bit-fields are set to 0 or 1 under
    a test. *)
Definition new_extent_rec (start nr extent_item_refs is_root inc_ref
    set_checked metadata max_size : Z) : extent_record :=
  {| backrefs := []; start := start; max_size := max_size;
     nr := Z.max nr max_size;
     refs := if negb (inc_ref =? 0) then 1 else 0;
     extent_item_refs :=
       if negb (extent_item_refs =? 0) then extent_item_refs else 0;
     content_checked := negb (set_checked =? 0);
     owner_ref_checked := negb (set_checked =? 0);
     is_root := negb (is_root =? 0);
     metadata := Z.odd metadata |}.

(** [add_tree_backref], given what [find_cache_extent(extent_cache, bytenr,
    1)] finds: the record of the cache whose range holds [bytenr], if there
    is one.  The result is the record after the call, [None] for
    [abort()]. *)
Definition add_tree_backref (found : option extent_record)
    (bytenr parent root found_ref : Z) : option extent_record :=
  let rec :=
    match found with
    | Some rec => rec
    | None => new_extent_rec bytenr 1 0 0 0 0 1 0
    end in
  if negb (start rec =? bytenr) then None
  else
    let '(back, rec) :=
      match find_tree_backref rec parent root with
      | Some back => (back, rec)
      | None => alloc_tree_backref rec parent root
      end in
    let write (b : backref) : backref :=
      match b with
      | tree_backref node parent_root =>
          if negb (found_ref =? 0)
          then tree_backref (set_found_ref true node) parent_root
          else tree_backref (set_found_extent_tree true node) parent_root
      | data_backref _ _ _ _ _ _ _ => b
      end in
    Some (set_backrefs (alter write back (backrefs rec)) rec).

(** [add_data_backref], in the same way; [None] is [abort()] or a
    [BUG_ON]. *)
Definition add_data_backref (found : option extent_record)
    (bytenr parent root owner offset num_refs found_ref max_size : Z)
    : option extent_record :=
  let rec :=
    match found with
    | Some rec => rec
    | None => new_extent_rec bytenr 1 0 0 0 0 0 max_size
    end in
  if negb (start rec =? bytenr) then None
  else
    let rec :=
      if Extent.max_size rec <? max_size then set_max_size max_size rec
      else rec in
    let '(back, rec) :=
      match find_data_backref rec parent root owner offset found_ref
              max_size with
      | Some back => (back, rec)
      | None => alloc_data_backref rec parent root owner offset max_size
      end in
    match backrefs rec !! back with
    | Some (data_backref node parent_root back_owner back_offset back_bytes
              back_num_refs back_found_ref) =>
        if negb (found_ref =? 0) then
          if negb (num_refs =? 1) then None
          else if Extent.found_ref node && negb (back_bytes =? max_size)
          then None
          else
            Some (set_backrefs
                    (<[back := data_backref (set_found_ref true node)
                                 parent_root back_owner back_offset max_size
                                 back_num_refs (to_u32 (back_found_ref + 1))]>
                       (backrefs rec)) rec)
        else
          Some (set_backrefs
                  (<[back := data_backref (set_found_extent_tree true node)
                               parent_root back_owner back_offset back_bytes
                               num_refs back_found_ref]>
                     (backrefs rec)) rec)
    | _ => None
    end.

(** [maybe_free_extent_rec]: [None] is the record removed from the cache
    and freed, [Some rec] the record kept.  The function returns 0 in both
    cases. *)
Definition maybe_free_extent_rec (rec : extent_record)
    : option extent_record :=
  if content_checked rec && owner_ref_checked rec &&
     (extent_item_refs rec =? refs rec) && (0 <? refs rec) &&
     (all_backpointers_checked rec 0 =? 0)
  then None else Some rec.

(** [add_extent_rec], given what [find_cache_extent(extent_cache, start,
    nr)] finds.  The result is the return value and the record of the cache
    after the call, [None] for a record that [maybe_free_extent_rec] removed
    and freed.  ([parent_key] is not part of [extent_record] here; the
    insertion of a new record into a cache that has none for the range
    succeeds.) *)
Definition add_extent_rec (found : option extent_record)
    (start nr extent_item_refs is_root inc_ref set_checked metadata
     extent_rec max_size : Z) : Z * option extent_record :=
  match found with
  | Some rec =>
      let rec :=
        if negb (inc_ref =? 0) then set_refs (wrap64 (refs rec + 1)) rec
        else rec in
      let rec :=
        if Extent.nr rec =? 1 then set_nr (Z.max nr max_size) rec else rec in
      let rec := if negb (extent_rec =? 0) then set_nr nr rec else rec in
      let ret := if negb (start =? Extent.start rec) then 1 else 0 in
      let rec :=
        if negb (extent_item_refs =? 0)
        then set_extent_item_refs extent_item_refs rec else rec in
      let rec := if negb (is_root =? 0) then set_is_root true rec else rec in
      let rec :=
        if negb (set_checked =? 0)
        then set_owner_ref_checked true (set_content_checked true rec)
        else rec in
      let rec :=
        if Extent.max_size rec <? max_size then set_max_size max_size rec
        else rec in
      (ret, maybe_free_extent_rec rec)
  | None =>
      (0, Some (new_extent_rec start nr extent_item_refs is_root inc_ref
                  set_checked metadata max_size))
  end.

(** The calls of [run_next_block] for one file extent item of a leaf that
    points to the extent at [disk_bytenr] of [disk_num_bytes] bytes:
    [add_extent_rec(extent_cache, NULL, disk_bytenr, disk_num_bytes, 0, 0,
    1, 1, 0, 0, disk_num_bytes)], [add_data_backref(extent_cache,
    disk_bytenr, parent, owner, key.objectid, key.offset - extent_offset, 1,
    1, disk_num_bytes)] and [BUG_ON(ret)].  [offset] is [key.offset -
    extent_offset].  The walker makes them for a file extent that is not
    inline and whose [disk_bytenr] is not 0; the byte counts it adds up
    before them ([data_bytes_allocated], with its own [abort()], and
    [data_bytes_referenced]) are statistics that the records do not
    depend on and are left out. *)
Definition run_next_block_file_extent (found : option extent_record)
    (disk_bytenr disk_num_bytes parent owner objectid offset : Z)
    : option extent_record :=
  let '(ret, found) :=
    add_extent_rec found disk_bytenr disk_num_bytes 0 0 1 1 0 0
      disk_num_bytes in
  rec ← add_data_backref found disk_bytenr parent owner objectid offset 1 1
          disk_num_bytes;
  if negb (ret =? 0) then None else Some rec.

(** The calls of [process_extent_item] for an extent item with the key
    [(objectid, BTRFS_EXTENT_ITEM_KEY, num_bytes)] and the reference count
    [refs] that holds one inline reference of type
    [BTRFS_EXTENT_DATA_REF_KEY]. *)
Definition process_extent_item_data_ref (found : option extent_record)
    (objectid num_bytes refs ref_root ref_objectid ref_offset ref_count : Z)
    : option extent_record :=
  let '(_, found) :=
    add_extent_rec found objectid num_bytes refs 0 0 0 0 1 num_bytes in
  add_data_backref found objectid 0 ref_root ref_objectid ref_offset
    ref_count 0 num_bytes.

(** The loop of [is_extent_tree_record]; the state is [is_extent]. *)
Fixpoint is_extent_tree_record_loop (cur : list backref) (is_extent : Z)
    : Z :=
  match cur with
  | [] => is_extent
  | back :: next =>
      match back with
      | data_backref _ _ _ _ _ _ _ => 0
      | tree_backref node parent_root =>
          if full_backref node then 0
          else
            is_extent_tree_record_loop next
              (if parent_root =? Ctree.BTRFS_EXTENT_TREE_OBJECTID then 1
               else is_extent)
      end
  end.

Definition is_extent_tree_record (rec : extent_record) : Z :=
  is_extent_tree_record_loop (backrefs rec) 0.

End ExtentRefs.

(** ** ctree.c: changing a key in place, and stepping to the next leaf *)

Module CtreeWalk.
Import Ctree.

Definition set_items (v : list btrfs_item) (eb : extent_buffer)
    : extent_buffer :=
  {| eb_start := eb_start eb; eb_len := eb_len eb;
     btrfs_header_bytenr := btrfs_header_bytenr eb;
     btrfs_header_generation := btrfs_header_generation eb;
     btrfs_header_owner := btrfs_header_owner eb;
     btrfs_header_flags := btrfs_header_flags eb;
     btrfs_header_level := btrfs_header_level eb;
     btrfs_header_nritems := btrfs_header_nritems eb;
     items := v; ptrs := ptrs eb |}.
Definition set_ptrs (v : list btrfs_key_ptr) (eb : extent_buffer)
    : extent_buffer :=
  {| eb_start := eb_start eb; eb_len := eb_len eb;
     btrfs_header_bytenr := btrfs_header_bytenr eb;
     btrfs_header_generation := btrfs_header_generation eb;
     btrfs_header_owner := btrfs_header_owner eb;
     btrfs_header_flags := btrfs_header_flags eb;
     btrfs_header_level := btrfs_header_level eb;
     btrfs_header_nritems := btrfs_header_nritems eb;
     items := items eb; ptrs := v |}.

(** [btrfs_set_item_key] and [btrfs_set_node_key] write the key of one
    slot.  A slot outside the modelled array is left alone (the source
    writes past the array). *)
Definition btrfs_set_item_key (eb : extent_buffer) (key : btrfs_key)
    (nr : Z) : extent_buffer :=
  if nr <? 0 then eb
  else
    set_items
      (alter (λ it, {| item_key := key; item_offset := item_offset it;
                       item_size := item_size it |})
         (Z.to_nat nr) (items eb)) eb.
Definition btrfs_set_node_key (eb : extent_buffer) (key : btrfs_key)
    (nr : Z) : extent_buffer :=
  if nr <? 0 then eb
  else
    set_ptrs
      (alter (λ kp, {| ptr_key := key; blockptr := blockptr kp;
                       ptr_generation := ptr_generation kp |})
         (Z.to_nat nr) (ptrs eb)) eb.

(** The loop [for (i = level; i < BTRFS_MAX_LEVEL; i++)] of
    [fixup_low_keys]; it runs at most [BTRFS_MAX_LEVEL - level] times.  The
    function returns 0; the result here is the path with the blocks as the
    loop leaves them. *)
Fixpoint fixup_low_keys_loop (count : nat) (path : btrfs_path)
    (key : btrfs_key) (i : Z) : btrfs_path :=
  match count with
  | O => path
  | S count' =>
      let tslot := path_slot path i in
      match path_node path i with
      | None => path
      | Some t =>
          let path := set_path_node path i (btrfs_set_node_key t key tslot) in
          if negb (tslot =? 0) then path
          else fixup_low_keys_loop count' path key (i + 1)
      end
  end.

Definition fixup_low_keys (path : btrfs_path) (key : btrfs_key) (level : Z)
    : btrfs_path :=
  fixup_low_keys_loop (Z.to_nat (BTRFS_MAX_LEVEL - level)) path key level.

(** [btrfs_set_item_key_safe]: the return value and the path with the
    blocks as the call leaves them; [None] is the dereference of a [NULL]
    [path->nodes[0]].  The comparison [slot < btrfs_header_nritems(eb) - 1]
    is made on [u32]. *)
Definition btrfs_set_item_key_safe (path : btrfs_path) (new_key : btrfs_key)
    : option (Z * btrfs_path) :=
  eb ← path_node path 0;
  let slot := path_slot path 0 in
  if (0 <? slot) &&
     (0 <=? btrfs_comp_keys (btrfs_item_key eb (slot - 1)) new_key)
  then Some (-1, path)
  else if (to_u32 slot <? to_u32 (btrfs_header_nritems eb - 1)) &&
          (btrfs_comp_keys (btrfs_item_key eb (slot + 1)) new_key <=? 0)
  then Some (-1, path)
  else
    let path := set_path_node path 0 (btrfs_set_item_key eb new_key slot) in
    Some (0, if slot =? 0 then fixup_low_keys path new_key 1 else path).

(** What [read_node_slot] does, with the [BUG_ON] on a [parent] of level 0
    that [Ctree.read_node_slot] leaves to its caller. *)
Inductive read_outcome :=
| read_block (b : extent_buffer)
| read_null
| read_bug.

Definition read_node_slot_or_bug (blocks : gmap Z extent_buffer)
    (parent : extent_buffer) (slot : Z) : read_outcome :=
  if slot <? 0 then read_null
  else if btrfs_header_nritems parent <=? slot then read_null
  else if btrfs_header_level parent =? 0 then read_bug
  else
    match read_tree_block blocks (btrfs_node_blockptr parent slot) with
    | Some b => read_block b
    | None => read_null
    end.

(** How the first loop of [btrfs_next_leaf] ends. *)
Inductive climb_outcome :=
| climb_returns (ret : Z)
| climb_breaks (level slot : Z) (next : extent_buffer)
| climb_bug.

(** The loop [while (level < BTRFS_MAX_LEVEL)] of [btrfs_next_leaf]; it
    runs at most [BTRFS_MAX_LEVEL - level] times.  The comparison
    [slot >= btrfs_header_nritems(c)] is made on [u32].  Read-ahead is left
    out. *)
Fixpoint next_leaf_climb (count : nat) (blocks : gmap Z extent_buffer)
    (path : btrfs_path) (level : Z) : climb_outcome :=
  match count with
  | O => climb_bug
  | S count' =>
      match path_node path level with
      | None => climb_returns 1
      | Some c =>
          let slot := to_int (path_slot path level + 1) in
          if btrfs_header_nritems c <=? to_u32 slot then
            let level := level + 1 in
            if level =? BTRFS_MAX_LEVEL then climb_returns 1
            else next_leaf_climb count' blocks path level
          else
            match read_node_slot_or_bug blocks c slot with
            | read_block next => climb_breaks level slot next
            | read_null => climb_returns (- EIO)
            | read_bug => climb_bug
            end
      end
  end.

(** The loop [while (1)] of [btrfs_next_leaf], entered with [level] at
    least 1 (the first loop breaks at such a level); [None] is a
    [BUG_ON]. *)
Fixpoint next_leaf_descend (level : nat) (blocks : gmap Z extent_buffer)
    (path : btrfs_path) (next : extent_buffer) : option (Z * btrfs_path) :=
  match level with
  | O => None
  | S level' =>
      let path := set_path_node path (Z.of_nat level') next in
      let path := set_path_slot path (Z.of_nat level') 0 in
      match level' with
      | O => Some (0, path)
      | S _ =>
          match read_node_slot_or_bug blocks next 0 with
          | read_block next => next_leaf_descend level' blocks path next
          | read_null => Some (- EIO, path)
          | read_bug => None
          end
      end
  end.

(** [btrfs_next_leaf]: the return value and the path after the call. *)
Definition btrfs_next_leaf (blocks : gmap Z extent_buffer)
    (path : btrfs_path) : option (Z * btrfs_path) :=
  match next_leaf_climb (Z.to_nat (BTRFS_MAX_LEVEL - 1)) blocks path 1 with
  | climb_returns ret => Some (ret, path)
  | climb_bug => None
  | climb_breaks level slot next =>
      let path := set_path_slot path level slot in
      next_leaf_descend (Z.to_nat level) blocks path next
  end.

End CtreeWalk.

(* ===================================================================== *)
(** * Part II: the vocabulary of the specification                        *)
(* ===================================================================== *)

Module ExtentSpec.
Import Extent.

(** The conditions of the specification on one back reference. *)
Definition backref_checked (rec_nr : Z) (b : backref) : Prop :=
  found_extent_tree (node b) = true ∧
  (is_data b = true ∨ found_ref (node b) = true) ∧
  match b with
  | tree_backref _ _ => True
  | data_backref _ _ _ _ bytes num_refs dfound =>
      dfound = num_refs ∧ bytes = rec_nr
  end.

(** The reference count a back reference stands for. *)
Definition ref_count (b : backref) : Z :=
  match b with
  | tree_backref _ _ => 1
  | data_backref _ _ _ _ _ _ dfound => dfound
  end.

Definition total_found (l : list backref) : Z :=
  foldr (λ b acc, ref_count b + acc) 0 l.

End ExtentSpec.

Module CtreeSpec.
Import Ctree.

(** The three conditions of the specification under which a block is
    copied. *)
Definition cow_required (trans : btrfs_trans_handle) (root : btrfs_root)
    (buf : extent_buffer) : Prop :=
  btrfs_header_generation buf ≠ transid trans ∨
  btrfs_header_flag buf BTRFS_HEADER_FLAG_WRITTEN = true ∨
  (root_key_objectid root ≠ BTRFS_TREE_RELOC_OBJECTID ∧
   btrfs_header_flag buf BTRFS_HEADER_FLAG_RELOC = true).

(** A copy-on-write is performed when [btrfs_cow_block] reaches the call of
    [__btrfs_cow_block] on the buffer it was given. *)
Definition cow_performed (buf : extent_buffer) (o : cow_outcome) : Prop :=
  match o with
  | cow_returns _ _ => False
  | cow_calls___btrfs_cow_block b _ _ _ _ => b = buf
  end.

(** Invariant I1 of the specification on one leaf: the keys of adjacent
    slots increase strictly, every item's data starts where the data of the
    next item ends, and the data of item 0 ends at [BTRFS_LEAF_DATA_SIZE]
    (so the payloads fill the area from [leaf_data_end] up without gap or
    overlap). *)
Definition leaf_invariant_I1 (root : btrfs_root) (buf : extent_buffer)
    : Prop :=
  (∀ i, 0 ≤ i < btrfs_header_nritems buf - 1 →
        btrfs_comp_keys (btrfs_item_key buf i) (btrfs_item_key buf (i + 1)) < 0 ∧
        btrfs_item_offset_nr buf i = btrfs_item_end_nr buf (i + 1)) ∧
  (0 < btrfs_header_nritems buf →
   btrfs_item_end_nr buf 0 = BTRFS_LEAF_DATA_SIZE root).

Definition root_4k (node : extent_buffer) : btrfs_root :=
  {| root_key_objectid := 5; leafsize := 4096; nodesize := 4096;
     root_node := node; fs_info_generation := 7 |}.

Definition mk_key (o : Z) : btrfs_key :=
  {| objectid := o; type := 1; offset := 0 |}.

(** A leaf of two items whose keys are in the wrong order and whose data
    neither touch nor reach the end of the data area. *)
Definition unsorted_leaf : extent_buffer :=
  {| eb_start := 1048576; eb_len := 4096;
     btrfs_header_bytenr := 1048576; btrfs_header_generation := 7;
     btrfs_header_owner := 5; btrfs_header_flags := 0;
     btrfs_header_level := 0; btrfs_header_nritems := 2;
     items := [ {| item_key := mk_key 9; item_offset := 3000; item_size := 10 |};
                {| item_key := mk_key 3; item_offset := 2000; item_size := 10 |} ];
     ptrs := [] |}.

(** *** Ordered trees *)

(** The total order on keys: lexicographic on (objectid, type, offset). *)
Definition key_lt (a b : btrfs_key) : Prop :=
  objectid a < objectid b ∨
  (objectid a = objectid b ∧
   (type a < type b ∨ (type a = type b ∧ offset a < offset b))).

Definition key_le (a b : btrfs_key) : Prop := key_lt a b ∨ a = b.

(** Optional bounds: [None] is no bound. *)
Definition above (lo : option btrfs_key) (k : btrfs_key) : Prop :=
  match lo with Some l => key_le l k | None => True end.
Definition below (hi : option btrfs_key) (k : btrfs_key) : Prop :=
  match hi with Some h => key_lt k h | None => True end.

(** The keys of slots [0 .. n-1] increase strictly. *)
Definition keys_sorted (key_at : Z → btrfs_key) (n : Z) : Prop :=
  ∀ i j, 0 ≤ i → i < j → j < n → key_lt (key_at i) (key_at j).

Definition keys_within (key_at : Z → btrfs_key) (n : Z)
    (lo hi : option btrfs_key) : Prop :=
  ∀ i, 0 ≤ i < n → above lo (key_at i) ∧ below hi (key_at i).

(** The upper bound of the subtree below slot [i] of node [b]: the key of
    the next slot, or the bound of the node itself for the last slot. *)
Definition next_bound (b : extent_buffer) (i : Z) (hi : option btrfs_key)
    : option btrfs_key :=
  if i + 1 <? btrfs_header_nritems b then Some (btrfs_node_key b (i + 1))
  else hi.

(** [tree_ok blocks root level b lo hi]: the subtree of height [level] at
    block [b], reached through a parent slot with key [lo] (or the root of
    the tree for [None]), reads and validates, and is ordered: every block
    passes the validator of its level, the keys in every block increase
    strictly and lie in [[lo, hi)], and the subtree below each slot of a
    node lies between the key of that slot and the key of the next. *)
Fixpoint tree_ok (blocks : gmap Z extent_buffer) (root : btrfs_root)
    (level : nat) (b : extent_buffer) (lo hi : option btrfs_key) : Prop :=
  btrfs_header_level b = Z.of_nat level ∧
  0 ≤ btrfs_header_nritems b < 2 ^ 31 ∧
  match level with
  | O =>
      btrfs_check_leaf root lo b = 0 ∧
      keys_sorted (btrfs_item_key b) (btrfs_header_nritems b) ∧
      keys_within (btrfs_item_key b) (btrfs_header_nritems b) lo hi
  | S level' =>
      btrfs_check_node root lo b = 0 ∧
      keys_sorted (btrfs_node_key b) (btrfs_header_nritems b) ∧
      keys_within (btrfs_node_key b) (btrfs_header_nritems b) lo hi ∧
      ∀ i, 0 ≤ i < btrfs_header_nritems b →
        ∃ c, read_tree_block blocks (btrfs_node_blockptr b i) = Some c ∧
             tree_ok blocks root level' c (Some (btrfs_node_key b i))
               (next_bound b i hi)
  end.

(** [reads_and_validates blocks root level b pk]: every block of the subtree
    at [b] can be read and passes the validator the search applies to it,
    with the key [pk] of the parent slot it hangs from; nothing more. *)
Fixpoint reads_and_validates (blocks : gmap Z extent_buffer)
    (root : btrfs_root) (level : nat) (b : extent_buffer)
    (pk : option btrfs_key) : Prop :=
  btrfs_header_level b = Z.of_nat level ∧
  match level with
  | O => btrfs_check_leaf root pk b = 0
  | S level' =>
      btrfs_check_node root pk b = 0 ∧
      ∀ i, 0 ≤ i < btrfs_header_nritems b →
        ∃ c, read_tree_block blocks (btrfs_node_blockptr b i) = Some c ∧
             reads_and_validates blocks root level' c
               (Some (btrfs_node_key b i))
  end.

(** The key is stored in a leaf of the subtree of height [level] at [b]. *)
Fixpoint key_in_tree (blocks : gmap Z extent_buffer) (level : nat)
    (b : extent_buffer) (key : btrfs_key) : Prop :=
  match level with
  | O => ∃ i, 0 ≤ i < btrfs_header_nritems b ∧ btrfs_item_key b i = key
  | S level' =>
      ∃ i c, 0 ≤ i < btrfs_header_nritems b ∧
             read_tree_block blocks (btrfs_node_blockptr b i) = Some c ∧
             key_in_tree blocks level' c key
  end.

(** The path describes a descent from block [top] at level [level] down to
    a leaf: each node of the path is the child that the slot of the node
    above points to. *)
Definition path_descent (blocks : gmap Z extent_buffer) (p : btrfs_path)
    (level : Z) (top : extent_buffer) : Prop :=
  path_node p level = Some top ∧
  ∀ l, 0 ≤ l < level →
    ∃ parent child,
      path_node p (l + 1) = Some parent ∧ path_node p l = Some child ∧
      0 ≤ path_slot p (l + 1) < btrfs_header_nritems parent ∧
      read_tree_block blocks
        (btrfs_node_blockptr parent (path_slot p (l + 1))) = Some child ∧
      btrfs_header_level child = l.

(** What the specification says of the result: 0 with the slot at the key
    when the key is in the tree, 1 with the slot at the insertion point
    (the slot of the first greater key) when it is not. *)
Definition search_outcome (blocks : gmap Z extent_buffer) (level : nat)
    (top : extent_buffer) (key : btrfs_key) (ret : Z) (leaf : extent_buffer)
    (slot : Z) : Prop :=
  (key_in_tree blocks level top key ∧ ret = 0 ∧
   0 ≤ slot < btrfs_header_nritems leaf ∧ btrfs_item_key leaf slot = key) ∨
  (¬ key_in_tree blocks level top key ∧ ret = 1 ∧
   0 ≤ slot ≤ btrfs_header_nritems leaf ∧
   (∀ i, 0 ≤ i < slot → key_lt (btrfs_item_key leaf i) key) ∧
   (∀ i, slot ≤ i < btrfs_header_nritems leaf →
         key_lt key (btrfs_item_key leaf i))).

(** The statement of the specification about the read-only search, for
    trees of which only reading and validation is known. *)
Definition search_slot_claim : Prop :=
  ∀ (blocks : gmap Z extent_buffer) (root : btrfs_root) (key : btrfs_key)
    (level : nat),
    (level < 8)%nat →
    reads_and_validates blocks root level (root_node root) None →
    ∃ ret p leaf,
      btrfs_search_slot (S level) blocks root key btrfs_init_path 0 0 =
        search_returns ret p ∧
      path_descent blocks p (Z.of_nat level) (root_node root) ∧
      path_node p 0 = Some leaf ∧
      search_outcome blocks level (root_node root) key ret leaf
        (path_slot p 0).

(** A tree of height 1 all of whose blocks are valid and sorted, but whose
    left leaf holds a key (20) beyond the key of the next slot of the
    root (10). *)
Definition mk_leaf (bytenr : Z) (ks : list Z) : extent_buffer :=
  {| eb_start := bytenr; eb_len := 4096;
     btrfs_header_bytenr := bytenr; btrfs_header_generation := 7;
     btrfs_header_owner := 5; btrfs_header_flags := 0;
     btrfs_header_level := 0;
     btrfs_header_nritems := Z.of_nat (length ks);
     items :=
       imap (λ i k, {| item_key := mk_key k;
                       item_offset := 3995 - 10 * (Z.of_nat i + 1);
                       item_size := 10 |}) ks;
     ptrs := [] |}.

Definition mk_node (bytenr : Z) (children : list (Z * Z)) : extent_buffer :=
  {| eb_start := bytenr; eb_len := 4096;
     btrfs_header_bytenr := bytenr; btrfs_header_generation := 7;
     btrfs_header_owner := 5; btrfs_header_flags := 0;
     btrfs_header_level := 1;
     btrfs_header_nritems := Z.of_nat (length children);
     items := [];
     ptrs := (λ c, {| ptr_key := mk_key c.1; blockptr := c.2;
                      ptr_generation := 7 |}) <$> children |}.

Definition stray_left : extent_buffer := mk_leaf 8192 [1; 20].
Definition stray_right : extent_buffer := mk_leaf 12288 [10; 11].
Definition stray_top : extent_buffer := mk_node 4096 [(1, 8192); (10, 12288)].
Definition stray_blocks : gmap Z extent_buffer :=
  <[8192 := stray_left]> (<[12288 := stray_right]> ∅).

(** The same tree with the stray key replaced: an ordered tree. *)
Definition tidy_left : extent_buffer := mk_leaf 8192 [1; 5].
Definition tidy_blocks : gmap Z extent_buffer :=
  <[8192 := tidy_left]> (<[12288 := stray_right]> ∅).

(** The result of the binary search, in the shape of [search_outcome]. *)
Definition bin_search_found (key_at : Z → btrfs_key) (n : Z)
    (key : btrfs_key) (r : Z * Z) : Prop :=
  (r.1 = 0 ∧ 0 ≤ r.2 < n ∧ key_at r.2 = key) ∨
  (r.1 = 1 ∧ 0 ≤ r.2 ≤ n ∧
   (∀ i, 0 ≤ i < r.2 → key_lt (key_at i) key) ∧
   (∀ i, r.2 ≤ i < n → key_lt key (key_at i))).

(** The key that [check_block] takes from the path for the block at
    [level]: the key of the parent slot, if the path has a parent. *)
Definition parent_key_of (p : btrfs_path) (level : Z) : option btrfs_key :=
  match path_node p (level + 1) with
  | Some parent => Some (btrfs_node_key parent (path_slot p (level + 1)))
  | None => None
  end.

(** The slot of a node in which the search descends, from the result of
    the binary search in the node. *)
Definition descent_slot (r : Z * Z) : Z :=
  if negb (r.1 =? 0) && (0 <? r.2) then r.2 - 1 else r.2.

End CtreeSpec.

Module InodeSpec.
Import Inode.







(** *** Merging *)

(** Two records are the same merged record: all fields agree, the back
    reference lists up to their order.  ([refs], the number of caches that
    hold the record, is not part of what was merged.) *)
Definition same_record (a b : inode_record) : Prop :=
  backrefs a ≡ₚ backrefs b ∧
  checked a = checked b ∧
  merging a = merging b ∧
  found_inode_item a = found_inode_item b ∧
  found_dir_item a = found_dir_item b ∧
  found_file_extent a = found_file_extent b ∧
  found_csum_item a = found_csum_item b ∧
  some_csum_missing a = some_csum_missing b ∧
  nodatasum a = nodatasum b ∧
  errors a = errors b ∧
  ino a = ino b ∧
  nlink a = nlink b ∧
  imode a = imode b ∧
  isize a = isize b ∧
  nbytes a = nbytes b ∧
  found_link a = found_link b ∧
  found_size a = found_size b ∧
  extent_start a = extent_start b ∧
  extent_end a = extent_end b ∧
  first_extent_gap a = first_extent_gap b.

(** The statement of the specification: merging [B] into [A] and merging
    [A] into [B] give the same record. *)
Definition merge_commutes_claim : Prop :=
  ∀ (A B A' B' : inode_record) (cacheA cacheB cacheA' cacheB' : gmap Z inode_record),
    ino A = ino B → refs A = 1 → refs B = 1 →
    cacheA !! ino A = Some A → cacheB !! ino B = Some B →
    merge_inode_recs B A cacheA = Some cacheA' →
    merge_inode_recs A B cacheB = Some cacheB' →
    cacheA' !! ino A = Some A' → cacheB' !! ino B = Some B' →
    same_record A' B'.

(** The record [process_file_extent] builds on a new record from one
    extent item of an inode: a regular extent of [len] bytes at file offset
    [off], on disk and covered by checksums. *)
Definition rec_of_extent (ino off len : Z) : inode_record :=
  set_found_csum_item true
    (set_found_file_extent true
       (set_found_size len
          (set_extent_end (off + len)
             (set_extent_start off (new_inode_rec ino))))).

(** Inode 257 has two extents, at 0 and at 8192; one walker saw the first,
    the other the second. *)
Definition low_part : inode_record := rec_of_extent 257 0 4096.
Definition high_part : inode_record := rec_of_extent 257 8192 4096.

(** The fields of a merged record that do not depend on the direction of
    the merge: the two counters, the [found_*] flags, and the error bits up
    to [I_ERR_FILE_EXTENT_OVERLAP]. *)
Definition symmetric_fields (a b : inode_record) : Prop :=
  found_link a = found_link b ∧ found_size a = found_size b ∧
  found_inode_item a = found_inode_item b ∧
  found_dir_item a = found_dir_item b ∧
  found_file_extent a = found_file_extent b ∧
  found_csum_item a = found_csum_item b ∧
  some_csum_missing a = some_csum_missing b ∧
  merging a = false ∧ merging b = false ∧
  Z.lor (errors a) I_ERR_FILE_EXTENT_OVERLAP =
    Z.lor (errors b) I_ERR_FILE_EXTENT_OVERLAP.

(** What a back reference of an inode is filed under: the directory and
    the name. *)
Definition backref_name (b : Ref.inode_backref) : Z * Z * list Z :=
  (Ref.dir b, Ref.namelen b,
   take (Z.to_nat (Ref.namelen b)) (Ref.name b)).

(** No two back references of the record have the same directory and
    name. *)
Definition names_unique (rec : inode_record) : Prop :=
  NoDup (backref_name <$> backrefs rec).

(** The ways a name was seen: as dir item, as dir index, as inode ref. *)
Definition seen (b : Ref.inode_backref) : bool * bool * bool :=
  (Ref.found_dir_item b, Ref.found_dir_index b, Ref.found_inode_ref b).

(** What the merge of two records does not lose or invent of a back
    reference: its name and the ways it was seen. *)
Definition link_view (b : Ref.inode_backref)
    : (Z * Z * list Z) * (bool * bool * bool) :=
  (backref_name b, seen b).

(** A back reference as [add_inode_backref] leaves them: the length of
    the name is that of a [u16], and the name was seen in some way. *)
Definition filed (b : Ref.inode_backref) : Prop :=
  0 ≤ Ref.namelen b < 2 ^ 16 ∧
  Ref.found_dir_item b || Ref.found_dir_index b || Ref.found_inode_ref b =
    true.

(** A record as [add_inode_backref] leaves them: one back reference for
    each name, each of them filed. *)
Definition tidy (rec : inode_record) : Prop :=
  names_unique rec ∧ Forall filed (backrefs rec).

(** The fields of a record that come from the inode item. *)
Definition item_view (r : inode_record) : Z * Z * Z * Z * bool :=
  (nlink r, isize r, nbytes r, imode r, nodatasum r).

(** The record has seen no file extent. *)
Definition no_extent (r : inode_record) : Prop := extent_start r = U64_MAX.

(** What more the merged records [a'] (of [b] into [a]) and [b'] (of [a]
    into [b]) agree on, and when:
    - [extent_end] (that of the record with an extent, the greater one
      when both have one), in all cases but one: neither record has seen
      an extent and they differ on it;
    - [extent_start], exactly when at most one of the records has seen an
      extent or both start at the same offset;
    - [first_extent_gap] and all error bits, when at most one of the
      records has seen an extent;
    - the fields of the inode item, in all cases but one: both records
      carry the item, or neither does, and they differ on these fields;
    - the back references, by name and by the ways each name was seen, up
      to the order of the list, when neither record carries the inode item
      (so that nothing is pruned during the merge) and both are tidy; the
      merged records are then tidy again. *)
Definition symmetric_more (a b a' b' : inode_record) : Prop :=
  ino a' = ino b' ∧
  (extent_end a' = extent_end b' ↔
   (no_extent a → no_extent b → extent_end a = extent_end b)) ∧
  (extent_start a' = extent_start b' ↔
   no_extent a ∨ no_extent b ∨ extent_start a = extent_start b) ∧
  (no_extent a ∨ no_extent b →
   first_extent_gap a' = first_extent_gap b' ∧ errors a' = errors b') ∧
  (item_view a' = item_view b' ↔
   (found_inode_item a = found_inode_item b → item_view a = item_view b)) ∧
  (found_inode_item a = false → found_inode_item b = false →
   tidy a → tidy b →
   tidy a' ∧ tidy b' ∧
   link_view <$> backrefs a' ≡ₚ link_view <$> backrefs b').

(** The back references [l] of a record without inode item after the back
    reference [s] of another record was merged into them: the calls of
    [add_inode_backref] that [merge_inode_recs] makes for [s], none of
    which prunes the list. *)
Definition filed_into (s : Ref.inode_backref) (l : list Ref.inode_backref)
    : list Ref.inode_backref :=
  let l :=
    if Ref.found_dir_index s
    then get_inode_backref
           (note_item (Ref.index s) (Ref.filetype s) BTRFS_DIR_INDEX_KEY
              (Ref.errors s))
           (Ref.name s) (Ref.namelen s) (Ref.dir s) l
    else l in
  let l :=
    if Ref.found_dir_item s
    then get_inode_backref
           (note_item 0 (Ref.filetype s) BTRFS_DIR_ITEM_KEY (Ref.errors s))
           (Ref.name s) (Ref.namelen s) (Ref.dir s) l
    else l in
  if Ref.found_inode_ref s
  then get_inode_backref
         (note_item (Ref.index s) 0 (Ref.ref_type s) (Ref.errors s))
         (Ref.name s) (Ref.namelen s) (Ref.dir s) l
  else l.

(** The union of the ways a name was seen. *)
Definition seen_either (x y : bool * bool * bool)
    : option (bool * bool * bool) :=
  Some (x.1.1 || y.1.1, x.1.2 || y.1.2, x.2 || y.2).

(** The number of back references of a record that were seen as dir
    item. *)
Definition dir_item_count (l : list Ref.inode_backref) : Z :=
  Z.of_nat (length (filter (λ b, Ref.found_dir_item b = true) l)).
Definition dir_items (rec : inode_record) : Z :=
  dir_item_count (backrefs rec).

(** A record that [merge_inode_recs] accepts as [src] without running into
    a [BUG_ON]: back references seen as inode ref carry the key type of
    one, and [found_link] counts at least the dir items. *)
Definition mergeable (rec : inode_record) : Prop :=
  Forall (λ b, Ref.found_inode_ref b = true →
               Ref.ref_type b = BTRFS_INODE_REF_KEY ∨
               Ref.ref_type b = BTRFS_INODE_EXTREF_KEY) (backrefs rec) ∧
  dir_items rec ≤ found_link rec < 2 ^ 32.

(** Agreement on all fields but [backrefs] and [found_link]. *)
Definition same_scalars (a b : inode_record) : Prop :=
  set_backrefs [] (set_found_link 0 a) = set_backrefs [] (set_found_link 0 b).

(** A file with one name, seen by one walker as dir item and dir index and
    by the other as inode ref. *)
Definition name_a : list Z := [97].
Definition dir_side : inode_record :=
  set_found_link 1
    (set_backrefs
       [ {| Ref.found_dir_item := true; Ref.found_dir_index := true;
            Ref.found_inode_ref := false; Ref.filetype := 1;
            Ref.errors := 0; Ref.ref_type := 0; Ref.dir := 256;
            Ref.index := 2; Ref.namelen := 1; Ref.name := name_a |} ]
       (new_inode_rec 257)).
Definition ref_side : inode_record :=
  set_backrefs
    [ {| Ref.found_dir_item := false; Ref.found_dir_index := false;
         Ref.found_inode_ref := true; Ref.filetype := 0;
         Ref.errors := 0; Ref.ref_type := BTRFS_INODE_REF_KEY;
         Ref.dir := 256; Ref.index := 2; Ref.namelen := 1;
         Ref.name := name_a |} ]
    (new_inode_rec 257).

(** One walker saw the inode item of a regular file with one link, the
    other the three items of that link. *)
Definition item_side : inode_record :=
  set_nlink 1
    (set_imode S_IFREG (set_found_inode_item true (new_inode_rec 257))).
Definition link_side : inode_record :=
  set_found_link 1
    (set_backrefs
       [ {| Ref.found_dir_item := true; Ref.found_dir_index := true;
            Ref.found_inode_ref := true; Ref.filetype := 1;
            Ref.errors := 0; Ref.ref_type := BTRFS_INODE_REF_KEY;
            Ref.dir := 256; Ref.index := 2; Ref.namelen := 1;
            Ref.name := name_a |} ]
       (new_inode_rec 257)).

(** Two walkers saw the dir index of one name, with different indices and
    file types; the first also saw its dir item and inode ref. *)
Definition first_sight : inode_record :=
  set_found_link 1
    (set_backrefs
       [ {| Ref.found_dir_item := true; Ref.found_dir_index := true;
            Ref.found_inode_ref := true; Ref.filetype := 1;
            Ref.errors := 0; Ref.ref_type := BTRFS_INODE_REF_KEY;
            Ref.dir := 256; Ref.index := 5; Ref.namelen := 1;
            Ref.name := name_a |} ]
       (new_inode_rec 257)).
Definition second_sight : inode_record :=
  set_backrefs
    [ {| Ref.found_dir_item := false; Ref.found_dir_index := true;
         Ref.found_inode_ref := false; Ref.filetype := 2;
         Ref.errors := 0; Ref.ref_type := 0; Ref.dir := 256;
         Ref.index := 7; Ref.namelen := 1; Ref.name := name_a |} ]
    (new_inode_rec 257).

(** The two merged records of [a] and [b], when both merges succeed. *)
Definition merged_both (a b : inode_record) (a' b' : inode_record) : Prop :=
  ∃ cache_a cache_b,
    merge_inode_recs b a {[ ino a := a ]} = Some cache_a ∧
    merge_inode_recs a b {[ ino b := b ]} = Some cache_b ∧
    cache_a !! ino a = Some a' ∧ cache_b !! ino b = Some b'.

(** The item types [add_inode_backref] accepts. *)
Definition valid_itemtype (itemtype : Z) : Prop :=
  itemtype = BTRFS_DIR_INDEX_KEY ∨ itemtype = BTRFS_DIR_ITEM_KEY ∨
  itemtype = BTRFS_INODE_REF_KEY ∨ itemtype = BTRFS_INODE_EXTREF_KEY.

(** The fields [symmetric_fields] speaks of, as a tuple. *)
Definition sym_view (r : inode_record) :=
  (found_link r, found_size r, found_inode_item r, found_dir_item r,
   found_file_extent r, found_csum_item r, some_csum_missing r).

End InodeSpec.

Module CmdsRestoreSpec.
Import CmdsRestore.

(** *** Mirrors *)

(** A compressed extent of 8 bytes at logical address 4096. *)
Definition packed_extent : file_extent :=
  {| compression := 1; disk_bytenr := 4096; disk_num_bytes := 8;
     ram_bytes := 16; extent_offset := 0 |}.

(** Devices on which every read succeeds in full, every block has
    [copies] mirrors, and the data does not decompress. *)
Definition garbled (copies : Z) : devices :=
  {| btrfs_map_block := λ mirror_num logical length,
       (0, length, 3 + mirror_num, logical);
     pread := λ dev_fd length offset,
       (length, replicate (Z.to_nat length) 0);
     btrfs_num_copies := λ logical length, copies;
     decompress := λ inbuf compress_len ram_size compress,
       (-1, ram_size, []);
     pwrite := λ fd buf count offset, count |}.

(** Devices with [copies] mirrors on which every read comes back empty. *)
Definition unreadable (copies : Z) : devices :=
  {| btrfs_map_block := λ mirror_num logical length,
       (0, length, 3 + mirror_num, logical);
     pread := λ dev_fd length offset, (0, []);
     btrfs_num_copies := λ logical length, copies;
     decompress := λ inbuf compress_len ram_size compress,
       (0, ram_size, replicate (Z.to_nat ram_size) 0);
     pwrite := λ fd buf count offset, count |}.

(** *** Loop guards *)


(** A character that ends the dialogue of [ask_to_continue]: a newline,
    [n], [N], [y] or [Y]. *)
Definition decisive (c : Z) : bool :=
  (c =? 10) || (tolower c =? 110) || (tolower c =? 121).

(** The answer a decisive character stands for: 0 to go on, 1 to stop. *)
Definition answer (c : Z) : Z := if tolower c =? 121 then 0 else 1.







End CmdsRestoreSpec.

Module BlockGroupSpec.
Import Ctree CtreeSpec BlockGroup.

(** The key of the block group item of a chunk. *)
Definition block_group_key (map : map_lookup) : btrfs_key :=
  {| objectid := ce_start map; type := BTRFS_BLOCK_GROUP_ITEM_KEY;
     offset := ce_size map |}.

(** The block group [check_block_group] makes for a chunk. *)
Definition block_group_of (map : map_lookup) : made_block_group :=
  {| bytes_used := 0; bg_type := map_type map;
     chunk_objectid := BTRFS_FIRST_CHUNK_TREE_OBJECTID;
     chunk_offset := ce_start map; size := ce_size map |}.

(** The statement of the specification: after [check_block_groups], every
    chunk whose block group item is missing from the extent tree has its
    block group made, and the reinit flag is set. *)
Definition block_groups_claim : Prop :=
  ∀ (iterations level : nat) (blocks : gmap Z extent_buffer)
    (extent_root : btrfs_root) (map_tree : list map_lookup)
    (made : list made_block_group) (reinit : Z) (map : map_lookup),
    (level < 8)%nat → (level < iterations)%nat →
    tree_ok blocks extent_root level (root_node extent_root) None None →
    map ∈ map_tree →
    ¬ key_in_tree blocks level (root_node extent_root) (block_group_key map) →
    block_group_of map ∈
      (check_block_groups iterations blocks extent_root map_tree made
         reinit).1.2 ∧
    (check_block_groups iterations blocks extent_root map_tree made
       reinit).2 = 1.

(** A chunk of 8 MiB at 1 MiB; the tree [tidy_blocks] has no block group
    item for it. *)
Definition lone_chunk : map_lookup :=
  {| ce_start := 1048576; ce_size := 8388608; map_type := 1 |}.

End BlockGroupSpec.

Module SpaceCacheSpec.
Import Ctree SpaceCache.

(** A block group of 1 MiB at 1 GiB that holds no superblock mirror, with
    one extent of 4 KiB allocated 400 KiB into it. *)
Definition group_1g : btrfs_block_group_cache :=
  {| key_objectid := 1073741824; key_offset := 1048576 |}.
Definition no_supers : rmap := λ chunk_start physical, (0, [], 65536).
Definition one_extent : list btrfs_key :=
  [ {| objectid := 1073741824 + 409600; type := BTRFS_EXTENT_ITEM_KEY;
       offset := 4096 |} ].

(** A free space cache that does not know of the extent: it has the whole
    block group free. *)
Definition stale_cache : list btrfs_free_space :=
  [ {| fs_offset := 1073741824; fs_bytes := 1048576 |} ].

(** The cache that matches the extent tree: the two gaps around the
    extent. *)
Definition true_cache : list btrfs_free_space :=
  [ {| fs_offset := 1073741824; fs_bytes := 409600 |};
    {| fs_offset := 1073741824 + 409600 + 4096;
       fs_bytes := 1048576 - 409600 - 4096 |} ].

End SpaceCacheSpec.

Module ExtentRefsSpec.
Import Extent ExtentRefs.

(** What a tree back reference is filed under: whether it is a full back
    reference, and the block of the parent or the id of the root. *)
Definition tree_ref_key (b : backref) : option (bool * Z) :=
  match b with
  | tree_backref n parent_root => Some (full_backref n, parent_root)
  | data_backref _ _ _ _ _ _ _ => None
  end.
Definition tree_ref_keys (l : list backref) : list (bool * Z) :=
  omap tree_ref_key l.

(** What [find_tree_backref(rec, parent, root)] looks for. *)
Definition tree_lookup_key (parent root : Z) : bool * Z :=
  if 0 <? parent then (true, parent) else (false, root).

(** A back reference of a tree block of some tree other than by a shared
    parent. *)
Definition plain_tree_ref (b : backref) : Prop :=
  ∃ n parent_root, b = tree_backref n parent_root ∧ full_backref n = false.

(** A record as the checker wants it at the end: both sides agree. *)
Definition reconciled (rec : extent_record) : Prop :=
  all_backpointers_checked rec 0 = 0 ∧
  refs rec = extent_item_refs rec ∧ 0 < refs rec ∧
  content_checked rec = true ∧ owner_ref_checked rec = true.

(** A data back reference by a shared parent that the walker has seen with
    [bytes] bytes. *)
Definition seen_shared_ref (parent bytes : Z) : backref :=
  data_backref {| found_extent_tree := false; full_backref := true;
                  found_ref := true |} parent 0 0 bytes 0 1.

Definition sample_rec : extent_record :=
  {| backrefs := []; start := 4096; max_size := 0; nr := 1; refs := 0;
     extent_item_refs := 0; content_checked := false;
     owner_ref_checked := false; is_root := false; metadata := true |}.

End ExtentRefsSpec.

Module CtreeWalkSpec.
Import Ctree CtreeSpec CtreeWalk.

(** The path of a search of the tree [tidy_blocks] that ended in the left
    leaf, at its second item. *)
Definition tidy_path : btrfs_path :=
  set_path_slot
    (set_path_node (set_path_node btrfs_init_path 1 stray_top) 0 tidy_left)
    0 1.

(** The new key fits between the keys of the neighbours of the slot. *)
Definition fits_between (leaf : extent_buffer) (slot : Z) (key : btrfs_key)
    : Prop :=
  (0 < slot → key_lt (btrfs_item_key leaf (slot - 1)) key) ∧
  (slot < btrfs_header_nritems leaf - 1 →
   key_lt key (btrfs_item_key leaf (slot + 1))).

(** The slot of the path at the level [l] is the last of its node: there
    is no block to the right of it under that node. *)
Definition last_slot (p : btrfs_path) (l : Z) : Prop :=
  ∃ c, path_node p l = Some c ∧
       btrfs_header_nritems c ≤ path_slot p l + 1.

(** [p'] is the path [p] stepped to the next leaf at the level [lv]: the
    lowest level above the leaf whose slot is not the last.  There the slot
    has moved one to the right; the nodes from there up and the slots above
    are as they were; the slots below are 0, so that with [path_descent]
    the blocks below are the leftmost ones under the new slot. *)
Definition stepped_at (p p' : btrfs_path) (lv : Z) : Prop :=
  (∀ l, 1 ≤ l < lv → last_slot p l) ∧ ¬ last_slot p lv ∧
  path_slot p' lv = path_slot p lv + 1 ∧
  (∀ l, lv ≤ l → path_node p' l = path_node p l) ∧
  (∀ l, lv < l → path_slot p' l = path_slot p l) ∧
  (∀ l, 0 ≤ l < lv → path_slot p' l = 0).

End CtreeWalkSpec.

Module CmdsRestoreMoreSpec.
Import CmdsRestore.

(** Every read comes back short or fails. *)
Definition reads_fail (dev : devices) : Prop :=
  ∀ dev_fd length offset,
    (pread dev dev_fd length offset).1 < 0 ∨
    (pread dev dev_fd length offset).1 < length.

(** The chunk mapping succeeds for every block and mirror. *)
Definition maps (dev : devices) : Prop :=
  ∀ mirror_num logical length,
    (btrfs_map_block dev mirror_num logical length).1.1.1 = 0.

(** Every block has [copies] mirrors. *)
Definition has_copies (dev : devices) (copies : Z) : Prop :=
  ∀ logical length, btrfs_num_copies dev logical length = copies.

(** Devices on which nothing goes wrong: every request of at least one
    byte maps to a stripe of at least one byte, every read and every write
    is complete. *)
Definition healthy (dev : devices) : Prop :=
  (∀ mirror_num logical length,
     0 < length →
     (btrfs_map_block dev mirror_num logical length).1.1.1 = 0 ∧
     0 < (btrfs_map_block dev mirror_num logical length).1.1.2) ∧
  (∀ dev_fd length offset, (pread dev dev_fd length offset).1 = length) ∧
  (∀ fd buf count offset, pwrite dev fd buf count offset = count).

(** The reads cover the bytes from [start] to [end_] once, in order. *)
Fixpoint covers (start end_ : Z) (l : list attempt) : Prop :=
  match l with
  | [] => start = end_
  | a :: l' =>
      logical a = start ∧ 0 < len a ∧ covers (start + len a) end_ l'
  end.

(** An extent of 8 bytes at logical address 4096 that is not compressed. *)
Definition plain_extent : file_extent :=
  {| compression := 0; disk_bytenr := 4096; disk_num_bytes := 8;
     ram_bytes := 8; extent_offset := 0 |}.

(** Devices with [copies] mirrors on which every read fails. *)
Definition failing (copies : Z) : devices :=
  {| btrfs_map_block := λ mirror_num logical length,
       (0, length, 3 + mirror_num, logical);
     pread := λ dev_fd length offset, (-1, []);
     btrfs_num_copies := λ logical length, copies;
     decompress := λ inbuf compress_len ram_size compress,
       (0, ram_size, replicate (Z.to_nat ram_size) 0);
     pwrite := λ fd buf count offset, count |}.

End CmdsRestoreMoreSpec.

Module SpaceCacheMoreSpec.
Import Ctree SpaceCache.

(** The block group holds no superblock mirror: [btrfs_rmap_block] finds
    no stripe for any of them. *)
Definition no_stripes (rmap_block : rmap) : Prop :=
  ∀ chunk_start physical,
    ∃ stripe_len, rmap_block chunk_start physical = (0, [], stripe_len).

(** An item that the sweep of [verify_space_cache] takes for an extent;
    items of the other types (block group items, back references) are
    passed over. *)
Definition is_extent (key : btrfs_key) : bool :=
  (type key =? BTRFS_EXTENT_ITEM_KEY) ||
  (type key =? BTRFS_METADATA_ITEM_KEY).

(** The bytes of an extent: the key offset of an extent item, one tree
    block for a metadata item. *)
Definition extent_bytes (leafsize : Z) (key : btrfs_key) : Z :=
  if type key =? BTRFS_EXTENT_ITEM_KEY then offset key else leafsize.

(** The items of the extent tree from the position of the search on, as
    far as they matter: up to the first item at or after the end of the
    block group, the extents come in the order of their start from [last]
    on and do not overlap, and no metadata item starts exactly where the
    extent before it ended (for an item that starts at [last] the sweep
    takes the key offset for the length, which for a metadata item is its
    level).  Items of other types, and all items from the end of the block
    group on, are free. *)
Fixpoint extents_from (leafsize last end_ : Z) (items : list btrfs_key)
    : Prop :=
  match items with
  | [] => True
  | key :: items' =>
      if end_ <=? objectid key then True
      else if is_extent key then
        last ≤ objectid key ∧ 0 ≤ extent_bytes leafsize key ∧
        objectid key + extent_bytes leafsize key < 2 ^ 64 ∧
        (type key = BTRFS_METADATA_ITEM_KEY → last ≠ objectid key) ∧
        extents_from leafsize (objectid key + extent_bytes leafsize key)
          end_ items'
      else extents_from leafsize last end_ items'
  end.

(** The free space from [last] up to the end of the block group. *)
Definition last_gap (last end_ : Z) : list btrfs_free_space :=
  if last <? end_
  then [ {| fs_offset := last; fs_bytes := end_ - last |} ] else [].

(** The free space between the extents, from [last] up to the end of the
    block group: one entry for every gap. *)
Fixpoint free_gaps (leafsize last end_ : Z) (items : list btrfs_key)
    : list btrfs_free_space :=
  match items with
  | [] => last_gap last end_
  | key :: items' =>
      if end_ <=? objectid key then last_gap last end_
      else if is_extent key then
        let rest :=
          free_gaps leafsize (objectid key + extent_bytes leafsize key)
            end_ items' in
        if last =? objectid key then rest
        else {| fs_offset := last; fs_bytes := objectid key - last |} :: rest
      else free_gaps leafsize last end_ items'
  end.

(** Where the extents end. *)
Fixpoint extents_end (leafsize last end_ : Z) (items : list btrfs_key) : Z :=
  match items with
  | [] => last
  | key :: items' =>
      if end_ <=? objectid key then last
      else if is_extent key
      then extents_end leafsize (objectid key + extent_bytes leafsize key)
             end_ items'
      else extents_end leafsize last end_ items'
  end.

(** The items of [group_1g] in a tree that holds, in key order: the item
    of the block group, an extent of 4 KiB 400 KiB into it with a back
    reference item, a tree block of 16 KiB recorded as metadata item 800
    KiB into it, and the item of the next block group. *)
Definition busy_items : list btrfs_key :=
  [ {| objectid := 1073741824; type := 192; offset := 1048576 |};
    {| objectid := 1073741824 + 409600; type := BTRFS_EXTENT_ITEM_KEY;
       offset := 4096 |};
    {| objectid := 1073741824 + 409600; type := 178; offset := 5 |};
    {| objectid := 1073741824 + 819200; type := BTRFS_METADATA_ITEM_KEY;
       offset := 0 |};
    {| objectid := 1073741824 + 1048576; type := 192; offset := 1048576 |} ].

(** A block group whose first mirror of the superblock has one stripe. *)
Definition one_stripe (logical stripe_len : Z) : rmap :=
  λ chunk_start physical, (0, [logical], stripe_len).

End SpaceCacheMoreSpec.

Module InodeMoreSpec.
Import Inode InodeSpec.

Definition cache_names_unique (inode_cache : gmap Z inode_record) : Prop :=
  ∀ i rec, inode_cache !! i = Some rec → names_unique rec.

(** The three items that make one link to an inode, as the walker reports
    them: the dir index, the dir item (whose key offset is the hash of the
    name) and the inode ref. *)
Inductive sighting :=
| saw_dir_index
| saw_dir_item
| saw_inode_ref.

(** The call of [add_inode_backref] for one of them. *)
Definition report (ino dir index hash : Z) (name : list Z)
    (namelen filetype : Z) (s : sighting)
    (inode_cache : gmap Z inode_record) : option (gmap Z inode_record) :=
  match s with
  | saw_dir_index =>
      add_inode_backref inode_cache ino dir index name namelen filetype
        BTRFS_DIR_INDEX_KEY 0
  | saw_dir_item =>
      add_inode_backref inode_cache ino dir hash name namelen filetype
        BTRFS_DIR_ITEM_KEY 0
  | saw_inode_ref =>
      add_inode_backref inode_cache ino dir index name namelen 0
        BTRFS_INODE_REF_KEY 0
  end.

Fixpoint report_all (ino dir index hash : Z) (name : list Z)
    (namelen filetype : Z) (l : list sighting)
    (inode_cache : gmap Z inode_record) : option (gmap Z inode_record) :=
  match l with
  | [] => Some inode_cache
  | s :: l' =>
      inode_cache ← report ino dir index hash name namelen filetype s
                      inode_cache;
      report_all ino dir index hash name namelen filetype l' inode_cache
  end.

(** What the call writes to the back reference. *)
Definition sighting_update (index hash filetype : Z) (s : sighting)
    : Ref.inode_backref → Ref.inode_backref :=
  match s with
  | saw_dir_index => note_item index filetype BTRFS_DIR_INDEX_KEY 0
  | saw_dir_item => note_item hash filetype BTRFS_DIR_ITEM_KEY 0
  | saw_inode_ref => note_item index 0 BTRFS_INODE_REF_KEY 0
  end.

(** The back reference is not the one of the given directory and name. *)
Definition other_name (name : list Z) (namelen dir : Z)
    (b : Ref.inode_backref) : Prop :=
  backref_matches name namelen dir b = false.

(** What a list of such calls makes of the back references [l] of the
    given directory and name, for a record whose inode item was seen
    ([pruned], with the file type [inode_type] of the inode) or not, and of
    [found_link]. *)
Definition prune_if (pruned : bool) (inode_type : Z)
    (l : list Ref.inode_backref) : list Ref.inode_backref :=
  if pruned then prune_backrefs inode_type l else l.

Fixpoint backrefs_after (pruned : bool) (inode_type dir index hash : Z)
    (name : list Z) (namelen filetype : Z) (seen : list sighting)
    (l : list Ref.inode_backref) : list Ref.inode_backref :=
  match seen with
  | [] => l
  | s :: seen' =>
      backrefs_after pruned inode_type dir index hash name namelen filetype
        seen'
        (prune_if pruned inode_type
           (get_inode_backref (sighting_update index hash filetype s)
              name namelen dir l))
  end.

Definition found_link_bump (s : sighting) (n : Z) : Z :=
  match s with
  | saw_dir_item => to_u32 (n + 1)
  | _ => n
  end.

Fixpoint found_link_after (seen : list sighting) (n : Z) : Z :=
  match seen with
  | [] => n
  | s :: seen' => found_link_after seen' (found_link_bump s n)
  end.

(** The back reference of a link of which all three items were seen. *)
Definition complete_backref (dir index : Z) (name : list Z)
    (namelen filetype : Z) : Ref.inode_backref :=
  {| Ref.found_dir_item := true; Ref.found_dir_index := true;
     Ref.found_inode_ref := true; Ref.filetype := filetype;
     Ref.errors := 0; Ref.ref_type := BTRFS_INODE_REF_KEY; Ref.dir := dir;
     Ref.index := index; Ref.namelen := namelen;
     Ref.name := take (Z.to_nat namelen) name |}.

(** A regular file of which the inode item was seen, and nothing else. *)
Definition file_rec : inode_record :=
  set_imode S_IFREG (set_found_inode_item true (new_inode_rec 257)).

(** The same file with one link already on record: the dir item of the
    name [b] in the directory 256. *)
Definition linked_rec : inode_record :=
  set_found_link 1
    (set_backrefs
       [ {| Ref.found_dir_item := true; Ref.found_dir_index := false;
            Ref.found_inode_ref := false; Ref.filetype := 1;
            Ref.errors := 0; Ref.ref_type := 0; Ref.dir := 256;
            Ref.index := 0; Ref.namelen := 1; Ref.name := [98] |} ]
       file_rec).

End InodeMoreSpec.

(* ===================================================================== *)
(** * Part III: the theorems                                              *)
(* ===================================================================== *)

(** ** Back reference reconciliation *)

Section ExtentFacts.
Import Extent ExtentSpec.

Lemma flag_err_quiet_inr bad err e :
  flag_err 0 bad err = inr e ↔ bad = false ∧ e = err.
Proof.
  unfold flag_err. destruct bad; simpl; split.
  - discriminate.
  - intros [? _]. discriminate.
  - intros [= <-]. done.
  - intros [_ ->]. done.
Qed.

Lemma check_one_backref_quiet rec_nr b err e :
  check_one_backref 0 rec_nr b err = inr e ↔
  backref_checked rec_nr b ∧ e = err.
Proof.
  unfold check_one_backref, backref_checked, bind_out.
  destruct b as [[fe fb fr] pr | [fe fb fr] pr ow off bts nrf dfr]; simpl.
  - destruct fe, fr; simpl; split; try discriminate;
      try (intros [= <-]; tauto); try (intros [[? [[?|?] ?]] ?]; congruence).
  - destruct fe; simpl.
    + destruct (Z.eqb_spec dfr nrf) as [->|Hne]; simpl.
      * destruct (Z.eqb_spec bts rec_nr) as [->|Hne]; simpl; split.
        -- intros [= <-]. tauto.
        -- intros [_ ->]. done.
        -- discriminate.
        -- intros [[_ [_ [_ ?]]] _]. done.
      * split; [discriminate | intros [[_ [_ [? _]]] _]; done].
    + split; [discriminate | intros [[? _] _]; discriminate].
Qed.

Lemma found_step_wrap found b :
  found_step (wrap64 found) b = wrap64 (found + ref_count b).
Proof.
  unfold found_step, wrap64.
  destruct b; simpl; rewrite Zplus_mod_idemp_l; done.
Qed.

Lemma walk_backrefs_quiet rec_nr l acc :
  ∀ r, walk_backrefs 0 rec_nr l (wrap64 acc) 0 = inr r ↔
       Forall (backref_checked rec_nr) l ∧
       r = (wrap64 (acc + total_found l), 0).
Proof.
  revert acc. induction l as [|b l IH]; intros acc r; simpl.
  - rewrite Z.add_0_r. split.
    + intros [= <-]. split; [constructor | done].
    + intros [_ ->]. done.
  - destruct (check_one_backref 0 rec_nr b 0) as [e|e] eqn:Hone.
    + split; [discriminate|]. intros [Hall _].
      apply Forall_cons in Hall as [Hb _].
      assert (check_one_backref 0 rec_nr b 0 = inr 0) as Hok
        by (apply check_one_backref_quiet; done).
      congruence.
    + apply check_one_backref_quiet in Hone as [Hb ->].
      rewrite found_step_wrap, IH.
      replace (acc + ref_count b + total_found l)
        with (acc + (ref_count b + total_found l)) by lia.
      rewrite Forall_cons. tauto.
Qed.

Lemma walk_backrefs_quiet_err rec_nr l found err e :
  walk_backrefs 0 rec_nr l found err = inl e → e = 1.
Proof.
  revert found err. induction l as [|b l IH]; intros found err; simpl.
  - discriminate.
  - destruct (check_one_backref 0 rec_nr b err) as [e'|e'] eqn:Hone.
    + intros [= <-]. revert Hone.
      unfold check_one_backref, bind_out, flag_err.
      repeat (case_match; simpl in *; try discriminate; simplify_eq);
        congruence.
    + apply IH.
Qed.

(** C1.  Called with [print_errs = 0], [all_backpointers_checked] returns 0
    exactly when every back reference of the record has [found_extent_tree]
    set and is a data back reference or has [found_ref] set, every data back
    reference has its counter [found_ref] equal to [num_refs] and its
    [bytes] equal to [rec->nr], and the reference count accumulated in the
    64 bit counter [found] (1 for a tree back reference, the counter
    [found_ref] for a data back reference) equals [rec->refs]. *)
Theorem all_backpointers_checked_iff (rec : extent_record) :
  all_backpointers_checked rec 0 = 0 ↔
  Forall (backref_checked (nr rec)) (backrefs rec) ∧
  wrap64 (total_found (backrefs rec)) = refs rec.
Proof.
  unfold all_backpointers_checked.
  change 0 with (wrap64 0) at 2.
  destruct (walk_backrefs 0 (nr rec) (backrefs rec) (wrap64 0) 0)
    as [e|[found err]] eqn:Hwalk.
  - apply walk_backrefs_quiet_err in Hwalk as Hone. subst e.
    split; [discriminate|]. intros [Hall _].
    assert (walk_backrefs 0 (nr rec) (backrefs rec) (wrap64 0) 0 =
            inr (wrap64 (0 + total_found (backrefs rec)), 0)) as Hok
      by (apply walk_backrefs_quiet; done).
    congruence.
  - apply walk_backrefs_quiet in Hwalk as [Hall [= -> ->]].
    rewrite Z.add_0_l.
    destruct (Z.eqb_spec (wrap64 (total_found (backrefs rec))) (refs rec));
      split; try done.
    + intros [_ ?]. done.
Qed.

(** As long as the counter does not overflow, the count is the plain sum. *)
Lemma all_backpointers_checked_plain (rec : extent_record) :
  0 ≤ total_found (backrefs rec) < 2 ^ 64 →
  (all_backpointers_checked rec 0 = 0 ↔
   Forall (backref_checked (nr rec)) (backrefs rec) ∧
   total_found (backrefs rec) = refs rec).
Proof.
  intros Hrange.
  assert (wrap64 (total_found (backrefs rec)) = total_found (backrefs rec))
    as Hwrap by (apply Z.mod_small; done).
  split.
  - intros Hret. split.
    + revert Hret. unfold all_backpointers_checked.
      change 0 with (wrap64 0) at 2.
      destruct (walk_backrefs 0 (nr rec) (backrefs rec) (wrap64 0) 0)
        as [e|[found err]] eqn:Hwalk.
      * apply walk_backrefs_quiet_err in Hwalk. congruence.
      * apply walk_backrefs_quiet in Hwalk as [Hall _]. done.
    + revert Hret. unfold all_backpointers_checked.
      change 0 with (wrap64 0) at 2.
      destruct (walk_backrefs 0 (nr rec) (backrefs rec) (wrap64 0) 0)
        as [e|[found err]] eqn:Hwalk.
      * apply walk_backrefs_quiet_err in Hwalk. congruence.
      * apply walk_backrefs_quiet in Hwalk as [_ [= -> ->]].
        rewrite Z.add_0_l, Hwrap.
        destruct (Z.eqb_spec (total_found (backrefs rec)) (refs rec));
          [done|discriminate].
  - intros [Hall Hsum]. unfold all_backpointers_checked.
    change 0 with (wrap64 0) at 2.
    assert (walk_backrefs 0 (nr rec) (backrefs rec) (wrap64 0) 0 =
            inr (wrap64 (0 + total_found (backrefs rec)), 0)) as ->
      by (apply walk_backrefs_quiet; done).
    rewrite Z.add_0_l, Hwrap, Hsum, Z.eqb_refl. reflexivity.
Qed.

End ExtentFacts.

(** ** The COW decision *)

Section CowFacts.
Import Ctree CtreeSpec.

Lemma should_cow_block_spec trans root buf :
  (should_cow_block trans root buf = 1 ∧ cow_required trans root buf) ∨
  (should_cow_block trans root buf = 0 ∧ ¬ cow_required trans root buf).
Proof.
  unfold should_cow_block, cow_required.
  destruct (Z.eqb_spec (btrfs_header_generation buf) (transid trans)) as [Hg|Hg];
    simpl; [|left; tauto].
  destruct (btrfs_header_flag buf BTRFS_HEADER_FLAG_WRITTEN); simpl;
    [left; tauto|].
  destruct (Z.eqb_spec (root_key_objectid root) BTRFS_TREE_RELOC_OBJECTID)
    as [Ho|Ho]; simpl.
  - right. split; [done|]. intros [?|[?|[? _]]]; congruence.
  - destruct (btrfs_header_flag buf BTRFS_HEADER_FLAG_RELOC); simpl.
    + left. tauto.
    + right. split; [done|]. intros [?|[?|[_ ?]]]; congruence.
Qed.

(** C3.  [btrfs_cow_block] copies the buffer exactly when its generation
    differs from the transaction id, or it carries the WRITTEN flag, or the
    owning root is not the reloc tree and it carries the RELOC flag; and
    exactly when none of these holds it returns 0 with the buffer it was
    given as [*cow_ret]. *)
Theorem btrfs_cow_block_decision (trans : btrfs_trans_handle)
    (root : btrfs_root) (buf : extent_buffer) (parent : option extent_buffer)
    (parent_slot : Z) :
  (cow_performed buf (btrfs_cow_block trans root buf parent parent_slot) ↔
   cow_required trans root buf) ∧
  (btrfs_cow_block trans root buf parent parent_slot = cow_returns 0 buf ↔
   ¬ cow_required trans root buf).
Proof.
  unfold btrfs_cow_block.
  destruct (should_cow_block_spec trans root buf) as [[-> Hreq]|[-> Hreq]];
    simpl; split; split; try tauto; try done.
Qed.

End CowFacts.

(** ** Leaf validation *)

Section LeafFacts.
Import Ctree CtreeSpec.

(** What the loop of [btrfs_check_leaf] does establish: the pairs of
    adjacent slots up to [count - 1]. *)
Lemma check_leaf_loop_pairs root buf count :
  ∀ i0, check_leaf_loop count root buf i0 = true →
  ∀ i, i0 ≤ i < i0 + Z.of_nat count →
       btrfs_comp_keys (btrfs_item_key buf i) (btrfs_item_key buf (i + 1)) < 0 ∧
       btrfs_item_offset_nr buf i = btrfs_item_end_nr buf (i + 1).
Proof.
  induction count as [|count IH]; intros i0 Hloop i Hi; [lia|].
  simpl in Hloop.
  destruct (Z.leb_spec 0 (btrfs_comp_keys (btrfs_item_key buf i0)
                            (btrfs_item_key buf (i0 + 1)))); [done|].
  destruct (Z.eqb_spec (btrfs_item_offset_nr buf i0)
              (btrfs_item_end_nr buf (i0 + 1))); simpl in Hloop; [|done].
  destruct ((i0 =? 0) &&
            negb (btrfs_item_end_nr buf i0 =? BTRFS_LEAF_DATA_SIZE root));
    [done|].
  destruct (decide (i = i0)) as [->|Hne]; [done|].
  apply (IH (i0 + 1)); [done|lia].
Qed.

(** What an accepted leaf is known to satisfy: the pairs of adjacent slots
    below [nritems - 2]. *)
Lemma btrfs_check_leaf_pairs root parent_key buf :
  btrfs_check_leaf root parent_key buf = 0 →
  ∀ i, 0 ≤ i < btrfs_header_nritems buf - 2 →
       btrfs_comp_keys (btrfs_item_key buf i) (btrfs_item_key buf (i + 1)) < 0 ∧
       btrfs_item_offset_nr buf i = btrfs_item_end_nr buf (i + 1).
Proof.
  unfold btrfs_check_leaf, EIO. intros Hcheck i Hi.
  destruct (eb_len buf <? btrfs_header_nritems buf * sizeof_btrfs_item);
    [discriminate Hcheck|].
  destruct (negb (btrfs_header_level buf =? 0)); [discriminate Hcheck|].
  destruct (btrfs_leaf_free_space root buf <? 0); [discriminate Hcheck|].
  destruct (Z.eqb_spec (btrfs_header_nritems buf) 0) as [Hzero|_]; [lia|].
  destruct (match parent_key with Some _ => _ | None => _ end);
    [discriminate Hcheck|].
  destruct (check_leaf_loop (check_loop_count (btrfs_header_nritems buf))
              root buf 0) eqn:Hloop; [|discriminate Hcheck].
  apply (check_leaf_loop_pairs root buf _ 0 Hloop).
  unfold check_loop_count.
  destruct (Z.ltb_spec 1 (btrfs_header_nritems buf)); lia.
Qed.

(** C6.  [btrfs_check_leaf] accepts [unsorted_leaf], on which invariant I1
    fails: the loop stops at [nritems - 2], so the last pair of slots, and
    with two items every pair, is never compared. *)
Theorem btrfs_check_leaf_accepts_unsorted :
  btrfs_check_leaf (root_4k unsorted_leaf) None unsorted_leaf = 0 ∧
  ¬ leaf_invariant_I1 (root_4k unsorted_leaf) unsorted_leaf.
Proof.
  split; [vm_compute; done|].
  intros [Hpairs _].
  destruct (Hpairs 0) as [Hlt _]; [vm_compute; done|].
  vm_compute in Hlt. done.
Qed.

End LeafFacts.

(** ** Search in an ordered tree *)

Section SearchFacts.
Import Ctree CtreeSpec.

(** [btrfs_comp_keys] decides the lexicographic order. *)
Lemma btrfs_comp_keys_spec a b :
  (btrfs_comp_keys a b = -1 ∧ key_lt a b) ∨
  (btrfs_comp_keys a b = 0 ∧ a = b) ∨
  (btrfs_comp_keys a b = 1 ∧ key_lt b a).
Proof.
  destruct a as [ao aty aoff], b as [bo bty boff].
  unfold btrfs_comp_keys, key_lt; simpl.
  repeat case_match;
    repeat match goal with
           | H : (_ <? _) = true |- _ => apply Z.ltb_lt in H
           | H : (_ <? _) = false |- _ => apply Z.ltb_ge in H
           end.
  all: try (left; split; [done|lia]).
  all: try (right; right; split; [done|lia]).
  right; left; split; [done|]. f_equal; lia.
Qed.

Lemma key_lt_irrefl a : ¬ key_lt a a.
Proof. unfold key_lt. lia. Qed.

Lemma key_lt_trans a b c : key_lt a b → key_lt b c → key_lt a c.
Proof. unfold key_lt. lia. Qed.

Lemma key_le_lt_trans a b c : key_le a b → key_lt b c → key_lt a c.
Proof. intros [Hab| ->] Hbc; [eapply key_lt_trans|]; done. Qed.

Lemma key_lt_le_trans a b c : key_lt a b → key_le b c → key_lt a c.
Proof. intros Hab [Hbc| <-]; [eapply key_lt_trans|]; done. Qed.

Lemma key_le_trans a b c : key_le a b → key_le b c → key_le a c.
Proof.
  intros [Hab| ->] Hbc; [|done]. left. eapply key_lt_le_trans; done.
Qed.

Lemma key_lt_asym a b : key_lt a b → ¬ key_lt b a.
Proof. unfold key_lt. lia. Qed.

Lemma bin_search_loop_spec key_at key n :
  keys_sorted key_at n →
  ∀ iterations low high,
    0 ≤ low → low ≤ high → high ≤ n →
    high - low ≤ Z.of_nat iterations →
    (∀ i, 0 ≤ i < low → key_lt (key_at i) key) →
    (∀ i, high ≤ i < n → key_lt key (key_at i)) →
    bin_search_found key_at n key
      (bin_search_loop iterations key_at key low high).
Proof.
  intros Hsorted. induction iterations as [|it IH];
    intros low high Hlow Hle Hhigh Hfuel Hbelow Habove; simpl.
  - right. simpl. repeat split; try lia; [done|].
    intros i Hi. apply Habove. lia.
  - destruct (Z.ltb_spec low high) as [Hlt|Hge].
    + set (mid := (low + high) `quot` 2).
      assert (low ≤ mid < high) as Hmid.
      { unfold mid. rewrite Z.quot_div_nonneg by lia.
        split; [apply Z.div_le_lower_bound|apply Z.div_lt_upper_bound]; lia. }
      destruct (btrfs_comp_keys_spec (key_at mid) key)
        as [[-> Hk]|[[-> Hk]|[-> Hk]]]; simpl.
      * apply IH; try lia; [|done].
        intros i Hi. destruct (decide (i = mid)) as [->|Hne]; [done|].
        eapply key_lt_trans; [|exact Hk]. apply Hsorted; lia.
      * left. simpl. split; [done|]. split; [lia|done].
      * apply IH; try lia; [done|].
        intros i Hi. destruct (decide (i = mid)) as [->|Hne]; [done|].
        eapply key_lt_trans; [exact Hk|]. apply Hsorted; lia.
    + right. simpl. repeat split; try lia; [done|].
      intros i Hi. apply Habove. lia.
Qed.

Lemma to_int_small z : 0 ≤ z < 2 ^ 31 → to_int z = z.
Proof.
  intros Hz. unfold to_int. rewrite Z.mod_small; lia.
Qed.

Lemma generic_bin_search_spec key_at key n :
  0 ≤ n → keys_sorted key_at n →
  bin_search_found key_at n key (generic_bin_search key_at key n).
Proof.
  intros Hn Hsorted. unfold generic_bin_search.
  apply bin_search_loop_spec; try done; try lia.
Qed.

(** Reading and writing the arrays of a path. *)
Lemma path_node_set_node p level b l :
  0 ≤ level → (Z.to_nat level < length (nodes p))%nat → 0 ≤ l →
  path_node (set_path_node p level b) l =
    if decide (l = level) then Some b else path_node p l.
Proof.
  intros Hlevel Hlen Hl. unfold path_node, set_path_node; simpl.
  destruct (Z.ltb_spec l 0); [lia|].
  case_decide as Heq.
  - subst l. rewrite list_lookup_insert_eq; done.
  - rewrite list_lookup_insert_ne; [done|lia].
Qed.

Lemma path_slot_set_slot p level s l :
  0 ≤ level → (Z.to_nat level < length (slots p))%nat → 0 ≤ l →
  path_slot (set_path_slot p level s) l =
    if decide (l = level) then s else path_slot p l.
Proof.
  intros Hlevel Hlen Hl. unfold path_slot, set_path_slot; simpl.
  destruct (Z.ltb_spec l 0); [lia|].
  case_decide as Heq.
  - subst l. rewrite list_lookup_insert_eq; done.
  - rewrite list_lookup_insert_ne; [done|lia].
Qed.

Lemma path_node_init l : path_node btrfs_init_path l = None.
Proof.
  unfold path_node. destruct (l <? 0); [done|].
  change (nodes btrfs_init_path)
    with (replicate 8%nat (@None extent_buffer)).
  destruct (replicate 8%nat (@None extent_buffer) !! Z.to_nat l)
    as [o|] eqn:Hl; [|reflexivity].
  apply lookup_replicate in Hl as [-> _]. reflexivity.
Qed.

(** Every key of an ordered subtree lies within the bounds of the
    subtree. *)
Lemma key_in_tree_within blocks root key level :
  ∀ b lo hi,
    tree_ok blocks root level b lo hi →
    key_in_tree blocks level b key →
    above lo key ∧ below hi key.
Proof.
  induction level as [|level IH]; intros b lo hi Hok Hin; simpl in *.
  - destruct Hok as (_ & _ & _ & _ & Hwithin).
    destruct Hin as (i & Hi & <-). apply Hwithin. done.
  - destruct Hok as (_ & Hn & _ & Hsorted & Hwithin & Hchildren).
    destruct Hin as (i & c & Hi & Hread & Hin).
    destruct (Hchildren i Hi) as (c' & Hread' & Hc).
    assert (c' = c) as -> by congruence.
    destruct (IH _ _ _ Hc Hin) as [Hlo Hhi]. simpl in Hlo.
    destruct (Hwithin i Hi) as [Hilo Hihi].
    split.
    + destruct lo as [l|]; [|done]. simpl in *.
      eapply key_le_trans; done.
    + unfold next_bound in Hhi.
      destruct (Z.ltb_spec (i + 1) (btrfs_header_nritems b)) as [Hnext|Hlast];
        [|done].
      simpl in Hhi. destruct hi as [h|]; [|done]. simpl.
      eapply key_lt_trans; [exact Hhi|].
      destruct (Hwithin (i + 1)) as [_ Hb]; [lia|]. exact Hb.
Qed.

Lemma check_block_set_node root p level b :
  0 ≤ level → (Z.to_nat level < length (nodes p))%nat →
  check_block root (set_path_node p level b) level =
    Some (if level =? 0 then btrfs_check_leaf root (parent_key_of p level) b
          else btrfs_check_node root (parent_key_of p level) b).
Proof.
  intros Hlevel Hlen. unfold check_block, parent_key_of.
  rewrite !path_node_set_node by lia.
  rewrite decide_False by lia. rewrite decide_True by done.
  reflexivity.
Qed.

Lemma btrfs_check_node_nonempty root pk b :
  btrfs_check_node root pk b = 0 → btrfs_header_nritems b ≠ 0.
Proof.
  unfold btrfs_check_node, EIO. intros Hcheck Hn. rewrite Hn in Hcheck.
  simpl in Hcheck. done.
Qed.

Lemma descent_slot_range n key_at key r :
  0 < n → bin_search_found key_at n key r → 0 ≤ descent_slot r < n.
Proof.
  unfold descent_slot, bin_search_found.
  intros Hn [(-> & Ht & _)|(-> & Ht & _)]; simpl.
  - done.
  - destruct (Z.ltb_spec 0 r.2); lia.
Qed.

(** In a sorted node, the only slot whose bounds admit the key is the one
    the search descends into. *)
Lemma descent_slot_unique b key r i hi :
  keys_sorted (btrfs_node_key b) (btrfs_header_nritems b) →
  bin_search_found (btrfs_node_key b) (btrfs_header_nritems b) key r →
  0 ≤ i < btrfs_header_nritems b →
  key_le (btrfs_node_key b i) key →
  below (next_bound b i hi) key →
  i = descent_slot r.
Proof.
  intros Hsorted Hfound Hi Hlo Hhi.
  unfold descent_slot. unfold next_bound in Hhi.
  destruct Hfound as [(-> & Ht & Hkey)|(-> & Ht & Hless & Hmore)]; simpl.
  - destruct (Z.lt_trichotomy i r.2) as [Hlt|[Heq|Hgt]]; [|done|].
    + exfalso. destruct (Z.ltb_spec (i + 1) (btrfs_header_nritems b));
        [|lia]. simpl in Hhi. rewrite <- Hkey in Hhi.
      destruct (decide (i + 1 = r.2)) as [Heq|Hne].
      * rewrite Heq in Hhi. by apply key_lt_irrefl in Hhi.
      * eapply key_lt_asym; [exact Hhi|]. apply Hsorted; lia.
    + exfalso. rewrite <- Hkey in Hlo.
      eapply key_lt_irrefl, key_lt_le_trans; [|exact Hlo].
      apply Hsorted; lia.
  - destruct (Z.ltb_spec 0 r.2) as [Hpos|Hzero];
      destruct (Z.lt_trichotomy i (r.2 - 1)) as [Hlt|[Heq|Hgt]];
      try done; exfalso.
    + destruct (Z.ltb_spec (i + 1) (btrfs_header_nritems b)); [|lia].
      simpl in Hhi. eapply key_lt_asym; [exact Hhi|]. apply Hless. lia.
    + eapply key_lt_irrefl, key_lt_le_trans; [|exact Hlo].
      apply Hmore. lia.
    + lia.
    + lia.
    + destruct (decide (i = r.2)) as [->|Hne]; [|].
      * eapply key_lt_irrefl, key_lt_le_trans; [|exact Hlo].
        apply Hmore. lia.
      * eapply key_lt_irrefl, key_lt_le_trans; [|exact Hlo].
        apply Hmore. lia.
Qed.

Lemma bin_search_leaf_outcome blocks b key r :
  bin_search_found (btrfs_item_key b) (btrfs_header_nritems b) key r →
  search_outcome blocks 0 b key r.1 b r.2.
Proof.
  intros [(Hr & Ht & Hkey)|(Hr & Ht & Hless & Hmore)].
  - left. split; [|done]. simpl. eauto.
  - right. split; [|done]. simpl. intros (i & Hi & Hkey).
    destruct (Z.lt_ge_cases i r.2) as [Hlt|Hge].
    + apply (key_lt_irrefl key). rewrite <- Hkey at 1. apply Hless. lia.
    + apply (key_lt_irrefl key). rewrite <- Hkey at 2. apply Hmore. lia.
Qed.

(** The loop of the search on an ordered subtree: it ends within
    [level + 1] iterations, leaves the upper part of the path as it was,
    records the descent and returns what the specification says. *)
Lemma search_loop_ordered blocks root key :
  ∀ (level : nat) b lo hi p iterations,
    (level < 8)%nat → (level < iterations)%nat →
    tree_ok blocks root level b lo hi →
    length (nodes p) = 8%nat → length (slots p) = 8%nat →
    lowest_level p = 0 →
    parent_key_of p (Z.of_nat level) = lo →
    ∃ ret p' leaf,
      search_loop iterations blocks root key p b = search_returns ret p' ∧
      (∀ l, Z.of_nat level < l →
            path_node p' l = path_node p l ∧ path_slot p' l = path_slot p l) ∧
      path_descent blocks p' (Z.of_nat level) b ∧
      path_node p' 0 = Some leaf ∧
      search_outcome blocks level b key ret leaf (path_slot p' 0).
Proof.
  induction level as [|level IH];
    intros b lo hi p iterations Hmax Hfuel Hok Hnodes Hslots Hlowest Hparent;
    (destruct iterations as [|it]; [lia|]).
  - destruct Hok as (Hlevel & Hn & Hcheck & Hsorted & Hwithin).
    simpl search_loop. rewrite Hlevel. simpl Z.of_nat.
    simpl (_ || _). cbv iota.
    rewrite check_block_set_node by (rewrite ?Hnodes; simpl; lia).
    simpl (0 =? 0). cbv iota. simpl Z.of_nat in Hparent.
    rewrite Hparent, Hcheck. simpl (negb _). cbv iota.
    unfold bin_search. simpl (0 =? 0). cbv iota.
    rewrite to_int_small by done.
    pose proof (generic_bin_search_spec (btrfs_item_key b) key
                  (btrfs_header_nritems b) (proj1 Hn) Hsorted) as Hfound.
    destruct (generic_bin_search (btrfs_item_key b) key
                (btrfs_header_nritems b)) as [r t] eqn:Hbin.
    simpl (negb _). cbv iota.
    eexists r, _, b. split; [reflexivity|].
    assert (∀ l, 0 ≤ l →
              path_node (set_path_slot (set_path_node p 0 b) 0 t) l =
                if decide (l = 0) then Some b else path_node p l) as Hnode.
    { intros l Hl. rewrite <- (path_node_set_node p 0 b l);
        [reflexivity|lia|rewrite Hnodes; simpl; lia|done]. }
    assert (∀ l, 0 ≤ l →
              path_slot (set_path_slot (set_path_node p 0 b) 0 t) l =
                if decide (l = 0) then t else path_slot p l) as Hslot.
    { intros l Hl. rewrite path_slot_set_slot;
        [reflexivity|lia|simpl; rewrite Hslots; simpl; lia|done]. }
    split; [|split; [|split]].
    + intros l Hl. rewrite Hnode, Hslot by lia.
      rewrite !decide_False by lia. done.
    + split; [rewrite Hnode by lia; rewrite decide_True; done|].
      intros l Hl. lia.
    + rewrite Hnode by lia. rewrite decide_True; done.
    + rewrite Hslot by lia. rewrite decide_True by done.
      apply (bin_search_leaf_outcome blocks b key (r, t)). exact Hfound.
  - destruct Hok as (Hlevel & Hn & Hcheck & Hsorted & Hwithin & Hchildren).
    set (L := Z.of_nat (S level)) in *.
    assert (0 < L < 8) as HL by lia.
    simpl search_loop. rewrite Hlevel.
    replace ((L <? 0) || (BTRFS_MAX_LEVEL <=? L)) with false
      by (symmetry; apply orb_false_iff; split;
          [apply Z.ltb_ge|apply Z.leb_gt]; unfold BTRFS_MAX_LEVEL; lia).
    rewrite check_block_set_node by (rewrite ?Hnodes; lia).
    replace (L =? 0) with false by (symmetry; apply Z.eqb_neq; lia).
    rewrite Hparent, Hcheck. simpl (negb (0 =? 0)). cbv iota.
    unfold bin_search.
    replace (L =? 0) with false by (symmetry; apply Z.eqb_neq; lia).
    rewrite to_int_small by done.
    pose proof (generic_bin_search_spec (btrfs_node_key b) key
                  (btrfs_header_nritems b) (proj1 Hn) Hsorted) as Hfound.
    destruct (generic_bin_search (btrfs_node_key b) key
                (btrfs_header_nritems b)) as [r t] eqn:Hbin.
    simpl (negb false). cbv iota.
    change (if negb (r =? 0) && (0 <? t) then t - 1 else t)
      with (descent_slot (r, t)).
    set (s := descent_slot (r, t)) in *.
    assert (0 ≤ s < btrfs_header_nritems b) as Hs.
    { apply (descent_slot_range _ (btrfs_node_key b) key); [|done].
      pose proof (btrfs_check_node_nonempty _ _ _ Hcheck). lia. }
    set (p2 := set_path_slot (set_path_node p L b) L s).
    assert (lowest_level p2 = 0) as Hlowest2 by done.
    rewrite Hlowest.
    replace (L =? 0) with false by (symmetry; apply Z.eqb_neq; lia).
    unfold read_node_slot.
    replace (s <? 0) with false by (symmetry; apply Z.ltb_ge; lia).
    replace (btrfs_header_nritems b <=? s) with false
      by (symmetry; apply Z.leb_gt; lia).
    destruct (Hchildren s Hs) as (c & Hread & Hc). rewrite Hread.
    assert (∀ l, 0 ≤ l →
              path_node p2 l = if decide (l = L) then Some b
                               else path_node p l) as Hnode.
    { intros l Hl. unfold p2.
      rewrite <- (path_node_set_node p L b l);
        [reflexivity|lia|rewrite Hnodes; lia|done]. }
    assert (∀ l, 0 ≤ l →
              path_slot p2 l = if decide (l = L) then s
                               else path_slot p l) as Hslot.
    { intros l Hl. unfold p2. rewrite path_slot_set_slot;
        [reflexivity|lia|simpl; rewrite Hslots; lia|done]. }
    destruct (IH c (Some (btrfs_node_key b s)) (next_bound b s hi) p2 it)
      as (ret & p' & leaf & Hrun & Habove & Hdescent & Hleaf & Hout);
      [lia|lia|done| | | | |].
    { unfold p2; simpl. rewrite length_insert. done. }
    { unfold p2; simpl. rewrite length_insert. done. }
    { done. }
    { unfold parent_key_of.
      replace (Z.of_nat level + 1) with L by lia.
      rewrite Hnode, Hslot by lia. rewrite !decide_True by done. done. }
    exists ret, p', leaf. split; [exact Hrun|].
    split; [|split; [|split]].
    + intros l Hl. destruct (Habove l) as [-> ->]; [lia|].
      rewrite Hnode, Hslot by lia. rewrite !decide_False by lia. done.
    + destruct (Habove L) as [HnodeL HslotL]; [lia|].
      rewrite Hnode, decide_True in HnodeL by (done || lia).
      rewrite Hslot, decide_True in HslotL by (done || lia).
      split; [done|]. intros l Hl.
      destruct (decide (l = Z.of_nat level)) as [->|Hne].
      * exists b, c. replace (Z.of_nat level + 1) with L by lia.
        rewrite HnodeL, HslotL.
        destruct Hdescent as [Hc0 _].
        destruct level; simpl in Hc; destruct Hc as [Hclevel _]; done.
      * destruct Hdescent as [_ Hbelow]. apply Hbelow. lia.
    + done.
    + assert (key_in_tree blocks (S level) b key ↔
              key_in_tree blocks level c key) as Hiff.
      { split.
        - intros (i & ci & Hi & Hreadi & Hini).
          destruct (Hchildren i Hi) as (ci' & Hreadi' & Hci).
          assert (ci' = ci) as -> by congruence.
          destruct (key_in_tree_within _ _ _ _ _ _ _ Hci Hini) as [Hlo Hhi].
          assert (i = s) as ->
            by (eapply descent_slot_unique; done).
          congruence.
        - intros Hin. exists s, c. done. }
      destruct Hout as [(Hin & Hrest)|(Hnot & Hrest)].
      * left. split; [apply Hiff; done|done].
      * right. split; [rewrite Hiff; done|done].
Qed.

(** The search as the callers in the checker start it: from the root, with
    a path just initialised. *)
Lemma search_from_fresh_path blocks root key level iterations :
  (level < 8)%nat → (level < iterations)%nat →
  tree_ok blocks root level (root_node root) None None →
  ∃ ret p leaf,
    search_loop iterations blocks root key btrfs_init_path (root_node root) =
      search_returns ret p ∧
    path_descent blocks p (Z.of_nat level) (root_node root) ∧
    path_node p 0 = Some leaf ∧
    search_outcome blocks level (root_node root) key ret leaf
      (path_slot p 0).
Proof.
  intros Hmax Hfuel Hok.
  destruct (search_loop_ordered blocks root key level (root_node root)
              None None btrfs_init_path iterations)
    as (ret & p & leaf & Hrun & _ & Hdescent & Hleaf & Hout);
    try done.
  - unfold parent_key_of. rewrite path_node_init. done.
  - exists ret, p, leaf. done.
Qed.

(** Case analysis on a slot of a block of two entries. *)
Local Ltac two_slots i Hi :=
  let H := fresh in
  assert (i = 0 ∨ i = 1) as H by (simpl in Hi; lia);
  destruct H as [->| ->].

Lemma stray_tree_validates :
  reads_and_validates stray_blocks (root_4k stray_top) 1 stray_top None.
Proof.
  split; [reflexivity|]. split; [vm_compute; reflexivity|].
  intros i Hi. two_slots i Hi.
  - exists stray_left. split; [reflexivity|].
    split; [reflexivity|vm_compute; reflexivity].
  - exists stray_right. split; [reflexivity|].
    split; [reflexivity|vm_compute; reflexivity].
Qed.

Lemma stray_key_in_tree :
  key_in_tree stray_blocks 1 stray_top (mk_key 20).
Proof.
  exists 0, stray_left. split; [simpl; lia|]. split; [reflexivity|].
  exists 1. split; [simpl; lia|reflexivity].
Qed.

(** C2, as stated.  Reading and validation alone do not make the search
    find a key that is stored in the tree: in the tree [stray_blocks] every
    block is valid, key 20 is in the left leaf, and the search for it
    follows the keys of the root into the right leaf and returns 1. *)
Theorem search_slot_claim_fails : ¬ search_slot_claim.
Proof.
  intros Hclaim.
  destruct (Hclaim stray_blocks (root_4k stray_top) (mk_key 20) 1%nat)
    as (ret & p & leaf & Hrun & _ & _ & Hout);
    [lia|exact stray_tree_validates|].
  vm_compute in Hrun. injection Hrun as <- _.
  destruct Hout as [(_ & Hret & _)|(Hnot & _)].
  - discriminate Hret.
  - exact (Hnot stray_key_in_tree).
Qed.

(** C2, amended.  On a tree of legal height whose blocks read and validate
    and which is ordered ([tree_ok]), the read-only search from a fresh
    path ends within [level + 1] iterations of its loop; it returns 0 with
    [path.slots[0]] at the key when the key is stored in the tree, and 1
    otherwise with [path.slots[0]] at the insertion point in the leaf it
    reached (all keys before it are smaller, all keys from it on are
    greater); in both cases the path holds the descent from the root to
    that leaf. *)
Theorem btrfs_search_slot_ordered (blocks : gmap Z extent_buffer)
    (root : btrfs_root) (key : btrfs_key) (level iterations : nat) :
  (level < 8)%nat → (level < iterations)%nat →
  tree_ok blocks root level (root_node root) None None →
  ∃ ret p leaf,
    btrfs_search_slot iterations blocks root key btrfs_init_path 0 0 =
      search_returns ret p ∧
    path_descent blocks p (Z.of_nat level) (root_node root) ∧
    path_node p 0 = Some leaf ∧
    search_outcome blocks level (root_node root) key ret leaf
      (path_slot p 0).
Proof.
  intros Hmax Hfuel Hok.
  destruct (search_from_fresh_path blocks root key level iterations)
    as (ret & p & leaf & Hrun & Hdescent & Hleaf & Hout); try done.
  exists ret, p, leaf. done.
Qed.

Lemma tidy_tree_ok :
  tree_ok tidy_blocks (root_4k stray_top) 1 stray_top None None.
Proof.
  split; [reflexivity|]. split; [simpl; lia|].
  split; [vm_compute; reflexivity|].
  split; [|split].
  - intros i j Hi Hij Hj. simpl in Hj.
    assert (i = 0 ∧ j = 1) as [-> ->] by lia. left. vm_compute. reflexivity.
  - intros i Hi. done.
  - intros i Hi. two_slots i Hi.
    + exists tidy_left. split; [reflexivity|].
      split; [reflexivity|]. split; [simpl; lia|].
      split; [vm_compute; reflexivity|]. split.
      * intros i j Hi' Hij Hj. simpl in Hj.
        assert (i = 0 ∧ j = 1) as [-> ->] by lia.
        left. vm_compute. reflexivity.
      * intros i Hi'. two_slots i Hi'.
        -- split; [right; reflexivity|left; vm_compute; reflexivity].
        -- split; [left; left|left]; vm_compute; reflexivity.
    + exists stray_right. split; [reflexivity|].
      split; [reflexivity|]. split; [simpl; lia|].
      split; [vm_compute; reflexivity|]. split.
      * intros i j Hi' Hij Hj. simpl in Hj.
        assert (i = 0 ∧ j = 1) as [-> ->] by lia.
        left. vm_compute. reflexivity.
      * intros i Hi'. two_slots i Hi'.
        -- split; [right; reflexivity|done].
        -- split; [left; left; vm_compute; reflexivity|done].
Qed.

Lemma btrfs_search_slot_ordered_witness :
  tree_ok tidy_blocks (root_4k stray_top) 1 stray_top None None ∧
  ∃ ret p leaf,
    btrfs_search_slot 2 tidy_blocks (root_4k stray_top) (mk_key 5)
      btrfs_init_path 0 0 = search_returns ret p ∧
    path_descent tidy_blocks p 1 stray_top ∧
    path_node p 0 = Some leaf ∧
    search_outcome tidy_blocks 1 stray_top (mk_key 5) ret leaf
      (path_slot p 0).
Proof.
  split; [exact tidy_tree_ok|].
  apply (btrfs_search_slot_ordered tidy_blocks (root_4k stray_top)
           (mk_key 5) 1 2); [lia|lia|exact tidy_tree_ok].
Defined.

End SearchFacts.

(** ** Freeing inode records *)

Section InodeFreeFacts.
Import Inode InodeSpec.



(** The checks leave everything but [errors] and [first_extent_gap] as it
    was, and leave [errors] at 0 exactly for a consistent record without
    errors. *)
Lemma check_inode_rec_fields rec :
  let rec' := check_inode_rec rec in
  backrefs rec' = backrefs rec ∧ checked rec' = checked rec ∧
  found_inode_item rec' = found_inode_item rec ∧ ino rec' = ino rec ∧
  nlink rec' = nlink rec ∧ found_link rec' = found_link rec ∧
  refs rec' = refs rec.
Proof.
  unfold check_inode_rec.
  destruct (S_ISDIR (imode rec)); simpl.
  - destruct (S_ISREG (imode rec) || S_ISLNK (imode rec)); simpl; done.
  - destruct (S_ISREG (imode rec) || S_ISLNK (imode rec)) eqn:Hreg; simpl.
    + destruct ((extent_start rec =? U64_MAX) || (0 <? extent_start rec));
        simpl; rewrite Hreg; simpl; done.
    + rewrite Hreg. done.
Qed.




End InodeFreeFacts.

(** ** Merging inode records *)

Section InodeMergeFacts.
Import Inode InodeSpec.

Lemma to_u32_add_l a b : to_u32 (to_u32 a + b) = to_u32 (a + b).
Proof. unfold to_u32. apply Zplus_mod_idemp_l. Qed.

Lemma to_u32_add_r a b : to_u32 (a + to_u32 b) = to_u32 (a + b).
Proof. unfold to_u32. apply Zplus_mod_idemp_r. Qed.

Lemma to_u32_idemp a : to_u32 (to_u32 a) = to_u32 a.
Proof. unfold to_u32. apply Zmod_mod. Qed.

Lemma set_backrefs_same rec : set_backrefs (backrefs rec) rec = rec.
Proof. destruct rec. reflexivity. Qed.

(** Equality of two unions of error bits, bit by bit. *)
Local Ltac lor_eq :=
  apply Z.bits_inj'; intros ?n ?Hn; rewrite ?Z.lor_spec, ?Z.bits_0;
  repeat match goal with
         | |- context [Z.testbit ?a ?n] => destruct (Z.testbit a n)
         end;
  reflexivity.

Lemma same_scalars_refl a : same_scalars a a.
Proof. reflexivity. Qed.

Lemma same_scalars_trans a b c :
  same_scalars a b → same_scalars b c → same_scalars a c.
Proof. unfold same_scalars. congruence. Qed.

Lemma same_scalars_set_backrefs bl a : same_scalars a (set_backrefs bl a).
Proof. reflexivity. Qed.

Lemma same_scalars_set_found_link v a : same_scalars a (set_found_link v a).
Proof. reflexivity. Qed.

Lemma same_scalars_fields a b :
  same_scalars a b →
  merging a = merging b ∧ refs a = refs b ∧ ino a = ino b.
Proof.
  unfold same_scalars. intros H.
  pose proof (f_equal merging H) as Hm.
  pose proof (f_equal refs H) as Hr.
  pose proof (f_equal ino H) as Hi.
  done.
Qed.

(** While a record is being merged into, [maybe_free_inode_rec] only drops
    back references. *)
Lemma maybe_free_inode_rec_merging inode_cache rec :
  merging rec = true →
  ∃ bl, maybe_free_inode_rec inode_cache rec =
          Some (<[ino rec := set_backrefs bl rec]> inode_cache,
                Some (set_backrefs bl rec)).
Proof.
  intros Hm. unfold maybe_free_inode_rec.
  destruct (found_inode_item rec); simpl.
  - exists (prune_backrefs (imode_to_type (imode rec)) (backrefs rec)).
    change (merging (set_backrefs _ rec)) with (merging rec).
    rewrite Hm, orb_true_r. reflexivity.
  - exists (backrefs rec). rewrite set_backrefs_same. reflexivity.
Qed.

Lemma add_inode_backref_merging inode_cache d dir index name namelen
    filetype itemtype errs :
  inode_cache !! ino d = Some d → merging d = true → refs d = 1 →
  valid_itemtype itemtype →
  ∃ inode_cache' d',
    add_inode_backref inode_cache (ino d) dir index name namelen filetype
      itemtype errs = Some inode_cache' ∧
    inode_cache' !! ino d = Some d' ∧ same_scalars d d' ∧
    found_link d' = (if itemtype =? BTRFS_DIR_ITEM_KEY
                     then to_u32 (found_link d + 1) else found_link d).
Proof.
  intros Hd Hm Hrefs Hvalid. unfold add_inode_backref, get_inode_rec.
  rewrite Hd, Hrefs. simpl.
  assert ((itemtype =? BTRFS_DIR_INDEX_KEY) || (itemtype =? BTRFS_DIR_ITEM_KEY) ||
          (itemtype =? BTRFS_INODE_REF_KEY) ||
          (itemtype =? BTRFS_INODE_EXTREF_KEY) = true) as ->.
  { destruct Hvalid as [-> | [-> | [-> | ->]]]; reflexivity. }
  set (d1 := set_backrefs _ d).
  set (d2 := if itemtype =? BTRFS_DIR_ITEM_KEY
             then set_found_link (to_u32 (found_link d + 1)) d1 else d1).
  assert (same_scalars d d2 ∧
          found_link d2 = (if itemtype =? BTRFS_DIR_ITEM_KEY
                           then to_u32 (found_link d + 1) else found_link d))
    as [Hsame Hlink].
  { unfold d2. destruct (itemtype =? BTRFS_DIR_ITEM_KEY); done. }
  destruct (same_scalars_fields _ _ Hsame) as (Hm2 & _ & Hino2).
  destruct (maybe_free_inode_rec_merging inode_cache d2) as [bl ->];
    [congruence|].
  simpl. rewrite <- Hino2.
  eexists _, _. split; [reflexivity|].
  rewrite lookup_insert_eq. split; [reflexivity|].
  split; [|exact Hlink].
  eapply same_scalars_trans; [exact Hsame|apply same_scalars_set_backrefs].
Qed.

Lemma merge_backrefs_merging l :
  ∀ inode_cache d dir_count,
    inode_cache !! ino d = Some d → merging d = true → refs d = 1 →
    Forall (λ b, Ref.found_inode_ref b = true →
                 Ref.ref_type b = BTRFS_INODE_REF_KEY ∨
                 Ref.ref_type b = BTRFS_INODE_EXTREF_KEY) l →
    to_u32 dir_count = dir_count →
    ∃ inode_cache' d',
      merge_backrefs (ino d) l (inode_cache, dir_count) =
        Some (inode_cache', to_u32 (dir_count + dir_item_count l)) ∧
      inode_cache' !! ino d = Some d' ∧ same_scalars d d' ∧
      to_u32 (found_link d') = to_u32 (found_link d + dir_item_count l).
Proof.
  induction l as [|b l IH];
    intros inode_cache d dir_count Hd Hm Hrefs Htypes Hdc.
  - exists inode_cache, d. simpl. rewrite !Z.add_0_r, Hdc.
    repeat split; done.
  - apply Forall_cons in Htypes as [Htype Htypes].
    simpl merge_backrefs. unfold merge_backref.
    (* the dir index *)
    assert (∃ c1 d1,
      (if Ref.found_dir_index b then
         add_inode_backref inode_cache (ino d) (Ref.dir b) (Ref.index b)
           (Ref.name b) (Ref.namelen b) (Ref.filetype b) BTRFS_DIR_INDEX_KEY
           (Ref.errors b)
       else Some inode_cache) = Some c1 ∧
      c1 !! ino d = Some d1 ∧ same_scalars d d1 ∧
      found_link d1 = found_link d) as (c1 & d1 & -> & Hd1 & Hs1 & Hl1).
    { destruct (Ref.found_dir_index b).
      - destruct (add_inode_backref_merging inode_cache d (Ref.dir b)
                    (Ref.index b) (Ref.name b) (Ref.namelen b)
                    (Ref.filetype b) BTRFS_DIR_INDEX_KEY (Ref.errors b))
          as (c & d' & Hrun & Hlook & Hsame & Hlink);
          [done|done|done|left; done|].
        exists c, d'. done.
      - exists inode_cache, d. done. }
    destruct (same_scalars_fields _ _ Hs1) as (Hm1 & Hr1 & Hi1).
    simpl. rewrite Hi1. rewrite Hi1 in Hd1.
    (* the dir item *)
    assert (∃ c2 d2,
      (if Ref.found_dir_item b then
         add_inode_backref c1 (ino d1) (Ref.dir b) 0 (Ref.name b)
           (Ref.namelen b) (Ref.filetype b) BTRFS_DIR_ITEM_KEY (Ref.errors b)
         ≫= λ dst_cache, Some (dst_cache, to_u32 (dir_count + 1))
       else Some (c1, dir_count)) =
        Some (c2, if Ref.found_dir_item b then to_u32 (dir_count + 1)
                  else dir_count) ∧
      c2 !! ino d1 = Some d2 ∧ same_scalars d1 d2 ∧
      found_link d2 = (if Ref.found_dir_item b
                       then to_u32 (found_link d1 + 1) else found_link d1))
      as (c2 & d2 & -> & Hd2 & Hs2 & Hl2).
    { destruct (Ref.found_dir_item b).
      - destruct (add_inode_backref_merging c1 d1 (Ref.dir b) 0 (Ref.name b)
                    (Ref.namelen b) (Ref.filetype b) BTRFS_DIR_ITEM_KEY
                    (Ref.errors b))
          as (c & d' & Hrun & Hlook & Hsame & Hlink);
          [done|congruence|congruence|right; left; done|].
        rewrite Hrun. exists c, d'. done.
      - exists c1, d1. done. }
    destruct (same_scalars_fields _ _ Hs2) as (Hm2 & Hr2 & Hi2).
    simpl. rewrite Hi2. rewrite Hi2 in Hd2.
    (* the inode ref *)
    assert (∃ c3 d3,
      (if Ref.found_inode_ref b then
         add_inode_backref c2 (ino d2) (Ref.dir b) (Ref.index b)
           (Ref.name b) (Ref.namelen b) 0 (Ref.ref_type b) (Ref.errors b)
       else Some c2) = Some c3 ∧
      c3 !! ino d2 = Some d3 ∧ same_scalars d2 d3 ∧
      found_link d3 = found_link d2) as (c3 & d3 & -> & Hd3 & Hs3 & Hl3).
    { destruct (Ref.found_inode_ref b) eqn:Href.
      - destruct (add_inode_backref_merging c2 d2 (Ref.dir b)
                    (Ref.index b) (Ref.name b) (Ref.namelen b) 0
                    (Ref.ref_type b) (Ref.errors b))
          as (c & d' & Hrun & Hlook & Hsame & Hlink);
          [done|congruence|congruence| |].
        { destruct (Htype eq_refl) as [Ht|Ht];
            [right; right; left|right; right; right]; done. }
        exists c, d'. repeat split; try done. rewrite Hlink.
        destruct (Htype eq_refl) as [-> | ->]; reflexivity.
      - exists c2, d2. done. }
    destruct (same_scalars_fields _ _ Hs3) as (Hm3 & Hr3 & Hi3).
    simpl. rewrite Hi3. rewrite Hi3 in Hd3.
    set (dc := if Ref.found_dir_item b then to_u32 (dir_count + 1)
               else dir_count).
    destruct (IH c3 d3 dc) as (c4 & d4 & -> & Hd4 & Hs4 & Hl4);
      [done|congruence|congruence|done| |].
    { unfold dc. destruct (Ref.found_dir_item b);
        [apply to_u32_idemp|done]. }
    exists c4, d4.
    split; [|split; [done|split]].
    + f_equal. f_equal. unfold dir_item_count. rewrite filter_cons.
      unfold dc.
      destruct (Ref.found_dir_item b).
      * rewrite decide_True by done. rewrite length_cons.
        rewrite to_u32_add_l. f_equal. lia.
      * rewrite decide_False by done. reflexivity.
    + eapply same_scalars_trans; [exact Hs1|].
      eapply same_scalars_trans; [exact Hs2|].
      eapply same_scalars_trans; [exact Hs3|exact Hs4].
    + rewrite Hl4, Hl3, Hl2, Hl1. unfold dir_item_count.
      rewrite filter_cons.
      destruct (Ref.found_dir_item b).
      * rewrite decide_True by done. rewrite length_cons.
        rewrite to_u32_add_l. f_equal. lia.
      * rewrite decide_False by done. reflexivity.
Qed.

(** The effect of each block of [merge_fields] on the direction independent
    fields. *)
Lemma merge_flags_view src dst :
  sym_view (merge_flags src dst) =
    (found_link dst, found_size dst, found_inode_item dst,
     found_dir_item dst || found_dir_item src,
     found_file_extent dst || found_file_extent src,
     found_csum_item dst || found_csum_item src,
     some_csum_missing dst || some_csum_missing src) ∧
  errors (merge_flags src dst) = errors dst.
Proof.
  unfold merge_flags, sym_view.
  destruct (found_dir_item src), (found_file_extent src),
    (found_csum_item src), (some_csum_missing src); simpl;
    rewrite ?orb_true_r, ?orb_false_r; done.
Qed.

Lemma merge_first_extent_gap_view src dst :
  sym_view (merge_first_extent_gap src dst) = sym_view dst ∧
  errors (merge_first_extent_gap src dst) = errors dst.
Proof.
  unfold merge_first_extent_gap.
  destruct (first_extent_gap src <? first_extent_gap dst); done.
Qed.

Lemma merge_extent_span_view src dst :
  sym_view (merge_extent_span src dst) = sym_view dst ∧
  Z.lor (errors (merge_extent_span src dst)) I_ERR_FILE_EXTENT_OVERLAP =
    Z.lor (errors dst) I_ERR_FILE_EXTENT_OVERLAP.
Proof.
  unfold merge_extent_span.
  destruct (negb (extent_start src =? U64_MAX)); [|done].
  destruct (extent_start dst =? U64_MAX); [done|].
  destruct (extent_start src <? extent_end dst); simpl.
  - destruct (extent_end dst <? extent_end src); simpl;
      (split; [done|lor_eq]).
  - destruct ((extent_end dst <? extent_start src) &&
              (extent_end dst <? first_extent_gap dst)); simpl;
      destruct (extent_end dst <? extent_end src); done.
Qed.

Lemma merge_inode_item_view src dst :
  let r := merge_inode_item src dst in
  (found_link r, found_size r, found_dir_item r, found_file_extent r,
   found_csum_item r, some_csum_missing r) =
  (found_link dst, found_size dst, found_dir_item dst, found_file_extent dst,
   found_csum_item dst, some_csum_missing dst) ∧
  found_inode_item r = found_inode_item dst || found_inode_item src ∧
  errors r = Z.lor (errors dst)
               (if found_inode_item dst && found_inode_item src
                then I_ERR_DUP_INODE_ITEM else 0).
Proof.
  unfold merge_inode_item.
  destruct (found_inode_item src), (found_inode_item dst) eqn:Hdst; simpl;
    rewrite ?Z.lor_0_r, ?Hdst; done.
Qed.

(** What [merge_fields] writes to the direction independent fields. *)
Lemma merge_fields_symmetric src dst dir_count :
  let r := merge_fields src dst dir_count in
  found_link r =
    to_u32 (found_link dst + to_u32 (found_link src - dir_count)) ∧
  found_size r = wrap64 (found_size dst + found_size src) ∧
  found_inode_item r = found_inode_item dst || found_inode_item src ∧
  found_dir_item r = found_dir_item dst || found_dir_item src ∧
  found_file_extent r = found_file_extent dst || found_file_extent src ∧
  found_csum_item r = found_csum_item dst || found_csum_item src ∧
  some_csum_missing r = some_csum_missing dst || some_csum_missing src ∧
  merging r = false ∧
  Z.lor (errors r) I_ERR_FILE_EXTENT_OVERLAP =
    Z.lor (Z.lor (Z.lor (errors dst) (errors src))
             (if found_inode_item dst && found_inode_item src
              then I_ERR_DUP_INODE_ITEM else 0))
      I_ERR_FILE_EXTENT_OVERLAP.
Proof.
  unfold merge_fields. cbv zeta.
  set (d1 := merge_flags src dst).
  set (d2 := merge_first_extent_gap src d1).
  set (d3 := merge_counts src d2 dir_count).
  set (d4 := merge_extent_span src d3).
  set (d5 := set_errors (Z.lor (errors d4) (errors src)) d4).
  set (d6 := merge_inode_item src d5).
  destruct (merge_flags_view src dst) as [Hv1 He1]. fold d1 in Hv1, He1.
  destruct (merge_first_extent_gap_view src d1) as [Hv2 He2].
  fold d2 in Hv2, He2.
  destruct (merge_extent_span_view src d3) as [Hv4 He4]. fold d4 in Hv4, He4.
  destruct (merge_inode_item_view src d5) as (Hv6 & Hi6 & He6).
  fold d6 in Hv6, Hi6, He6.
  unfold sym_view in *.
  change (found_link d3)
    with (to_u32 (found_link d2 + to_u32 (found_link src - dir_count))) in *.
  change (found_size d3) with (wrap64 (found_size d2 + found_size src)) in *.
  change (found_inode_item d3) with (found_inode_item d2) in *.
  change (found_dir_item d3) with (found_dir_item d2) in *.
  change (found_file_extent d3) with (found_file_extent d2) in *.
  change (found_csum_item d3) with (found_csum_item d2) in *.
  change (some_csum_missing d3) with (some_csum_missing d2) in *.
  change (errors d3) with (errors d2) in *.
  change (found_link d5) with (found_link d4) in *.
  change (found_size d5) with (found_size d4) in *.
  change (found_inode_item d5) with (found_inode_item d4) in *.
  change (found_dir_item d5) with (found_dir_item d4) in *.
  change (found_file_extent d5) with (found_file_extent d4) in *.
  change (found_csum_item d5) with (found_csum_item d4) in *.
  change (some_csum_missing d5) with (some_csum_missing d4) in *.
  change (errors d5) with (Z.lor (errors d4) (errors src)) in *.
  simpl.
  injection Hv1 as Hl1 Hs1 Hi1 Hd1 Hf1 Hc1 Hm1.
  injection Hv2 as Hl2 Hs2 Hi2 Hd2 Hf2 Hc2 Hm2.
  injection Hv4 as Hl4 Hs4 Hi4 Hd4 Hf4 Hc4 Hm4.
  injection Hv6 as Hl6 Hs6 Hd6 Hf6 Hc6 Hm6.
  repeat split; try congruence.
  rewrite He6, Hi4, Hi2, Hi1.
  rewrite <- He1, <- He2.
  revert He4. generalize (errors d4) (errors d2) (errors src). intros e4 e2 es He4.
  destruct (found_inode_item dst && found_inode_item src).
  - apply Z.bits_inj'. intros n Hn.
    apply (f_equal (λ z, Z.testbit z n)) in He4.
    rewrite !Z.lor_spec in *.
    destruct (Z.testbit e4 n), (Z.testbit e2 n), (Z.testbit es n),
      (Z.testbit I_ERR_FILE_EXTENT_OVERLAP n),
      (Z.testbit I_ERR_DUP_INODE_ITEM n); simpl in *; congruence.
  - apply Z.bits_inj'. intros n Hn.
    apply (f_equal (λ z, Z.testbit z n)) in He4.
    rewrite !Z.lor_spec, ?Z.bits_0 in *.
    destruct (Z.testbit e4 n), (Z.testbit e2 n), (Z.testbit es n),
      (Z.testbit I_ERR_FILE_EXTENT_OVERLAP n); simpl in *; congruence.
Qed.

(** The direction independent fields of the record that
    [merge_inode_recs] leaves in the cache, from those of [src] and
    [dst]. *)
Lemma merge_inode_recs_fields src dst dst_cache :
  refs dst = 1 → mergeable src →
  ∃ dst_cache' r,
    merge_inode_recs src dst dst_cache = Some dst_cache' ∧
    dst_cache' !! ino dst = Some r ∧
    found_link r = to_u32 (found_link dst + found_link src) ∧
    found_size r = wrap64 (found_size dst + found_size src) ∧
    found_inode_item r = found_inode_item dst || found_inode_item src ∧
    found_dir_item r = found_dir_item dst || found_dir_item src ∧
    found_file_extent r = found_file_extent dst || found_file_extent src ∧
    found_csum_item r = found_csum_item dst || found_csum_item src ∧
    some_csum_missing r = some_csum_missing dst || some_csum_missing src ∧
    merging r = false ∧
    Z.lor (errors r) I_ERR_FILE_EXTENT_OVERLAP =
      Z.lor (Z.lor (Z.lor (errors dst) (errors src))
               (if found_inode_item dst && found_inode_item src
                then I_ERR_DUP_INODE_ITEM else 0))
        I_ERR_FILE_EXTENT_OVERLAP.
Proof.
  intros Hrefs [Htypes Hlinks]. unfold merge_inode_recs.
  set (d0 := set_merging true dst).
  destruct (merge_backrefs_merging (backrefs src)
              (<[ino dst := d0]> dst_cache) d0 0)
    as (c & d' & Hrun & Hlook & Hsame & Hlink);
    [apply lookup_insert_eq|done|done|done|done|].
  change (ino d0) with (ino dst) in *.
  rewrite Hrun. simpl. rewrite Hlook. simpl.
  fold (dir_items src) in *.
  assert (0 ≤ dir_items src) as Hpos by (unfold dir_items, dir_item_count; lia).
  assert (to_u32 (0 + dir_items src) = dir_items src) as Hcount.
  { unfold to_u32. rewrite Z.add_0_l. apply Z.mod_small. lia. }
  rewrite Hcount.
  replace (found_link src <? dir_items src) with false
    by (symmetry; apply Z.ltb_ge; lia).
  eexists _, _. split; [reflexivity|]. rewrite lookup_insert_eq.
  split; [reflexivity|].
  destruct (merge_fields_symmetric src d' (dir_items src))
    as (Hl & Hs & Hi & Hd & Hf & Hc & Hm & Hg & He).
  unfold same_scalars in Hsame.
  pose proof (f_equal found_size Hsame) as Es.
  pose proof (f_equal found_inode_item Hsame) as Ei.
  pose proof (f_equal found_dir_item Hsame) as Ed.
  pose proof (f_equal found_file_extent Hsame) as Ef.
  pose proof (f_equal found_csum_item Hsame) as Ec.
  pose proof (f_equal some_csum_missing Hsame) as Em.
  pose proof (f_equal errors Hsame) as Ee.
  simpl in Es, Ei, Ed, Ef, Ec, Em, Ee.
  rewrite Hs, Hi, Hd, Hf, Hc, Hm, Hg, He, <- Es, <- Ei, <- Ed, <- Ef, <- Ec,
    <- Em, <- Ee.
  repeat split.
  rewrite Hl, <- to_u32_add_l, Hlink, to_u32_add_l, to_u32_add_r.
  change (found_link d0) with (found_link dst). f_equal. lia.
Qed.

(** *** The fields that depend on the direction only in part *)

Lemma merge_flags_far src dst :
  extent_start (merge_flags src dst) = extent_start dst ∧
  extent_end (merge_flags src dst) = extent_end dst ∧
  first_extent_gap (merge_flags src dst) = first_extent_gap dst ∧
  item_view (merge_flags src dst) = item_view dst ∧
  errors (merge_flags src dst) = errors dst ∧
  found_inode_item (merge_flags src dst) = found_inode_item dst.
Proof.
  unfold merge_flags.
  destruct (found_dir_item src), (found_file_extent src),
    (found_csum_item src), (some_csum_missing src); done.
Qed.

Lemma merge_first_extent_gap_far src dst :
  extent_start (merge_first_extent_gap src dst) = extent_start dst ∧
  extent_end (merge_first_extent_gap src dst) = extent_end dst ∧
  first_extent_gap (merge_first_extent_gap src dst) =
    Z.min (first_extent_gap dst) (first_extent_gap src) ∧
  item_view (merge_first_extent_gap src dst) = item_view dst ∧
  errors (merge_first_extent_gap src dst) = errors dst ∧
  found_inode_item (merge_first_extent_gap src dst) = found_inode_item dst.
Proof.
  unfold merge_first_extent_gap.
  destruct (Z.ltb_spec (first_extent_gap src) (first_extent_gap dst)); simpl.
  - rewrite Z.min_r by lia. done.
  - rewrite Z.min_l by lia. done.
Qed.

Lemma merge_extent_span_far src dst :
  let r := merge_extent_span src dst in
  extent_end r =
    (if extent_start src =? U64_MAX then extent_end dst
     else if extent_start dst =? U64_MAX then extent_end src
     else Z.max (extent_end dst) (extent_end src)) ∧
  item_view r = item_view dst ∧
  found_inode_item r = found_inode_item dst ∧
  (extent_start src = U64_MAX ∨ extent_start dst = U64_MAX →
   extent_start r =
     (if extent_start dst =? U64_MAX then extent_start src
      else extent_start dst) ∧
   first_extent_gap r = first_extent_gap dst ∧ errors r = errors dst).
Proof.
  unfold merge_extent_span.
  destruct (Z.eqb_spec (extent_start src) U64_MAX) as [Hs|Hs]; simpl.
  { split; [done|]. split; [done|]. split; [done|]. intros _.
    destruct (Z.eqb_spec (extent_start dst) U64_MAX);
      [split; [congruence|done]|done]. }
  destruct (Z.eqb_spec (extent_start dst) U64_MAX) as [Hd|Hd]; simpl.
  { split; [done|]. split; [done|]. split; [done|]. done. }
  assert (∀ d, extent_end
                 (if extent_end d <? extent_end src
                  then set_extent_end (extent_end src) d else d) =
               Z.max (extent_end d) (extent_end src)) as Hmax.
  { intros d. destruct (Z.ltb_spec (extent_end d) (extent_end src)); simpl;
      lia. }
  split; [|split; [|split]].
  - rewrite Hmax.
    destruct (extent_start src <? extent_end dst); [done|].
    destruct ((extent_end dst <? extent_start src) &&
              (extent_end dst <? first_extent_gap dst)); done.
  - destruct (extent_start src <? extent_end dst); simpl.
    + destruct (extent_end dst <? extent_end src); done.
    + destruct ((extent_end dst <? extent_start src) &&
                (extent_end dst <? first_extent_gap dst)); simpl;
        destruct (extent_end dst <? extent_end src); done.
  - destruct (extent_start src <? extent_end dst); simpl.
    + destruct (extent_end dst <? extent_end src); done.
    + destruct ((extent_end dst <? extent_start src) &&
                (extent_end dst <? first_extent_gap dst)); simpl;
        destruct (extent_end dst <? extent_end src); done.
  - intros [?|?]; done.
Qed.

Lemma merge_inode_item_far src dst :
  let r := merge_inode_item src dst in
  extent_start r = extent_start dst ∧ extent_end r = extent_end dst ∧
  first_extent_gap r = first_extent_gap dst ∧
  item_view r =
    (if found_inode_item src && negb (found_inode_item dst)
     then item_view src else item_view dst).
Proof.
  unfold merge_inode_item.
  destruct (found_inode_item src), (found_inode_item dst); done.
Qed.

(** What [merge_fields] makes of the extent span, the error bits and the
    fields of the inode item. *)
Lemma merge_fields_far src dst dir_count :
  let r := merge_fields src dst dir_count in
  extent_end r =
    (if extent_start src =? U64_MAX then extent_end dst
     else if extent_start dst =? U64_MAX then extent_end src
     else Z.max (extent_end dst) (extent_end src)) ∧
  item_view r =
    (if found_inode_item src && negb (found_inode_item dst)
     then item_view src else item_view dst) ∧
  ino r = ino dst ∧ backrefs r = backrefs dst ∧
  (extent_start src = U64_MAX ∨ extent_start dst = U64_MAX →
   extent_start r =
     (if extent_start dst =? U64_MAX then extent_start src
      else extent_start dst) ∧
   first_extent_gap r =
     Z.min (first_extent_gap dst) (first_extent_gap src) ∧
   errors r =
     Z.lor (Z.lor (errors dst) (errors src))
       (if found_inode_item dst && found_inode_item src
        then I_ERR_DUP_INODE_ITEM else 0)).
Proof.
  unfold merge_fields. cbv zeta.
  set (d1 := merge_flags src dst).
  set (d2 := merge_first_extent_gap src d1).
  set (d3 := merge_counts src d2 dir_count).
  set (d4 := merge_extent_span src d3).
  set (d5 := set_errors (Z.lor (errors d4) (errors src)) d4).
  set (d6 := merge_inode_item src d5).
  destruct (merge_flags_far src dst) as (Hs1 & Hn1 & Hg1 & Ht1 & He1 & Hi1).
  fold d1 in Hs1, Hn1, Hg1, Ht1, He1, Hi1.
  destruct (merge_first_extent_gap_far src d1)
    as (Hs2 & Hn2 & Hg2 & Ht2 & He2 & Hi2).
  fold d2 in Hs2, Hn2, Hg2, Ht2, He2, Hi2.
  destruct (merge_extent_span_far src d3) as (Hend4 & Hit4 & Hi4 & Hspan4).
  fold d4 in Hend4, Hit4, Hi4, Hspan4.
  destruct (merge_inode_item_far src d5) as (Hs6 & Hn6 & Hg6 & Hit6).
  fold d6 in Hs6, Hn6, Hg6, Hit6.
  destruct (merge_inode_item_view src d5) as (_ & _ & He6).
  fold d6 in He6.
  change (extent_start d3) with (extent_start d2) in *.
  change (extent_end d3) with (extent_end d2) in *.
  change (first_extent_gap d3) with (first_extent_gap d2) in *.
  change (item_view d3) with (item_view d2) in *.
  change (errors d3) with (errors d2) in *.
  change (found_inode_item d3) with (found_inode_item d2) in *.
  change (extent_start d5) with (extent_start d4) in *.
  change (extent_end d5) with (extent_end d4) in *.
  change (first_extent_gap d5) with (first_extent_gap d4) in *.
  change (item_view d5) with (item_view d4) in *.
  change (found_inode_item d5) with (found_inode_item d4) in *.
  change (errors d5) with (Z.lor (errors d4) (errors src)) in *.
  change (extent_end (set_merging false d6)) with (extent_end d6).
  change (item_view (set_merging false d6)) with (item_view d6).
  change (ino (set_merging false d6)) with (ino d6).
  change (backrefs (set_merging false d6)) with (backrefs d6).
  change (extent_start (set_merging false d6)) with (extent_start d6).
  change (first_extent_gap (set_merging false d6))
    with (first_extent_gap d6).
  change (errors (set_merging false d6)) with (errors d6).
  split; [rewrite Hn6, Hend4, Hs2, Hn2, Hs1, Hn1; done|].
  split; [rewrite Hit6, Hit4, Hi4, Hi2, Hi1, Ht2, Ht1; done|].
  split.
  { unfold d6, merge_inode_item.
    destruct (found_inode_item src), (negb (found_inode_item d5)); simpl;
      unfold d4, merge_extent_span;
      repeat match goal with
             | |- context [if ?c then _ else _] => destruct c; simpl
             end;
      unfold d2, merge_first_extent_gap;
      repeat match goal with
             | |- context [if ?c then _ else _] => destruct c; simpl
             end;
      unfold d1, merge_flags;
      repeat match goal with
             | |- context [if ?c then _ else _] => destruct c; simpl
             end; reflexivity. }
  split.
  { unfold d6, merge_inode_item.
    destruct (found_inode_item src), (negb (found_inode_item d5)); simpl;
      unfold d4, merge_extent_span;
      repeat match goal with
             | |- context [if ?c then _ else _] => destruct c; simpl
             end;
      unfold d2, merge_first_extent_gap;
      repeat match goal with
             | |- context [if ?c then _ else _] => destruct c; simpl
             end;
      unfold d1, merge_flags;
      repeat match goal with
             | |- context [if ?c then _ else _] => destruct c; simpl
             end; reflexivity. }
  intros Hone.
  destruct Hspan4 as (Hst4 & Hg4 & He4); [rewrite Hs2, Hs1; exact Hone|].
  rewrite Hs6, Hg6, He6, Hst4, Hg4, He4, Hi4, Hi2, Hi1, Hs2, Hs1, Hg2, Hg1,
    He2, He1.
  done.
Qed.

(** [extent_start] after the merge: that of [dst], if it has seen an
    extent. *)
Lemma merge_extent_span_start src dst :
  extent_start (merge_extent_span src dst) =
    if extent_start dst =? U64_MAX then extent_start src
    else extent_start dst.
Proof.
  unfold merge_extent_span.
  destruct (Z.eqb_spec (extent_start src) U64_MAX) as [Hs|Hs]; simpl.
  { destruct (Z.eqb_spec (extent_start dst) U64_MAX); congruence. }
  destruct (Z.eqb_spec (extent_start dst) U64_MAX) as [Hd|Hd]; simpl;
    [done|].
  destruct (extent_start src <? extent_end dst); simpl.
  - destruct (extent_end dst <? extent_end src); done.
  - destruct ((extent_end dst <? extent_start src) &&
              (extent_end dst <? first_extent_gap dst)); simpl;
      destruct (extent_end dst <? extent_end src); done.
Qed.

Lemma merge_fields_start src dst d' dir_count :
  same_scalars (set_merging true dst) d' →
  extent_start (merge_fields src d' dir_count) =
    if extent_start dst =? U64_MAX then extent_start src
    else extent_start dst.
Proof.
  unfold same_scalars. intros Hsame.
  pose proof (f_equal extent_start Hsame) as Es. simpl in Es. rewrite Es.
  unfold merge_fields. cbv zeta.
  set (d1 := merge_flags src d').
  set (d2 := merge_first_extent_gap src d1).
  set (d3 := merge_counts src d2 dir_count).
  set (d4 := merge_extent_span src d3).
  set (d5 := set_errors (Z.lor (errors d4) (errors src)) d4).
  set (d6 := merge_inode_item src d5).
  destruct (merge_flags_far src d') as (Hs1 & _). fold d1 in Hs1.
  destruct (merge_first_extent_gap_far src d1) as (Hs2 & _). fold d2 in Hs2.
  destruct (merge_inode_item_far src d5) as (Hs6 & _). fold d6 in Hs6.
  pose proof (merge_extent_span_start src d3) as Hs4. fold d4 in Hs4.
  change (extent_start d3) with (extent_start d2) in Hs4.
  change (extent_start d5) with (extent_start d4) in Hs6.
  change (extent_start (set_merging false d6)) with (extent_start d6).
  rewrite Hs6, Hs4, Hs2, Hs1. reflexivity.
Qed.

(** The same, for the record [d'] that the loop of [merge_inode_recs]
    leaves of [dst]. *)
Lemma merge_fields_far_same src dst d' dir_count :
  same_scalars (set_merging true dst) d' →
  let r := merge_fields src d' dir_count in
  extent_end r =
    (if extent_start src =? U64_MAX then extent_end dst
     else if extent_start dst =? U64_MAX then extent_end src
     else Z.max (extent_end dst) (extent_end src)) ∧
  item_view r =
    (if found_inode_item src && negb (found_inode_item dst)
     then item_view src else item_view dst) ∧
  ino r = ino dst ∧ backrefs r = backrefs d' ∧
  (extent_start src = U64_MAX ∨ extent_start dst = U64_MAX →
   extent_start r =
     (if extent_start dst =? U64_MAX then extent_start src
      else extent_start dst) ∧
   first_extent_gap r =
     Z.min (first_extent_gap dst) (first_extent_gap src) ∧
   errors r =
     Z.lor (Z.lor (errors dst) (errors src))
       (if found_inode_item dst && found_inode_item src
        then I_ERR_DUP_INODE_ITEM else 0)).
Proof.
  unfold same_scalars. intros Hsame.
  pose proof (f_equal ino Hsame) as Ei.
  pose proof (f_equal extent_start Hsame) as Es.
  pose proof (f_equal extent_end Hsame) as En.
  pose proof (f_equal first_extent_gap Hsame) as Eg.
  pose proof (f_equal errors Hsame) as Ee.
  pose proof (f_equal found_inode_item Hsame) as Ef.
  pose proof (f_equal item_view Hsame) as Et.
  simpl in Ei, Es, En, Eg, Ee, Ef.
  change (item_view
            (set_backrefs [] (set_found_link 0 (set_merging true dst))))
    with (item_view dst) in Et.
  change (item_view (set_backrefs [] (set_found_link 0 d')))
    with (item_view d') in Et.
  cbv zeta. rewrite Ei, Es, En, Eg, Ee, Ef, Et.
  apply merge_fields_far.
Qed.

(** *** The back references of a record without inode item *)

Lemma to_u16_small n : 0 ≤ n < 2 ^ 16 → to_u16 n = n.
Proof. intros Hn. unfold to_u16. by apply Z.mod_small. Qed.

Lemma note_item_name index filetype itemtype errs b :
  backref_name (note_item index filetype itemtype errs b) = backref_name b.
Proof.
  unfold note_item, backref_name.
  destruct (negb (errs =? 0)), (itemtype =? BTRFS_DIR_INDEX_KEY),
    (itemtype =? BTRFS_DIR_ITEM_KEY); reflexivity.
Qed.

Lemma note_item_seen index filetype itemtype errs b :
  seen (note_item index filetype itemtype errs b) =
    (if itemtype =? BTRFS_DIR_INDEX_KEY
     then (Ref.found_dir_item b, true, Ref.found_inode_ref b)
     else if itemtype =? BTRFS_DIR_ITEM_KEY
     then (true, Ref.found_dir_index b, Ref.found_inode_ref b)
     else (Ref.found_dir_item b, Ref.found_dir_index b, true)).
Proof.
  unfold note_item, seen.
  destruct (negb (errs =? 0)), (itemtype =? BTRFS_DIR_INDEX_KEY),
    (itemtype =? BTRFS_DIR_ITEM_KEY); reflexivity.
Qed.

Lemma note_item_filed index filetype itemtype errs b :
  0 ≤ Ref.namelen b < 2 ^ 16 →
  filed (note_item index filetype itemtype errs b).
Proof.
  intros Hlen. unfold filed.
  pose proof (note_item_seen index filetype itemtype errs b) as Hseen.
  pose proof (note_item_name index filetype itemtype errs b) as Hname.
  unfold seen, backref_name in *.
  injection Hname as _ Hnl _. rewrite Hnl. split; [done|].
  destruct (itemtype =? BTRFS_DIR_INDEX_KEY);
    [|destruct (itemtype =? BTRFS_DIR_ITEM_KEY)];
    injection Hseen as -> -> ->; rewrite ?orb_true_r; done.
Qed.

Lemma backref_matches_name name namelen dir b :
  backref_matches name namelen dir b = true ↔
  backref_name b = (dir, namelen, take (Z.to_nat namelen) name).
Proof.
  unfold backref_matches, backref_name.
  rewrite !andb_true_iff, !Z.eqb_eq, bool_decide_eq_true.
  split.
  - intros [[-> ->] ->]. done.
  - intros [= -> -> ->]. done.
Qed.

Lemma new_inode_backref_name name namelen dir :
  0 ≤ namelen < 2 ^ 16 →
  backref_name (new_inode_backref name namelen dir) =
    (dir, namelen, take (Z.to_nat namelen) name).
Proof.
  intros Hlen. unfold backref_name, new_inode_backref. simpl.
  rewrite to_u16_small by done. by rewrite take_take, Nat.min_id.
Qed.

Lemma get_inode_backref_names update name namelen dir l :
  0 ≤ namelen < 2 ^ 16 →
  (∀ b, backref_name (update b) = backref_name b) →
  NoDup (backref_name <$> l) →
  NoDup (backref_name <$> get_inode_backref update name namelen dir l) ∧
  ∀ k, k ∈ backref_name <$> get_inode_backref update name namelen dir l →
       k ∈ backref_name <$> l ∨
       k = (dir, namelen, take (Z.to_nat namelen) name).
Proof.
  intros Hlen Hupdate. induction l as [|b l IH]; intros Hnodup; simpl.
  - rewrite Hupdate, new_inode_backref_name by done.
    split; [apply NoDup_singleton|].
    intros k Hk. apply list_elem_of_singleton in Hk. by right.
  - apply NoDup_cons in Hnodup as [Hnotin Hnodup].
    destruct (backref_matches name namelen dir b) eqn:Hmatch; simpl.
    + rewrite Hupdate. split; [by apply NoDup_cons|]. intros k Hk. by left.
    + destruct (IH Hnodup) as [Hnd Hin]. split.
      * apply NoDup_cons. split; [|done]. intros Hb.
        destruct (Hin _ Hb) as [?|Heq]; [done|].
        apply backref_matches_name in Heq. congruence.
      * intros k Hk. apply elem_of_cons in Hk as [->|Hk].
        -- left. apply elem_of_cons. by left.
        -- destruct (Hin _ Hk) as [?|?]; [|by right].
           left. apply elem_of_cons. by right.
Qed.

Lemma get_inode_backref_filed update name namelen dir l :
  0 ≤ namelen < 2 ^ 16 →
  (∀ b, 0 ≤ Ref.namelen b < 2 ^ 16 → filed (update b)) →
  Forall filed l →
  Forall filed (get_inode_backref update name namelen dir l).
Proof.
  intros Hlen Hupdate. induction 1 as [|b l Hb Hl IH]; simpl.
  - constructor; [|constructor]. apply Hupdate. simpl.
    rewrite to_u16_small; done.
  - destruct (backref_matches name namelen dir b).
    + constructor; [|done]. apply Hupdate. apply Hb.
    + constructor; done.
Qed.

Lemma list_to_map_view b (l : list Ref.inode_backref) :
  list_to_map (link_view <$> b :: l)
    =@{gmap (Z * Z * list Z) (bool * bool * bool)}
  <[backref_name b := seen b]> (list_to_map (link_view <$> l)).
Proof. reflexivity. Qed.

(** The names and the ways they were seen, as a map: [get_inode_backref]
    changes the entry of the name it is called for. *)
Lemma get_inode_backref_view update (g : bool * bool * bool → bool * bool * bool)
    name namelen dir l :
  0 ≤ namelen < 2 ^ 16 →
  (∀ b, backref_name (update b) = backref_name b) →
  (∀ b, seen (update b) = g (seen b)) →
  list_to_map (link_view <$> get_inode_backref update name namelen dir l)
    =@{gmap (Z * Z * list Z) (bool * bool * bool)}
  partial_alter (λ o, Some (g (default (false, false, false) o)))
    (dir, namelen, take (Z.to_nat namelen) name)
    (list_to_map (link_view <$> l)).
Proof.
  intros Hlen Hname Hseen. induction l as [|b l IH];
    cbn [get_inode_backref].
  - rewrite list_to_map_view, fmap_nil, list_to_map_nil.
    rewrite Hname, Hseen, new_inode_backref_name by done.
    apply map_eq. intros i.
    rewrite lookup_partial_alter, lookup_insert.
    destruct (decide (_ = i)); done.
  - destruct (backref_matches name namelen dir b) eqn:Hmatch;
      rewrite !list_to_map_view.
    + apply backref_matches_name in Hmatch.
      rewrite Hname, Hseen, Hmatch.
      rewrite partial_alter_insert_eq.
      apply map_eq. intros i.
      rewrite lookup_partial_alter, lookup_insert.
      destruct (decide (_ = i)); done.
    + assert (backref_name b ≠ (dir, namelen, take (Z.to_nat namelen) name))
        as Hne.
      { intros Heq. apply backref_matches_name in Heq. congruence. }
      rewrite IH.
      rewrite partial_alter_insert_ne by done. done.
Qed.

Lemma filed_into_view s l :
  0 ≤ Ref.namelen s < 2 ^ 16 →
  (Ref.found_inode_ref s = true →
   Ref.ref_type s = BTRFS_INODE_REF_KEY ∨
   Ref.ref_type s = BTRFS_INODE_EXTREF_KEY) →
  list_to_map (link_view <$> filed_into s l)
    =@{gmap (Z * Z * list Z) (bool * bool * bool)}
  union_with seen_either (list_to_map (link_view <$> l))
    (if Ref.found_dir_item s || Ref.found_dir_index s ||
        Ref.found_inode_ref s
     then {[ backref_name s := seen s ]} else ∅).
Proof.
  intros Hlen Href. unfold filed_into.
  set (k := backref_name s).
  set (m := list_to_map (link_view <$> l)).
  assert (∀ index filetype itemtype errs l',
            list_to_map
              (link_view <$>
                 get_inode_backref (note_item index filetype itemtype errs)
                   (Ref.name s) (Ref.namelen s) (Ref.dir s) l')
              =@{gmap (Z * Z * list Z) (bool * bool * bool)}
            partial_alter
              (λ o, Some
                 ((λ f : bool * bool * bool,
                     if itemtype =? BTRFS_DIR_INDEX_KEY
                     then (f.1.1, true, f.2)
                     else if itemtype =? BTRFS_DIR_ITEM_KEY
                     then (true, f.1.2, f.2)
                     else (f.1.1, f.1.2, true))
                    (default (false, false, false) o)))
              k (list_to_map (link_view <$> l'))) as Hstep.
  { intros index filetype itemtype errs l'.
    apply (get_inode_backref_view _
             (λ f : bool * bool * bool,
                if itemtype =? BTRFS_DIR_INDEX_KEY
                then (f.1.1, true, f.2)
                else if itemtype =? BTRFS_DIR_ITEM_KEY
                then (true, f.1.2, f.2)
                else (f.1.1, f.1.2, true))); [done| |].
    - intros b. apply note_item_name.
    - intros b. apply note_item_seen. }
  assert (Ref.found_inode_ref s = true →
          (Ref.ref_type s =? BTRFS_DIR_INDEX_KEY) = false ∧
          (Ref.ref_type s =? BTRFS_DIR_ITEM_KEY) = false) as Htype.
  { intros Hir. destruct (Href Hir) as [-> | ->]; done. }
  apply map_eq. intros i.
  rewrite lookup_union_with.
  destruct (Ref.found_dir_index s) eqn:Hdx, (Ref.found_dir_item s) eqn:Hdi,
    (Ref.found_inode_ref s) eqn:Hir; cbn [orb];
    try (destruct (Htype eq_refl) as [Ht1 Ht2]);
    rewrite ?Hstep, ?lookup_partial_alter, ?lookup_singleton, ?lookup_empty;
    rewrite ?Ht1, ?Ht2; fold m;
    (destruct (decide (k = i)) as [<-|Hne];
     [|rewrite ?decide_False by done; destruct (m !! i); reflexivity]);
    rewrite ?decide_True by done;
    unfold seen; rewrite ?Hdx, ?Hdi, ?Hir;
    destruct (m !! k) as [[[a b] c]|]; cbn; unfold seen_either; cbn;
    rewrite ?orb_true_r, ?orb_false_r; reflexivity.
Qed.

Lemma views_names (l : list Ref.inode_backref) :
  (link_view <$> l).*1 = backref_name <$> l.
Proof. induction l as [|b l IH]; [done|]. rewrite !fmap_cons, IH. done. Qed.

Lemma filed_into_tidy s l :
  0 ≤ Ref.namelen s < 2 ^ 16 →
  NoDup (backref_name <$> l) → Forall filed l →
  NoDup (backref_name <$> filed_into s l) ∧ Forall filed (filed_into s l).
Proof.
  intros Hlen Hnodup Hfiled. unfold filed_into.
  assert (∀ index filetype itemtype errs l',
            NoDup (backref_name <$> l') ∧ Forall filed l' →
            NoDup (backref_name <$>
                     get_inode_backref (note_item index filetype itemtype errs)
                       (Ref.name s) (Ref.namelen s) (Ref.dir s) l') ∧
            Forall filed
              (get_inode_backref (note_item index filetype itemtype errs)
                 (Ref.name s) (Ref.namelen s) (Ref.dir s) l')) as Hstep.
  { intros index filetype itemtype errs l' [Hn Hf]. split.
    - apply get_inode_backref_names; [done| |done].
      intros b. apply note_item_name.
    - apply get_inode_backref_filed; [done| |done].
      intros b. apply note_item_filed. }
  destruct (Ref.found_dir_index s), (Ref.found_dir_item s),
    (Ref.found_inode_ref s); repeat apply Hstep; done.
Qed.

(** The back references after a whole list was merged in, as a map: the
    union of the two maps. *)
Lemma merged_view src :
  ∀ l,
    Forall filed src → NoDup (backref_name <$> src) →
    Forall (λ b, Ref.found_inode_ref b = true →
                 Ref.ref_type b = BTRFS_INODE_REF_KEY ∨
                 Ref.ref_type b = BTRFS_INODE_EXTREF_KEY) src →
    list_to_map (link_view <$> foldl (λ acc s, filed_into s acc) l src)
      =@{gmap (Z * Z * list Z) (bool * bool * bool)}
    union_with seen_either (list_to_map (link_view <$> l))
      (list_to_map (link_view <$> src)).
Proof.
  induction src as [|s src IH]; intros l Hfiled Hnodup Htypes.
  - cbn [foldl]. rewrite (fmap_nil link_view), list_to_map_nil.
    by rewrite (right_id ∅ _).
  - apply Forall_cons in Hfiled as [[Hlen Hseen] Hfiled].
    apply Forall_cons in Htypes as [Htype Htypes].
    rewrite fmap_cons in Hnodup. apply NoDup_cons in Hnodup as [Hnew Hnodup].
    cbn [foldl]. rewrite IH by done.
    rewrite filed_into_view by done. rewrite Hseen.
    rewrite list_to_map_view.
    assert ((list_to_map (link_view <$> src)
               : gmap (Z * Z * list Z) (bool * bool * bool))
              !! backref_name s = None) as Hfresh.
    { apply not_elem_of_list_to_map_1. by rewrite views_names. }
    apply map_eq. intros i.
    rewrite !lookup_union_with, lookup_insert, lookup_singleton.
    destruct (decide (backref_name s = i)) as [<-|Hne].
    + rewrite Hfresh.
      destruct (list_to_map (link_view <$> l) !! backref_name s)
        as [[[a b] c]|]; reflexivity.
    + destruct (list_to_map (link_view <$> l) !! i) as [[[a b] c]|];
        destruct (list_to_map (link_view <$> src) !! i) as [[[a' b'] c']|];
        reflexivity.
Qed.

Lemma merged_tidy src :
  ∀ l,
    Forall filed src →
    NoDup (backref_name <$> l) → Forall filed l →
    NoDup (backref_name <$> foldl (λ acc s, filed_into s acc) l src) ∧
    Forall filed (foldl (λ acc s, filed_into s acc) l src).
Proof.
  induction src as [|s src IH]; intros l Hsrc Hnodup Hfiled; [done|].
  apply Forall_cons in Hsrc as [[Hlen _] Hsrc].
  cbn [foldl].
  destruct (filed_into_tidy s l Hlen Hnodup Hfiled) as [Hn Hf].
  by apply IH.
Qed.

(** [add_inode_backref] on a record without inode item: the back
    reference is found or made and written to, and nothing else
    happens to the list. *)
Lemma add_inode_backref_itemless inode_cache d dir index name namelen
    filetype itemtype errs :
  inode_cache !! ino d = Some d → found_inode_item d = false → refs d = 1 →
  valid_itemtype itemtype →
  ∃ d',
    add_inode_backref inode_cache (ino d) dir index name namelen filetype
      itemtype errs = Some (<[ino d := d']> inode_cache) ∧
    same_scalars d d' ∧
    backrefs d' =
      get_inode_backref (note_item index filetype itemtype errs) name
        namelen dir (backrefs d).
Proof.
  intros Hd Hitem Hrefs Hvalid. unfold add_inode_backref, get_inode_rec.
  rewrite Hd, Hrefs. simpl.
  assert ((itemtype =? BTRFS_DIR_INDEX_KEY) || (itemtype =? BTRFS_DIR_ITEM_KEY) ||
          (itemtype =? BTRFS_INODE_REF_KEY) ||
          (itemtype =? BTRFS_INODE_EXTREF_KEY) = true) as ->.
  { destruct Hvalid as [-> | [-> | [-> | ->]]]; reflexivity. }
  set (d1 := set_backrefs _ d).
  set (d2 := if itemtype =? BTRFS_DIR_ITEM_KEY
             then set_found_link (to_u32 (found_link d + 1)) d1 else d1).
  assert (same_scalars d d2 ∧ backrefs d2 = backrefs d1 ∧
          found_inode_item d2 = false ∧ ino d2 = ino d)
    as (Hsame & Hbl & Hitem2 & Hino2).
  { unfold d2. destruct (itemtype =? BTRFS_DIR_ITEM_KEY); done. }
  unfold maybe_free_inode_rec. rewrite Hitem2. simpl. rewrite Hino2.
  exists d2. done.
Qed.

(** The loop of [merge_inode_recs] on a record without inode item. *)
Lemma merge_backrefs_itemless l :
  ∀ inode_cache d dir_count,
    inode_cache !! ino d = Some d → found_inode_item d = false →
    refs d = 1 →
    Forall (λ b, Ref.found_inode_ref b = true →
                 Ref.ref_type b = BTRFS_INODE_REF_KEY ∨
                 Ref.ref_type b = BTRFS_INODE_EXTREF_KEY) l →
    ∃ inode_cache' dir_count' d',
      merge_backrefs (ino d) l (inode_cache, dir_count) =
        Some (inode_cache', dir_count') ∧
      inode_cache' !! ino d = Some d' ∧ same_scalars d d' ∧
      backrefs d' = foldl (λ acc s, filed_into s acc) (backrefs d) l.
Proof.
  induction l as [|b l IH];
    intros inode_cache d dir_count Hd Hitem Hrefs Htypes.
  - exists inode_cache, dir_count, d. done.
  - apply Forall_cons in Htypes as [Htype Htypes].
    cbn [merge_backrefs foldl]. unfold merge_backref.
    (* the dir index *)
    assert (∃ c1 d1,
      (if Ref.found_dir_index b then
         add_inode_backref inode_cache (ino d) (Ref.dir b) (Ref.index b)
           (Ref.name b) (Ref.namelen b) (Ref.filetype b) BTRFS_DIR_INDEX_KEY
           (Ref.errors b)
       else Some inode_cache) = Some c1 ∧
      c1 !! ino d = Some d1 ∧ same_scalars d d1 ∧
      backrefs d1 =
        (if Ref.found_dir_index b
         then get_inode_backref
                (note_item (Ref.index b) (Ref.filetype b)
                   BTRFS_DIR_INDEX_KEY (Ref.errors b))
                (Ref.name b) (Ref.namelen b) (Ref.dir b) (backrefs d)
         else backrefs d)) as (c1 & d1 & -> & Hd1 & Hs1 & Hb1).
    { destruct (Ref.found_dir_index b).
      - destruct (add_inode_backref_itemless inode_cache d (Ref.dir b)
                    (Ref.index b) (Ref.name b) (Ref.namelen b)
                    (Ref.filetype b) BTRFS_DIR_INDEX_KEY (Ref.errors b))
          as (d' & Hrun & Hsame & Hbl); [done|done|done|left; done|].
        eexists _, d'. split; [exact Hrun|].
        rewrite lookup_insert_eq. done.
      - exists inode_cache, d. done. }
    destruct (same_scalars_fields _ _ Hs1) as (_ & Hr1 & Hi1).
    pose proof (f_equal found_inode_item Hs1) as Hf1. simpl in Hf1.
    cbn [mbind option_bind]. rewrite Hi1. rewrite Hi1 in Hd1.
    (* the dir item *)
    assert (∃ c2 d2 dc2,
      (if Ref.found_dir_item b then
         add_inode_backref c1 (ino d1) (Ref.dir b) 0 (Ref.name b)
           (Ref.namelen b) (Ref.filetype b) BTRFS_DIR_ITEM_KEY (Ref.errors b)
         ≫= λ dst_cache, Some (dst_cache, to_u32 (dir_count + 1))
       else Some (c1, dir_count)) = Some (c2, dc2) ∧
      c2 !! ino d1 = Some d2 ∧ same_scalars d1 d2 ∧
      backrefs d2 =
        (if Ref.found_dir_item b
         then get_inode_backref
                (note_item 0 (Ref.filetype b) BTRFS_DIR_ITEM_KEY
                   (Ref.errors b))
                (Ref.name b) (Ref.namelen b) (Ref.dir b) (backrefs d1)
         else backrefs d1)) as (c2 & d2 & dc2 & -> & Hd2 & Hs2 & Hb2).
    { destruct (Ref.found_dir_item b).
      - destruct (add_inode_backref_itemless c1 d1 (Ref.dir b) 0 (Ref.name b)
                    (Ref.namelen b) (Ref.filetype b) BTRFS_DIR_ITEM_KEY
                    (Ref.errors b))
          as (d' & Hrun & Hsame & Hbl);
          [done|congruence|congruence|right; left; done|].
        rewrite Hrun. eexists _, d', _. split; [reflexivity|].
        rewrite lookup_insert_eq. done.
      - exists c1, d1, dir_count. done. }
    destruct (same_scalars_fields _ _ Hs2) as (_ & Hr2 & Hi2).
    pose proof (f_equal found_inode_item Hs2) as Hf2. simpl in Hf2.
    cbn [mbind option_bind]. rewrite Hi2. rewrite Hi2 in Hd2.
    (* the inode ref *)
    assert (∃ c3 d3,
      (if Ref.found_inode_ref b then
         add_inode_backref c2 (ino d2) (Ref.dir b) (Ref.index b)
           (Ref.name b) (Ref.namelen b) 0 (Ref.ref_type b) (Ref.errors b)
       else Some c2) = Some c3 ∧
      c3 !! ino d2 = Some d3 ∧ same_scalars d2 d3 ∧
      backrefs d3 =
        (if Ref.found_inode_ref b
         then get_inode_backref
                (note_item (Ref.index b) 0 (Ref.ref_type b) (Ref.errors b))
                (Ref.name b) (Ref.namelen b) (Ref.dir b) (backrefs d2)
         else backrefs d2)) as (c3 & d3 & -> & Hd3 & Hs3 & Hb3).
    { destruct (Ref.found_inode_ref b) eqn:Href.
      - destruct (add_inode_backref_itemless c2 d2 (Ref.dir b)
                    (Ref.index b) (Ref.name b) (Ref.namelen b) 0
                    (Ref.ref_type b) (Ref.errors b))
          as (d' & Hrun & Hsame & Hbl);
          [done|congruence|congruence| |].
        { destruct (Htype eq_refl) as [Ht|Ht];
            [right; right; left|right; right; right]; done. }
        eexists _, d'. split; [exact Hrun|].
        rewrite lookup_insert_eq. done.
      - exists c2, d2. done. }
    destruct (same_scalars_fields _ _ Hs3) as (_ & Hr3 & Hi3).
    pose proof (f_equal found_inode_item Hs3) as Hf3. simpl in Hf3.
    cbn [mbind option_bind]. rewrite Hi3. rewrite Hi3 in Hd3.
    destruct (IH c3 d3 dc2) as (c4 & dc4 & d4 & -> & Hd4 & Hs4 & Hb4);
      [done|congruence|congruence|done|].
    exists c4, dc4, d4. split; [done|]. split; [done|]. split.
    + eapply same_scalars_trans; [exact Hs1|].
      eapply same_scalars_trans; [exact Hs2|].
      eapply same_scalars_trans; [exact Hs3|exact Hs4].
    + rewrite Hb4. f_equal. unfold filed_into.
      rewrite Hb3, Hb2, Hb1. done.
Qed.

(** The run of [merge_inode_recs]: the record it leaves in the cache is
    what [merge_fields] makes of the record [d'] that the loop over the
    back references leaves, which differs from [dst] in its back references
    and [found_link] only. *)
Lemma merge_inode_recs_run src dst dst_cache :
  refs dst = 1 → mergeable src →
  ∃ dst_cache' d',
    merge_inode_recs src dst dst_cache = Some dst_cache' ∧
    dst_cache' !! ino dst =
      Some (merge_fields src d' (dir_items src)) ∧
    same_scalars (set_merging true dst) d' ∧
    (found_inode_item dst = false →
     backrefs d' =
       foldl (λ acc s, filed_into s acc) (backrefs dst) (backrefs src)).
Proof.
  intros Hrefs [Htypes Hlinks]. unfold merge_inode_recs.
  set (d0 := set_merging true dst).
  destruct (merge_backrefs_merging (backrefs src)
              (<[ino dst := d0]> dst_cache) d0 0)
    as (c & d' & Hrun & Hlook & Hsame & Hlink);
    [apply lookup_insert_eq|done|done|done|done|].
  change (ino d0) with (ino dst) in *.
  rewrite Hrun. simpl. rewrite Hlook. simpl.
  fold (dir_items src) in *.
  assert (0 ≤ dir_items src) as Hpos by (unfold dir_items, dir_item_count; lia).
  assert (to_u32 (0 + dir_items src) = dir_items src) as Hcount.
  { unfold to_u32. rewrite Z.add_0_l. apply Z.mod_small. lia. }
  rewrite Hcount in *.
  replace (found_link src <? dir_items src) with false
    by (symmetry; apply Z.ltb_ge; lia).
  eexists _, d'. split; [reflexivity|]. rewrite lookup_insert_eq.
  split; [reflexivity|]. split; [exact Hsame|].
  intros Hitem.
  destruct (merge_backrefs_itemless (backrefs src)
              (<[ino dst := d0]> dst_cache) d0 0)
    as (c' & dc' & d'' & Hrun' & Hlook' & _ & Hbl);
    [apply lookup_insert_eq|done|done|done|].
  change (ino d0) with (ino dst) in *.
  rewrite Hrun in Hrun'. injection Hrun' as <- _.
  rewrite Hlook in Hlook'. injection Hlook' as <-.
  exact Hbl.
Qed.

(** C4, as stated.  Merging is not commutative: [low_part] and [high_part]
    are the records two walkers build from the two extents of one inode;
    merging the high part into the low part gives the span from 0 without
    an error, merging the low part into the high part keeps
    [extent_start] at 8192 and raises [I_ERR_FILE_EXTENT_OVERLAP]. *)
Theorem merge_commutes_claim_fails : ¬ merge_commutes_claim.
Proof.
  intros Hclaim.
  destruct (merge_inode_recs high_part low_part {[ 257 := low_part ]})
    as [cA|] eqn:HA; [|vm_compute in HA; discriminate HA].
  destruct (merge_inode_recs low_part high_part {[ 257 := high_part ]})
    as [cB|] eqn:HB; [|vm_compute in HB; discriminate HB].
  destruct (cA !! 257) as [A'|] eqn:HA';
    [|vm_compute in HA; injection HA as <-; vm_compute in HA';
      discriminate HA'].
  destruct (cB !! 257) as [B'|] eqn:HB';
    [|vm_compute in HB; injection HB as <-; vm_compute in HB';
      discriminate HB'].
  assert (same_record A' B') as Hsame.
  { apply (Hclaim low_part high_part A' B' {[ 257 := low_part ]}
             {[ 257 := high_part ]} cA cB); done. }
  vm_compute in HA. injection HA as <-.
  vm_compute in HB. injection HB as <-.
  vm_compute in HA'. injection HA' as <-.
  vm_compute in HB'. injection HB' as <-.
  destruct Hsame as (_ & _ & _ & _ & _ & _ & _ & _ & _ & Herr & _).
  vm_compute in Herr. discriminate Herr.
Qed.

(** What does depend on the direction of the merge, by example.  For the
    two extents of [low_part] and [high_part]: [extent_start],
    [first_extent_gap] and the error bits.  For [item_side] and
    [link_side]: the back reference list, which the merge into the record
    with the inode item prunes.  For [first_sight] and [second_sight]: the
    index, the file type and the error bits of a merged back reference. *)
Lemma merge_depends_on_direction :
  (∃ A' B', merged_both low_part high_part A' B' ∧
            extent_start A' ≠ extent_start B' ∧
            first_extent_gap A' ≠ first_extent_gap B' ∧
            errors A' ≠ errors B') ∧
  (∃ A' B', merged_both item_side link_side A' B' ∧
            backrefs A' = [] ∧ backrefs B' ≠ []) ∧
  (∃ A' B' a b, merged_both first_sight second_sight A' B' ∧
                backrefs A' = [a] ∧ backrefs B' = [b] ∧
                Ref.index a ≠ Ref.index b ∧
                Ref.filetype a ≠ Ref.filetype b ∧
                Ref.errors a ≠ Ref.errors b).
Proof.
  split; [|split].
  - eexists _, _. split.
    + eexists _, _. split; [vm_compute; reflexivity|].
      split; [vm_compute; reflexivity|].
      split; vm_compute; reflexivity.
    + split; [|split]; vm_compute; discriminate.
  - eexists _, _. split.
    + eexists _, _. split; [vm_compute; reflexivity|].
      split; [vm_compute; reflexivity|].
      split; vm_compute; reflexivity.
    + split; [vm_compute; reflexivity|vm_compute; discriminate].
  - eexists _, _, _, _. split.
    + eexists _, _. split; [vm_compute; reflexivity|].
      split; [vm_compute; reflexivity|].
      split; vm_compute; reflexivity.
    + split; [vm_compute; reflexivity|].
      split; [vm_compute; reflexivity|].
      split; [|split]; vm_compute; discriminate.
Qed.

(** C4, amended.  For two unshared records of one inode that
    [merge_inode_recs] accepts, merging either into the other succeeds, and
    the two merged records agree
    - on [found_link], [found_size], the flags [found_inode_item],
      [found_dir_item], [found_file_extent], [found_csum_item] and
      [some_csum_missing], and on the error bits other than
      [I_ERR_FILE_EXTENT_OVERLAP], both with [merging] cleared
      ([symmetric_fields]);
    - on [ino]; on [extent_end] (that of the record with an extent, the
      greater one when both have one) in all cases but one: neither record
      has seen an extent and they differ on it; on [extent_start] exactly
      when at most one of the records has seen an extent or both start at
      the same offset; on [first_extent_gap] and all error bits when at
      most one of the records has seen an extent; on the fields of the
      inode item in all cases but one: both records carry the item, or
      neither does, and they differ on these fields; and, when neither
      record carries the inode item and both are tidy, on
      the back references by name and by the ways each name was seen, up to
      the order of the list, the merged records being tidy again
      ([symmetric_more]). *)
Theorem merge_inode_recs_symmetric (A B : inode_record)
    (cacheA cacheB : gmap Z inode_record) :
  ino A = ino B → refs A = 1 → refs B = 1 →
  mergeable A → mergeable B →
  ∃ cacheA' cacheB' A' B',
    merge_inode_recs B A cacheA = Some cacheA' ∧
    merge_inode_recs A B cacheB = Some cacheB' ∧
    cacheA' !! ino A = Some A' ∧ cacheB' !! ino B = Some B' ∧
    symmetric_fields A' B' ∧ symmetric_more A B A' B'.
Proof.
  intros Hino HrA HrB HmA HmB.
  destruct (merge_inode_recs_fields B A cacheA HrA HmB)
    as (cA & A' & HA & HA' & Al & As & Ai & Ad & Af & Ac & Am & Ag & Ae).
  destruct (merge_inode_recs_fields A B cacheB HrB HmA)
    as (cB & B' & HB & HB' & Bl & Bs & Bi & Bd & Bf & Bc & Bm & Bg & Be).
  exists cA, cB, A', B'.
  split; [done|]. split; [done|]. split; [done|]. split; [done|]. split.
  { repeat split; try done.
    - rewrite Al, Bl. f_equal. lia.
    - rewrite As, Bs. f_equal. lia.
    - rewrite Ai, Bi. apply orb_comm.
    - rewrite Ad, Bd. apply orb_comm.
    - rewrite Af, Bf. apply orb_comm.
    - rewrite Ac, Bc. apply orb_comm.
    - rewrite Am, Bm. apply orb_comm.
    - rewrite Ae, Be.
      rewrite (andb_comm (found_inode_item B)).
      rewrite (Z.lor_comm (errors B)). reflexivity. }
  (* the record each loop leaves *)
  destruct (merge_inode_recs_run B A cacheA HrA HmB)
    as (cA2 & dA & HA2 & HdA & HsA & HbA).
  destruct (merge_inode_recs_run A B cacheB HrB HmA)
    as (cB2 & dB & HB2 & HdB & HsB & HbB).
  rewrite HA in HA2. injection HA2 as <-.
  rewrite HB in HB2. injection HB2 as <-.
  rewrite HA' in HdA. injection HdA as ->.
  rewrite HB' in HdB. injection HdB as ->.
  destruct (merge_fields_far_same B A dA (dir_items B) HsA)
    as (AEnd & AItem & AIno & ABl & ASpan).
  destruct (merge_fields_far_same A B dB (dir_items A) HsB)
    as (BEnd & BItem & BIno & BBl & BSpan).
  pose proof (merge_fields_start B A dA (dir_items B) HsA) as AStart.
  pose proof (merge_fields_start A B dB (dir_items A) HsB) as BStart.
  unfold symmetric_more, no_extent.
  split; [congruence|]. split; [|split; [|split; [|split]]].
  - rewrite AEnd, BEnd.
    destruct (Z.eqb_spec (extent_start A) U64_MAX) as [HsA0|HsA0],
      (Z.eqb_spec (extent_start B) U64_MAX) as [HsB0|HsB0].
    + split; [intros Heq _ _; exact Heq|intros Hnone; by apply Hnone].
    + split; [intros _ _ Hnone; done|done].
    + split; [intros _ Hnone _; done|done].
    + split; [intros _ Hnone _; done|intros _; lia].
  - rewrite AStart, BStart.
    destruct (Z.eqb_spec (extent_start A) U64_MAX) as [HsA0|HsA0],
      (Z.eqb_spec (extent_start B) U64_MAX) as [HsB0|HsB0].
    + split; [intros _; by left|intros _; congruence].
    + split; [intros _; by left|done].
    + split; [intros _; right; by left|done].
    + split; [intros Heq; right; by right|intros [?|[?|?]]; done].
  - intros Hone.
    destruct ASpan as (_ & -> & ->); [tauto|].
    destruct BSpan as (_ & -> & ->); [tauto|].
    split.
    + lia.
    + rewrite (andb_comm (found_inode_item B)).
      rewrite (Z.lor_comm (errors B)). reflexivity.
  - rewrite AItem, BItem.
    destruct (found_inode_item A), (found_inode_item B); simpl.
    + split; [intros Heq _; exact Heq|intros Hagree; by apply Hagree].
    + split; [intros _ Hne; discriminate Hne|done].
    + split; [intros _ Hne; discriminate Hne|done].
    + split; [intros Heq _; exact Heq|intros Hagree; by apply Hagree].
  - intros HfA HfB [HuA HfiledA] [HuB HfiledB].
    destruct HmA as [HtA _], HmB as [HtB _].
    unfold tidy, names_unique. rewrite ABl, BBl, (HbA HfA), (HbB HfB).
    destruct (merged_tidy (backrefs B) (backrefs A) HfiledB HuA HfiledA)
      as [HnA' HfA'].
    destruct (merged_tidy (backrefs A) (backrefs B) HfiledA HuB HfiledB)
      as [HnB' HfB'].
    split; [done|]. split; [done|].
    apply (list_to_map_inj (M := gmap (Z * Z * list Z)));
      [by rewrite views_names|by rewrite views_names|].
    rewrite !merged_view by done.
    apply union_with_comm. intros i [[a b] c] [[a' b'] c'] _ _.
    unfold seen_either. simpl.
    by rewrite (orb_comm a), (orb_comm b), (orb_comm c).
Qed.

Lemma dir_side_mergeable : mergeable dir_side.
Proof.
  split; [|vm_compute; split; [discriminate|reflexivity]].
  repeat constructor. simpl. discriminate.
Qed.

Lemma ref_side_mergeable : mergeable ref_side.
Proof.
  split; [|vm_compute; split; [discriminate|reflexivity]].
  repeat constructor.
Qed.

Lemma merge_inode_recs_symmetric_witness :
  ∃ cacheA' cacheB' A' B',
    merge_inode_recs ref_side dir_side {[ 257 := dir_side ]} = Some cacheA' ∧
    merge_inode_recs dir_side ref_side {[ 257 := ref_side ]} = Some cacheB' ∧
    cacheA' !! 257 = Some A' ∧ cacheB' !! 257 = Some B' ∧
    symmetric_fields A' B' ∧ symmetric_more dir_side ref_side A' B'.
Proof.
  apply (merge_inode_recs_symmetric dir_side ref_side
           {[ 257 := dir_side ]} {[ 257 := ref_side ]});
    [reflexivity|reflexivity|reflexivity|
     exact dir_side_mergeable|exact ref_side_mergeable].
Defined.

End InodeMergeFacts.

(** ** Restore: mirrors *)

Section MirrorFacts.
Import CmdsRestore CmdsRestoreSpec.

(** C7.  With two mirrors and data that does not decompress,
    [copy_one_extent] gives up after reading mirror 1 only: on the
    decompression path the test is [mirror_num >= num_copies], so the last
    mirror is never read. *)
Theorem copy_one_extent_skips_last_mirror :
  copy_one_extent 8 (garbled 2) 5 packed_extent 0 =
    Some (-1, [ {| mirror := 1; logical := 4096; len := 8 |} ]).
Proof. vm_compute. reflexivity. Qed.

(** The path for short reads does read every mirror, [num_copies]
    included. *)
Lemma copy_one_extent_short_reads :
  copy_one_extent 8 (unreadable 2) 5 packed_extent 0 =
    Some (-1, [ {| mirror := 1; logical := 4096; len := 8 |};
                {| mirror := 2; logical := 4096; len := 8 |} ]).
Proof. vm_compute. reflexivity. Qed.

(** With three mirrors the retry after a failed decompression reads
    nothing (nothing is left to read), resets [mirror_num] to 1 and
    decompresses the same bytes again: the function never returns. *)
Lemma copy_from_again_spins iterations :
  ∀ tried,
    copy_from_again iterations (garbled 3) 5 packed_extent 0
      {| mirror_num := 2; size_left := 0; count := 8; bytenr := 4104;
         inbuf := replicate 8 0; attempts := tried |} = None.
Proof.
  induction iterations as [|iterations IH]; intros tried; [reflexivity|].
  simpl copy_from_again.
  change (store_at (replicate 8 0) 8 (replicate (Z.to_nat 0) 0))
    with (replicate 8 0).
  change (wrap64 (0 - 0)) with 0.
  change (wrap64 (8 + 0)) with 8.
  change (wrap64 (4104 + 0)) with 4104.
  simpl. apply IH.
Qed.

Lemma copy_one_extent_spins iterations :
  copy_one_extent iterations (garbled 3) 5 packed_extent 0 = None.
Proof.
  destruct iterations as [|iterations]; [reflexivity|].
  unfold copy_one_extent. simpl copy_from_again.
  change (store_at (replicate (Z.to_nat 8) 0) 0 (replicate (Z.to_nat 8) 0))
    with (replicate 8 0).
  change (wrap64 (8 - 8)) with 0.
  change (wrap64 (0 + 8)) with 8.
  change (wrap64 (4096 + 8)) with 4104.
  simpl. apply copy_from_again_spins.
Qed.

End MirrorFacts.

(** ** Restore: loop guards *)

Section GuardFacts.
Import CmdsRestore CmdsRestoreSpec.
















End GuardFacts.

(** ** Block groups *)

Section BlockGroupFacts.
Import Ctree CtreeSpec BlockGroup BlockGroupSpec.

(** C9, as stated.  [check_block_groups] makes no block group and leaves
    the reinit flag alone: the chunk [lone_chunk] has no block group item
    in the extent tree [tidy_blocks], and the flag is still 0 after the
    call. *)
Theorem block_groups_claim_fails : ¬ block_groups_claim.
Proof.
  intros Hclaim.
  destruct (Hclaim 2%nat 1%nat tidy_blocks (root_4k stray_top) [lone_chunk]
              [] 0 lone_chunk) as [_ Hreinit].
  - lia.
  - lia.
  - exact tidy_tree_ok.
  - apply list_elem_of_singleton. reflexivity.
  - intros (i & c & Hi & Hread & j & Hj & Hkey).
    assert (type (btrfs_item_key c j) = 1) as Htype.
    { simpl in Hi. assert (i = 0 ∨ i = 1) as [-> | ->] by lia;
        vm_compute in Hread; injection Hread as <-; simpl in Hj;
        (assert (j = 0 ∨ j = 1) as [-> | ->] by lia); reflexivity. }
    rewrite Hkey in Htype. discriminate Htype.
  - simpl in Hreinit. discriminate Hreinit.
Qed.

(** C9, amended.  [check_block_groups] returns 0 at once: whatever the
    mapping tree and the extent tree hold, no block group is made and the
    reinit flag keeps its value.  The helper [check_block_group], which it
    does not reach, makes the block group of a chunk and sets the flag
    exactly when the block group item of the chunk is not in the (ordered)
    extent tree, and returns 0 in either case. *)
Theorem check_block_groups_returns_at_once (iterations level : nat)
    (blocks : gmap Z extent_buffer) (extent_root : btrfs_root)
    (map_tree : list map_lookup) (made : list made_block_group) (reinit : Z)
    (map : map_lookup) :
  (level < 8)%nat → (level < iterations)%nat →
  tree_ok blocks extent_root level (root_node extent_root) None None →
  check_block_groups iterations blocks extent_root map_tree made reinit =
    (0, made, reinit) ∧
  (key_in_tree blocks level (root_node extent_root) (block_group_key map) →
   check_block_group iterations blocks extent_root map made reinit =
     Some (0, made, reinit)) ∧
  (¬ key_in_tree blocks level (root_node extent_root) (block_group_key map) →
   check_block_group iterations blocks extent_root map made reinit =
     Some (0, made ++ [block_group_of map], 1)).
Proof.
  intros Hmax Hfuel Hok. split; [reflexivity|].
  destruct (search_from_fresh_path blocks extent_root (block_group_key map)
              level iterations Hmax Hfuel Hok)
    as (ret & p & leaf & Hrun & _ & _ & Hout).
  unfold check_block_group, btrfs_search_slot. simpl.
  fold (block_group_key map). rewrite Hrun.
  destruct Hout as [(Hin & -> & _)|(Hnot & -> & _)]; simpl; split; done.
Qed.

Lemma check_block_groups_returns_at_once_witness :
  tree_ok tidy_blocks (root_4k stray_top) 1 stray_top None None ∧
  check_block_groups 2 tidy_blocks (root_4k stray_top) [lone_chunk] [] 0 =
    (0, [], 0) ∧
  (key_in_tree tidy_blocks 1 stray_top (block_group_key lone_chunk) →
   check_block_group 2 tidy_blocks (root_4k stray_top) lone_chunk [] 0 =
     Some (0, [], 0)) ∧
  (¬ key_in_tree tidy_blocks 1 stray_top (block_group_key lone_chunk) →
   check_block_group 2 tidy_blocks (root_4k stray_top) lone_chunk [] 0 =
     Some (0, [] ++ [block_group_of lone_chunk], 1)).
Proof.
  split; [exact tidy_tree_ok|].
  apply (check_block_groups_returns_at_once 2 1 tidy_blocks
           (root_4k stray_top) [lone_chunk] [] 0 lone_chunk);
    [lia|lia|exact tidy_tree_ok].
Defined.

End BlockGroupFacts.

(** ** The free space cache *)

Section SpaceCacheFacts.
Import Ctree SpaceCache SpaceCacheSpec.

(** C10.  On the block group [group_1g], whose extent tree has one extent
    in the middle, [verify_space_cache] returns 0 for the cache
    [stale_cache], which has the whole block group free: the gap before
    the extent has no entry of its own, the sweep stops with [-EINVAL],
    and the check of the rest of the block group, which is still made,
    overwrites that result when it finds the one entry. *)
Theorem verify_space_cache_accepts_stale_cache :
  ({| fs_offset := 1073741824; fs_bytes := 409600 |} ∉ stale_cache) ∧
  check_cache_range 1 no_supers group_1g stale_cache 1073741824 409600 =
    Some (- EINVAL, stale_cache) ∧
  verify_space_cache 1 no_supers 4096 group_1g 1 one_extent 1 stale_cache =
    Some (0, []).
Proof.
  split; [|split; vm_compute; reflexivity].
  intros Hin. apply list_elem_of_singleton in Hin. discriminate Hin.
Qed.

(** On the cache that matches the extent tree the verifier returns 0 and
    has emptied the cache. *)
Lemma verify_space_cache_true_cache :
  verify_space_cache 1 no_supers 4096 group_1g 1 one_extent 1 true_cache =
    Some (0, []).
Proof. vm_compute. reflexivity. Qed.

(** The sweep returns from inside the loop only with the error of
    [btrfs_next_leaf]. *)
Lemma sweep_returns depth rmap_block leafsize cache next_leaf items :
  ∀ ctl last ret ctl',
    sweep depth rmap_block leafsize cache items next_leaf ctl last =
      Some (inl (ret, ctl')) →
    ret = next_leaf ∧ next_leaf < 0.
Proof.
  induction items as [|key items IH]; intros ctl last ret ctl' Hsweep;
    simpl in Hsweep.
  - destruct (Z.ltb_spec next_leaf 0); [|discriminate Hsweep].
    injection Hsweep as <- _. done.
  - destruct (wrap64 (key_offset cache + key_objectid cache) <=?
              objectid key); [discriminate Hsweep|].
    destruct (negb (type key =? BTRFS_EXTENT_ITEM_KEY) &&
              negb (type key =? BTRFS_METADATA_ITEM_KEY)); [eauto|].
    destruct (last =? objectid key); [eauto|].
    destruct (check_cache_range depth rmap_block cache ctl last _)
      as [[r c]|]; simpl in Hsweep; [|discriminate Hsweep].
    destruct (negb (r =? 0)); [discriminate Hsweep|eauto].
Qed.

(** The part of the statement that does hold: a return value of 0 comes
    with an empty cache. *)
Lemma verify_space_cache_zero_empty depth rmap_block leafsize cache
    search_ret items next_leaf ctl ctl' :
  verify_space_cache depth rmap_block leafsize cache search_ret items
    next_leaf ctl = Some (0, ctl') →
  ctl' = [].
Proof.
  unfold verify_space_cache. intros Hrun.
  destruct (Z.ltb_spec search_ret 0) as [Hneg|_].
  { injection Hrun as -> _. lia. }
  destruct (sweep depth rmap_block leafsize cache items next_leaf ctl _)
    as [[[ret c]|[[ret last] c]]|] eqn:Hsweep; simpl in Hrun; [| |done].
  - apply sweep_returns in Hsweep as [-> Hneg].
    injection Hrun as Hzero _. lia.
  - destruct (if last <? wrap64 (key_objectid cache + key_offset cache)
              then _ else _) as [[ret' c']|]; simpl in Hrun; [|done].
    destruct (Z.eqb_spec ret' 0) as [->|Hne]; simpl in Hrun.
    + case_bool_decide; simpl in Hrun; [congruence|discriminate Hrun].
    + congruence.
Qed.

End SpaceCacheFacts.

(** ** The key order, the binary search and the validators on any block *)

Section KeyOrderFacts.
Import Ctree CtreeSpec.

Lemma btrfs_comp_keys_lt x y : btrfs_comp_keys x y < 0 ↔ key_lt x y.
Proof.
  destruct (btrfs_comp_keys_spec x y) as [[-> Hk]|[[-> Hk]|[-> Hk]]].
  - split; [done|lia].
  - subst y. split; [lia|]. intros H. by apply key_lt_irrefl in H.
  - split; [lia|]. intros H. by apply key_lt_asym in H.
Qed.

(** X1.  [btrfs_comp_keys] is a three-way comparison for a total order on
    keys: it returns -1, 0 or 1; it returns 0 exactly on equal keys;
    swapping the arguments negates the result; "less" is transitive; and
    "less" is the lexicographic order on (objectid, type, offset). *)
Theorem btrfs_comp_keys_total_order (a b c : btrfs_key) :
  (btrfs_comp_keys a b = -1 ∨ btrfs_comp_keys a b = 0 ∨
   btrfs_comp_keys a b = 1) ∧
  (btrfs_comp_keys a b = 0 ↔ a = b) ∧
  btrfs_comp_keys b a = - btrfs_comp_keys a b ∧
  (btrfs_comp_keys a b < 0 → btrfs_comp_keys b c < 0 →
   btrfs_comp_keys a c < 0) ∧
  (btrfs_comp_keys a b < 0 ↔ key_lt a b).
Proof.
  pose proof btrfs_comp_keys_lt as Hlt.
  repeat split.
  - destruct (btrfs_comp_keys_spec a b) as [[-> _]|[[-> _]|[-> _]]]; tauto.
  - destruct (btrfs_comp_keys_spec a b) as [[He Hk]|[[He Hk]|[He Hk]]];
      try done; rewrite He; intros; lia.
  - intros ->.
    destruct (btrfs_comp_keys_spec b b) as [[_ Hk]|[[He _]|[_ Hk]]];
      try done; by apply key_lt_irrefl in Hk.
  - destruct (btrfs_comp_keys_spec a b) as [[-> Hk]|[[-> Hk]|[-> Hk]]];
      destruct (btrfs_comp_keys_spec b a) as [[-> Hk']|[[-> Hk']|[-> Hk']]];
      try done; subst; exfalso;
      try (by apply key_lt_irrefl in Hk);
      try (by apply key_lt_irrefl in Hk');
      by apply key_lt_asym in Hk.
  - rewrite !Hlt. apply key_lt_trans.
  - apply Hlt.
  - apply Hlt.
Qed.

Lemma bin_search_loop_safe key_at key :
  ∀ iterations low high,
    0 ≤ low → low ≤ high →
    let r := bin_search_loop iterations key_at key low high in
    (r.1 = 0 ∨ r.1 = 1) ∧ low ≤ r.2 ≤ high ∧
    (r.1 = 0 → r.2 < high ∧ key_at r.2 = key).
Proof.
  induction iterations as [|it IH]; intros low high Hlow Hle; simpl.
  - split; [tauto|]. split; [lia|]. intros [=].
  - destruct (Z.ltb_spec low high) as [Hlt|Hge]; simpl.
    + set (mid := (low + high) `quot` 2).
      assert (low ≤ mid < high) as Hmid.
      { unfold mid. rewrite Z.quot_div_nonneg by lia.
        split; [apply Z.div_le_lower_bound|apply Z.div_lt_upper_bound]; lia. }
      destruct (btrfs_comp_keys_spec (key_at mid) key)
        as [[-> Hk]|[[-> Hk]|[-> Hk]]]; simpl.
      * destruct (IH (mid + 1) high) as (Hr & Hs & Hhit); [lia|lia|].
        split; [done|]. split; [lia|done].
      * split; [tauto|]. split; [lia|]. intros _. split; [lia|done].
      * destruct (IH low mid) as (Hr & Hs & Hhit); [lia|lia|].
        split; [done|]. split; [lia|]. intros H0.
        destruct (Hhit H0). split; [lia|done].
    + split; [tauto|]. split; [lia|]. intros [=].
Qed.

Lemma generic_bin_search_any key_at key max :
  ((generic_bin_search key_at key max).1 = 0 ∨
   (generic_bin_search key_at key max).1 = 1) ∧
  0 ≤ (generic_bin_search key_at key max).2 ≤ Z.max 0 max ∧
  ((generic_bin_search key_at key max).1 = 0 →
   (generic_bin_search key_at key max).2 < max ∧
   key_at (generic_bin_search key_at key max).2 = key).
Proof.
  unfold generic_bin_search.
  destruct (Z.le_gt_cases 0 max) as [Hmax|Hneg].
  - destruct (bin_search_loop_safe key_at key (Z.to_nat max) 0 max)
      as (Hr & Hs & Hhit); [lia|done|].
    split; [done|]. split; [lia|done].
  - replace (Z.to_nat max) with 0%nat by lia. simpl.
    split; [tauto|]. split; [lia|]. intros [=].
Qed.

(** X2.  Whatever the array holds, sorted or not, [generic_bin_search]
    returns 0 or 1, leaves the slot within [0 .. max], and returns 0 only
    with the slot at an element below [max] that holds the key asked for:
    on a corrupt block the search can miss a key, but it never reports one
    that is not there and never leaves the array. *)
Theorem generic_bin_search_safe (key_at : Z → btrfs_key) (key : btrfs_key)
    (max : Z) :
  ((generic_bin_search key_at key max).1 = 0 ∨
   (generic_bin_search key_at key max).1 = 1) ∧
  0 ≤ (generic_bin_search key_at key max).2 ≤ Z.max 0 max ∧
  ((generic_bin_search key_at key max).1 = 0 →
   (generic_bin_search key_at key max).2 < max ∧
   key_at (generic_bin_search key_at key max).2 = key).
Proof. exact (generic_bin_search_any key_at key max). Qed.

(** X3.  On an array whose keys increase strictly, [generic_bin_search]
    returns 0 exactly when the key is in the array, and in either case the
    slot is the number of keys of the array that are less than the key
    asked for: the position of the key, or the place to insert it. *)
Theorem generic_bin_search_sorted (key_at : Z → btrfs_key) (key : btrfs_key)
    (max : Z) :
  0 ≤ max → keys_sorted key_at max →
  ((generic_bin_search key_at key max).1 = 0 ↔
   ∃ i, 0 ≤ i < max ∧ key_at i = key) ∧
  0 ≤ (generic_bin_search key_at key max).2 ≤ max ∧
  ∀ i, 0 ≤ i < max →
       (key_lt (key_at i) key ↔ i < (generic_bin_search key_at key max).2).
Proof.
  intros Hmax Hsorted.
  destruct (generic_bin_search_spec key_at key max Hmax Hsorted)
    as [(Hr & Hs & Hkey)|(Hr & Hs & Hless & Hmore)].
  - split; [split; [eauto|done]|]. split; [lia|].
    intros i Hi. split.
    + intros Hlt. destruct (Z.lt_ge_cases i (generic_bin_search key_at key max).2)
        as [|Hge]; [done|]. exfalso.
      rewrite <- Hkey in Hlt.
      destruct (decide (i = (generic_bin_search key_at key max).2)) as [->|Hne].
      * by apply key_lt_irrefl in Hlt.
      * eapply key_lt_asym; [exact Hlt|]. apply Hsorted; lia.
    + intros Hlt. rewrite <- Hkey. apply Hsorted; lia.
  - split.
    + split; [lia|]. intros (i & Hi & Hk). exfalso.
      destruct (Z.lt_ge_cases i (generic_bin_search key_at key max).2)
        as [Hlt|Hge].
      * apply (key_lt_irrefl key). rewrite <- Hk at 1. apply Hless. lia.
      * apply (key_lt_irrefl key). rewrite <- Hk at 2. apply Hmore. lia.
    + split; [lia|]. intros i Hi. split.
      * intros Hlt.
        destruct (Z.lt_ge_cases i (generic_bin_search key_at key max).2)
          as [|Hge]; [done|]. exfalso.
        eapply key_lt_asym; [exact Hlt|]. apply Hmore. lia.
      * intros Hlt. apply Hless. lia.
Qed.

Lemma generic_bin_search_sorted_witness :
  ((generic_bin_search (btrfs_item_key tidy_left) (mk_key 5) 2).1 = 0 ↔
   ∃ i, 0 ≤ i < 2 ∧ btrfs_item_key tidy_left i = mk_key 5) ∧
  0 ≤ (generic_bin_search (btrfs_item_key tidy_left) (mk_key 5) 2).2 ≤ 2 ∧
  ∀ i, 0 ≤ i < 2 →
       (key_lt (btrfs_item_key tidy_left i) (mk_key 5) ↔
        i < (generic_bin_search (btrfs_item_key tidy_left) (mk_key 5) 2).2).
Proof.
  apply (generic_bin_search_sorted (btrfs_item_key tidy_left) (mk_key 5) 2).
  - lia.
  - intros i j Hi Hij Hj.
    assert (i = 0 ∧ j = 1) as [-> ->] by lia.
    left. vm_compute. reflexivity.
Defined.

Lemma check_node_loop_iff buf count :
  ∀ i0, check_node_loop count buf i0 = true ↔
        ∀ i, i0 ≤ i < i0 + Z.of_nat count →
             key_lt (btrfs_node_key buf i) (btrfs_node_key buf (i + 1)).
Proof.
  induction count as [|count IH]; intros i0; simpl.
  - split; [intros _ i Hi; lia|done].
  - destruct (Z.leb_spec 0 (btrfs_comp_keys (btrfs_node_key buf i0)
                              (btrfs_node_key buf (i0 + 1)))) as [Hge|Hlt].
    + split; [done|]. intros Hall. exfalso.
      assert (key_lt (btrfs_node_key buf i0) (btrfs_node_key buf (i0 + 1)))
        as Hk by (apply Hall; lia).
      apply btrfs_comp_keys_lt in Hk. lia.
    + rewrite IH. apply btrfs_comp_keys_lt in Hlt. split.
      * intros Hall i Hi. destruct (decide (i = i0)) as [->|Hne]; [done|].
        apply Hall. lia.
      * intros Hall i Hi. apply Hall. lia.
Qed.

Lemma check_leaf_loop_iff root buf count :
  ∀ i0, check_leaf_loop count root buf i0 = true ↔
        ∀ i, i0 ≤ i < i0 + Z.of_nat count →
             key_lt (btrfs_item_key buf i) (btrfs_item_key buf (i + 1)) ∧
             btrfs_item_offset_nr buf i = btrfs_item_end_nr buf (i + 1) ∧
             (i = 0 → btrfs_item_end_nr buf i = BTRFS_LEAF_DATA_SIZE root).
Proof.
  induction count as [|count IH]; intros i0; simpl.
  - split; [intros _ i Hi; lia|done].
  - destruct (Z.leb_spec 0 (btrfs_comp_keys (btrfs_item_key buf i0)
                              (btrfs_item_key buf (i0 + 1)))) as [Hge|Hlt].
    { split; [done|]. intros Hall. exfalso.
      destruct (Hall i0) as [Hk _]; [lia|].
      apply btrfs_comp_keys_lt in Hk. lia. }
    apply btrfs_comp_keys_lt in Hlt.
    destruct (Z.eqb_spec (btrfs_item_offset_nr buf i0)
                (btrfs_item_end_nr buf (i0 + 1))) as [Hoff|Hoff]; simpl.
    2:{ split; [done|]. intros Hall. exfalso.
        destruct (Hall i0) as (_ & Ho & _); [lia|]. done. }
    destruct (Z.eqb_spec i0 0) as [Hzero|Hpos]; simpl.
    + destruct (Z.eqb_spec (btrfs_item_end_nr buf i0)
                  (BTRFS_LEAF_DATA_SIZE root)) as [Hend|Hend]; simpl.
      * rewrite IH. split.
        -- intros Hall i Hi. destruct (decide (i = i0)) as [->|Hne]; [done|].
           apply Hall. lia.
        -- intros Hall i Hi. apply Hall. lia.
      * split; [done|]. intros Hall. exfalso.
        destruct (Hall i0) as (_ & _ & He); [lia|]. by apply Hend, He.
    + rewrite IH. split.
      * intros Hall i Hi. destruct (decide (i = i0)) as [->|Hne]; [done|].
        apply Hall. lia.
      * intros Hall i Hi. apply Hall. lia.
Qed.

(** X4.  [btrfs_check_node] returns 0 or [-EIO], and it returns 0 exactly
    when the node has at least one and at most [BTRFS_NODEPTRS_PER_BLOCK]
    pointers, its first key is the key of the parent slot (when a parent
    key with a non-zero type is given), and the keys of the adjacent slots
    [i], [i + 1] increase for every [i] below [nritems - 2].  Nothing else
    is looked at: not the last pair of keys, not the block pointers. *)
Theorem btrfs_check_node_accepts (root : btrfs_root)
    (parent_key : option btrfs_key) (buf : extent_buffer) :
  (btrfs_check_node root parent_key buf = 0 ∨
   btrfs_check_node root parent_key buf = - EIO) ∧
  (btrfs_check_node root parent_key buf = 0 ↔
   btrfs_header_nritems buf ≠ 0 ∧
   btrfs_header_nritems buf ≤ BTRFS_NODEPTRS_PER_BLOCK root ∧
   (∀ pk, parent_key = Some pk → type pk ≠ 0 → btrfs_node_key buf 0 = pk) ∧
   (∀ i, 0 ≤ i < btrfs_header_nritems buf - 2 →
         key_lt (btrfs_node_key buf i) (btrfs_node_key buf (i + 1)))).
Proof.
  unfold btrfs_check_node, EIO.
  destruct (Z.eqb_spec (btrfs_header_nritems buf) 0) as [Hz|Hnz]; simpl.
  { split; [tauto|]. split; [done|]. intros [? _]. done. }
  destruct (Z.ltb_spec (BTRFS_NODEPTRS_PER_BLOCK root)
              (btrfs_header_nritems buf)) as [Hbig|Hfit]; simpl.
  { split; [tauto|]. split; [done|]. intros (_ & ? & _). lia. }
  assert ((match parent_key with
           | Some pk => negb (type pk =? 0) &&
                        bool_decide (pk ≠ btrfs_node_key buf 0)
           | None => false
           end) = false ↔
          ∀ pk, parent_key = Some pk → type pk ≠ 0 →
                btrfs_node_key buf 0 = pk) as Hparent.
  { destruct parent_key as [pk|]; [|split; [intros _ ? [=]|done]].
    destruct (Z.eqb_spec (type pk) 0) as [Ht|Ht]; simpl.
    - split; [|done]. intros _ pk' [= <-] ?. done.
    - case_bool_decide as Hd; split; try done.
      + intros Hall. exfalso. apply Hd. symmetry. by apply Hall.
      + intros _ pk' [= <-] _. symmetry. exact Hd. }
  destruct (match parent_key with Some _ => _ | None => _ end) eqn:Hpk.
  { split; [tauto|]. split; [done|]. intros (_ & _ & Hp & _).
    apply Hparent in Hp. congruence. }
  assert (∀ pk, parent_key = Some pk → type pk ≠ 0 →
                btrfs_node_key buf 0 = pk) as Hp by (by apply Hparent).
  destruct (check_node_loop (check_loop_count (btrfs_header_nritems buf))
              buf 0) eqn:Hloop.
  - split; [tauto|]. split; [|done]. intros _.
    repeat split; try done.
    intros i Hi. apply (proj1 (check_node_loop_iff buf _ 0) Hloop).
    unfold check_loop_count.
    destruct (Z.ltb_spec 1 (btrfs_header_nritems buf)); lia.
  - split; [tauto|]. split; [done|]. intros (_ & _ & _ & Hall).
    exfalso. apply not_true_iff_false in Hloop. apply Hloop.
    apply check_node_loop_iff. intros i Hi. apply Hall.
    revert Hi. unfold check_loop_count.
    destruct (Z.ltb_spec 1 (btrfs_header_nritems buf)); lia.
Qed.

(** X5.  [btrfs_check_leaf] returns 0 or [-EIO], and it returns 0 exactly
    when the item headers fit the buffer, the level is 0, the free space is
    not negative and, for a leaf with items, the first key is the key of
    the parent slot (when a parent key with a non-zero type is given), for
    every [i] below [nritems - 2] the key of slot [i] is less than that of
    slot [i + 1] and the data of item [i] starts where the data of item
    [i + 1] ends, and, for a leaf of three items or more, the data of item
    0 ends at [BTRFS_LEAF_DATA_SIZE]. *)
Theorem btrfs_check_leaf_accepts (root : btrfs_root)
    (parent_key : option btrfs_key) (buf : extent_buffer) :
  (btrfs_check_leaf root parent_key buf = 0 ∨
   btrfs_check_leaf root parent_key buf = - EIO) ∧
  (btrfs_check_leaf root parent_key buf = 0 ↔
   btrfs_header_nritems buf * sizeof_btrfs_item ≤ eb_len buf ∧
   btrfs_header_level buf = 0 ∧
   0 ≤ btrfs_leaf_free_space root buf ∧
   (btrfs_header_nritems buf ≠ 0 →
    (∀ pk, parent_key = Some pk → type pk ≠ 0 → btrfs_item_key buf 0 = pk) ∧
    (∀ i, 0 ≤ i < btrfs_header_nritems buf - 2 →
          key_lt (btrfs_item_key buf i) (btrfs_item_key buf (i + 1)) ∧
          btrfs_item_offset_nr buf i = btrfs_item_end_nr buf (i + 1)) ∧
    (2 < btrfs_header_nritems buf →
     btrfs_item_end_nr buf 0 = BTRFS_LEAF_DATA_SIZE root))).
Proof.
  unfold btrfs_check_leaf, EIO.
  destruct (Z.ltb_spec (eb_len buf)
              (btrfs_header_nritems buf * sizeof_btrfs_item)) as [Hlen|Hlen].
  { split; [tauto|]. split; [done|]. intros (? & _). lia. }
  destruct (Z.eqb_spec (btrfs_header_level buf) 0) as [Hlevel|Hlevel]; simpl.
  2:{ split; [tauto|]. split; [done|]. intros (_ & ? & _). done. }
  destruct (Z.ltb_spec (btrfs_leaf_free_space root buf) 0) as [Hfree|Hfree].
  { split; [tauto|]. split; [done|]. intros (_ & _ & ? & _). lia. }
  destruct (Z.eqb_spec (btrfs_header_nritems buf) 0) as [Hz|Hnz].
  { split; [tauto|]. split; [|done]. intros _. repeat split; try done. }
  assert ((match parent_key with
           | Some pk => negb (type pk =? 0) &&
                        bool_decide (pk ≠ btrfs_item_key buf 0)
           | None => false
           end) = false ↔
          ∀ pk, parent_key = Some pk → type pk ≠ 0 →
                btrfs_item_key buf 0 = pk) as Hparent.
  { destruct parent_key as [pk|]; [|split; [intros _ ? [=]|done]].
    destruct (Z.eqb_spec (type pk) 0) as [Ht|Ht]; simpl.
    - split; [|done]. intros _ pk' [= <-] ?. done.
    - case_bool_decide as Hd; split; try done.
      + intros Hall. exfalso. apply Hd. symmetry. by apply Hall.
      + intros _ pk' [= <-] _. symmetry. exact Hd. }
  destruct (match parent_key with Some _ => _ | None => _ end) eqn:Hpk.
  { split; [tauto|]. split; [done|]. intros (_ & _ & _ & Hrest).
    destruct (Hrest Hnz) as (Hp & _).
    apply Hparent in Hp. congruence. }
  assert (∀ pk, parent_key = Some pk → type pk ≠ 0 →
                btrfs_item_key buf 0 = pk) as Hp by (by apply Hparent).
  destruct (check_leaf_loop (check_loop_count (btrfs_header_nritems buf))
              root buf 0) eqn:Hloop.
  - split; [tauto|]. split; [|done]. intros _.
    pose proof (proj1 (check_leaf_loop_iff root buf _ 0) Hloop) as Hall.
    assert (∀ i, 0 ≤ i < btrfs_header_nritems buf - 2 →
                 0 ≤ i < 0 + Z.of_nat
                   (check_loop_count (btrfs_header_nritems buf))) as Hrange.
    { intros i Hi. unfold check_loop_count.
      destruct (Z.ltb_spec 1 (btrfs_header_nritems buf)); lia. }
    split; [done|]. split; [done|]. split; [done|]. intros _.
    split; [done|]. split.
    + intros i Hi. destruct (Hall i (Hrange i Hi)) as (? & ? & _). done.
    + intros Hthree. destruct (Hall 0) as (_ & _ & He); [apply Hrange; lia|].
      by apply He.
  - split; [tauto|]. split; [done|]. intros (_ & _ & _ & Hrest).
    destruct (Hrest Hnz) as (_ & Hpairs & Hend).
    exfalso. apply not_true_iff_false in Hloop. apply Hloop.
    apply check_leaf_loop_iff. intros i Hi.
    assert (0 ≤ i < btrfs_header_nritems buf - 2) as Hi'.
    { revert Hi. unfold check_loop_count.
      destruct (Z.ltb_spec 1 (btrfs_header_nritems buf)); lia. }
    destruct (Hpairs i Hi') as [? ?]. split; [done|]. split; [done|].
    intros ->. apply Hend. lia.
Qed.

End KeyOrderFacts.

(** ** The search on any tree *)

Section SearchSoundFacts.
Import Ctree CtreeSpec.

Lemma search_loop_sound blocks root key :
  ∀ iterations p b ret p',
    length (nodes p) = 8%nat → length (slots p) = 8%nat →
    search_loop iterations blocks root key p b = search_returns ret p' →
    (ret = 0 ∨ ret = 1 ∨ ret = -1 ∨ ret = - EIO) ∧
    (ret = 0 →
     ∃ leaf pk,
       path_node p' 0 = Some leaf ∧ btrfs_header_level leaf = 0 ∧
       btrfs_check_leaf root pk leaf = 0 ∧
       0 ≤ path_slot p' 0 < to_int (btrfs_header_nritems leaf) ∧
       btrfs_item_key leaf (path_slot p' 0) = key).
Proof.
  induction iterations as [|it IH]; intros p b ret p' Hn Hs; simpl;
    [discriminate|].
  destruct (Z.ltb_spec (btrfs_header_level b) 0) as [Hneg|Hnonneg]; simpl;
    [discriminate|].
  destruct (Z.leb_spec BTRFS_MAX_LEVEL (btrfs_header_level b))
    as [Hbig|Hsmall]; [discriminate|].
  unfold BTRFS_MAX_LEVEL in Hsmall.
  rewrite check_block_set_node by (try rewrite Hn; lia).
  set (checked := if btrfs_header_level b =? 0
                  then btrfs_check_leaf root _ b
                  else btrfs_check_node root _ b).
  destruct (Z.eqb_spec checked 0) as [Hok|Hbad]; simpl.
  2:{ intros [= <- <-]. split; [tauto|]. intros [=]. }
  destruct (bin_search b key (btrfs_header_level b)) as [r slot] eqn:Hbin.
  destruct (Z.eqb_spec (btrfs_header_level b) 0) as [Hleaf|Hnode]; simpl.
  - intros [= <- <-].
    unfold bin_search in Hbin. rewrite Hleaf in Hbin. simpl in Hbin.
    pose proof (generic_bin_search_any (btrfs_item_key b) key
                  (to_int (btrfs_header_nritems b))) as Hsafe.
    rewrite Hbin in Hsafe. simpl in Hsafe.
    destruct Hsafe as (Hr & Hslot & Hhit).
    split; [destruct Hr as [->| ->]; tauto|].
    intros ->. destruct (Hhit eq_refl) as [Hlt Hkey].
    exists b, (parent_key_of p 0).
    rewrite path_slot_set_slot by (simpl; try rewrite Hs; lia).
    rewrite decide_True by done.
    split.
    { unfold path_node, set_path_slot, set_path_node; simpl.
      rewrite Hleaf. simpl. rewrite list_lookup_insert_eq; [done|].
      rewrite Hn. lia. }
    split; [done|]. split.
    { subst checked. rewrite Hleaf in Hok. simpl in Hok. exact Hok. }
    split; [lia|done].
  - destruct (Z.eqb_spec (btrfs_header_level b) (lowest_level p)); simpl.
    + intros [= <- <-]. split; [tauto|]. intros [=].
    + destruct (read_node_slot blocks b _) as [b'|] eqn:Hread.
      * intros Hrun. eapply IH; [| |exact Hrun]; simpl.
        -- rewrite length_insert. done.
        -- rewrite length_insert. done.
      * intros [= <- <-]. split; [tauto|]. intros [=].
Qed.

(** X6.  On any blocks whatever, ordered or corrupt: a read-only search
    ([ins_len == 0], [cow == 0]) that returns, returns 0, 1, -1 or [-EIO],
    and when it returns 0 the path ends in a block of level 0 that passed
    [btrfs_check_leaf], with [path->slots[0]] inside the leaf at an item
    whose key is the key asked for.  The search may miss keys of a tree
    that is not ordered, but it never reports a key that is not there. *)
Theorem btrfs_search_slot_hit_is_real (blocks : gmap Z extent_buffer)
    (root : btrfs_root) (key : btrfs_key) (iterations : nat)
    (p : btrfs_path) (ret : Z) (p' : btrfs_path) :
  length (nodes p) = 8%nat → length (slots p) = 8%nat →
  btrfs_search_slot iterations blocks root key p 0 0 = search_returns ret p' →
  (ret = 0 ∨ ret = 1 ∨ ret = -1 ∨ ret = - EIO) ∧
  (ret = 0 →
   ∃ leaf pk,
     path_node p' 0 = Some leaf ∧ btrfs_header_level leaf = 0 ∧
     btrfs_check_leaf root pk leaf = 0 ∧
     0 ≤ path_slot p' 0 < to_int (btrfs_header_nritems leaf) ∧
     btrfs_item_key leaf (path_slot p' 0) = key).
Proof.
  intros Hn Hs. unfold btrfs_search_slot. simpl.
  destruct (search_for_split p); [discriminate|].
  apply search_loop_sound; done.
Qed.

Lemma btrfs_search_slot_hit_is_real_witness :
  ∃ ret p',
    btrfs_search_slot 2 stray_blocks (root_4k stray_top) (mk_key 11)
      btrfs_init_path 0 0 = search_returns ret p' ∧
    (ret = 0 ∨ ret = 1 ∨ ret = -1 ∨ ret = - EIO) ∧
    (ret = 0 →
     ∃ leaf pk,
       path_node p' 0 = Some leaf ∧ btrfs_header_level leaf = 0 ∧
       btrfs_check_leaf (root_4k stray_top) pk leaf = 0 ∧
       0 ≤ path_slot p' 0 < to_int (btrfs_header_nritems leaf) ∧
       btrfs_item_key leaf (path_slot p' 0) = mk_key 11).
Proof.
  eexists _, _. split; [vm_compute; reflexivity|].
  apply (btrfs_search_slot_hit_is_real stray_blocks (root_4k stray_top)
           (mk_key 11) 2 btrfs_init_path);
    [reflexivity|reflexivity|vm_compute; reflexivity].
Defined.

(** X12.  The free space of a leaf is the gap between its item headers and
    its item data.  For a leaf of at least one and at most 65536 items in
    a tree of leaves of at most 64 KiB, whose item 0 ends at
    [BTRFS_LEAF_DATA_SIZE] and whose last item starts inside the data
    area, [btrfs_leaf_free_space] is [leaf_data_end] minus the size of the
    item headers, whatever the offsets of the items in between. *)
Theorem btrfs_leaf_free_space_gap (root : btrfs_root) (leaf : extent_buffer) :
  0 < btrfs_header_nritems leaf ≤ 65536 →
  BTRFS_LEAF_DATA_SIZE root ≤ 65536 →
  btrfs_item_end_nr leaf 0 = BTRFS_LEAF_DATA_SIZE root →
  0 ≤ btrfs_item_offset_nr leaf (btrfs_header_nritems leaf - 1)
    ≤ BTRFS_LEAF_DATA_SIZE root →
  btrfs_leaf_free_space root leaf =
    leaf_data_end root leaf -
    sizeof_btrfs_item * btrfs_header_nritems leaf.
Proof.
  intros Hn Hsize Hend Hlast.
  unfold btrfs_leaf_free_space, leaf_space_used, leaf_data_end,
    sizeof_btrfs_item.
  rewrite (to_int_small (btrfs_header_nritems leaf)) by lia.
  destruct (Z.eqb_spec (btrfs_header_nritems leaf) 0) as [?|_]; [lia|].
  rewrite Z.add_0_l, Z.min_id, Hend.
  set (off := btrfs_item_offset_nr leaf (btrfs_header_nritems leaf - 1))
    in *.
  rewrite (to_int_small (BTRFS_LEAF_DATA_SIZE root)) by lia.
  rewrite (to_int_small (BTRFS_LEAF_DATA_SIZE root - off)) by lia.
  rewrite (to_int_small (_ + _)) by lia.
  unfold to_int. rewrite Z.mod_small by lia. lia.
Qed.

Lemma btrfs_leaf_free_space_gap_witness :
  btrfs_leaf_free_space (root_4k stray_top) tidy_left =
    leaf_data_end (root_4k stray_top) tidy_left -
    sizeof_btrfs_item * btrfs_header_nritems tidy_left.
Proof.
  apply (btrfs_leaf_free_space_gap (root_4k stray_top) tidy_left).
  - simpl. lia.
  - vm_compute. discriminate.
  - vm_compute. reflexivity.
  - split; vm_compute; discriminate.
Defined.

End SearchSoundFacts.

(** ** Back references of extent records: lookup, allocation, recording *)

Section ExtentRefsFacts.
Import Extent ExtentSpec ExtentRefs ExtentRefsSpec.

Lemma all_backpointers_checked_zero rec :
  all_backpointers_checked rec 0 = 0 ↔
  Forall (backref_checked (nr rec)) (backrefs rec) ∧
  wrap64 (total_found (backrefs rec)) = refs rec.
Proof.
  unfold all_backpointers_checked.
  change 0 with (wrap64 0) at 2.
  destruct (walk_backrefs 0 (nr rec) (backrefs rec) (wrap64 0) 0)
    as [e|[found err]] eqn:Hwalk.
  - apply walk_backrefs_quiet_err in Hwalk as Hone. subst e.
    split; [discriminate|]. intros [Hall _].
    assert (walk_backrefs 0 (nr rec) (backrefs rec) (wrap64 0) 0 =
            inr (wrap64 (0 + total_found (backrefs rec)), 0)) as Hok
      by (apply walk_backrefs_quiet; done).
    congruence.
  - apply walk_backrefs_quiet in Hwalk as [Hall [= -> ->]].
    rewrite Z.add_0_l.
    destruct (Z.eqb_spec (wrap64 (total_found (backrefs rec))) (refs rec));
      split; try done.
    intros [_ ?]. done.
Qed.

Lemma all_backpointers_checked_bit rec :
  all_backpointers_checked rec 0 = 0 ∨ all_backpointers_checked rec 0 = 1.
Proof.
  unfold all_backpointers_checked.
  destruct (walk_backrefs 0 (nr rec) (backrefs rec) 0 0)
    as [e|[found err]] eqn:Hwalk.
  - apply walk_backrefs_quiet_err in Hwalk. tauto.
  - change (walk_backrefs 0 (nr rec) (backrefs rec) 0 0)
      with (walk_backrefs 0 (nr rec) (backrefs rec) (wrap64 0) 0) in Hwalk.
    apply walk_backrefs_quiet in Hwalk as [_ [= -> ->]].
    destruct (_ =? _); tauto.
Qed.

(** X7.  [maybe_free_extent_rec] removes a record from the cache and frees
    it exactly when its content and its owner reference are checked, the
    reference count of the extent item equals the count of references
    found, that count is not zero, every back reference passes the tests
    of [all_backpointers_checked], and the references the back references
    stand for add up (in 64 bits) to the count of references found. *)
Theorem maybe_free_extent_rec_frees_iff (rec : extent_record) :
  maybe_free_extent_rec rec = None ↔
  content_checked rec = true ∧ owner_ref_checked rec = true ∧
  extent_item_refs rec = refs rec ∧ 0 < refs rec ∧
  Forall (backref_checked (nr rec)) (backrefs rec) ∧
  wrap64 (total_found (backrefs rec)) = refs rec.
Proof.
  unfold maybe_free_extent_rec.
  rewrite <- all_backpointers_checked_zero.
  destruct (content_checked rec), (owner_ref_checked rec); simpl;
    try (split; [discriminate|intros (? & ? & _); discriminate]).
  destruct (Z.eqb_spec (extent_item_refs rec) (refs rec)); simpl;
    [|split; [discriminate|intros (_ & _ & ? & _); done]].
  destruct (Z.ltb_spec 0 (refs rec)); simpl;
    [|split; [discriminate|intros (_ & _ & _ & ? & _); lia]].
  destruct (Z.eqb_spec (all_backpointers_checked rec 0) 0); simpl.
  - split; [|done]. intros _. done.
  - split; [discriminate|]. intros (_ & _ & _ & _ & ?). done.
Qed.

Lemma is_extent_tree_record_loop_spec l :
  ∀ is_extent, (is_extent = 0 ∨ is_extent = 1) →
    (is_extent_tree_record_loop l is_extent = 0 ∨
     is_extent_tree_record_loop l is_extent = 1) ∧
    (is_extent_tree_record_loop l is_extent = 1 ↔
     Forall plain_tree_ref l ∧
     (is_extent = 1 ∨
      (false, Ctree.BTRFS_EXTENT_TREE_OBJECTID) ∈ tree_ref_keys l)).
Proof.
  induction l as [|b l IH]; intros is_extent Hbit; simpl.
  - split; [done|]. split.
    + intros ->. split; [constructor|tauto].
    + intros [_ [->|Hin]]; [done|]. by apply elem_of_nil in Hin.
  - destruct b as [n pr|n pr ow off bts nrf dfr].
    + destruct (full_backref n) eqn:Hfull.
      * split; [tauto|]. split; [discriminate|].
        intros [Hall _]. apply Forall_cons in Hall as [(n' & pr' & [= <- <-] & Hf) _].
        congruence.
      * unfold tree_ref_keys. simpl. rewrite Hfull.
        destruct (Z.eqb_spec pr Ctree.BTRFS_EXTENT_TREE_OBJECTID) as [->|Hne].
        -- destruct (IH 1) as [Hb Hiff]; [tauto|]. split; [done|].
           rewrite Hiff, Forall_cons. split.
           ++ intros [Hall _]. split; [|right; left].
              split; [exists n, Ctree.BTRFS_EXTENT_TREE_OBJECTID; done|done].
           ++ intros [[_ Hall] _]. split; [done|tauto].
        -- destruct (IH is_extent Hbit) as [Hb Hiff]. split; [done|].
           rewrite Hiff, Forall_cons, elem_of_cons. split.
           ++ intros [Hall Hor]. split; [|tauto].
              split; [exists n, pr; done|done].
           ++ intros [[_ Hall] Hor]. split; [done|].
              destruct Hor as [?|[Heq|?]];
                [tauto|injection Heq as Heq; congruence|right; done].
    + split; [tauto|]. split; [discriminate|].
      intros [Hall _]. apply Forall_cons in Hall as [(n' & pr' & [=] & _) _].
Qed.

(** X8.  [is_extent_tree_record] returns 0 or 1, and it returns 1 exactly
    when every back reference of the record is a tree back reference that
    is not a full back reference and one of them names the extent tree
    ([BTRFS_EXTENT_TREE_OBJECTID]) as root: one data back reference or one
    reference by a shared parent makes the answer 0, wherever it stands in
    the list. *)
Theorem is_extent_tree_record_iff (rec : extent_record) :
  (is_extent_tree_record rec = 0 ∨ is_extent_tree_record rec = 1) ∧
  (is_extent_tree_record rec = 1 ↔
   Forall plain_tree_ref (backrefs rec) ∧
   (false, Ctree.BTRFS_EXTENT_TREE_OBJECTID) ∈
     tree_ref_keys (backrefs rec)).
Proof.
  unfold is_extent_tree_record.
  destruct (is_extent_tree_record_loop_spec (backrefs rec) 0) as [Hb Hiff];
    [tauto|].
  split; [done|]. rewrite Hiff. split.
  - intros [Hall [?|?]]; [done|]. done.
  - intros [Hall Hin]. tauto.
Qed.

End ExtentRefsFacts.

Section ExtentRefsCalls.
Import Extent ExtentSpec ExtentRefs ExtentRefsSpec.

Lemma find_tree_backref_loop_some l parent root :
  ∀ i, find_tree_backref_loop l parent root = Some i →
       ∃ n, l !! i = Some (tree_backref n (tree_lookup_key parent root).2) ∧
            full_backref n = (tree_lookup_key parent root).1.
Proof.
  unfold tree_lookup_key.
  induction l as [|b l IH]; intros i; simpl; [discriminate|].
  assert (S <$> find_tree_backref_loop l parent root = Some i →
          ∃ n, (b :: l) !! i =
                 Some (tree_backref n
                         (if 0 <? parent then (true, parent)
                          else (false, root)).2) ∧
               full_backref n =
                 (if 0 <? parent then (true, parent) else (false, root)).1)
    as Hnext.
  { destruct (find_tree_backref_loop l parent root) as [j|] eqn:Hj;
      [|discriminate]. intros [= <-]. simpl. by apply IH. }
  destruct b as [n pr|n pr ow off bts nrf dfr]; [|done].
  destruct (0 <? parent); simpl.
  - destruct (full_backref n) eqn:Hfull; simpl; [|done].
    destruct (Z.eqb_spec parent pr) as [->|_]; [|done].
    intros [= <-]. exists n. done.
  - destruct (full_backref n) eqn:Hfull; simpl; [done|].
    destruct (Z.eqb_spec pr root) as [->|_]; [|done].
    intros [= <-]. exists n. done.
Qed.

Lemma find_tree_backref_loop_none l parent root :
  find_tree_backref_loop l parent root = None →
  tree_lookup_key parent root ∉ tree_ref_keys l.
Proof.
  unfold tree_lookup_key, tree_ref_keys.
  induction l as [|b l IH]; simpl; [intros _; apply not_elem_of_nil|].
  assert (S <$> find_tree_backref_loop l parent root = None →
          (if 0 <? parent then (true, parent) else (false, root)) ∉
            omap tree_ref_key l) as Hnext.
  { destruct (find_tree_backref_loop l parent root); [discriminate|].
    intros _. by apply IH. }
  destruct b as [n pr|n pr ow off bts nrf dfr]; simpl; [|done].
  destruct (0 <? parent); simpl.
  - destruct (full_backref n) eqn:Hfull; simpl.
    + destruct (Z.eqb_spec parent pr) as [->|Hne]; [discriminate|].
      intros Hnone. apply not_elem_of_cons. split; [congruence|auto].
    + intros Hnone. apply not_elem_of_cons. split; [congruence|auto].
  - destruct (full_backref n) eqn:Hfull; simpl.
    + intros Hnone. apply not_elem_of_cons. split; [congruence|auto].
    + destruct (Z.eqb_spec pr root) as [->|Hne]; [discriminate|].
      intros Hnone. apply not_elem_of_cons. split; [congruence|auto].
Qed.

Lemma tree_ref_keys_alter g i l :
  (∀ b, tree_ref_key (g b) = tree_ref_key b) →
  tree_ref_keys (alter g i l) = tree_ref_keys l.
Proof.
  intros Hg. unfold tree_ref_keys. revert i.
  induction l as [|b l IH]; intros [|i]; simpl; try done.
  - rewrite Hg. done.
  - specialize (IH i). unfold omap, alter in IH. rewrite IH. done.
Qed.

(** X9.  [add_tree_backref] files tree back references under the parent
    block (for a reference by a shared parent) or under the root: on a
    record of the extent at [bytenr] that has no two tree back references
    under the same key, the call does not abort, leaves the record with no
    two under the same key, adds exactly the key asked for to those
    present, and leaves a back reference under that key with the bit of
    the side that reported it set ([found_ref] for the walker,
    [found_extent_tree] for the extent tree). *)
Theorem add_tree_backref_one_per_key (rec : extent_record)
    (bytenr parent root found_ref : Z) :
  start rec = bytenr → NoDup (tree_ref_keys (backrefs rec)) →
  ∃ rec',
    add_tree_backref (Some rec) bytenr parent root found_ref = Some rec' ∧
    NoDup (tree_ref_keys (backrefs rec')) ∧
    (∀ k, k ∈ tree_ref_keys (backrefs rec') ↔
          k ∈ tree_ref_keys (backrefs rec) ∨ k = tree_lookup_key parent root) ∧
    ∃ n, tree_backref n (tree_lookup_key parent root).2 ∈ backrefs rec' ∧
         full_backref n = (tree_lookup_key parent root).1 ∧
         (if found_ref =? 0 then found_extent_tree n
          else Extent.found_ref n) = true.
Proof.
  intros Hstart Hnodup. unfold add_tree_backref.
  rewrite Hstart, Z.eqb_refl. simpl.
  set (write := λ b : backref,
         match b with
         | tree_backref node parent_root =>
             if negb (found_ref =? 0)
             then tree_backref (set_found_ref true node) parent_root
             else tree_backref (set_found_extent_tree true node) parent_root
         | data_backref _ _ _ _ _ _ _ => b
         end).
  assert (∀ b, tree_ref_key (write b) = tree_ref_key b) as Hwrite.
  { intros [n pr|]; simpl; [|done]. destruct (found_ref =? 0); done. }
  unfold find_tree_backref.
  destruct (find_tree_backref_loop (backrefs rec) parent root) as [i|] eqn:Hfind.
  - apply find_tree_backref_loop_some in Hfind as (n & Hi & Hfull).
    eexists. split; [reflexivity|]. simpl.
    rewrite tree_ref_keys_alter by done.
    split; [done|]. split.
    + intros k. split; [tauto|]. intros [?| ->]; [done|].
      unfold tree_ref_keys. apply list_elem_of_omap.
      exists (tree_backref n (tree_lookup_key parent root).2).
      split; [by eapply list_elem_of_lookup_2|].
      simpl. rewrite Hfull. by destruct (tree_lookup_key parent root).
    + exists (if negb (found_ref =? 0) then set_found_ref true n
              else set_found_extent_tree true n).
      split.
      * apply list_elem_of_lookup. exists i.
        rewrite list_lookup_alter, decide_True, Hi by done. simpl.
        destruct (found_ref =? 0); done.
      * destruct (found_ref =? 0); done.
  - apply find_tree_backref_loop_none in Hfind.
    unfold alloc_tree_backref.
    set (ref := if 0 <? parent then _ else _).
    assert (tree_ref_key ref = Some (tree_lookup_key parent root)) as Hkey.
    { unfold ref, tree_lookup_key. destruct (0 <? parent); done. }
    eexists. split; [reflexivity|]. simpl.
    rewrite tree_ref_keys_alter by done.
    assert (tree_ref_keys (backrefs rec ++ [ref]) =
            tree_ref_keys (backrefs rec) ++ [tree_lookup_key parent root])
      as Hkeys.
    { unfold tree_ref_keys. rewrite omap_app. simpl. rewrite Hkey. done. }
    rewrite Hkeys. split.
    + apply NoDup_app. split; [done|]. split; [|apply NoDup_singleton].
      intros k Hk Hin. apply list_elem_of_singleton in Hin. by subst.
    + split.
      * intros k. rewrite elem_of_app, list_elem_of_singleton. done.
      * exists (node (write ref)). split.
        -- apply list_elem_of_lookup. exists (length (backrefs rec)).
           rewrite list_lookup_alter, decide_True by done.
           rewrite lookup_app_r by lia.
           rewrite Nat.sub_diag. simpl.
           unfold ref, tree_lookup_key.
           destruct (0 <? parent), (found_ref =? 0); done.
        -- unfold ref, tree_lookup_key.
           destruct (0 <? parent), (found_ref =? 0); done.
Qed.

Lemma add_tree_backref_one_per_key_witness :
  start sample_rec = 4096 ∧ NoDup (tree_ref_keys (backrefs sample_rec)) ∧
  ∃ rec',
    add_tree_backref (Some sample_rec) 4096 0 5 1 = Some rec' ∧
    NoDup (tree_ref_keys (backrefs rec')) ∧
    (∀ k, k ∈ tree_ref_keys (backrefs rec') ↔
          k ∈ tree_ref_keys (backrefs sample_rec) ∨
          k = tree_lookup_key 0 5) ∧
    ∃ n, tree_backref n (tree_lookup_key 0 5).2 ∈ backrefs rec' ∧
         full_backref n = (tree_lookup_key 0 5).1 ∧
         (if 1 =? 0 then found_extent_tree n else Extent.found_ref n) = true.
Proof.
  split; [reflexivity|]. split; [apply NoDup_nil_2|].
  apply (add_tree_backref_one_per_key sample_rec 4096 0 5 1);
    [reflexivity|apply NoDup_nil_2].
Defined.

Local Ltac crunch :=
  repeat (cbn; rewrite ?Z.eqb_refl, ?Z.ltb_irrefl, ?Z.max_id, ?andb_false_r;
          try change (wrap64 (0 + 1)) with 1;
          try change (to_u32 (0 + 1)) with 1;
          try match goal with
              | |- context [if ?a =? ?b then _ else _] =>
                  is_var a; destruct (Z.eqb_spec a b)
              | |- context [if ?a <? ?b then _ else _] =>
                  is_var a; is_var b; destruct (Z.ltb_spec a b)
              end).

Local Ltac settle :=
  unfold reconciled; rewrite all_backpointers_checked_zero; cbn;
  rewrite Forall_singleton; unfold backref_checked; cbn;
  change (wrap64 (1 + 0)) with 1;
  intuition (try lia; try congruence).

(** X10.  The two sides of the reconciliation of a data extent.  The
    extent tree declares the extent at [bytenr] with [num_bytes] bytes, one
    reference and one inline data reference (root, inode, offset) of count
    1; the walker meets one file extent item of that root, inode and offset
    that points to [bytenr] with [len] bytes.  Whichever side is processed
    first, the calls of [add_extent_rec] and [add_data_backref] reach no
    [abort()] or [BUG_ON], the [BUG_ON(ret)] of the walker does not fire,
    and the record of the extent is kept; it ends up reconciled (it passes
    [all_backpointers_checked],
    [refs == extent_item_refs], both non-zero, content and owner checked)
    exactly when [len == num_bytes] - except that, when the extent tree
    comes first and says [num_bytes == 1], the walker's length replaces
    it. *)
Theorem data_extent_reconciles (bytenr len num_bytes root objectid offset : Z) :
  match
    process_extent_item_data_ref None bytenr num_bytes 1 root objectid
      offset 1
    ≫= λ rec, run_next_block_file_extent (Some rec) bytenr len 0 root
                objectid offset
  with
  | Some rec => num_bytes ≠ 1 → (reconciled rec ↔ len = num_bytes)
  | None => False
  end ∧
  match
    run_next_block_file_extent None bytenr len 0 root objectid offset
    ≫= λ rec, process_extent_item_data_ref (Some rec) bytenr num_bytes 1
                root objectid offset 1
  with
  | Some rec => reconciled rec ↔ len = num_bytes
  | None => False
  end.
Proof.
  unfold process_extent_item_data_ref, run_next_block_file_extent,
    add_extent_rec, add_data_backref, new_extent_rec,
    find_data_backref, alloc_data_backref, maybe_free_extent_rec.
  split.
  - crunch.
    all: unfold all_backpointers_checked; crunch.
    all: intros Hne; settle.
  - crunch.
    all: unfold all_backpointers_checked; crunch.
    all: settle.
Qed.

Lemma find_data_backref_loop_plain l root owner offset found_ref bytes :
  ∀ i, find_data_backref_loop l 0 root owner offset found_ref bytes = Some i →
       ∃ n pr ow off bts nrf dfr,
         l !! i = Some (data_backref n pr ow off bts nrf dfr) ∧
         (found_ref ≠ 0 → Extent.found_ref n = true → bts = bytes).
Proof.
  induction l as [|b l IH]; intros i; simpl; [discriminate|].
  assert (S <$> find_data_backref_loop l 0 root owner offset found_ref bytes
          = Some i →
          ∃ n pr ow off bts nrf dfr,
            (b :: l) !! i = Some (data_backref n pr ow off bts nrf dfr) ∧
            (found_ref ≠ 0 → Extent.found_ref n = true → bts = bytes))
    as Hnext.
  { destruct (find_data_backref_loop l 0 root owner offset found_ref bytes)
      as [j|] eqn:Hj; [|discriminate]. intros [= <-]. simpl. by apply IH. }
  destruct b as [n pr|n pr ow off bts nrf dfr]; [done|].
  destruct (full_backref n); [done|].
  destruct ((pr =? root) && (ow =? owner) && (off =? offset)); [|done].
  destruct (Z.eqb_spec found_ref 0) as [Hz|Hnz]; simpl.
  - intros [= <-]. exists n, pr, ow, off, bts, nrf, dfr. split; [done|].
    intros ?. done.
  - destruct (Extent.found_ref n) eqn:Hfr; simpl.
    + destruct (Z.eqb_spec bts bytes) as [->|Hne]; simpl; [|done].
      intros [= <-]. exists n, pr, ow, off, bytes, nrf, dfr. done.
    + intros [= <-]. exists n, pr, ow, off, bts, nrf, dfr. split; [done|].
      intros _ Htrue. congruence.
Qed.

(** X11.  [add_data_backref] for a reference by root ([parent == 0]) never
    reaches [abort()] or a [BUG_ON], given that the cache holds no record
    or the record that starts at [bytenr], and that the walker reports
    references one at a time ([num_refs == 1] with [found_ref]): the lookup
    passes over a back reference that the walker has already seen with
    another length.  For a reference by a shared parent ([parent > 0]) the
    lookup does not, and a second sighting with another length stops the
    program at [BUG_ON(back->bytes != max_size)]. *)
Theorem add_data_backref_bug_on (found : option extent_record)
    (bytenr root owner offset num_refs found_ref max_size : Z) :
  (∀ rec, found = Some rec → start rec = bytenr) →
  (found_ref ≠ 0 → num_refs = 1) →
  is_Some (add_data_backref found bytenr 0 root owner offset num_refs
             found_ref max_size) ∧
  ∀ parent bytes,
    0 < parent → bytes ≠ max_size →
    add_data_backref
      (Some (set_backrefs [seen_shared_ref parent bytes]
               (new_extent_rec bytenr 1 0 0 0 0 0 bytes)))
      bytenr parent root owner offset 1 1 max_size = None.
Proof.
  intros Hstart Hone. split.
  - unfold add_data_backref.
    set (rec0 := match found with Some rec => rec | None => _ end).
    assert (start rec0 = bytenr) as ->.
    { unfold rec0. destruct found as [rec|]; [by apply Hstart|done]. }
    rewrite Z.eqb_refl. simpl.
    set (rec1 := if Extent.max_size rec0 <? max_size then _ else _).
    unfold find_data_backref.
    destruct (find_data_backref_loop (backrefs rec1) 0 root owner offset
                found_ref max_size) as [i|] eqn:Hfind.
    + apply find_data_backref_loop_plain in Hfind
        as (n & pr & ow & off & bts & nrf & dfr & -> & Hbytes).
      destruct (Z.eqb_spec found_ref 0) as [Hz|Hnz]; simpl; [done|].
      rewrite (Hone Hnz). simpl.
      destruct (Extent.found_ref n) eqn:Hfr; simpl; [|done].
      rewrite (Hbytes Hnz eq_refl), Z.eqb_refl. done.
    + unfold alloc_data_backref. simpl.
      destruct (Extent.max_size rec1 <? max_size); simpl;
        rewrite lookup_app_r by lia; rewrite Nat.sub_diag; simpl;
        (destruct (Z.eqb_spec found_ref 0) as [Hz|Hnz]; simpl; [done|]);
        rewrite (Hone Hnz); done.
  - intros parent bytes Hparent Hbytes.
    unfold add_data_backref, find_data_backref. cbn.
    rewrite Z.eqb_refl. cbn.
    destruct (bytes <? max_size); cbn;
      destruct (Z.ltb_spec 0 parent); try lia; cbn;
      rewrite Z.eqb_refl; cbn;
      destruct (Z.eqb_spec bytes max_size); done.
Qed.

Lemma add_data_backref_bug_on_witness :
  (∀ rec, @None extent_record = Some rec → start rec = 4096) ∧
  ((1 ≠ 0 → 1 = 1) ∧
   is_Some (add_data_backref None 4096 0 5 257 0 1 1 8192) ∧
   ∀ parent bytes,
     0 < parent → bytes ≠ 8192 →
     add_data_backref
       (Some (set_backrefs [seen_shared_ref parent bytes]
                (new_extent_rec 4096 1 0 0 0 0 0 bytes)))
       4096 parent 5 257 0 1 1 8192 = None).
Proof.
  split; [intros rec [=]|]. split; [done|].
  apply (add_data_backref_bug_on None 4096 5 257 0 1 1 8192);
    [intros rec [=]|done].
Defined.

End ExtentRefsCalls.

(** ** Changing a key in place *)

Section SetKeyFacts.
Import Ctree CtreeSpec CtreeWalk CtreeWalkSpec.

Lemma btrfs_comp_keys_ge x y : 0 ≤ btrfs_comp_keys x y ↔ ¬ key_lt x y.
Proof. rewrite <- btrfs_comp_keys_lt. lia. Qed.

Lemma btrfs_comp_keys_le x y : btrfs_comp_keys x y ≤ 0 ↔ ¬ key_lt y x.
Proof.
  destruct (btrfs_comp_keys_spec x y) as [[-> Hk]|[[-> Hk]|[-> Hk]]].
  - split; [|lia]. intros _ H. by apply key_lt_asym in H.
  - subst y. split; [|lia]. intros _ H. by apply key_lt_irrefl in H.
  - split; [lia|]. intros H. done.
Qed.

Lemma fixup_low_keys_loop_below key :
  ∀ count path i l,
    0 ≤ l < i → length (nodes path) = 8%nat →
    path_node (fixup_low_keys_loop count path key i) l = path_node path l ∧
    length (nodes (fixup_low_keys_loop count path key i)) = 8%nat.
Proof.
  induction count as [|count IH]; intros path i l Hl Hn; simpl; [done|].
  destruct (path_node path i) as [t|] eqn:Hnode; [|done].
  assert (i < 8) as Hi.
  { destruct (Z.lt_ge_cases i 8) as [|Hge]; [done|]. exfalso.
    unfold path_node in Hnode. destruct (i <? 0); [done|].
    rewrite lookup_ge_None_2 in Hnode by (rewrite Hn; lia). done. }
  assert (path_node
            (set_path_node path i
               (btrfs_set_node_key t key (path_slot path i))) l =
          path_node path l) as Hsame.
  { rewrite path_node_set_node by (try rewrite Hn; lia).
    rewrite decide_False by lia. done. }
  destruct (negb (path_slot path i =? 0)).
  - split; [done|]. simpl. rewrite length_insert. done.
  - destruct (IH (set_path_node path i
                    (btrfs_set_node_key t key (path_slot path i)))
                (i + 1) l) as [Heq Hlen]; [lia| |].
    + simpl. rewrite length_insert. done.
    + rewrite Heq. done.
Qed.

Lemma fixup_low_keys_loop_slots key :
  ∀ count path i, slots (fixup_low_keys_loop count path key i) = slots path.
Proof.
  induction count as [|count IH]; intros path i; simpl; [done|].
  destruct (path_node path i) as [t|]; [|done].
  destruct (negb (path_slot path i =? 0)); [done|].
  rewrite IH. done.
Qed.

Lemma btrfs_item_nr_set_item_key leaf key slot i :
  0 ≤ slot → 0 ≤ i → (Z.to_nat slot < length (items leaf))%nat →
  btrfs_item_nr (btrfs_set_item_key leaf key slot) i =
    if decide (i = slot)
    then {| item_key := key;
            item_offset := item_offset (btrfs_item_nr leaf slot);
            item_size := item_size (btrfs_item_nr leaf slot) |}
    else btrfs_item_nr leaf i.
Proof.
  intros Hslot Hi Hlen. unfold btrfs_set_item_key, btrfs_item_nr.
  destruct (Z.ltb_spec slot 0); [lia|]. simpl.
  rewrite list_lookup_alter.
  destruct (lookup_lt_is_Some_2 (items leaf) (Z.to_nat slot) Hlen)
    as [it Hit].
  case_decide as Heq; case_decide as Heq'; try lia.
  - subst i. rewrite Hit. done.
  - done.
Qed.

Lemma keys_sorted_update key_at n slot new_key :
  keys_sorted key_at n → 0 ≤ slot < n →
  (0 < slot → key_lt (key_at (slot - 1)) new_key) →
  (slot < n - 1 → key_lt new_key (key_at (slot + 1))) →
  keys_sorted (λ i, if decide (i = slot) then new_key else key_at i) n.
Proof.
  intros Hsorted Hslot Hl Hr i j Hi Hij Hj. simpl.
  destruct (decide (i = slot)) as [->|Hni];
    destruct (decide (j = slot)) as [->|Hnj]; try lia.
  - destruct (decide (j = slot + 1)) as [->|Hne]; [apply Hr; lia|].
    eapply key_lt_trans; [apply Hr; lia|]. apply Hsorted; lia.
  - destruct (decide (i = slot - 1)) as [->|Hne]; [apply Hl; lia|].
    eapply key_lt_trans; [|apply Hl; lia]. apply Hsorted; lia.
  - apply Hsorted; lia.
Qed.

Lemma fits_between_decided leaf slot new_key :
  ((0 <? slot) &&
   (0 <=? btrfs_comp_keys (btrfs_item_key leaf (slot - 1)) new_key)) ||
  ((slot <? btrfs_header_nritems leaf - 1) &&
   (btrfs_comp_keys (btrfs_item_key leaf (slot + 1)) new_key <=? 0)) = false
  ↔ fits_between leaf slot new_key.
Proof.
  unfold fits_between.
  rewrite orb_false_iff, !andb_false_iff, Z.ltb_ge, Z.ltb_ge, Z.leb_gt,
    Z.leb_gt.
  rewrite btrfs_comp_keys_lt.
  assert (0 < btrfs_comp_keys (btrfs_item_key leaf (slot + 1)) new_key ↔
          key_lt new_key (btrfs_item_key leaf (slot + 1))) as ->.
  { destruct (btrfs_comp_keys_spec (btrfs_item_key leaf (slot + 1)) new_key)
      as [[-> Hk]|[[-> Hk]|[-> Hk]]].
    - split; [lia|]. intros H. by apply key_lt_asym in H.
    - rewrite Hk. split; [lia|]. intros H. by apply key_lt_irrefl in H.
    - split; [done|lia]. }
  split.
  - intros [[?|?] [?|?]]; split; intros; try done; lia.
  - intros [Hl Hr]. split.
    + destruct (Z.lt_ge_cases 0 slot); [right; auto|left; lia].
    + destruct (Z.lt_ge_cases slot (btrfs_header_nritems leaf - 1));
        [right; auto|left; lia].
Qed.

(** X13.  [btrfs_set_item_key_safe] on a leaf whose keys increase, with
    [path->slots[0]] at one of its items: it returns 0 or -1; it returns 0
    exactly when the new key lies strictly between the keys of the
    neighbouring slots, and -1 otherwise with the path and its blocks
    untouched.  After a return of 0 the leaf of the path has the new key in
    the slot, the offset and size of that item and all other items are as
    before, and the keys of the leaf still increase. *)
Theorem btrfs_set_item_key_safe_keeps_order (path : btrfs_path)
    (new_key : btrfs_key) (leaf : extent_buffer) :
  path_node path 0 = Some leaf →
  length (nodes path) = 8%nat →
  btrfs_header_nritems leaf < 2 ^ 32 →
  0 ≤ path_slot path 0 < btrfs_header_nritems leaf →
  (Z.to_nat (path_slot path 0) < length (items leaf))%nat →
  keys_sorted (btrfs_item_key leaf) (btrfs_header_nritems leaf) →
  ∃ ret path',
    btrfs_set_item_key_safe path new_key = Some (ret, path') ∧
    (ret = 0 ∨ ret = -1) ∧
    (ret = 0 ↔ fits_between leaf (path_slot path 0) new_key) ∧
    (ret = -1 → path' = path) ∧
    (ret = 0 →
     slots path' = slots path ∧
     ∃ leaf',
       path_node path' 0 = Some leaf' ∧
       btrfs_header_nritems leaf' = btrfs_header_nritems leaf ∧
       btrfs_item_key leaf' (path_slot path 0) = new_key ∧
       btrfs_item_offset_nr leaf' (path_slot path 0) =
         btrfs_item_offset_nr leaf (path_slot path 0) ∧
       btrfs_item_size_nr leaf' (path_slot path 0) =
         btrfs_item_size_nr leaf (path_slot path 0) ∧
       (∀ i, 0 ≤ i → i ≠ path_slot path 0 →
             btrfs_item_nr leaf' i = btrfs_item_nr leaf i) ∧
       keys_sorted (btrfs_item_key leaf') (btrfs_header_nritems leaf')).
Proof.
  intros Hleaf Hn Hu32 Hslot Hlen Hsorted.
  unfold btrfs_set_item_key_safe. rewrite Hleaf. simpl.
  set (slot := path_slot path 0) in *.
  set (n := btrfs_header_nritems leaf) in *.
  assert (to_u32 slot = slot) as Hus by (apply Z.mod_small; lia).
  assert (to_u32 (n - 1) = n - 1) as Hun by (apply Z.mod_small; lia).
  rewrite Hus, Hun.
  pose proof (fits_between_decided leaf slot new_key) as Hfits.
  fold n in Hfits.
  destruct ((0 <? slot) &&
            (0 <=? btrfs_comp_keys (btrfs_item_key leaf (slot - 1)) new_key))
    eqn:Hc1; simpl in Hfits.
  { exists (-1), path. split; [done|]. split; [tauto|].
    split; [|split; [done|intros [=]]].
    split; [intros [=]|]. intros Hf. apply Hfits in Hf. done. }
  destruct ((slot <? n - 1) &&
            (btrfs_comp_keys (btrfs_item_key leaf (slot + 1)) new_key <=? 0))
    eqn:Hc2; simpl in Hfits.
  { exists (-1), path. split; [done|]. split; [tauto|].
    split; [|split; [done|intros [=]]].
    split; [intros [=]|]. intros Hf. apply Hfits in Hf. done. }
  assert (fits_between leaf slot new_key) as [Hl Hr] by (by apply Hfits).
  eexists 0, _. split; [reflexivity|]. split; [tauto|].
  split; [split; [intros _; split; done|done]|].
  split; [intros [=]|]. intros _.
  set (leaf' := btrfs_set_item_key leaf new_key slot).
  assert (btrfs_header_nritems leaf' = n) as Hn'.
  { unfold leaf', btrfs_set_item_key. destruct (slot <? 0); done. }
  assert (path_node (set_path_node path 0 leaf') 0 = Some leaf') as Hnode.
  { rewrite path_node_set_node by (try rewrite Hn; lia).
    rewrite decide_True by done. reflexivity. }
  assert (slots (if slot =? 0
                 then fixup_low_keys (set_path_node path 0 leaf') new_key 1
                 else set_path_node path 0 leaf') = slots path ∧
          path_node (if slot =? 0
                     then fixup_low_keys (set_path_node path 0 leaf')
                            new_key 1
                     else set_path_node path 0 leaf') 0 = Some leaf')
    as [Hslots Hnode'].
  { destruct (slot =? 0); [|done]. unfold fixup_low_keys.
    rewrite fixup_low_keys_loop_slots. split; [done|].
    destruct (fixup_low_keys_loop_below new_key
                (Z.to_nat (BTRFS_MAX_LEVEL - 1))
                (set_path_node path 0 leaf') 1 0)
      as [-> _]; [lia|simpl; rewrite length_insert; done|done]. }
  split; [done|]. exists leaf'. split; [done|]. split; [done|].
  unfold btrfs_item_key, btrfs_item_offset_nr, btrfs_item_size_nr.
  unfold leaf'. rewrite !btrfs_item_nr_set_item_key by lia.
  rewrite decide_True by done. simpl.
  split; [done|]. split; [done|]. split; [done|]. split.
  { intros i Hi Hne. rewrite btrfs_item_nr_set_item_key by lia.
    rewrite decide_False by done. done. }
  fold leaf'. rewrite Hn'.
  intros i j Hi Hij Hj.
  pose proof (keys_sorted_update (btrfs_item_key leaf) n slot new_key
                Hsorted Hslot Hl Hr i j Hi Hij Hj) as Hupd.
  simpl in Hupd. unfold leaf'.
  rewrite !btrfs_item_nr_set_item_key by lia.
  destruct (decide (i = slot)), (decide (j = slot)); exact Hupd.
Qed.

Lemma btrfs_set_item_key_safe_keeps_order_witness :
  ∃ ret path',
    btrfs_set_item_key_safe tidy_path (mk_key 7) = Some (ret, path') ∧
    (ret = 0 ∨ ret = -1) ∧
    (ret = 0 ↔ fits_between tidy_left (path_slot tidy_path 0) (mk_key 7)) ∧
    (ret = -1 → path' = tidy_path) ∧
    (ret = 0 →
     slots path' = slots tidy_path ∧
     ∃ leaf',
       path_node path' 0 = Some leaf' ∧
       btrfs_header_nritems leaf' = btrfs_header_nritems tidy_left ∧
       btrfs_item_key leaf' (path_slot tidy_path 0) = mk_key 7 ∧
       btrfs_item_offset_nr leaf' (path_slot tidy_path 0) =
         btrfs_item_offset_nr tidy_left (path_slot tidy_path 0) ∧
       btrfs_item_size_nr leaf' (path_slot tidy_path 0) =
         btrfs_item_size_nr tidy_left (path_slot tidy_path 0) ∧
       (∀ i, 0 ≤ i → i ≠ path_slot tidy_path 0 →
             btrfs_item_nr leaf' i = btrfs_item_nr tidy_left i) ∧
       keys_sorted (btrfs_item_key leaf') (btrfs_header_nritems leaf')).
Proof.
  apply (btrfs_set_item_key_safe_keeps_order tidy_path (mk_key 7) tidy_left).
  - reflexivity.
  - reflexivity.
  - vm_compute. reflexivity.
  - split; vm_compute; [discriminate|reflexivity].
  - vm_compute. lia.
  - intros i j Hi Hij Hj. simpl in Hj.
    assert (i = 0 ∧ j = 1) as [-> ->] by lia.
    left. vm_compute. reflexivity.
Defined.

Lemma btrfs_node_ptr_set_node_key t key slot i :
  0 ≤ slot → 0 ≤ i → (Z.to_nat slot < length (ptrs t))%nat →
  btrfs_node_ptr (btrfs_set_node_key t key slot) i =
    if decide (i = slot)
    then {| ptr_key := key; blockptr := blockptr (btrfs_node_ptr t slot);
            ptr_generation := ptr_generation (btrfs_node_ptr t slot) |}
    else btrfs_node_ptr t i.
Proof.
  intros Hslot Hi Hlen. unfold btrfs_set_node_key, btrfs_node_ptr.
  destruct (Z.ltb_spec slot 0); [lia|]. simpl.
  rewrite list_lookup_alter.
  destruct (lookup_lt_is_Some_2 (ptrs t) (Z.to_nat slot) Hlen) as [kp Hkp].
  case_decide as Heq; case_decide as Heq'; try lia.
  - subst i. rewrite Hkp. done.
  - done.
Qed.

Lemma path_node_some_level path i t :
  length (nodes path) = 8%nat → path_node path i = Some t → 0 ≤ i < 8.
Proof.
  intros Hn Hnode. unfold path_node in Hnode.
  destruct (Z.ltb_spec i 0); [done|]. split; [done|].
  destruct (Z.lt_ge_cases i 8) as [|Hge]; [done|]. exfalso.
  rewrite lookup_ge_None_2 in Hnode by (rewrite Hn; lia). done.
Qed.

(** The loop of [fixup_low_keys] writes the key at the level it starts
    from. *)
Lemma fixup_low_keys_loop_at key count path i t :
  length (nodes path) = 8%nat → path_node path i = Some t → 0 ≤ i →
  path_node (fixup_low_keys_loop (S count) path key i) i =
    Some (btrfs_set_node_key t key (path_slot path i)).
Proof.
  intros Hn Hnode Hi. simpl. rewrite Hnode.
  pose proof (path_node_some_level _ _ _ Hn Hnode) as Hrange.
  assert (path_node
            (set_path_node path i
               (btrfs_set_node_key t key (path_slot path i))) i =
          Some (btrfs_set_node_key t key (path_slot path i))) as Hset.
  { rewrite path_node_set_node by (try rewrite Hn; lia).
    rewrite decide_True by done. done. }
  destruct (negb (path_slot path i =? 0)); [done|].
  destruct (fixup_low_keys_loop_below key count
              (set_path_node path i
                 (btrfs_set_node_key t key (path_slot path i))) (i + 1) i)
    as [-> _]; [lia|simpl; rewrite length_insert; done|done].
Qed.

(** It goes up through the levels whose slot is 0, and leaves the levels
    above the first other slot alone. *)
Lemma fixup_low_keys_loop_up key :
  ∀ (d count : nat) path i l t,
    length (nodes path) = 8%nat → 0 ≤ i → l = i + Z.of_nat d →
    (d < count)%nat →
    (∀ j, i ≤ j < l → path_slot path j = 0 ∧ is_Some (path_node path j)) →
    path_node path l = Some t →
    path_node (fixup_low_keys_loop count path key i) l =
      Some (btrfs_set_node_key t key (path_slot path l)) ∧
    (path_slot path l ≠ 0 →
     ∀ j, l < j →
          path_node (fixup_low_keys_loop count path key i) j =
            path_node path j).
Proof.
  induction d as [|d IH]; intros count path i l t Hn Hi Hl Hcount Hzero Hnode;
    (destruct count as [|count]; [lia|]).
  - assert (l = i) as -> by lia. split.
    + by apply fixup_low_keys_loop_at.
    + intros Hslot j Hj. simpl. rewrite Hnode.
      destruct (Z.eqb_spec (path_slot path i) 0); [done|]. simpl.
      pose proof (path_node_some_level _ _ _ Hn Hnode).
      rewrite path_node_set_node by (try rewrite Hn; lia).
      rewrite decide_False by lia. done.
  - destruct (Hzero i) as [Hslot [ti Hti]]; [lia|].
    pose proof (path_node_some_level _ _ _ Hn Hti) as Hrange.
    simpl. rewrite Hti, Hslot. simpl.
    set (path' := set_path_node path i (btrfs_set_node_key ti key 0)).
    assert (∀ j, 0 ≤ j → j ≠ i → path_node path' j = path_node path j)
      as Hsame.
    { intros j Hj Hne. unfold path'.
      rewrite path_node_set_node by (try rewrite Hn; lia).
      rewrite decide_False by done. done. }
    destruct (IH count path' (i + 1) l t) as [Hat Hstop].
    + unfold path'. simpl. rewrite length_insert. done.
    + lia.
    + lia.
    + lia.
    + intros j Hj. destruct (Hzero j) as [Hs Hsome]; [lia|].
      split; [done|]. rewrite Hsame by lia. done.
    + rewrite Hsame by lia. done.
    + split; [done|]. intros Hne j Hj. rewrite (Hstop Hne j Hj).
      apply Hsame; lia.
Qed.

(** X24.  [fixup_low_keys] carries a new first key up the path.  Started
    at level 1, it writes the key into the slot of the path at every level
    up to and including the first level whose slot is not 0, and touches
    nothing above that level: at each such level the block of the path has
    the key in its slot, and the block pointers, and all other slots, as
    before. *)
Theorem fixup_low_keys_follows (path : btrfs_path) (key : btrfs_key)
    (l : Z) (t : extent_buffer) :
  length (nodes path) = 8%nat → 1 ≤ l →
  (∀ j, 1 ≤ j < l → path_slot path j = 0 ∧ is_Some (path_node path j)) →
  path_node path l = Some t →
  0 ≤ path_slot path l →
  (Z.to_nat (path_slot path l) < length (ptrs t))%nat →
  ∃ t',
    path_node (fixup_low_keys path key 1) l = Some t' ∧
    btrfs_node_key t' (path_slot path l) = key ∧
    btrfs_node_blockptr t' (path_slot path l) =
      btrfs_node_blockptr t (path_slot path l) ∧
    (∀ i, 0 ≤ i → i ≠ path_slot path l →
          btrfs_node_ptr t' i = btrfs_node_ptr t i) ∧
    (path_slot path l ≠ 0 →
     ∀ j, l < j →
          path_node (fixup_low_keys path key 1) j = path_node path j).
Proof.
  intros Hn Hl Hzero Hnode Hslot Hlen.
  pose proof (path_node_some_level _ _ _ Hn Hnode) as Hrange.
  destruct (fixup_low_keys_loop_up key (Z.to_nat (l - 1))
              (Z.to_nat (BTRFS_MAX_LEVEL - 1)) path 1 l t)
    as [Hat Hstop]; try done; [lia|unfold BTRFS_MAX_LEVEL; lia|].
  exists (btrfs_set_node_key t key (path_slot path l)).
  split; [exact Hat|].
  unfold btrfs_node_key, btrfs_node_blockptr.
  rewrite btrfs_node_ptr_set_node_key by lia.
  rewrite decide_True by done. simpl.
  split; [done|]. split; [done|]. split; [|exact Hstop].
  intros i Hi Hne. rewrite btrfs_node_ptr_set_node_key by lia.
  rewrite decide_False by done. done.
Qed.

Lemma fixup_low_keys_follows_witness :
  ∃ t',
    path_node (fixup_low_keys tidy_path (mk_key 0) 1) 1 = Some t' ∧
    btrfs_node_key t' (path_slot tidy_path 1) = mk_key 0 ∧
    btrfs_node_blockptr t' (path_slot tidy_path 1) =
      btrfs_node_blockptr stray_top (path_slot tidy_path 1) ∧
    (∀ i, 0 ≤ i → i ≠ path_slot tidy_path 1 →
          btrfs_node_ptr t' i = btrfs_node_ptr stray_top i) ∧
    (path_slot tidy_path 1 ≠ 0 →
     ∀ j, 1 < j →
          path_node (fixup_low_keys tidy_path (mk_key 0) 1) j =
            path_node tidy_path j).
Proof.
  apply (fixup_low_keys_follows tidy_path (mk_key 0) 1 stray_top).
  - reflexivity.
  - lia.
  - intros j Hj. lia.
  - reflexivity.
  - vm_compute. discriminate.
  - vm_compute. lia.
Defined.

End SetKeyFacts.

(** ** Stepping to the next leaf of an ordered tree *)

Section NextLeafFacts.
Import Ctree CtreeSpec CtreeWalk CtreeWalkSpec.

Lemma path_node_set_slot p level s l :
  path_node (set_path_slot p level s) l = path_node p l.
Proof. reflexivity. Qed.

Lemma path_slot_set_node p level b l :
  path_slot (set_path_node p level b) l = path_slot p l.
Proof. reflexivity. Qed.

Lemma tree_ok_level blocks root k b lo hi :
  tree_ok blocks root k b lo hi →
  btrfs_header_level b = Z.of_nat k ∧ 0 ≤ btrfs_header_nritems b < 2 ^ 31.
Proof. destruct k; simpl; tauto. Qed.

(** Every block on the path of a descent in an ordered tree is the root of
    an ordered subtree. *)
Lemma descent_nodes_ok blocks root p (level : nat) top lo hi :
  tree_ok blocks root level top lo hi →
  path_descent blocks p (Z.of_nat level) top →
  ∀ d l : nat, (l + d = level)%nat →
    ∃ b lo' hi', path_node p (Z.of_nat l) = Some b ∧
                 tree_ok blocks root l b lo' hi'.
Proof.
  intros Hok [Htop Hdesc]. induction d as [|d IH]; intros l Hl.
  - replace l with level by lia. eauto.
  - destruct (IH (S l)) as (b & lo' & hi' & Hb & Hbok); [lia|].
    destruct (Hdesc (Z.of_nat l)) as (parent & child & Hp & Hc & Hs & Hr & _);
      [lia|].
    replace (Z.of_nat l + 1) with (Z.of_nat (S l)) in * by lia.
    assert (parent = b) as -> by congruence.
    simpl in Hbok. destruct Hbok as (_ & _ & _ & _ & _ & Hchildren).
    destruct (Hchildren _ Hs) as (c & Hread & Hcok).
    assert (c = child) as -> by congruence.
    eauto.
Qed.

(** Every key of the leaf of a path lies in the subtree of each block of
    the path. *)
Lemma descent_leaf_keys blocks p level top leaf key :
  path_descent blocks p level top →
  path_node p 0 = Some leaf →
  (∃ i, 0 ≤ i < btrfs_header_nritems leaf ∧ btrfs_item_key leaf i = key) →
  ∀ l : nat, Z.of_nat l ≤ level →
    ∀ b, path_node p (Z.of_nat l) = Some b → key_in_tree blocks l b key.
Proof.
  intros [_ Hdesc] Hleaf Hkey. induction l as [|l IH]; intros Hl b Hb.
  - change (Z.of_nat 0) with 0 in Hb.
    assert (b = leaf) as -> by congruence. done.
  - destruct (Hdesc (Z.of_nat l)) as (parent & child & Hp & Hc & Hs & Hr & _);
      [lia|].
    replace (Z.of_nat l + 1) with (Z.of_nat (S l)) in * by lia.
    assert (parent = b) as -> by congruence.
    simpl. exists (path_slot p (Z.of_nat (S l))), child.
    split; [done|]. split; [done|]. apply IH; [lia|done].
Qed.

(** The second loop of [btrfs_next_leaf] on an ordered subtree: it goes
    down the leftmost blocks. *)
Lemma next_leaf_descend_ok blocks root :
  ∀ (k : nat) next lo hi p,
    (k < 8)%nat → tree_ok blocks root k next lo hi →
    length (nodes p) = 8%nat → length (slots p) = 8%nat →
    ∃ p' leaf,
      next_leaf_descend (S k) blocks p next = Some (0, p') ∧
      length (nodes p') = 8%nat ∧ length (slots p') = 8%nat ∧
      (∀ l, Z.of_nat k < l →
            path_node p' l = path_node p l ∧ path_slot p' l = path_slot p l) ∧
      path_node p' (Z.of_nat k) = Some next ∧
      (∀ l, 0 ≤ l ≤ Z.of_nat k → path_slot p' l = 0) ∧
      (∀ l, 0 ≤ l < Z.of_nat k →
         ∃ parent child,
           path_node p' (l + 1) = Some parent ∧ path_node p' l = Some child ∧
           0 ≤ path_slot p' (l + 1) < btrfs_header_nritems parent ∧
           read_tree_block blocks
             (btrfs_node_blockptr parent (path_slot p' (l + 1))) =
             Some child ∧
           btrfs_header_level child = l) ∧
      path_node p' 0 = Some leaf ∧
      (∀ j, 0 ≤ j < btrfs_header_nritems leaf →
            key_in_tree blocks k next (btrfs_item_key leaf j)).
Proof.
  induction k as [|k IH]; intros next lo hi p Hk Hok Hn Hs.
  - simpl. change (Z.of_nat 0) with 0.
    eexists _, next. split; [reflexivity|]. simpl.
    rewrite !length_insert. split; [done|]. split; [done|].
    split.
    { intros l Hl. rewrite path_node_set_slot, path_slot_set_slot,
        path_node_set_node, path_slot_set_node by (simpl; lia).
      rewrite !decide_False by lia. done. }
    rewrite path_node_set_slot, path_node_set_node by (simpl; lia).
    rewrite decide_True by done.
    split; [done|]. split.
    { intros l Hl. rewrite path_slot_set_slot by (simpl; lia).
      rewrite decide_True by lia. done. }
    split; [intros l Hl; lia|]. split; [done|].
    intros j Hj. exists j. done.
  - destruct Hok as (Hlevel & Hrange & Hcheck & Hsorted & Hwithin & Hchildren).
    apply btrfs_check_node_nonempty in Hcheck.
    destruct (Hchildren 0) as (c & Hread & Hcok); [lia|].
    simpl in Hcok.
    change (next_leaf_descend (S (S k)) blocks p next)
      with (let path := set_path_node p (Z.of_nat (S k)) next in
            let path := set_path_slot path (Z.of_nat (S k)) 0 in
            match read_node_slot_or_bug blocks next 0 with
            | read_block next => next_leaf_descend (S k) blocks path next
            | read_null => Some (- EIO, path)
            | read_bug => None
            end).
    cbv zeta.
    unfold read_node_slot_or_bug. rewrite Hlevel.
    destruct (Z.ltb_spec 0 0); [lia|].
    destruct (Z.leb_spec (btrfs_header_nritems next) 0); [lia|].
    destruct (Z.eqb_spec (Z.of_nat (S k)) 0); [lia|].
    rewrite Hread.
    set (p1 := set_path_slot (set_path_node p (Z.of_nat (S k)) next)
                 (Z.of_nat (S k)) 0).
    destruct (IH c (Some (btrfs_node_key next 0)) (next_bound next 0 hi) p1)
      as (p' & leaf & Hrun & Hn' & Hs' & Habove & Hnode & Hzero & Hchain &
          Hleaf & Hkeys);
      [lia|done|simpl; rewrite length_insert; done
          |simpl; rewrite length_insert; done|].
    exists p', leaf. split; [done|]. split; [done|]. split; [done|].
    assert (path_node p1 (Z.of_nat (S k)) = Some next) as Hp1n.
    { unfold p1. rewrite path_node_set_slot, path_node_set_node by lia.
      rewrite decide_True by done. done. }
    assert (path_slot p1 (Z.of_nat (S k)) = 0) as Hp1s.
    { unfold p1. rewrite path_slot_set_slot by (simpl; lia).
      rewrite decide_True by done. done. }
    split.
    { intros l Hl. destruct (Habove l) as [-> ->]; [lia|].
      unfold p1. rewrite path_node_set_slot, path_slot_set_slot,
        path_node_set_node, path_slot_set_node by (simpl; lia).
      rewrite !decide_False by lia. done. }
    destruct (Habove (Z.of_nat (S k))) as [Hsn Hss]; [lia|].
    split; [congruence|]. split.
    { intros l Hl. destruct (decide (l = Z.of_nat (S k))) as [->|Hne].
      - congruence.
      - apply Hzero. lia. }
    split.
    { intros l Hl. destruct (decide (l = Z.of_nat k)) as [->|Hne].
      - exists next, c.
        replace (Z.of_nat k + 1) with (Z.of_nat (S k)) by lia.
        rewrite Hsn, Hss, Hp1n, Hp1s. split; [done|]. split; [done|].
        split; [lia|]. split; [done|].
        apply tree_ok_level in Hcok as [Hcl _]. done.
      - apply Hchain. lia. }
    split; [done|].
    intros j Hj. simpl. exists 0, c. split; [lia|]. split; [done|].
    by apply Hkeys.
Qed.

(** The first loop of [btrfs_next_leaf] on the path of a descent in an
    ordered tree: it returns 1, or breaks at a level of the path whose slot
    is not the last, with the child of the next slot read. *)
Lemma next_leaf_climb_ok blocks root p (level : nat) top :
  tree_ok blocks root level top None None →
  path_descent blocks p (Z.of_nat level) top →
  (level < 8)%nat →
  (∀ l, Z.of_nat level < l → path_node p l = None) →
  ∀ (d : nat) (l : Z),
    1 ≤ l → l < 8 → l + Z.of_nat d = 8 → l ≤ Z.of_nat level + 1 →
    (next_leaf_climb d blocks p l = climb_returns 1 ∧
     ∀ l', l ≤ l' ≤ Z.of_nat level → last_slot p l') ∨
    ∃ lv c next,
      l ≤ lv ≤ Z.of_nat level ∧ path_node p lv = Some c ∧
      0 ≤ path_slot p lv ∧
      path_slot p lv + 1 < btrfs_header_nritems c ∧
      read_tree_block blocks
        (btrfs_node_blockptr c (path_slot p lv + 1)) = Some next ∧
      (∀ l', l ≤ l' < lv → last_slot p l') ∧
      next_leaf_climb d blocks p l =
        climb_breaks lv (path_slot p lv + 1) next.
Proof.
  intros Hok Hdesc Hmax Hnone.
  induction d as [|d IH]; intros l Hl1 Hl8 Hd Hle; [lia|].
  simpl.
  destruct (decide (l = Z.of_nat level + 1)) as [Htop|Hin].
  { rewrite Hnone by lia. left. split; [done|]. intros l' Hl'. lia. }
  destruct (descent_nodes_ok blocks root p level top None None Hok Hdesc
              (level - Z.to_nat l) (Z.to_nat l))
    as (c & lo' & hi' & Hc & Hcok); [lia|].
  rewrite Z2Nat.id in Hc by lia. rewrite Hc.
  destruct Hdesc as [_ Hchain].
  destruct (Hchain (l - 1)) as (parent & child & Hp & _ & Hslot & _);
    [lia|].
  replace (l - 1 + 1) with l in * by lia.
  assert (parent = c) as -> by congruence.
  destruct (Z.to_nat l) as [|k] eqn:Hk; [lia|].
  destruct Hcok as (Hlevel & Hrange & _ & _ & _ & Hchildren).
  rewrite (to_int_small (path_slot p l + 1)) by lia.
  assert (to_u32 (path_slot p l + 1) = path_slot p l + 1) as ->
    by (apply Z.mod_small; lia).
  destruct (Z.leb_spec (btrfs_header_nritems c) (path_slot p l + 1))
    as [Hlast|Hmore].
  - assert (last_slot p l) as Hlast_l by (exists c; done).
    destruct (Z.eqb_spec (l + 1) BTRFS_MAX_LEVEL) as [H8|H8].
    { unfold BTRFS_MAX_LEVEL in H8. left. split; [done|].
      intros l' Hl'. replace l' with l by lia. done. }
    unfold BTRFS_MAX_LEVEL in H8.
    destruct (IH (l + 1))
      as [[Hret Hall]|(lv & c' & next & Hlv & Hc' & Hs' & Hm' & Hr' & Hall &
                       Hrun)];
      [lia|lia|lia|lia| |].
    + left. split; [done|]. intros l' Hl'.
      destruct (decide (l' = l)) as [->|Hne]; [done|]. apply Hall. lia.
    + right. exists lv, c', next. split; [lia|]. split; [done|].
      split; [done|]. split; [done|]. split; [done|]. split; [|done].
      intros l' Hl'.
      destruct (decide (l' = l)) as [->|Hne]; [done|]. apply Hall. lia.
  - right. destruct (Hchildren (path_slot p l + 1)) as (next & Hread & _);
      [lia|].
    exists l, c, next. split; [lia|]. split; [done|]. split; [lia|].
    split; [done|]. split; [done|]. split; [intros l' Hl'; lia|].
    unfold read_node_slot_or_bug.
    destruct (Z.ltb_spec (path_slot p l + 1) 0); [lia|].
    destruct (Z.leb_spec (btrfs_header_nritems c) (path_slot p l + 1));
      [lia|].
    rewrite Hlevel. destruct (Z.eqb_spec (Z.of_nat (S k)) 0); [lia|].
    rewrite Hread. done.
Qed.

(** X14.  [btrfs_next_leaf] on an ordered tree steps to the next leaf in
    key order.  Given the path of a descent from the root to a leaf of a
    tree of legal height that reads, validates and is ordered, it returns 0
    or 1, never [-EIO], and reaches no [BUG_ON].  It returns 1 exactly when
    the slot of the path is the last one of its node at every level above
    the leaf, and the path is then as it was.  Otherwise it returns 0, and
    the path has stepped at the lowest level whose slot is not the last:
    there the slot has moved one to the right, the path above is as it was,
    and below it the path goes down the leftmost blocks ([stepped_at]); the
    path is again a descent from the root to a leaf, with
    [path->slots[0] == 0], and every key of the new leaf is greater than
    every key of the old leaf. *)
Theorem btrfs_next_leaf_ordered (blocks : gmap Z extent_buffer)
    (root : btrfs_root) (level : nat) (p : btrfs_path) :
  (level < 8)%nat →
  tree_ok blocks root level (root_node root) None None →
  length (nodes p) = 8%nat → length (slots p) = 8%nat →
  path_descent blocks p (Z.of_nat level) (root_node root) →
  (∀ l, Z.of_nat level < l → path_node p l = None) →
  ∃ ret p',
    btrfs_next_leaf blocks p = Some (ret, p') ∧
    (ret = 0 ∨ ret = 1) ∧
    (ret = 1 ↔ ∀ l, 1 ≤ l ≤ Z.of_nat level → last_slot p l) ∧
    (ret = 1 → p' = p) ∧
    (ret = 0 →
     (∃ lv, 1 ≤ lv ≤ Z.of_nat level ∧ stepped_at p p' lv) ∧
     path_descent blocks p' (Z.of_nat level) (root_node root) ∧
     (∀ l, Z.of_nat level < l → path_node p' l = None) ∧
     path_slot p' 0 = 0 ∧
     ∃ old new,
       path_node p 0 = Some old ∧ path_node p' 0 = Some new ∧
       ∀ i j, 0 ≤ i < btrfs_header_nritems old →
              0 ≤ j < btrfs_header_nritems new →
              key_lt (btrfs_item_key old i) (btrfs_item_key new j)).
Proof.
  intros Hmax Hok Hn Hs Hdesc Hnone.
  unfold btrfs_next_leaf.
  destruct (next_leaf_climb_ok blocks root p level (root_node root)
              Hok Hdesc Hmax Hnone (Z.to_nat (BTRFS_MAX_LEVEL - 1)) 1)
    as [[Hret Hall]|(lv & c & next & Hlv & Hc & Hs0 & Hmore & Hread &
                     Hbelow_last & Hclimb)];
    [lia|lia|unfold BTRFS_MAX_LEVEL; lia|lia| |].
  { rewrite Hret. exists 1, p. split; [done|]. split; [tauto|].
    split; [done|]. split; [done|]. intros [=]. }
  rewrite Hclimb.
  assert (¬ last_slot p lv) as Hnot_last.
  { intros (c' & Hc' & Hfull). assert (c' = c) as -> by congruence. lia. }
  (* the blocks at [lv] and below it on the old path *)
  destruct (descent_nodes_ok blocks root p level (root_node root) None None
              Hok Hdesc (level - Z.to_nat lv) (Z.to_nat lv))
    as (c' & clo & chi & Hc' & Hcok); [lia|].
  rewrite Z2Nat.id in Hc' by lia.
  assert (c' = c) as -> by congruence.
  destruct (Z.to_nat lv) as [|k] eqn:Hk; [lia|].
  assert (lv = Z.of_nat (S k)) as Hlvk by lia.
  pose proof Hcok as (Hclevel & Hcrange & _ & Hcsorted & Hcwithin & Hchildren).
  destruct (Hchildren (path_slot p lv + 1)) as (next' & Hread' & Hnextok);
    [lia|].
  assert (next' = next) as -> by congruence.
  destruct (Hchildren (path_slot p lv)) as (prev & Hprev & Hprevok); [lia|].
  set (p1 := set_path_slot p lv (path_slot p lv + 1)).
  destruct (next_leaf_descend_ok blocks root k next
              (Some (btrfs_node_key c (path_slot p lv + 1)))
              (next_bound c (path_slot p lv + 1) chi) p1)
    as (p' & new & Hrun & Hn' & Hs' & Habove & Hnode & Hzero & Hchain &
        Hnew & Hkeys);
    [lia|done|done|unfold p1; simpl; rewrite length_insert; done|].
  exists 0, p'. split; [done|]. split; [tauto|].
  split.
  { split; [intros [=]|]. intros Hall. exfalso. apply Hnot_last, Hall. lia. }
  split; [intros [=]|]. intros _.
  assert (∀ l, lv ≤ l → path_node p' l = path_node p l) as Hsame_node.
  { intros l Hl. destruct (Habove l) as [-> _]; [lia|]. done. }
  assert (∀ l, lv < l → path_slot p' l = path_slot p l) as Hsame_slot.
  { intros l Hl. destruct (Habove l) as [_ ->]; [lia|].
    unfold p1. rewrite path_slot_set_slot by (try rewrite Hs; lia).
    rewrite decide_False by lia. done. }
  assert (path_slot p' lv = path_slot p lv + 1) as Hslot_lv.
  { destruct (Habove lv) as [_ ->]; [lia|].
    unfold p1. rewrite path_slot_set_slot by (try rewrite Hs; lia).
    rewrite decide_True by done. done. }
  destruct Hdesc as [Htop Hold].
  split; [|split; [|split; [|split]]].
  - exists lv. split; [lia|]. split; [done|]. split; [done|].
    split; [done|]. split; [done|]. split; [done|].
    intros l Hl. apply Hzero. lia.
  - split; [rewrite Hsame_node by lia; done|].
    intros l Hl.
    destruct (Z.lt_trichotomy (l + 1) lv) as [Hlow|[Heq|Hhigh]].
    + apply Hchain. lia.
    + exists c, next. rewrite Heq, Hslot_lv.
      rewrite Hsame_node by lia.
      replace l with (Z.of_nat k) by lia.
      split; [done|]. split; [done|]. split; [lia|]. split; [done|].
      apply tree_ok_level in Hnextok as [Hnl _]. done.
    + destruct (Hold l Hl) as (parent & child & Hp & Hch & Hsl & Hr & Hlev).
      exists parent, child.
      rewrite !Hsame_node, Hsame_slot by lia. done.
  - intros l Hl. rewrite Hsame_node by lia. by apply Hnone.
  - apply Hzero. lia.
  - destruct (Hold 0) as (_ & old & _ & Hold0 & _); [lia|].
    exists old, new. split; [done|]. split; [done|].
    intros i j Hi Hj.
    (* the old leaf lies under slot [slots[lv]] of [c] *)
    destruct (Hold (Z.of_nat k)) as (parent & child & Hp & Hch & _ & Hr & _);
      [lia|].
    replace (Z.of_nat k + 1) with lv in * by lia.
    assert (parent = c) as -> by congruence.
    assert (child = prev) as -> by congruence.
    assert (key_in_tree blocks k prev (btrfs_item_key old i)) as Hin_old.
    { apply (descent_leaf_keys blocks p (Z.of_nat level) (root_node root)
               old); try done; [eauto|lia]. }
    destruct (key_in_tree_within blocks root _ k _ _ _ Hprevok Hin_old)
      as [_ Hbelow].
    unfold next_bound in Hbelow.
    destruct (Z.ltb_spec (path_slot p lv + 1) (btrfs_header_nritems c));
      [|lia]. simpl in Hbelow.
    destruct (key_in_tree_within blocks root _ k _ _ _ Hnextok
                (Hkeys j Hj)) as [Habove_new _].
    simpl in Habove_new.
    eapply key_lt_le_trans; done.
Qed.

Lemma tidy_path_descent : path_descent tidy_blocks tidy_path 1 stray_top.
Proof.
  split; [reflexivity|]. intros l Hl. assert (l = 0) as -> by lia.
  exists stray_top, tidy_left.
  split; [reflexivity|]. split; [reflexivity|].
  split; [split; vm_compute; [discriminate|reflexivity]|].
  split; reflexivity.
Qed.

Lemma tidy_path_top l : 1 < l → path_node tidy_path l = None.
Proof.
  intros Hl. unfold path_node. destruct (Z.ltb_spec l 0); [done|].
  change (nodes tidy_path)
    with [Some tidy_left; Some stray_top; None; None; None; None; None;
          @None extent_buffer].
  remember (Z.to_nat l) as n eqn:Hn.
  assert (2 ≤ n)%nat as Hn2 by lia. clear Hn.
  do 9 (destruct n as [|n]; [try lia; try reflexivity|]). reflexivity.
Qed.

Lemma btrfs_next_leaf_ordered_witness :
  ∃ ret p',
    btrfs_next_leaf tidy_blocks tidy_path = Some (ret, p') ∧
    (ret = 0 ∨ ret = 1) ∧
    (ret = 1 ↔ ∀ l, 1 ≤ l ≤ Z.of_nat 1 → last_slot tidy_path l) ∧
    (ret = 1 → p' = tidy_path) ∧
    (ret = 0 →
     (∃ lv, 1 ≤ lv ≤ Z.of_nat 1 ∧ stepped_at tidy_path p' lv) ∧
     path_descent tidy_blocks p' (Z.of_nat 1) (root_node (root_4k stray_top)) ∧
     (∀ l, Z.of_nat 1 < l → path_node p' l = None) ∧
     path_slot p' 0 = 0 ∧
     ∃ old new,
       path_node tidy_path 0 = Some old ∧ path_node p' 0 = Some new ∧
       ∀ i j, 0 ≤ i < btrfs_header_nritems old →
              0 ≤ j < btrfs_header_nritems new →
              key_lt (btrfs_item_key old i) (btrfs_item_key new j)).
Proof.
  apply (btrfs_next_leaf_ordered tidy_blocks (root_4k stray_top) 1 tidy_path).
  - lia.
  - exact tidy_tree_ok.
  - reflexivity.
  - reflexivity.
  - exact tidy_path_descent.
  - exact tidy_path_top.
Defined.

End NextLeafFacts.

(** ** Restore: mirrors and the dialogue *)

Section RestoreFacts.
Import CmdsRestore CmdsRestoreSpec CmdsRestoreMoreSpec.

Lemma copy_from_again_mirrors dev fd fi pos copies :
  has_copies dev copies →
  ∀ iterations st ret tried,
    1 ≤ mirror_num st ≤ Z.max 1 copies →
    Forall (λ a, 1 ≤ mirror a ≤ Z.max 1 copies) (attempts st) →
    copy_from_again iterations dev fd fi pos st = Some (ret, tried) →
    Forall (λ a, 1 ≤ mirror a ≤ Z.max 1 copies) tried.
Proof.
  intros Hcopies.
  induction iterations as [|it IH]; intros st ret tried Hm Hall; simpl;
    [discriminate|].
  destruct (btrfs_map_block dev (mirror_num st) (bytenr st) (size_left st))
    as [[[mret mlen] dev_fd] dev_bytenr].
  destruct (negb (mret =? 0)); [intros [= <- <-]; done|].
  set (length := if size_left st <? mlen then size_left st else mlen).
  destruct (pread dev dev_fd length dev_bytenr) as [done data].
  assert (Forall (λ a, 1 ≤ mirror a ≤ Z.max 1 copies)
            (attempts st ++
             [{| mirror := mirror_num st; logical := bytenr st;
                 len := length |}])) as Hall'.
  { apply Forall_app. split; [done|]. apply Forall_singleton. done. }
  destruct ((done <? 0) || (done <? length)).
  - rewrite Hcopies.
    destruct (Z.ltb_spec copies (mirror_num st + 1));
      [intros [= <- <-]; done|].
    apply IH; simpl; [lia|done].
  - destruct (negb (wrap64 (size_left st - length) =? 0)).
    { apply IH; simpl; [lia|done]. }
    destruct (compression fi =? BTRFS_COMPRESS_NONE).
    { destruct (write_out it dev fd _ (ram_bytes fi) pos 0); simpl;
        [intros [= <- <-]; done|discriminate]. }
    destruct (decompress dev _ (disk_num_bytes fi) (ram_bytes fi)
                (compression fi)) as [[dret ram_size] outbuf].
    destruct (negb (dret =? 0)).
    + rewrite Hcopies.
      destruct (Z.leb_spec copies (1 + 1)); [intros [= <- <-]; done|].
      apply IH; simpl; [lia|done].
    + destruct (write_out it dev fd outbuf ram_size pos 0); simpl;
        [intros [= <- <-]; done|discriminate].
Qed.

(** X15.  [copy_one_extent] never asks for a mirror that does not exist:
    when every block has [copies] mirrors, every read of a call that
    returns is made on a mirror between 1 and [copies] (on mirror 1 when
    [copies] is less than 1), whatever the devices, the codec and the
    output file do. *)
Theorem copy_one_extent_mirrors_exist (iterations : nat) (dev : devices)
    (fd : Z) (fi : file_extent) (pos copies ret : Z) (tried : list attempt) :
  has_copies dev copies →
  copy_one_extent iterations dev fd fi pos = Some (ret, tried) →
  Forall (λ a, 1 ≤ mirror a ≤ Z.max 1 copies) tried.
Proof.
  intros Hcopies. unfold copy_one_extent.
  destruct (disk_num_bytes fi =? 0); [intros [= <- <-]; constructor|].
  apply (copy_from_again_mirrors dev fd fi pos copies Hcopies);
    simpl; [lia|constructor].
Qed.

Lemma copy_one_extent_mirrors_exist_witness :
  has_copies (garbled 2) 2 ∧
  ∃ ret tried,
    copy_one_extent 8 (garbled 2) 5 packed_extent 0 = Some (ret, tried) ∧
    Forall (λ a, 1 ≤ mirror a ≤ Z.max 1 2) tried.
Proof.
  split; [intros logical length; reflexivity|].
  eexists _, _. split; [vm_compute; reflexivity|].
  apply (copy_one_extent_mirrors_exist 8 (garbled 2) 5 packed_extent 0 2 (-1));
    [intros logical length; reflexivity|vm_compute; reflexivity].
Defined.

Lemma copy_from_again_short_reads dev fd fi pos copies :
  has_copies dev copies → maps dev → reads_fail dev →
  ∀ (k : nat) (iterations : nat) st,
    1 ≤ mirror_num st →
    mirror_num st + Z.of_nat k = Z.max 1 copies →
    (k < iterations)%nat →
    ∃ more,
      copy_from_again iterations dev fd fi pos st =
        Some (-1, attempts st ++ more) ∧
      mirror <$> more = seqZ (mirror_num st) (Z.of_nat (S k)) ∧
      Forall (λ a, logical a = bytenr st) more.
Proof.
  intros Hcopies Hmaps Hfail.
  induction k as [|k IH]; intros iterations st Hm Hk Hfuel;
    (destruct iterations as [|it]; [lia|]); simpl.
  - pose proof (Hmaps (mirror_num st) (bytenr st) (size_left st)) as Hmap.
    destruct (btrfs_map_block dev (mirror_num st) (bytenr st) (size_left st))
      as [[[mret mlen] dev_fd] dev_bytenr]. simpl in Hmap. subst mret.
    simpl.
    set (length := if size_left st <? mlen then size_left st else mlen).
    pose proof (Hfail dev_fd length dev_bytenr) as Hshort.
    destruct (pread dev dev_fd length dev_bytenr) as [done data].
    simpl in Hshort.
    replace ((done <? 0) || (done <? length)) with true
      by (symmetry; apply orb_true_iff; rewrite !Z.ltb_lt; done).
    rewrite Hcopies.
    destruct (Z.ltb_spec copies (mirror_num st + 1)); [|lia].
    eexists. split; [reflexivity|]. split; [|by repeat constructor].
    rewrite seqZ_cons by lia. simpl. done.
  - pose proof (Hmaps (mirror_num st) (bytenr st) (size_left st)) as Hmap.
    destruct (btrfs_map_block dev (mirror_num st) (bytenr st) (size_left st))
      as [[[mret mlen] dev_fd] dev_bytenr]. simpl in Hmap. subst mret.
    simpl.
    set (length := if size_left st <? mlen then size_left st else mlen).
    pose proof (Hfail dev_fd length dev_bytenr) as Hshort.
    destruct (pread dev dev_fd length dev_bytenr) as [done data].
    simpl in Hshort.
    replace ((done <? 0) || (done <? length)) with true
      by (symmetry; apply orb_true_iff; rewrite !Z.ltb_lt; done).
    rewrite Hcopies.
    destruct (Z.ltb_spec copies (mirror_num st + 1)); [lia|].
    destruct (IH it
                {| mirror_num := mirror_num st + 1; size_left := size_left st;
                   count := count st; bytenr := bytenr st;
                   inbuf := store_at (inbuf st) (count st) data;
                   attempts :=
                     attempts st ++
                     [{| mirror := mirror_num st; logical := bytenr st;
                         len := length |}] |})
      as (more & Hrun & Hmirrors & Hlogical); simpl; [lia|lia|lia|].
    eexists. split.
    { rewrite Hrun. simpl. rewrite <- app_assoc. reflexivity. }
    simpl in *. split.
    + rewrite (seqZ_cons (mirror_num st)) by lia. simpl. f_equal.
      etransitivity; [exact Hmirrors|]. f_equal; lia.
    + constructor; done.
Qed.

(** X16.  When no read can be completed, [copy_one_extent] tries every
    mirror once, in order, and gives up.  On devices where every block has
    [copies] mirrors, the chunk mapping succeeds and every read comes back
    short or fails, a call for an extent that is not a hole returns -1
    after one read per mirror from 1 up to [copies] (one read on mirror 1
    when [copies] is less than 1), all at the first block of the extent;
    [copies] turns of the loop are enough for it. *)
Theorem copy_one_extent_tries_every_mirror (iterations : nat)
    (dev : devices) (fd : Z) (fi : file_extent) (pos copies : Z) :
  has_copies dev copies → maps dev → reads_fail dev →
  disk_num_bytes fi ≠ 0 →
  (Z.to_nat (Z.max 1 copies) ≤ iterations)%nat →
  ∃ tried,
    copy_one_extent iterations dev fd fi pos = Some (-1, tried) ∧
    mirror <$> tried = seqZ 1 (Z.max 1 copies) ∧
    Forall (λ a, logical a = disk_bytenr fi) tried.
Proof.
  intros Hcopies Hmaps Hfail Hsize Hfuel. unfold copy_one_extent.
  destruct (Z.eqb_spec (disk_num_bytes fi) 0); [done|].
  destruct (copy_from_again_short_reads dev fd fi pos copies Hcopies Hmaps
              Hfail (Z.to_nat (Z.max 1 copies - 1)) iterations
              {| mirror_num := 1; size_left := disk_num_bytes fi; count := 0;
                 bytenr := disk_bytenr fi;
                 inbuf := replicate (Z.to_nat (disk_num_bytes fi)) 0;
                 attempts := [] |})
    as (more & Hrun & Hmirrors & Hlogical); simpl; [lia|lia|lia|].
  exists more. split; [done|]. split; [|done].
  rewrite Hmirrors. f_equal. lia.
Qed.

Lemma copy_one_extent_tries_every_mirror_witness :
  ∃ tried,
    copy_one_extent 3 (failing 3) 5 packed_extent 0 = Some (-1, tried) ∧
    mirror <$> tried = seqZ 1 (Z.max 1 3) ∧
    Forall (λ a, logical a = disk_bytenr packed_extent) tried.
Proof.
  apply (copy_one_extent_tries_every_mirror 3 (failing 3) 5 packed_extent
           0 3).
  - intros logical length. reflexivity.
  - intros mirror_num logical length. reflexivity.
  - intros dev_fd length offset. left. simpl. lia.
  - discriminate.
  - simpl. lia.
Defined.

Lemma write_out_healthy dev fd buf ram_size pos iterations :
  healthy dev → (2 ≤ iterations)%nat →
  write_out iterations dev fd buf ram_size pos 0 = Some 0.
Proof.
  intros (_ & _ & Hwrite) Hfuel.
  destruct iterations as [|[|it]]; try lia. simpl.
  destruct (Z.ltb_spec 0 ram_size) as [Hpos|]; [|done].
  rewrite Hwrite. destruct (Z.ltb_spec (ram_size - 0) 0); [lia|].
  destruct (Z.ltb_spec (0 + (ram_size - 0)) ram_size); [lia|done].
Qed.

Lemma copy_from_again_healthy dev fd fi pos :
  healthy dev → compression fi = BTRFS_COMPRESS_NONE →
  ∀ (n : nat) (iterations : nat) st,
    0 < size_left st ≤ Z.of_nat n →
    (n + 2 ≤ iterations)%nat →
    0 ≤ bytenr st → bytenr st + size_left st < 2 ^ 64 →
    mirror_num st = 1 →
    ∃ more,
      copy_from_again iterations dev fd fi pos st =
        Some (0, attempts st ++ more) ∧
      Forall (λ a, mirror a = 1) more ∧
      covers (bytenr st) (bytenr st + size_left st) more.
Proof.
  intros Hdev Hplain. pose proof Hdev as (Hmap & Hread & _).
  induction n as [|n IH]; intros iterations st Hsize Hfuel Hstart Hend Hm;
    [lia|].
  destruct iterations as [|it]; [lia|]. simpl.
  destruct (Hmap (mirror_num st) (bytenr st) (size_left st)) as [Hret Hlen];
    [lia|].
  destruct (btrfs_map_block dev (mirror_num st) (bytenr st) (size_left st))
    as [[[mret mlen] dev_fd] dev_bytenr]. simpl in Hret, Hlen. subst mret.
  simpl.
  set (length := if size_left st <? mlen then size_left st else mlen).
  assert (0 < length ≤ size_left st) as Hlength.
  { unfold length. destruct (Z.ltb_spec (size_left st) mlen); lia. }
  pose proof (Hread dev_fd length dev_bytenr) as Hdone.
  destruct (pread dev dev_fd length dev_bytenr) as [done data].
  simpl in Hdone. subst done.
  destruct (Z.ltb_spec length 0); [lia|].
  rewrite Z.ltb_irrefl. simpl.
  assert (wrap64 (size_left st - length) = size_left st - length) as ->
    by (apply Z.mod_small; lia).
  assert (wrap64 (bytenr st + length) = bytenr st + length) as Hb
    by (apply Z.mod_small; lia).
  rewrite Hm.
  destruct (Z.eqb_spec (size_left st - length) 0) as [Hlast|Hmore]; simpl.
  - rewrite Hplain. simpl.
    rewrite write_out_healthy by (done || lia). simpl.
    eexists. split; [reflexivity|]. split; [by repeat constructor|].
    simpl. split; [done|]. split; [lia|lia].
  - rewrite Hb.
    destruct (IH it
                {| mirror_num := 1; size_left := size_left st - length;
                   count := wrap64 (count st + length);
                   bytenr := bytenr st + length;
                   inbuf := store_at (inbuf st) (count st) data;
                   attempts :=
                     attempts st ++
                     [{| mirror := 1; logical := bytenr st; len := length |}]
                |})
      as (more & Hrun & Hmirror & Hcovers); simpl;
      [lia|lia|lia|lia|done|].
    simpl in Hrun, Hcovers.
    eexists. split.
    { rewrite Hrun. simpl. rewrite <- app_assoc. reflexivity. }
    split; [constructor; done|].
    simpl. split; [done|]. split; [lia|].
    replace (bytenr st + size_left st)
      with (bytenr st + length + (size_left st - length)) by lia.
    done.
Qed.

(** X25.  When nothing goes wrong, [copy_one_extent] reads the extent
    once and writes it out.  On devices where every request maps to a
    stripe of at least one byte and every read and write is complete, a
    call for an extent that is not compressed, not a hole and does not pass
    the end of the 64 bit address space returns 0; all its reads are made
    on mirror 1, and together they cover the bytes of the extent from
    [disk_bytenr] to [disk_bytenr + disk_num_bytes] once, in order.  One
    turn of the loop per byte of the extent and two more are enough for
    it. *)
Theorem copy_one_extent_reads_once (iterations : nat) (dev : devices)
    (fd : Z) (fi : file_extent) (pos : Z) :
  healthy dev → compression fi = BTRFS_COMPRESS_NONE →
  0 < disk_num_bytes fi → 0 ≤ disk_bytenr fi →
  disk_bytenr fi + disk_num_bytes fi < 2 ^ 64 →
  (Z.to_nat (disk_num_bytes fi) + 2 ≤ iterations)%nat →
  ∃ tried,
    copy_one_extent iterations dev fd fi pos = Some (0, tried) ∧
    Forall (λ a, mirror a = 1) tried ∧
    covers (disk_bytenr fi) (disk_bytenr fi + disk_num_bytes fi) tried.
Proof.
  intros Hdev Hplain Hsize Hstart Hend Hfuel. unfold copy_one_extent.
  destruct (Z.eqb_spec (disk_num_bytes fi) 0); [lia|].
  destruct (copy_from_again_healthy dev fd fi pos Hdev Hplain
              (Z.to_nat (disk_num_bytes fi)) iterations
              {| mirror_num := 1; size_left := disk_num_bytes fi; count := 0;
                 bytenr := disk_bytenr fi;
                 inbuf := replicate (Z.to_nat (disk_num_bytes fi)) 0;
                 attempts := [] |})
    as (more & Hrun & Hmirror & Hcovers); simpl; try done; try lia.
  exists more. done.
Qed.

Lemma copy_one_extent_reads_once_witness :
  ∃ tried,
    copy_one_extent 10 (garbled 2) 5 plain_extent 0 = Some (0, tried) ∧
    Forall (λ a, mirror a = 1) tried ∧
    covers (disk_bytenr plain_extent)
      (disk_bytenr plain_extent + disk_num_bytes plain_extent) tried.
Proof.
  apply (copy_one_extent_reads_once 10 (garbled 2) 5 plain_extent 0).
  - split; [|split].
    + intros mirror_num logical length Hpos. simpl. split; [reflexivity|lia].
    + intros dev_fd length offset. reflexivity.
    + intros fd0 buf count0 offset. reflexivity.
  - reflexivity.
  - simpl. lia.
  - simpl. lia.
  - simpl. lia.
  - simpl. lia.
Defined.

Lemma ask_again_decides stdin :
  ask_again stdin =
    match list_find (λ c, decisive c = true) stdin with
    | Some (i, c) =>
        (Some (answer c, drop (S i) stdin), replicate i ev_prompt_again)
    | None => (None, replicate (length stdin) ev_prompt_again)
    end.
Proof.
  induction stdin as [|c stdin IH]; [reflexivity|].
  simpl. unfold decisive, answer in *.
  destruct ((c =? 10) || (tolower c =? 110)) eqn:Hno; simpl.
  - destruct (Z.eqb_spec (tolower c) 121) as [Hy|]; [|done].
    exfalso. rewrite Hy in Hno. simpl in Hno. rewrite orb_false_r in Hno.
    apply Z.eqb_eq in Hno. subst c. discriminate Hy.
  - destruct (tolower c =? 121) eqn:Hyes; simpl; rewrite ?Hyes; [done|].
    rewrite IH.
    destruct (list_find _ stdin) as [[i c']|]; done.
Qed.

(** X17.  The dialogue of [ask_to_continue].  It prints the question,
    then reads the input one character at a time up to the first newline,
    [n], [N], [y] or [Y], printing the request to answer with y or n once
    for every other character before it; it returns 0 for [y] and [Y], and
    1 for [n], [N] and the newline (an empty answer means stop), and
    leaves the rest of the input unread.  On an input without such a
    character it has no return value. *)
Theorem ask_to_continue_decides (stdin : list Z) :
  ask_to_continue stdin =
    match list_find (λ c, decisive c = true) stdin with
    | Some (i, c) =>
        (Some (answer c, drop (S i) stdin),
         ev_prompt :: replicate i ev_prompt_again)
    | None => (None, ev_prompt :: replicate (length stdin) ev_prompt_again)
    end.
Proof.
  unfold ask_to_continue. rewrite ask_again_decides.
  destruct (list_find _ stdin) as [[i c]|]; done.
Qed.

End RestoreFacts.

(** ** The free space cache against the extent tree *)

Section SpaceCacheMoreFacts.
Import Ctree SpaceCache SpaceCacheSpec SpaceCacheMoreSpec.

Lemma last_gap_from last end_ bound :
  bound ≤ last → Forall (λ e, bound ≤ fs_offset e) (last_gap last end_).
Proof.
  intros Hle. unfold last_gap. destruct (last <? end_); repeat constructor.
  done.
Qed.

Lemma free_gaps_from leafsize end_ items :
  ∀ last, extents_from leafsize last end_ items →
  Forall (λ e, last ≤ fs_offset e) (free_gaps leafsize last end_ items).
Proof.
  induction items as [|key items IH]; intros last Hext; simpl in *.
  - apply last_gap_from. lia.
  - destruct (end_ <=? objectid key); [apply last_gap_from; lia|].
    destruct (is_extent key); [|by apply IH].
    destruct Hext as (Hstart & Hlen & _ & _ & Hrest).
    assert (Forall (λ e, last ≤ fs_offset e)
              (free_gaps leafsize (objectid key + extent_bytes leafsize key)
                 end_ items)) as Htail.
    { eapply Forall_impl; [apply IH; done|].
      intros e He. simpl in He. lia. }
    destruct (last =? objectid key); [done|].
    constructor; [simpl; lia|done].
Qed.

Lemma unlink_free_space_absent ctl entry :
  Forall (λ e, e ≠ entry) ctl → unlink_free_space ctl entry = ctl.
Proof.
  unfold unlink_free_space. induction 1 as [|e l He _ IH]; [done|].
  rewrite filter_cons_True by done. by rewrite IH.
Qed.

Lemma mirror_loop_no_stripes recur rmap_block cache mirrors ctl offset bytes :
  no_stripes rmap_block →
  mirror_loop recur rmap_block cache mirrors ctl offset bytes =
    Some (inr (ctl, offset, bytes)).
Proof.
  intros Hnone. induction mirrors as [|i mirrors IH]; simpl; [done|].
  destruct (Hnone (key_objectid cache) (btrfs_sb_offset i)) as [s ->].
  simpl. exact IH.
Qed.

(** [check_cache_range] on a block group without superblock mirrors, for a
    range that is the first entry of the cache. *)
Lemma check_cache_range_first depth rmap_block cache ctl offset bytes :
  no_stripes rmap_block → 0 < bytes < 2 ^ 64 →
  Forall (λ e, offset < fs_offset e) ctl →
  check_cache_range (S depth) rmap_block cache
    ({| fs_offset := offset; fs_bytes := bytes |} :: ctl) offset bytes =
    Some (0, ctl).
Proof.
  intros Hnone Hbytes Hctl.
  cbn [check_cache_range]. rewrite mirror_loop_no_stripes by done.
  cbn [mbind option_bind].
  unfold btrfs_find_free_space. simpl.
  rewrite decide_True by (simpl; lia). simpl.
  rewrite !Z.eqb_refl. simpl.
  unfold unlink_free_space at 1.
  rewrite filter_cons_False by (intros H; by apply H).
  f_equal. f_equal. apply unlink_free_space_absent.
  eapply Forall_impl; [exact Hctl|]. intros e He ->. simpl in He. lia.
Qed.

Lemma extents_end_from leafsize end_ items :
  ∀ last, extents_from leafsize last end_ items →
  last ≤ extents_end leafsize last end_ items.
Proof.
  induction items as [|key items IH]; intros last Hext; simpl in *; [lia|].
  destruct (end_ <=? objectid key); [lia|].
  destruct (is_extent key); [|by apply IH].
  destruct Hext as (Hstart & Hlen & _ & _ & Hrest).
  specialize (IH _ Hrest). lia.
Qed.

Lemma sweep_exact depth rmap_block leafsize cache next_leaf :
  no_stripes rmap_block → 0 ≤ next_leaf →
  0 ≤ key_offset cache + key_objectid cache < 2 ^ 64 →
  ∀ items last,
    0 ≤ last →
    extents_from leafsize last (key_offset cache + key_objectid cache)
      items →
    sweep (S depth) rmap_block leafsize cache items next_leaf
      (free_gaps leafsize last (key_offset cache + key_objectid cache) items)
      last =
      Some (inr (0,
                 extents_end leafsize last
                   (key_offset cache + key_objectid cache) items,
                 last_gap
                   (extents_end leafsize last
                      (key_offset cache + key_objectid cache) items)
                   (key_offset cache + key_objectid cache))).
Proof.
  intros Hnone Hnext Hend.
  assert (wrap64 (key_offset cache + key_objectid cache) =
          key_offset cache + key_objectid cache) as Hwend
    by (apply Z.mod_small; done).
  set (end_ := key_offset cache + key_objectid cache) in *.
  intros keys. induction keys as [|key keys IH]; intros last Hlast Hext.
  - simpl. destruct (Z.ltb_spec next_leaf 0); [lia|]. done.
  - cbn [sweep extents_end free_gaps extents_from] in *. fold end_.
    rewrite Hwend.
    destruct (Z.leb_spec end_ (objectid key)); [done|].
    unfold is_extent, extent_bytes in *.
    destruct (Z.eqb_spec (type key) BTRFS_EXTENT_ITEM_KEY) as [Hty|Hty];
      cbn [negb andb orb] in *.
    + (* an extent item *)
      destruct Hext as (Hstart & Hlen & Hfit & _ & Hrest).
      assert (wrap64 (objectid key + offset key) = objectid key + offset key)
        as Hwrap by (apply Z.mod_small; lia).
      rewrite Hwrap.
      destruct (Z.eqb_spec last (objectid key)) as [Heq|Hne].
      * apply IH; [lia|done].
      * assert (wrap64 (objectid key - last) = objectid key - last) as ->
          by (apply Z.mod_small; lia).
        rewrite check_cache_range_first; [|done|lia|].
        -- cbn [mbind option_bind]. simpl (negb (0 =? 0)). cbv iota.
           apply IH; [lia|done].
        -- eapply Forall_impl; [apply free_gaps_from; done|].
           intros e He. simpl in He. lia.
    + destruct (Z.eqb_spec (type key) BTRFS_METADATA_ITEM_KEY) as [Htm|Htm];
        cbn [negb andb orb] in *.
      * (* a metadata item, which does not start at [last] *)
        destruct Hext as (Hstart & Hlen & Hfit & Hapart & Hrest).
        specialize (Hapart Htm).
        destruct (Z.eqb_spec last (objectid key)) as [Heq|_]; [done|].
        assert (wrap64 (objectid key - last) = objectid key - last) as ->
          by (apply Z.mod_small; lia).
        assert (wrap64 (objectid key + leafsize) = objectid key + leafsize)
          as Hwrap by (apply Z.mod_small; lia).
        rewrite Hwrap.
        rewrite check_cache_range_first; [|done|lia|].
        -- cbn [mbind option_bind]. simpl (negb (0 =? 0)). cbv iota.
           apply IH; [lia|done].
        -- eapply Forall_impl; [apply free_gaps_from; done|].
           intros e He. simpl in He. lia.
      * (* an item of another type *)
        apply IH; done.
Qed.

(** X18.  [verify_space_cache] accepts the cache that matches the extent
    tree.  Take a block group that holds no superblock mirror and the items
    of the extent tree from the position of the search on, of whatever
    types: up to the first item at or after the end of the block group, the
    extent items and metadata items come in the order of their start and do
    not overlap (an extent item covers its key offset, a metadata item one
    tree block), and no metadata item starts exactly where the extent
    before it ended; block group items, back references and other items
    may stand anywhere between them.  For the cache that has exactly one
    entry for every gap between these extents (from the start of the block
    group, or 64 KiB, up to its end), the function returns 0 and has
    emptied the cache. *)
Theorem verify_space_cache_accepts_exact_cache (depth : nat)
    (rmap_block : rmap) (leafsize : Z) (cache : btrfs_block_group_cache)
    (search_ret : Z) (items : list btrfs_key) (next_leaf : Z) :
  no_stripes rmap_block → 0 ≤ search_ret → 0 ≤ next_leaf →
  0 ≤ key_objectid cache → 0 ≤ key_offset cache →
  key_objectid cache + key_offset cache < 2 ^ 64 →
  extents_from leafsize
    (Z.max (key_objectid cache) BTRFS_SUPER_INFO_OFFSET)
    (key_objectid cache + key_offset cache) items →
  verify_space_cache (S depth) rmap_block leafsize cache search_ret items
    next_leaf
    (free_gaps leafsize (Z.max (key_objectid cache) BTRFS_SUPER_INFO_OFFSET)
       (key_objectid cache + key_offset cache) items) = Some (0, []).
Proof.
  intros Hnone Hsearch Hnext Hstart Hlen Hend Hext.
  unfold verify_space_cache.
  destruct (Z.ltb_spec search_ret 0); [lia|].
  set (last := Z.max (key_objectid cache) BTRFS_SUPER_INFO_OFFSET) in *.
  assert (wrap64 (key_objectid cache + key_offset cache) =
          key_offset cache + key_objectid cache) as ->
    by (rewrite Z.add_comm; apply Z.mod_small; lia).
  replace (key_objectid cache + key_offset cache)
    with (key_offset cache + key_objectid cache) in * by lia.
  rewrite sweep_exact by (done || lia).
  cbn [mbind option_bind].
  pose proof (extents_end_from _ _ _ _ Hext) as Hle.
  set (fl := extents_end leafsize last _ items) in *.
  unfold last_gap.
  destruct (Z.ltb_spec fl (key_offset cache + key_objectid cache)).
  - assert (wrap64 (key_offset cache + key_objectid cache - fl) =
            key_offset cache + key_objectid cache - fl) as ->
      by (apply Z.mod_small; lia).
    rewrite check_cache_range_first; [done|done|lia|constructor].
  - done.
Qed.

Lemma verify_space_cache_accepts_exact_cache_witness :
  verify_space_cache 1 no_supers 16384 group_1g 1 busy_items 1
    (free_gaps 16384 (Z.max (key_objectid group_1g) BTRFS_SUPER_INFO_OFFSET)
       (key_objectid group_1g + key_offset group_1g) busy_items) =
    Some (0, []).
Proof.
  apply (verify_space_cache_accepts_exact_cache 0 no_supers 16384 group_1g 1
           busy_items 1).
  - intros chunk_start physical. exists 65536. reflexivity.
  - lia.
  - lia.
  - simpl. lia.
  - simpl. lia.
  - simpl. lia.
  - simpl. unfold BTRFS_EXTENT_ITEM_KEY, BTRFS_METADATA_ITEM_KEY,
      BTRFS_SUPER_INFO_OFFSET.
    repeat split; (lia || discriminate || done).
Defined.

Lemma stripe_loop_keeps recur logical stripe_len :
  (∀ ctl offset bytes ret ctl',
     recur ctl offset bytes = Some (ret, ctl') → ctl' `sublist_of` ctl) →
  ∀ ctl offset bytes r,
    stripe_loop recur logical stripe_len ctl offset bytes = Some r →
    match r with
    | inl (_, ctl') => ctl' `sublist_of` ctl
    | inr (ctl', _, _) => ctl' `sublist_of` ctl
    end.
Proof.
  intros Hrecur. induction logical as [|l logical IH];
    intros ctl offset bytes r; simpl.
  - intros [= <-]. done.
  - destruct (wrap64 (l + stripe_len) <=? offset); [apply IH|].
    destruct (wrap64 (offset + bytes) <=? l); [apply IH|].
    destruct (l =? offset).
    { destruct (bytes <=? wrap64 stripe_len); [intros [= <-]; done|apply IH]. }
    destruct (l <? offset).
    { destruct (wrap64 (offset + bytes) <=? wrap64 (l + stripe_len));
        [intros [= <-]; done|apply IH]. }
    destruct (wrap64 (bytes + offset) <=? wrap64 (l + stripe_len));
      [apply IH|].
    destruct (recur ctl offset _) as [[ret ctl']|] eqn:Hr; simpl;
      [|discriminate].
    apply Hrecur in Hr.
    destruct (negb (ret =? 0)); [intros [= <-]; done|].
    intros Hrun. apply IH in Hrun.
    destruct r as [[? ?]|[[? ?] ?]]; by etransitivity.
Qed.

Lemma mirror_loop_keeps recur rmap_block cache mirrors :
  (∀ ctl offset bytes ret ctl',
     recur ctl offset bytes = Some (ret, ctl') → ctl' `sublist_of` ctl) →
  ∀ ctl offset bytes r,
    mirror_loop recur rmap_block cache mirrors ctl offset bytes = Some r →
    match r with
    | inl (_, ctl') => ctl' `sublist_of` ctl
    | inr (ctl', _, _) => ctl' `sublist_of` ctl
    end.
Proof.
  intros Hrecur. induction mirrors as [|i mirrors IH];
    intros ctl offset bytes r; simpl.
  - intros [= <-]. done.
  - destruct (rmap_block _ _) as [[ret logical] stripe_len].
    destruct (negb (ret =? 0)); [intros [= <-]; done|].
    destruct (stripe_loop recur (reverse logical) stripe_len ctl offset bytes)
      as [r'|] eqn:Hstripe; simpl; [|discriminate].
    apply (stripe_loop_keeps recur _ _ Hrecur) in Hstripe.
    destruct r' as [[ret' ctl']|[[ctl' offset'] bytes']].
    + intros [= <-]. done.
    + intros Hrun. apply IH in Hrun.
      destruct r as [[? ?]|[[? ?] ?]]; by etransitivity.
Qed.

Lemma check_cache_range_keeps rmap_block cache :
  ∀ depth ctl offset bytes ret ctl',
    check_cache_range depth rmap_block cache ctl offset bytes =
      Some (ret, ctl') →
    ctl' `sublist_of` ctl.
Proof.
  induction depth as [|depth IH]; intros ctl offset bytes ret ctl';
    [discriminate|].
  cbn [check_cache_range].
  destruct (mirror_loop (check_cache_range depth rmap_block cache)
              rmap_block cache (seqZ 0 BTRFS_SUPER_MIRROR_MAX) ctl offset
              bytes) as [r|] eqn:Hmirror; simpl; [|discriminate].
  apply (mirror_loop_keeps _ _ _ _ IH) in Hmirror.
  destruct r as [[ret' c]|[[c offset'] bytes']].
  - intros [= <- <-]. done.
  - destruct (btrfs_find_free_space c offset' bytes') as [entry|];
      [|intros [= <- <-]; done].
    repeat case_match; intros [= <- <-]; try done.
    etransitivity; [apply sublist_filter|done].
Qed.

Lemma sweep_keeps depth rmap_block leafsize cache next_leaf items :
  ∀ ctl last r,
    sweep depth rmap_block leafsize cache items next_leaf ctl last = Some r →
    match r with
    | inl (_, ctl') => ctl' `sublist_of` ctl
    | inr (_, _, ctl') => ctl' `sublist_of` ctl
    end.
Proof.
  induction items as [|key items IH]; intros ctl last r; simpl.
  - destruct (next_leaf <? 0); intros [= <-]; done.
  - destruct (wrap64 (key_offset cache + key_objectid cache) <=?
              objectid key); [intros [= <-]; done|].
    destruct (negb (type key =? BTRFS_EXTENT_ITEM_KEY) &&
              negb (type key =? BTRFS_METADATA_ITEM_KEY)); [apply IH|].
    destruct (last =? objectid key); [apply IH|].
    destruct (check_cache_range depth rmap_block cache ctl last _)
      as [[ret c]|] eqn:Hcheck; simpl; [|discriminate].
    apply check_cache_range_keeps in Hcheck.
    destruct (negb (ret =? 0)); [intros [= <-]; done|].
    intros Hrun. apply IH in Hrun.
    destruct r as [[? ?]|[[? ?] ?]]; by etransitivity.
Qed.

(** X19.  What [verify_space_cache] does to the cache, on any input: it
    only unlinks entries (the cache after the call is what is left of the
    entries it was given, in their order), and when it returns 0 none is
    left. *)
Theorem verify_space_cache_only_unlinks (depth : nat) (rmap_block : rmap)
    (leafsize : Z) (cache : btrfs_block_group_cache) (search_ret : Z)
    (items : list btrfs_key) (next_leaf : Z)
    (ctl : list btrfs_free_space) (ret : Z) (ctl' : list btrfs_free_space) :
  verify_space_cache depth rmap_block leafsize cache search_ret items
    next_leaf ctl = Some (ret, ctl') →
  ctl' `sublist_of` ctl ∧ (ret = 0 → ctl' = []).
Proof.
  intros Hrun. split.
  - revert Hrun. unfold verify_space_cache.
    destruct (search_ret <? 0); [intros [= <- <-]; done|].
    destruct (sweep depth rmap_block leafsize cache items next_leaf ctl _)
      as [r|] eqn:Hsweep; simpl; [|discriminate].
    apply sweep_keeps in Hsweep.
    destruct r as [[ret' c]|[[ret' last] c]]; [intros [= <- <-]; done|].
    destruct (last <? wrap64 (key_objectid cache + key_offset cache)).
    + destruct (check_cache_range depth rmap_block cache c last _)
        as [[ret'' c']|] eqn:Hcheck; simpl; [|discriminate].
      apply check_cache_range_keeps in Hcheck.
      destruct ((ret'' =? 0) && negb (bool_decide (c' = [])));
        intros [= <- <-]; by etransitivity.
    + simpl. destruct ((ret' =? 0) && negb (bool_decide (c = [])));
        intros [= <- <-]; done.
  - intros ->. by eapply verify_space_cache_zero_empty.
Qed.

Lemma verify_space_cache_only_unlinks_witness :
  ∃ ret ctl',
    verify_space_cache 1 no_supers 4096 group_1g 1 one_extent 1 stale_cache =
      Some (ret, ctl') ∧
    ctl' `sublist_of` stale_cache ∧ (ret = 0 → ctl' = []).
Proof.
  eexists _, _. split; [vm_compute; reflexivity|].
  apply (verify_space_cache_only_unlinks 1 no_supers 4096 group_1g 1
           one_extent 1 stale_cache 0 []).
  vm_compute. reflexivity.
Defined.

(** X20.  Superblock mirrors are left out of the comparison: when the
    first superblock mirror has one stripe in the block group, the stripe
    does not pass the end of the 64 bit address space, and the range asked
    for lies inside that stripe, [check_cache_range] returns 0 without
    looking at the cache, which it leaves as it is - whether or not the
    cache has an entry for the range. *)
Theorem check_cache_range_inside_super (depth : nat) (rmap_block : rmap)
    (cache : btrfs_block_group_cache) (ctl : list btrfs_free_space)
    (offset bytes logical stripe_len : Z) :
  rmap_block (key_objectid cache) (btrfs_sb_offset 0) =
    (0, [logical], stripe_len) →
  0 ≤ logical → logical + stripe_len < 2 ^ 64 →
  0 < bytes → logical ≤ offset → offset + bytes ≤ logical + stripe_len →
  check_cache_range (S depth) rmap_block cache ctl offset bytes =
    Some (0, ctl).
Proof.
  intros Hrmap Hlogical Hfit Hbytes Hlow Hhigh.
  cbn [check_cache_range].
  change (seqZ 0 BTRFS_SUPER_MIRROR_MAX) with [0; 1; 2].
  cbn [mirror_loop]. rewrite Hrmap. simpl (negb (0 =? 0)). cbv iota.
  change (reverse [logical]) with [logical]. cbn [stripe_loop].
  assert (wrap64 (logical + stripe_len) = logical + stripe_len) as ->
    by (apply Z.mod_small; lia).
  assert (wrap64 (offset + bytes) = offset + bytes) as ->
    by (apply Z.mod_small; lia).
  assert (wrap64 stripe_len = stripe_len) as ->
    by (apply Z.mod_small; lia).
  destruct (Z.leb_spec (logical + stripe_len) offset); [lia|].
  destruct (Z.leb_spec (offset + bytes) logical); [lia|].
  destruct (Z.eqb_spec logical offset) as [->|Hne].
  - destruct (Z.leb_spec bytes stripe_len); [done|lia].
  - destruct (Z.ltb_spec logical offset); [|lia].
    destruct (Z.leb_spec (offset + bytes) (logical + stripe_len)); [done|lia].
Qed.

Lemma check_cache_range_inside_super_witness :
  check_cache_range 1 (one_stripe 1073741824 65536) group_1g stale_cache
    1073745920 4096 = Some (0, stale_cache).
Proof.
  apply (check_cache_range_inside_super 0 (one_stripe 1073741824 65536)
           group_1g stale_cache 1073745920 4096 1073741824 65536);
    [reflexivity|lia|lia|lia|lia|lia].
Defined.

End SpaceCacheMoreFacts.

(** ** Inode records: names and links *)

Section InodeNameFacts.
Import Inode InodeSpec InodeMoreSpec.

Lemma prune_backrefs_names filetype l :
  (backref_name <$> prune_backrefs filetype l) `sublist_of`
  (backref_name <$> l).
Proof.
  induction l as [|b l IH]; simpl; [done|].
  destruct (Ref.found_dir_item b && Ref.found_dir_index b); simpl.
  - destruct ((_ =? 0) && Ref.found_inode_ref _); simpl.
    + by apply sublist_cons.
    + by apply sublist_skip.
  - by apply sublist_skip.
Qed.

Lemma maybe_free_inode_rec_names inode_cache rec inode_cache' o :
  cache_names_unique inode_cache → names_unique rec →
  maybe_free_inode_rec inode_cache rec = Some (inode_cache', o) →
  cache_names_unique inode_cache'.
Proof.
  intros Hcache Hrec. unfold maybe_free_inode_rec.
  assert (∀ k r, names_unique r →
                 cache_names_unique (<[k := r]> inode_cache)) as Hput.
  { intros k r Hr i r' Hi.
    destruct (decide (i = k)) as [->|Hne].
    - rewrite lookup_insert_eq in Hi. by injection Hi as <-.
    - rewrite lookup_insert_ne in Hi by done. by eapply Hcache. }
  destruct (negb (found_inode_item rec)).
  { intros [= <- _]. by apply Hput. }
  set (rec1 := set_backrefs _ rec).
  assert (names_unique rec1) as Hrec1.
  { unfold names_unique, rec1. simpl.
    eapply sublist_NoDup; [exact Hrec|apply prune_backrefs_names]. }
  destruct (negb (checked rec1) || merging rec1).
  { intros [= <- _]. by apply Hput. }
  assert (names_unique (check_inode_rec rec1)) as Hrec2.
  { unfold names_unique.
    destruct (check_inode_rec_fields rec1) as [-> _]. done. }
  destruct (negb (refs (check_inode_rec rec1) =? 1)); [discriminate|].
  destruct (can_free_inode_rec (check_inode_rec rec1) =? 1).
  - destruct (inode_cache !! ino (check_inode_rec rec1)); [|discriminate].
    intros [= <- _] j r' Hj.
    apply lookup_delete_Some in Hj as [_ Hj]. by eapply Hcache.
  - intros [= <- _]. by apply Hput.
Qed.

(** X21.  [add_inode_backref] keeps one back reference per name: when no
    record of the cache has two back references with the same directory
    and name, and the length of the name reported is that of a [u16]
    (between 0 and 65535, as the field that keeps it), the same holds of
    the cache after the call, whatever item is reported and whether the
    record is new, copied, changed, or removed because it is complete. *)
Theorem add_inode_backref_names_unique (inode_cache : gmap Z inode_record)
    (ino dir index : Z) (name : list Z) (namelen filetype itemtype errs : Z)
    (inode_cache' : gmap Z inode_record) :
  0 ≤ namelen < 2 ^ 16 →
  cache_names_unique inode_cache →
  add_inode_backref inode_cache ino dir index name namelen filetype itemtype
    errs = Some inode_cache' →
  cache_names_unique inode_cache'.
Proof.
  intros Hlen Hcache. unfold add_inode_backref.
  destruct (get_inode_rec inode_cache ino 1) as [cache1 found] eqn:Hget.
  assert (cache_names_unique cache1 ∧
          ∀ rec, found = Some rec → names_unique rec) as [Hcache1 Hfound].
  { revert Hget. unfold get_inode_rec.
    destruct (inode_cache !! ino) as [rec|] eqn:Hrec; simpl.
    - pose proof (Hcache _ _ Hrec) as Hu.
      destruct (1 <? refs rec); intros [= <- <-].
      + split; [|intros r [= <-]; done].
        intros i r Hi. destruct (decide (i = ino)) as [->|Hne].
        * rewrite lookup_insert_eq in Hi. by injection Hi as <-.
        * rewrite lookup_insert_ne in Hi by done. by eapply Hcache.
      + split; [done|]. intros r [= <-]. done.
    - intros [= <- <-]. split; [|intros r [= <-]; apply NoDup_nil_2].
      intros i r Hi. destruct (decide (i = ino)) as [->|Hne].
      + rewrite lookup_insert_eq in Hi. injection Hi as <-. apply NoDup_nil_2.
      + rewrite lookup_insert_ne in Hi by done. by eapply Hcache. }
  destruct found as [rec|]; simpl; [|discriminate].
  destruct ((itemtype =? BTRFS_DIR_INDEX_KEY) ||
            (itemtype =? BTRFS_DIR_ITEM_KEY) ||
            (itemtype =? BTRFS_INODE_REF_KEY) ||
            (itemtype =? BTRFS_INODE_EXTREF_KEY)); [|discriminate].
  set (rec1 := if itemtype =? BTRFS_DIR_ITEM_KEY then _ else _).
  assert (names_unique rec1) as Hrec1.
  { assert (names_unique
              (set_backrefs
                 (get_inode_backref (note_item index filetype itemtype errs)
                    name namelen dir (backrefs rec)) rec)) as Hu.
    { unfold names_unique. simpl.
      apply get_inode_backref_names;
        [done|apply note_item_name|by apply Hfound]. }
    unfold rec1. destruct (itemtype =? BTRFS_DIR_ITEM_KEY); done. }
  destruct (maybe_free_inode_rec cache1 rec1) as [[cache2 o]|] eqn:Hfree;
    simpl; [|discriminate].
  intros [= <-]. by eapply maybe_free_inode_rec_names.
Qed.

Lemma add_inode_backref_names_unique_witness :
  cache_names_unique {[ 257 := dir_side ]} ∧
  ∃ inode_cache',
    add_inode_backref {[ 257 := dir_side ]} 257 256 2 name_a 1 0
      BTRFS_INODE_REF_KEY 0 = Some inode_cache' ∧
    cache_names_unique inode_cache'.
Proof.
  assert (cache_names_unique {[ 257 := dir_side ]}) as Hone.
  { intros i rec Hi. apply lookup_singleton_Some in Hi as [_ <-].
    apply NoDup_singleton. }
  split; [exact Hone|].
  eexists. split; [vm_compute; reflexivity|].
  apply (add_inode_backref_names_unique {[ 257 := dir_side ]} 257 256 2
           name_a 1 0 BTRFS_INODE_REF_KEY 0);
    [lia|exact Hone|vm_compute; reflexivity].
Defined.

End InodeNameFacts.

Section InodeLinkFacts.
Import Inode InodeSpec InodeMoreSpec.

Lemma backref_matches_note name namelen dir index filetype itemtype errs b :
  backref_matches name namelen dir (note_item index filetype itemtype errs b) =
  backref_matches name namelen dir b.
Proof.
  unfold note_item, backref_matches.
  destruct (negb (errs =? 0)), (itemtype =? BTRFS_DIR_INDEX_KEY),
    (itemtype =? BTRFS_DIR_ITEM_KEY); reflexivity.
Qed.

Lemma get_inode_backref_app update name namelen dir B l :
  Forall (other_name name namelen dir) B →
  get_inode_backref update name namelen dir (B ++ l) =
    B ++ get_inode_backref update name namelen dir l.
Proof.
  induction 1 as [|b B Hb _ IH]; simpl; [done|].
  unfold other_name in Hb. rewrite Hb, IH. done.
Qed.

Lemma prune_backrefs_app filetype l1 l2 :
  prune_backrefs filetype (l1 ++ l2) =
    prune_backrefs filetype l1 ++ prune_backrefs filetype l2.
Proof.
  induction l1 as [|b l1 IH]; simpl; [done|].
  destruct (Ref.found_dir_item b && Ref.found_dir_index b); simpl.
  - destruct ((_ =? 0) && Ref.found_inode_ref _); simpl; by rewrite IH.
  - by rewrite IH.
Qed.

Lemma prune_backrefs_idemp filetype l :
  prune_backrefs filetype (prune_backrefs filetype l) =
    prune_backrefs filetype l.
Proof.
  induction l as [|b l IH]; simpl; [done|].
  destruct b as [fdi fdx fir ft e rt d i nl n]; simpl.
  destruct fdi, fdx; simpl; try (by rewrite IH).
  set (e' := flag_if (negb (ft =? filetype)) REF_ERR_FILETYPE_UNMATCH e).
  assert (flag_if (negb (ft =? filetype)) REF_ERR_FILETYPE_UNMATCH e' = e')
    as He'.
  { unfold e', flag_if. destruct (negb (ft =? filetype)); [|done].
    rewrite <- Z.lor_assoc, Z.lor_diag. done. }
  destruct ((e' =? 0) && fir) eqn:Hdrop; simpl; [done|].
  fold e'. rewrite He', Hdrop, IH. done.
Qed.

Lemma prune_backrefs_other filetype name namelen dir l :
  Forall (other_name name namelen dir) l →
  Forall (other_name name namelen dir) (prune_backrefs filetype l).
Proof.
  induction 1 as [|b l Hb _ IH]; simpl; [constructor|].
  destruct (Ref.found_dir_item b && Ref.found_dir_index b); simpl.
  - destruct ((_ =? 0) && Ref.found_inode_ref _); simpl; [done|].
    constructor; done.
  - constructor; done.
Qed.

Lemma same_scalars_more a b :
  same_scalars a b →
  checked a = checked b ∧ found_inode_item a = found_inode_item b ∧
  imode a = imode b.
Proof.
  unfold same_scalars. intros H.
  pose proof (f_equal checked H) as Hc.
  pose proof (f_equal found_inode_item H) as Hf.
  pose proof (f_equal imode H) as Hi.
  done.
Qed.

(** One report on a record that is not yet checked. *)
Lemma report_unchecked inode_cache rec dir index hash name namelen filetype s :
  inode_cache !! ino rec = Some rec → refs rec = 1 → checked rec = false →
  ∃ r,
    report (ino rec) dir index hash name namelen filetype s inode_cache =
      Some (<[ino rec := r]> inode_cache) ∧
    same_scalars rec r ∧
    found_link r = found_link_bump s (found_link rec) ∧
    backrefs r =
      prune_if (found_inode_item rec) (imode_to_type (imode rec))
        (get_inode_backref (sighting_update index hash filetype s)
           name namelen dir (backrefs rec)).
Proof.
  intros Hcache Hrefs Hchecked.
  assert (∀ rec', same_scalars rec rec' →
            ∃ r,
              fst <$> maybe_free_inode_rec inode_cache rec' =
                Some (<[ino rec := r]> inode_cache) ∧
              same_scalars rec r ∧ found_link r = found_link rec' ∧
              backrefs r =
                prune_if (found_inode_item rec) (imode_to_type (imode rec))
                  (backrefs rec')) as Hfree.
  { intros rec' Hsame.
    destruct (same_scalars_fields _ _ Hsame) as (_ & _ & Hino).
    destruct (same_scalars_more _ _ Hsame) as (Hc & Hf & Hi).
    unfold maybe_free_inode_rec. rewrite <- Hf, <- Hi.
    destruct (found_inode_item rec); simpl.
    - rewrite <- Hc, Hchecked. simpl. eexists.
      split; [rewrite Hino; reflexivity|].
      split; [|done].
      eapply same_scalars_trans; [exact Hsame|].
      apply same_scalars_set_backrefs.
    - eexists. split; [rewrite Hino; reflexivity|]. done. }
  unfold report, add_inode_backref, get_inode_rec.
  rewrite Hcache, Hrefs. simpl.
  destruct s; simpl.
  - destruct (Hfree (set_backrefs
                       (get_inode_backref
                          (note_item index filetype BTRFS_DIR_INDEX_KEY 0)
                          name namelen dir (backrefs rec)) rec))
      as (r & Hrun & Hsame & Hlink & Hbacks);
      [apply same_scalars_set_backrefs|].
    exists r. done.
  - destruct (Hfree (set_found_link (to_u32 (found_link rec + 1))
                       (set_backrefs
                          (get_inode_backref
                             (note_item hash filetype BTRFS_DIR_ITEM_KEY 0)
                             name namelen dir (backrefs rec)) rec)))
      as (r & Hrun & Hsame & Hlink & Hbacks).
    { eapply same_scalars_trans; [apply same_scalars_set_backrefs|].
      apply same_scalars_set_found_link. }
    exists r. done.
  - destruct (Hfree (set_backrefs
                       (get_inode_backref
                          (note_item index 0 BTRFS_INODE_REF_KEY 0)
                          name namelen dir (backrefs rec)) rec))
      as (r & Hrun & Hsame & Hlink & Hbacks);
      [apply same_scalars_set_backrefs|].
    exists r. done.
Qed.

Lemma prune_if_app pruned inode_type l1 l2 :
  prune_if pruned inode_type (l1 ++ l2) =
    prune_if pruned inode_type l1 ++ prune_if pruned inode_type l2.
Proof. destruct pruned; [apply prune_backrefs_app|done]. Qed.

Lemma prune_if_idemp pruned inode_type l :
  prune_if pruned inode_type (prune_if pruned inode_type l) =
    prune_if pruned inode_type l.
Proof. destruct pruned; [apply prune_backrefs_idemp|done]. Qed.

Lemma prune_if_other pruned inode_type name namelen dir l :
  Forall (other_name name namelen dir) l →
  Forall (other_name name namelen dir) (prune_if pruned inode_type l).
Proof. destruct pruned; [apply prune_backrefs_other|done]. Qed.

(** A list of reports on a record that is not checked, whose back
    references [B] are of other names. *)
Lemma report_all_view dir index hash name namelen filetype seen :
  ∀ inode_cache rec B E,
    inode_cache !! ino rec = Some rec → refs rec = 1 → checked rec = false →
    backrefs rec = B ++ E → Forall (other_name name namelen dir) B →
    ∃ r,
      report_all (ino rec) dir index hash name namelen filetype seen
        inode_cache = Some (<[ino rec := r]> inode_cache) ∧
      same_scalars rec r ∧
      found_link r = found_link_after seen (found_link rec) ∧
      backrefs r =
        match seen with
        | [] => B
        | _ => prune_if (found_inode_item rec) (imode_to_type (imode rec)) B
        end ++
        backrefs_after (found_inode_item rec) (imode_to_type (imode rec))
          dir index hash name namelen filetype seen E.
Proof.
  induction seen as [|s seen IH];
    intros inode_cache rec B E Hcache Hrefs Hchecked Hbacks Hother.
  - exists rec. simpl. rewrite insert_id by done. done.
  - destruct (report_unchecked inode_cache rec dir index hash name namelen
                filetype s Hcache Hrefs Hchecked)
      as (r1 & Hrun1 & Hsame1 & Hlink1 & Hbacks1).
    rewrite Hbacks, get_inode_backref_app, prune_if_app in Hbacks1 by done.
    destruct (same_scalars_fields _ _ Hsame1) as (_ & Hrefs1 & Hino1).
    destruct (same_scalars_more _ _ Hsame1) as (Hc1 & Hf1 & Hi1).
    destruct (IH (<[ino rec := r1]> inode_cache) r1
                (prune_if (found_inode_item rec) (imode_to_type (imode rec))
                   B)
                (prune_if (found_inode_item rec) (imode_to_type (imode rec))
                   (get_inode_backref (sighting_update index hash filetype s)
                      name namelen dir E)))
      as (r & Hrun & Hsame & Hlink & Hbacks').
    { rewrite <- Hino1, lookup_insert_eq. done. }
    { congruence. }
    { congruence. }
    { exact Hbacks1. }
    { by apply prune_if_other. }
    exists r. cbn [report_all]. rewrite Hrun1. cbn [mbind option_bind].
    rewrite <- Hino1 in Hrun. rewrite Hrun, insert_insert_eq.
    split; [done|]. split; [by eapply same_scalars_trans|].
    split; [rewrite Hlink, Hlink1; done|].
    rewrite Hbacks', <- Hf1, <- Hi1. cbn [backrefs_after].
    f_equal. destruct seen; [done|]. apply prune_if_idemp.
Qed.

Lemma three_sightings l :
  l ≡ₚ [saw_dir_index; saw_dir_item; saw_inode_ref] →
  l = [saw_dir_index; saw_dir_item; saw_inode_ref] ∨
  l = [saw_dir_index; saw_inode_ref; saw_dir_item] ∨
  l = [saw_dir_item; saw_dir_index; saw_inode_ref] ∨
  l = [saw_dir_item; saw_inode_ref; saw_dir_index] ∨
  l = [saw_inode_ref; saw_dir_index; saw_dir_item] ∨
  l = [saw_inode_ref; saw_dir_item; saw_dir_index].
Proof.
  intros Hperm. pose proof (Permutation_length Hperm) as Hlen.
  destruct l as [|a [|b [|c [|d l]]]]; try discriminate Hlen.
  assert (saw_dir_index ∈ [a; b; c]) as H1
    by (rewrite Hperm; repeat constructor).
  assert (saw_dir_item ∈ [a; b; c]) as H2
    by (rewrite Hperm; repeat constructor).
  assert (saw_inode_ref ∈ [a; b; c]) as H3
    by (rewrite Hperm; repeat constructor).
  rewrite !elem_of_cons, elem_of_nil in H1, H2, H3.
  destruct a, b, c;
    try (exfalso;
         destruct H1 as [?|[?|[?|[]]]]; try discriminate;
         destruct H2 as [?|[?|[?|[]]]]; try discriminate;
         destruct H3 as [?|[?|[?|[]]]]; discriminate);
    repeat ((left; reflexivity) || right); reflexivity.
Qed.

Local Ltac link_crunch filetype namelen :=
  repeat (cbn -[Z.modulo take to_u32 to_u16];
          rewrite ?(to_u16_small namelen) by lia;
          rewrite ?Z.eqb_refl, ?take_take, ?Nat.min_id,
            ?(Z.mod_small filetype 256) by lia;
          rewrite ?bool_decide_eq_true_2 by done).

Lemma backrefs_after_complete pruned dir index hash name namelen filetype l :
  0 ≤ filetype < 256 → 0 ≤ namelen < 2 ^ 16 →
  l ≡ₚ [saw_dir_index; saw_dir_item; saw_inode_ref] →
  backrefs_after pruned filetype dir index hash name namelen filetype l [] =
    (if pruned then []
     else [complete_backref dir index name namelen filetype]) ∧
  ∀ n, found_link_after l n = to_u32 (n + 1).
Proof.
  intros Hft Hlen Hperm.
  destruct (three_sightings l Hperm) as [->|[->|[->|[->|[->| ->]]]]];
    (split; [|reflexivity]);
    unfold backrefs_after, prune_if, sighting_update, note_item,
      new_inode_backref, get_inode_backref, backref_matches, prune_backrefs,
      flag_if, complete_backref;
    destruct pruned; link_crunch filetype namelen;
    unfold new_inode_backref; cbn -[to_u16 take];
    rewrite ?(to_u16_small namelen) by lia; reflexivity.
Qed.

(** X22.  The three items of a link cancel out, in any order.  For an
    inode whose record is in the cache, unshared and not yet checked, and
    has no back reference of the directory and name in question: after the
    dir index, the dir item and the inode ref of one link have been
    reported, each once, in whatever order, with the same index, a name
    whose length is that of a [u16] (between 0 and 65535) and a file type
    that fits in a byte, no [BUG_ON] was reached, [found_link] has gone up
    by one, and the other fields but [backrefs] are as they were.  If the
    inode item had not been seen, the record has gained the one back
    reference of the link, seen three ways and without error.  If it had,
    and the file type is that of the inode (whose mode has not all four
    type bits set, so that [imode_to_type] reads inside its table), the
    back reference is gone again, the back references being those of
    before, pruned: the link is accounted for. *)
Theorem complete_link_cancels (inode_cache : gmap Z inode_record)
    (rec : inode_record) (dir index hash : Z) (name : list Z)
    (namelen filetype : Z) (l : list sighting) :
  inode_cache !! ino rec = Some rec → refs rec = 1 → checked rec = false →
  0 ≤ filetype < 256 → 0 ≤ namelen < 2 ^ 16 →
  (found_inode_item rec = true →
   Z.land (imode rec) S_IFMT ≠ S_IFMT ∧
   imode_to_type (imode rec) = filetype) →
  Forall (other_name name namelen dir) (backrefs rec) →
  l ≡ₚ [saw_dir_index; saw_dir_item; saw_inode_ref] →
  ∃ r,
    report_all (ino rec) dir index hash name namelen filetype l inode_cache =
      Some (<[ino rec := r]> inode_cache) ∧
    same_scalars rec r ∧
    found_link r = to_u32 (found_link rec + 1) ∧
    backrefs r =
      if found_inode_item rec then prune_backrefs filetype (backrefs rec)
      else backrefs rec ++ [complete_backref dir index name namelen filetype].
Proof.
  intros Hcache Hrefs Hchecked Hft Hlen Htype Hother Hperm.
  destruct (report_all_view dir index hash name namelen filetype l
              inode_cache rec (backrefs rec) [])
    as (r & Hrun & Hsame & Hlink & Hbacks);
    [done|done|done|by rewrite app_nil_r|done|].
  exists r. split; [done|]. split; [done|].
  assert (l ≠ []) as Hne.
  { intros ->. apply Permutation_length in Hperm. discriminate Hperm. }
  destruct (found_inode_item rec) eqn:Hfi.
  - rewrite (proj2 (Htype eq_refl)) in Hbacks.
    destruct (backrefs_after_complete true dir index hash name namelen
                filetype l Hft Hlen Hperm) as [Hafter Hbump].
    rewrite Hafter, app_nil_r in Hbacks. rewrite Hlink, Hbump.
    split; [done|]. destruct l; done.
  - assert (∀ t, backrefs_after false t dir index hash name namelen filetype
                   l [] =
                 backrefs_after false filetype dir index hash name namelen
                   filetype l []) as Hany.
    { intros t. generalize (@nil Ref.inode_backref).
      clear. induction l as [|s l IH]; intros E; simpl; [done|]. apply IH. }
    destruct (backrefs_after_complete false dir index hash name namelen
                filetype l Hft Hlen Hperm) as [Hafter Hbump].
    rewrite Hany, Hafter in Hbacks. rewrite Hlink, Hbump.
    split; [done|]. destruct l; done.
Qed.

Lemma complete_link_cancels_witness :
  ∃ r,
    report_all (ino linked_rec) 256 2 12345 name_a 1 1
      [saw_dir_item; saw_dir_index; saw_inode_ref]
      (<[257 := linked_rec]> ∅) =
      Some (<[ino linked_rec := r]> (<[257 := linked_rec]> ∅)) ∧
    same_scalars linked_rec r ∧
    found_link r = to_u32 (found_link linked_rec + 1) ∧
    backrefs r =
      if found_inode_item linked_rec
      then prune_backrefs 1 (backrefs linked_rec)
      else backrefs linked_rec ++ [complete_backref 256 2 name_a 1 1].
Proof.
  apply (complete_link_cancels (<[257 := linked_rec]> ∅) linked_rec 256 2
           12345 name_a 1 1 [saw_dir_item; saw_dir_index; saw_inode_ref]).
  - apply lookup_insert_eq.
  - reflexivity.
  - reflexivity.
  - lia.
  - lia.
  - intros _. split; [vm_compute; discriminate|vm_compute; reflexivity].
  - repeat constructor.
  - apply perm_swap.
Defined.

End InodeLinkFacts.

(** ** The file type of an inode *)

Section ImodeFacts.
Import Inode.

Lemma land_S_IFMT imode :
  ∃ k, 0 ≤ k < 16 ∧ Z.land imode S_IFMT = k * 4096.
Proof.
  exists (Z.shiftr imode 12 mod 2 ^ 4). split; [apply Z.mod_pos_bound; lia|].
  unfold S_IFMT.
  change 61440 with (Z.land (Z.lnot (Z.ones 12)) 61440).
  rewrite Z.land_assoc, <- Z.ldiff_land, Z.ldiff_ones_r by lia.
  change 61440 with (Z.shiftl (Z.ones 4) 12).
  rewrite <- Z.shiftl_land, Z.land_ones, Z.shiftl_mul_pow2 by lia.
  reflexivity.
Qed.

(** X23.  [imode_to_type] agrees with the file type tests of [stat.h]:
    for every mode whose four type bits are not all set (so that the table
    is read inside its 15 entries), it returns [BTRFS_FT_DIR] exactly for a
    mode that [S_ISDIR] accepts, [BTRFS_FT_REG_FILE] exactly for [S_ISREG]
    and [BTRFS_FT_SYMLINK] exactly for [S_ISLNK]; and it returns a file
    type between 0 and 7, so that the type of an inode fits the byte in
    which a back reference keeps it. *)
Theorem imode_to_type_agrees (imode : Z) :
  Z.land imode S_IFMT ≠ S_IFMT →
  (imode_to_type imode = BTRFS_FT_DIR ↔ S_ISDIR imode = true) ∧
  (imode_to_type imode = BTRFS_FT_REG_FILE ↔ S_ISREG imode = true) ∧
  (imode_to_type imode = BTRFS_FT_SYMLINK ↔ S_ISLNK imode = true) ∧
  0 ≤ imode_to_type imode ≤ 7.
Proof.
  intros Hinside.
  destruct (land_S_IFMT imode) as (k & Hk & Hland).
  revert Hinside.
  unfold imode_to_type, S_ISDIR, S_ISREG, S_ISLNK. rewrite Hland.
  assert (k = 0 ∨ k = 1 ∨ k = 2 ∨ k = 3 ∨ k = 4 ∨ k = 5 ∨ k = 6 ∨ k = 7 ∨
          k = 8 ∨ k = 9 ∨ k = 10 ∨ k = 11 ∨ k = 12 ∨ k = 13 ∨ k = 14 ∨
          k = 15) as Hcases by lia.
  repeat (destruct Hcases as [->|Hcases]); [..|subst k];
    cbn; intros Hinside; (repeat split; try done; try lia).
Qed.

Lemma imode_to_type_agrees_witness :
  (imode_to_type 33188 = BTRFS_FT_DIR ↔ S_ISDIR 33188 = true) ∧
  (imode_to_type 33188 = BTRFS_FT_REG_FILE ↔ S_ISREG 33188 = true) ∧
  (imode_to_type 33188 = BTRFS_FT_SYMLINK ↔ S_ISLNK 33188 = true) ∧
  0 ≤ imode_to_type 33188 ≤ 7.
Proof.
  apply (imode_to_type_agrees 33188). vm_compute. discriminate.
Defined.

End ImodeFacts.
